(** * Wedge tool: sweep configuration, expansion, naming and submission

    A shallow embedding of [wedge_tool/wedge_config_manager.py],
    [wedge_tool/wedge_submitter.py] and the naming helpers of
    [wedge_tool/view_wedges.py], with the properties of the design
    document stated and settled against it.

    Python values are modelled by the inductive type [value]; Python
    [float] is IEEE binary64, taken from the Standard Library's
    [SpecFloat] (mantissa/exponent arithmetic on [Z], no axioms).
    Exceptions are values of the error monad [result]. *)

From Stdlib Require Import ZArith List String Ascii Bool Lia SpecFloat DecimalString.
From Stdlib Require Import Sorting.Sorted Sorting.Permutation Sorting.Mergesort Orders OrderedTypeEx.
Import ListNotations.

Local Open Scope string_scope.
Local Open Scope Z_scope.

(** ** Exceptions *)

Inductive exn : Type :=
| ValueError
| TypeError
| IndexError
| OverflowError
| AttributeError
| RuntimeError (message : string).

Inductive result (A : Type) : Type :=
| OK (a : A)
| Raise (e : exn).

Arguments OK {A} a.
Arguments Raise {A} e.

Definition bind {A B : Type} (r : result A) (k : A -> result B) : result B :=
  match r with
  | OK a => k a
  | Raise e => Raise e
  end.

Notation "x <- c1 ;; c2" := (bind c1 (fun x => c2))
  (at level 61, c1 at next level, right associativity).

(** ** Python floats: IEEE binary64 *)

Module PyFloat.

Definition prec : Z := 53.
Definition emax : Z := 1024.

Definition float : Type := spec_float.

Definition add : float -> float -> float := SFadd prec emax.
Definition sub : float -> float -> float := SFsub prec emax.
Definition mul : float -> float -> float := SFmul prec emax.
Definition abs : float -> float := SFabs.
Definition eqb : float -> float -> bool := SFeqb.
Definition ltb : float -> float -> bool := SFltb.
Definition leb : float -> float -> bool := SFleb.
Definition gtb (x y : float) : bool := SFltb y x.
Definition geb (x y : float) : bool := SFleb y x.

Definition is_inf (x : float) : bool :=
  match x with S754_infinity _ => true | _ => false end.

Definition is_finite (x : float) : bool :=
  match x with
  | S754_zero _ | S754_finite _ _ _ => true
  | _ => false
  end.

(** The double nearest to [n / d] (ties to even), with sign [s]: what
    reading a decimal literal gives. *)
Definition of_ratio (s : bool) (n d : positive) : float :=
  let '(q, e, l) := SFdiv_core_binary prec emax (Zpos n) 0 (Zpos d) 0 in
  binary_round_aux prec emax s q e l.

(** The double nearest to an integer; [float(int)] raises when the
    integer is beyond the finite range. *)
Definition of_Z (z : Z) : result float :=
  let f := binary_normalize prec emax z 0 false in
  if is_inf f then Raise OverflowError else OK f.

(** Nearest integer to [n / d] for [0 < d], ties to the even one. *)
Definition nearest_even_div (n d : Z) : Z :=
  let q := n / d in
  let r := n mod d in
  match 2 * r ?= d with
  | Lt => q
  | Gt => q + 1
  | Eq => if Z.even q then q else q + 1
  end.

(** Numerator and denominator of the magnitude of a finite float. *)
Definition mag_num (m : positive) (e : Z) : Z := Zpos m * 2 ^ Z.max e 0.
Definition mag_den (e : Z) : Z := 2 ^ Z.max (- e) 0.

(** [round(x, ndigits)] for [0 <= ndigits]: the decimal with [ndigits]
    places nearest to the exact value of [x] (ties to even), read back
    as a double. *)
Definition round_ndigits (x : float) (ndigits : Z) : result float :=
  match x with
  | S754_finite s m e =>
      let scaled :=
        nearest_even_div (mag_num m e * 10 ^ ndigits) (mag_den e) in
      match scaled with
      | Zpos n =>
          let r := of_ratio s n (Z.to_pos (10 ^ ndigits)) in
          if is_inf r then Raise OverflowError else OK r
      | _ => OK (S754_zero s)
      end
  | _ => OK x
  end.

(** [round(x)]: the nearest integer, ties to even; NaN and the
    infinities have none. *)
Definition round_int (x : float) : result Z :=
  match x with
  | S754_zero _ => OK 0
  | S754_finite s m e =>
      let n := nearest_even_div (mag_num m e) (mag_den e) in
      OK (if s then - n else n)
  | S754_infinity _ => Raise OverflowError
  | S754_nan => Raise ValueError
  end.

(** The literal [1e-09]. *)
Definition rel_tol : float := of_ratio false 1 1000000000.

(** [math.isclose(a, b)] with its default tolerances
    ([rel_tol = 1e-09], [abs_tol = 0.0]), [b] an [int]. *)
Definition isclose (a : float) (b : Z) : result bool :=
  bf <- of_Z b ;;
  if eqb a bf then OK true
  else if is_inf a || is_inf bf then OK false
  else
    let diff := abs (sub bf a) in
    OK (leb diff (abs (mul rel_tol bf))
        || leb diff (abs (mul rel_tol a))
        || leb diff (S754_zero false)).

(** *** Rendering: the format specification [.10g] *)

Definition digits_of (n : Z) : string :=
  NilEmpty.string_of_uint (N.to_uint (Z.to_N n)).

Definition count_digits (n : Z) : Z :=
  Z.of_nat (String.length (digits_of n)).

(** The decimal exponent [X] of a positive rational:
    [10^X <= num/den < 10^(X+1)]. *)
Definition decimal_exponent (num den : Z) : Z :=
  if den <=? num then count_digits (num / den) - 1
  else - count_digits ((den + num - 1) / num - 1).

(** The [p] significant decimal digits nearest to [num/den] (ties to
    even) and the decimal exponent of the first of them. *)
Definition significant_digits (p : Z) (num den : Z) : Z * Z :=
  let x := decimal_exponent num den in
  let d := nearest_even_div (num * 10 ^ Z.max (p - 1 - x) 0)
                            (den * 10 ^ Z.max (x - p + 1) 0) in
  if d =? 10 ^ p then (10 ^ (p - 1), x + 1) else (d, x).

Fixpoint rstrip_char (c : ascii) (s : string) : string :=
  match s with
  | EmptyString => EmptyString
  | String a s' =>
      match rstrip_char c s' with
      | EmptyString => if Ascii.eqb a c then EmptyString else String a EmptyString
      | t => String a t
      end
  end.

Fixpoint zeros (n : nat) : string :=
  match n with
  | O => ""
  | S n' => String "0" (zeros n')
  end.

Definition with_point (int_part frac : string) : string :=
  match frac with
  | EmptyString => int_part
  | _ => int_part ++ "." ++ frac
  end.

Definition exponent_text (x : Z) : string :=
  let a := digits_of (Z.abs x) in
  (if x <? 0 then "e-" else "e+")
    ++ (if Nat.ltb (String.length a) 2 then "0" ++ a else a).

(** The general format with precision [p] of a positive magnitude:
    scientific notation when the exponent is below [-4] or at least
    [p], fixed notation otherwise; trailing zeros and a trailing point
    are dropped. *)
Definition format_magnitude (p : Z) (num den : Z) : string :=
  let '(d, x) := significant_digits p num den in
  let ds := digits_of d in
  if (x <? -4) || (p <=? x) then
    with_point (substring 0 1 ds)
               (rstrip_char "0" (substring 1 (String.length ds - 1) ds))
      ++ exponent_text x
  else if 0 <=? x then
    let k := Z.to_nat (x + 1) in
    with_point (substring 0 k ds)
               (rstrip_char "0" (substring k (String.length ds - k) ds))
  else
    "0." ++ zeros (Z.to_nat (- x - 1)) ++ rstrip_char "0" ds.

(** [format(x, ".10g")]. *)
Definition format_10g (x : float) : string :=
  match x with
  | S754_nan => "nan"
  | S754_infinity s => if s then "-inf" else "inf"
  | S754_zero s => if s then "-0" else "0"
  | S754_finite s m e =>
      (if s then "-" else "") ++ format_magnitude 10 (mag_num m e) (mag_den e)
  end.


End PyFloat.

(** ** Python values *)

#[local] Set Warnings "-register-all".

Inductive value : Type :=
| VNone
| VBool (b : bool)
| VInt (z : Z)
| VFloat (f : PyFloat.float)
| VStr (s : string)
| VList (l : list value)
| VDict (d : list (string * value)).

(** A [str] is its UTF-8 text: comparing byte by byte is comparing code
    point by code point. *)

Definition str_of_int (z : Z) : string := NilZero.string_of_int (Z.to_int z).

(** [str(v)].  The text of a float or of a container comes from [repr],
    which is left to the interpreter: [repr_text]. *)
Definition py_str (repr_text : value -> string) (v : value) : string :=
  match v with
  | VNone => "None"
  | VBool true => "True"
  | VBool false => "False"
  | VInt z => str_of_int z
  | VStr s => s
  | VFloat _ | VList _ | VDict _ => repr_text v
  end.

(** [text.replace(ch, "_")] for a single character [ch]. *)
Fixpoint replace_char (ch : ascii) (by_ : ascii) (text : string) : string :=
  match text with
  | EmptyString => EmptyString
  | String a rest =>
      String (if Ascii.eqb a ch then by_ else a) (replace_char ch by_ rest)
  end.

(** ** Dictionaries

    A [dict] keeps its keys in insertion order: an association list in
    which a key occurs once. *)

Module Dict.

Definition t (V : Type) : Type := list (string * V).

Section Ops.
Context {V : Type}.

Definition keys (d : t V) : list string := map fst d.

Fixpoint get (k : string) (d : t V) : option V :=
  match d with
  | [] => None
  | (k', v) :: rest => if String.eqb k' k then Some v else get k rest
  end.

(** [d[k] = v] *)
Fixpoint set (k : string) (v : V) (d : t V) : t V :=
  match d with
  | [] => [(k, v)]
  | (k', v') :: rest =>
      if String.eqb k' k then (k', v) :: rest else (k', v') :: set k v rest
  end.

(** [d.pop(k, None)] *)
Fixpoint pop (k : string) (d : t V) : t V :=
  match d with
  | [] => []
  | (k', v') :: rest =>
      if String.eqb k' k then rest else (k', v') :: pop k rest
  end.

Definition wf (d : t V) : Prop := NoDup (keys d).
End Ops.

End Dict.

(** [sorted] on strings. *)

Module StringOrder <: TotalLeBool.
Definition t := string.
Definition leb : t -> t -> bool := String.leb.
Theorem leb_total : forall a1 a2, is_true (leb a1 a2) \/ is_true (leb a2 a1).
Proof. exact String.leb_total. Qed.
End StringOrder.

Module StringSort := Sort StringOrder.

Definition sorted (l : list string) : list string := StringSort.sort l.

(** An assignment: node -> (param -> value). *)
Definition assignment : Type := Dict.t (Dict.t value).

(** ** The submitter's naming ([wedge_submitter.py]) *)

Module Submitter.

Section Naming.
Variable repr_text : value -> string.

Definition stringify_value (v : value) : string :=
  match v with
  | VFloat f => PyFloat.rstrip_char "." (PyFloat.format_10g f)
  | _ => py_str repr_text v
  end.

Definition sanitize_value (v : value) : string :=
  fold_left (fun text ch => replace_char ch "_" text)
            [" "; "/"; "\"; ":"; ","; ";"; "034"; "'"]%char
            (stringify_value v).

Definition token (node_name param_name : string) (v : value) : string :=
  node_name ++ "-" ++ param_name ++ "-" ++ sanitize_value v.

(** The inner loop of [build_filename]: the tokens of one node. *)
Definition node_parts (node_name : string) (params : Dict.t value)
  : list string :=
  flat_map (fun param_name =>
              match Dict.get param_name params with
              | Some v => [token node_name param_name v]
              | None => []
              end)
           (sorted (Dict.keys params)).

Definition build_filename (prefix : string) (combination : assignment)
  : string :=
  let parts :=
    prefix ::
      flat_map (fun node_name =>
                  match Dict.get node_name combination with
                  | Some params => node_parts node_name params
                  | None => []
                  end)
               (sorted (Dict.keys combination)) in
  String.concat "__" parts.
End Naming.

End Submitter.

(** ** The viewer's naming ([view_wedges.py]) *)

Module Viewer.

Section Naming.
Variable repr_text : value -> string.

Definition stringify_value (v : value) : string :=
  match v with
  | VFloat f =>
      let s := PyFloat.rstrip_char "." (PyFloat.format_10g f) in
      s
  | _ => py_str repr_text v
  end.

Definition sanitize_value (v : value) : string :=
  fold_left (fun text ch => replace_char ch "_" text)
            [" "; "/"; "\"; ":"; ","; ";"; "034"; "'"]%char
            (stringify_value v).

(** Lines 321-327 of [update_image_display]: the base name looked up
    for the assignment [combo] read off the controls. *)
Definition base_name (filename_prefix : string) (combo : assignment)
  : string :=
  let parts :=
    filename_prefix ::
      flat_map (fun node =>
                  match Dict.get node combo with
                  | Some params =>
                      flat_map (fun param =>
                                  match Dict.get param params with
                                  | Some v =>
                                      [node ++ "-" ++ param ++ "-"
                                            ++ sanitize_value v]
                                  | None => []
                                  end)
                               (sorted (Dict.keys params))
                  | None => []
                  end)
               (sorted (Dict.keys combo)) in
  String.concat "__" parts.
End Naming.

End Viewer.

(** ** Reading an assignment cell by cell *)

(** The (node, param, value) cells of an assignment, in insertion order. *)
Definition cells (combination : assignment) : list (string * string * value) :=
  flat_map (fun np => map (fun pv => (fst np, fst pv, snd pv)) (snd np))
           combination.

Definition cell_token (repr_text : value -> string)
           (c : string * string * value) : string :=
  Submitter.token repr_text (fst (fst c)) (snd (fst c)) (snd c).

(** Lexicographic order on addresses: by node, then by param. *)
Definition cell_leb (a b : string * string * value) : bool :=
  if String.eqb (fst (fst a)) (fst (fst b))
  then String.leb (snd (fst a)) (snd (fst b))
  else String.leb (fst (fst a)) (fst (fst b)).

Definition cell_le (a b : string * string * value) : Prop := cell_leb a b = true.

(** Keys occur once, in the assignment and in each node's mapping. *)
Definition assignment_wf (combination : assignment) : Prop :=
  Dict.wf combination /\ Forall (fun np => Dict.wf (snd np)) combination.

(** The cells in the order in which [build_filename] visits them. *)
Definition ordered_cells (combination : assignment)
  : list (string * string * value) :=
  flat_map (fun node_name =>
              match Dict.get node_name combination with
              | Some params =>
                  flat_map (fun param_name =>
                              match Dict.get param_name params with
                              | Some v => [(node_name, param_name, v)]
                              | None => []
                              end)
                           (sorted (Dict.keys params))
              | None => []
              end)
           (sorted (Dict.keys combination)).

Definition f_3_0 : PyFloat.float := PyFloat.of_ratio false 3 1.

Definition example_assignment : assignment :=
  [("A", [("p", VFloat f_3_0)]); ("B", [("q", VStr "x y")])].

(** ** The configuration model ([wedge_config_manager.py]) *)

(** Truth value of a Python object. *)
Definition truthy (v : value) : bool :=
  match v with
  | VNone => false
  | VBool b => b
  | VInt z => negb (z =? 0)
  | VFloat f => negb (PyFloat.eqb f (S754_zero false))
  | VStr s => negb (String.eqb s "")
  | VList l => match l with [] => false | _ => true end
  | VDict d => match d with [] => false | _ => true end
  end.

(** [v == s] for a [str] [s]. *)
Definition eq_str (v : value) (s : string) : bool :=
  match v with
  | VStr t => String.eqb t s
  | _ => false
  end.

Module Config.

  (** [ParamOverride] and [ParamWedge] are Python lists. *)
Abbreviation ParamOverride := (list value) (only parsing).
Abbreviation ParamWedge := (list value) (only parsing).

(** The dataclass.  The two mappings have the type normalisation gives
    them: node -> list of entries, an entry a list of values. *)
Record WedgeConfig : Type := {
  output_folder : value;
  filename_prefix : value;
  url : value;
  param_overrides : Dict.t (list ParamOverride);
  param_wedges : Dict.t (list ParamWedge)
}.

(** [normalized.setdefault(k, []).append(x)] *)
Fixpoint setdefault_append {A : Type} (k : string) (x : A)
         (d : Dict.t (list A)) : Dict.t (list A) :=
  match d with
  | [] => [(k, [x])]
  | (k', l) :: rest =>
      if String.eqb k' k then (k', (l ++ [x])%list) :: rest
      else (k', l) :: setdefault_append k x rest
  end.

(** The loop that checks each entry to be a list of [n] elements. *)
Fixpoint convert_entries (n : nat) (entries : list value)
  : result (list (list value)) :=
  match entries with
  | [] => OK []
  | entry :: rest =>
      match entry with
      | VList l =>
          if Nat.eqb (List.length l) n
          then converted <- convert_entries n rest ;; OK (l :: converted)
          else Raise ValueError
      | _ => Raise ValueError
      end
  end.

Fixpoint normalize_overrides_dict (items : list (string * value))
         (normalized : Dict.t (list ParamOverride))
  : result (Dict.t (list ParamOverride)) :=
  match items with
  | [] => OK normalized
  | (node, entries) :: rest =>
      match entries with
      | VList es =>
          converted <- convert_entries 2 es ;;
          normalize_overrides_dict rest (Dict.set node converted normalized)
      | _ => Raise ValueError
      end
  end.

Fixpoint normalize_overrides_list (raw : list value)
         (normalized : Dict.t (list ParamOverride))
  : result (Dict.t (list ParamOverride)) :=
  match raw with
  | [] => OK normalized
  | entry :: rest =>
      match entry with
      | VList [node; param; v] =>
          match node with
          | VStr node_name =>
              normalize_overrides_list
                rest (setdefault_append node_name [param; v] normalized)
          | _ => Raise ValueError
          end
      | _ => Raise ValueError
      end
  end.

Definition _normalize_overrides (raw : value)
  : result (Dict.t (list ParamOverride)) :=
  match raw with
  | VNone | VDict [] => OK []
  | VDict items => normalize_overrides_dict items []
  | VList entries => normalize_overrides_list entries []
  | _ => Raise ValueError
  end.

(** The two tests of [_normalize_wedges] on a mapping value. *)
Definition is_modern_entry (v : value) : bool :=
  match v with
  | VList (VList _ :: _) => true
  | _ => false
  end.

Definition is_legacy_entry (v : value) : bool :=
  match v with
  | VList l => Nat.eqb (List.length l) 3
  | _ => false
  end.

Fixpoint normalize_wedges_items (items : list (string * value))
         (normalized : Dict.t (list ParamWedge))
  : result (Dict.t (list ParamWedge)) :=
  match items with
  | [] => OK normalized
  | (key, v) :: rest =>
      if is_modern_entry v then
        match v with
        | VList entries =>
            converted <- convert_entries 3 entries ;;
            normalize_wedges_items rest (Dict.set key converted normalized)
        | _ => Raise ValueError
        end
      else if is_legacy_entry v then
        match v with
        | VList [VStr node_name; values_config; mode] =>
            normalize_wedges_items
              rest
              (setdefault_append node_name [VStr key; values_config; mode]
                                 normalized)
        | _ => Raise ValueError
        end
      else Raise ValueError
  end.

Definition _normalize_wedges (raw : value)
  : result (Dict.t (list ParamWedge)) :=
  match raw with
  | VNone | VDict [] => OK []
  | VDict items => normalize_wedges_items items []
  | _ => Raise ValueError
  end.

Definition nonempty_str (v : value) : bool :=
  match v with
  | VStr s => negb (String.eqb s "")
  | _ => false
  end.

Definition valid_wedge (wedge : ParamWedge) : bool :=
  match wedge with
  | [_; _; wedge_type] => eq_str wedge_type "minmax" || eq_str wedge_type "explicit"
  | _ => false
  end.

(** [vet]: the first violation raises [ValueError]. *)
Definition vet (c : WedgeConfig) : result unit :=
  if negb (nonempty_str (output_folder c)) then Raise ValueError
  else if negb (nonempty_str (filename_prefix c)) then Raise ValueError
  else if negb (nonempty_str (url c)) then Raise ValueError
  else if negb (forallb (fun no => forallb (fun item => Nat.eqb (List.length item) 2)
                                           (snd no))
                        (param_overrides c))
  then Raise ValueError
  else if negb (forallb (fun nw => forallb valid_wedge (snd nw)) (param_wedges c))
  then Raise ValueError
  else OK tt.

Definition get_default (k : string) (data : Dict.t value) (default : value)
  : value :=
  match Dict.get k data with
  | Some v => v
  | None => default
  end.

Definition from_dict (data : Dict.t value) : result WedgeConfig :=
  let first := get_default "output_folder" data VNone in
  let output_folder :=
    if truthy first then first else get_default "project_name" data (VStr "") in
  overrides <- _normalize_overrides (get_default "param_overrides" data (VDict [])) ;;
  wedges <- _normalize_wedges (get_default "param_wedges" data (VDict [])) ;;
  let config := {|
    output_folder := output_folder;
    filename_prefix := get_default "filename_prefix" data (VStr "");
    url := get_default "url" data (VStr "");
    param_overrides := overrides;
    param_wedges := wedges
  |} in
  _ <- vet config ;;
  OK config.

Definition entries_value (d : Dict.t (list (list value))) : value :=
  VDict (map (fun ne => (fst ne, VList (map VList (snd ne)))) d).

Definition to_dict (c : WedgeConfig) : Dict.t value :=
  [("output_folder", output_folder c);
   ("filename_prefix", filename_prefix c);
   ("url", url c);
   ("param_overrides", entries_value (param_overrides c));
   ("param_wedges", entries_value (param_wedges c))].

(** *** Mutators *)

(** [[entry for entry in entries if entry[0] != param]]; indexing an
    empty entry raises. *)
Fixpoint without_param (param : string) (entries : list (list value))
  : result (list (list value)) :=
  match entries with
  | [] => OK []
  | entry :: rest =>
      match entry with
      | [] => Raise IndexError
      | head :: _ =>
          kept <- without_param param rest ;;
          OK (if eq_str head param then kept else entry :: kept)
      end
  end.

Definition set_entry (node_name param : string) (entry : list value)
           (d : Dict.t (list (list value)))
  : result (Dict.t (list (list value))) :=
  let current := match Dict.get node_name d with
                 | Some l => l
                 | None => []
                 end in
  kept <- without_param param current ;;
  OK (Dict.set node_name (kept ++ [entry])%list d).

Definition remove_entry (node_name param : string)
           (d : Dict.t (list (list value)))
  : result (Dict.t (list (list value)) * bool) :=
  match Dict.get node_name d with
  | None | Some [] => OK (d, false)
  | Some current =>
      kept <- without_param param current ;;
      let changed := negb (Nat.eqb (List.length kept) (List.length current)) in
      match kept with
      | [] => OK (Dict.pop node_name d, changed)
      | _ => OK (Dict.set node_name kept d, changed)
      end
  end.

Definition with_overrides (c : WedgeConfig) d : WedgeConfig :=
  {| output_folder := output_folder c;
     filename_prefix := filename_prefix c;
     url := url c;
     param_overrides := d;
     param_wedges := param_wedges c |}.

Definition with_wedges (c : WedgeConfig) d : WedgeConfig :=
  {| output_folder := output_folder c;
     filename_prefix := filename_prefix c;
     url := url c;
     param_overrides := param_overrides c;
     param_wedges := d |}.

Definition set_param_override (c : WedgeConfig) (node_name param : string)
           (v : value) : result WedgeConfig :=
  d <- set_entry node_name param [VStr param; v] (param_overrides c) ;;
  OK (with_overrides c d).

Definition add_param_override := set_param_override.

Definition remove_param_override (c : WedgeConfig) (node_name param : string)
  : result (WedgeConfig * bool) :=
  r <- remove_entry node_name param (param_overrides c) ;;
  OK (with_overrides c (fst r), snd r).

Definition set_param_wedge (c : WedgeConfig) (node_name param : string)
           (wedge_values : list value) (wedge_type : string)
  : result WedgeConfig :=
  if negb (String.eqb wedge_type "minmax" || String.eqb wedge_type "explicit")
  then Raise ValueError
  else
    d <- set_entry node_name param
                   [VStr param; VList wedge_values; VStr wedge_type]
                   (param_wedges c) ;;
    OK (with_wedges c d).

Definition remove_param_wedge (c : WedgeConfig) (node_name param : string)
  : result (WedgeConfig * bool) :=
  r <- remove_entry node_name param (param_wedges c) ;;
  OK (with_wedges c (fst r), snd r).

Fixpoint find_param (param : string) (entries : list (list value))
  : result (option (list value)) :=
  match entries with
  | [] => OK None
  | entry :: rest =>
      match entry with
      | [] => Raise IndexError
      | head :: _ =>
          if eq_str head param then OK (Some entry) else find_param param rest
      end
  end.

Definition get_param_override (c : WedgeConfig) (node_name param : string)
  : result (option ParamOverride) :=
  find_param param match Dict.get node_name (param_overrides c) with
                   | Some l => l
                   | None => []
                   end.

Definition get_param_wedge (c : WedgeConfig) (node_name param : string)
  : result (option ParamWedge) :=
  find_param param match Dict.get node_name (param_wedges c) with
                   | Some l => l
                   | None => []
                   end.

End Config.

(** ** Notions used to state the configuration properties *)

Module ConfigSpec.
Import Config.

(** No node is mapped to an empty sequence. *)
Definition no_empty {A : Type} (d : Dict.t (list A)) : Prop :=
  Forall (fun kv => snd kv <> []) d.

(** Number of entries of a node's sequence that address [param]. *)
Definition count_param (param : string) (entries : list (list value)) : nat :=
  List.length
    (filter (fun entry => match entry with
                          | head :: _ => eq_str head param
                          | [] => false
                          end) entries).

(** Does the entry address [param]? *)
Definition head_is (param : string) (entry : list value) : bool :=
  match entry with
  | head :: _ => eq_str head param
  | [] => false
  end.

(** A canonical configuration: [vet] accepts it (the three required
    fields are non-empty strings, every override is a pair, every
    wedge a triple of a recognised kind), a node occurs once in each
    mapping, and no node has an empty sequence of wedges. *)
Definition canonical (c : WedgeConfig) : Prop :=
  vet c = OK tt
  /\ Dict.wf (param_overrides c)
  /\ Dict.wf (param_wedges c)
  /\ no_empty (param_wedges c).

(** The current shape of a serialised [param_overrides]: a mapping
    node -> list of [[param, value]] pairs. *)
Definition current_overrides_shape (raw : value) : Prop :=
  exists d,
    raw = VDict d
    /\ Forall (fun kv =>
                 exists es, snd kv = VList (map VList es)
                            /\ Forall (fun e => List.length e = 2%nat) es) d.

(** The current shape of a serialised [param_wedges]: a mapping
    node -> list of [[param, values_spec, kind]] triples, each value
    taken by the loader's test for the current form (never the legacy
    one). *)
Definition current_wedges_shape (raw : value) : Prop :=
  exists d,
    raw = VDict d
    /\ Forall (fun kv =>
                 is_modern_entry (snd kv) = true
                 /\ exists es, snd kv = VList (map VList es)
                               /\ Forall (fun e => valid_wedge e = true) es) d.

Definition example_config : WedgeConfig := {|
  output_folder := VStr "out";
  filename_prefix := VStr "img";
  url := VStr "127.0.0.1:8188";
  param_overrides := [("KSampler", [[VStr "steps"; VInt 20]])];
  param_wedges :=
    [("KSampler", [[VStr "cfg"; VList [VInt 1; VInt 3; VInt 1]; VStr "minmax"]])]
|}.

(** A document whose overrides map a node to an empty list. *)
Definition empty_overrides_document : Dict.t value :=
  [("output_folder", VStr "out");
   ("filename_prefix", VStr "img");
   ("url", VStr "127.0.0.1:8188");
   ("param_overrides", VDict [("A", VList [])])].

End ConfigSpec.

Definition f_0_5 : PyFloat.float := PyFloat.of_ratio false 1 2.

(** ** The value expander ([wedge_submitter.py]) *)

Definition _coerce_numeric (v : value) : result value :=
  match v with
  | VBool _ => OK v
  | VInt _ => OK v
  | VFloat f =>
      rounded <- PyFloat.round_ndigits f 10 ;;
      nearest <- PyFloat.round_int rounded ;;
      close <- PyFloat.isclose rounded nearest ;;
      if close then OK (VInt nearest) else OK (VFloat rounded)
  | _ => OK v
  end.

(** [v == 0] *)
Definition eq_zero (v : value) : bool :=
  match v with
  | VInt z => z =? 0
  | VBool b => negb b
  | VFloat f => PyFloat.eqb f (S754_zero false)
  | _ => false
  end.

Definition max_iterations : Z := 100000.

(** The literal [1e-9]. *)
Definition f_1e_9 : PyFloat.float := PyFloat.of_ratio false 1 1000000000.

Section Expander.

  (** [float(s)] for a [str] [s] is the interpreter's parser: [None]
      stands for its [ValueError]. *)
Variable float_of_str : string -> option PyFloat.float.

(** [float(v)] *)
Definition py_float (v : value) : result PyFloat.float :=
  match v with
  | VInt z => PyFloat.of_Z z
  | VFloat f => OK f
  | VBool b => PyFloat.of_Z (if b then 1 else 0)
  | VStr s => match float_of_str s with
              | Some f => OK f
              | None => Raise ValueError
              end
  | VNone | VList _ | VDict _ => Raise TypeError
  end.

(** The [while True] loop of the [minmax] branch.  [up] is
    [direction > 0]; [acc] is [result].  The iteration guard ends the
    loop within [max_iterations + 1] rounds, which is the fuel
    [expand_wedge_values] gives it. *)
Fixpoint minmax_loop (fuel : nat) (up : bool)
         (stop_f tolerance step_f current : PyFloat.float)
         (iterations : Z) (acc : list value) : result (list value) :=
  match fuel with
  | O => Raise ValueError
  | S fuel' =>
      if up && PyFloat.gtb current (PyFloat.add stop_f tolerance) then OK acc
      else if negb up && PyFloat.ltb current (PyFloat.sub stop_f tolerance)
      then OK acc
      else
        v <- _coerce_numeric (VFloat current) ;;
        let acc := (acc ++ [v])%list in
        let current := PyFloat.add current step_f in
        let iterations := iterations + 1 in
        if iterations >? max_iterations then Raise ValueError
        else minmax_loop fuel' up stop_f tolerance step_f current iterations acc
  end.

(** [spec] is [list(spec)]. *)
Definition expand_wedge_values (spec : list value) (wedge_type : string)
  : result (list value) :=
  if String.eqb wedge_type "explicit" then
    match spec with
    | [] => Raise ValueError
    | values => OK values
    end
  else if String.eqb wedge_type "minmax" then
    match spec with
    | [start; stop; step] =>
        if eq_zero step then Raise ValueError
        else
          start_f <- py_float start ;;
          stop_f <- py_float stop ;;
          step_f <- py_float step ;;
          let up := PyFloat.gtb step_f (S754_zero false) in
          let tolerance := PyFloat.mul (PyFloat.abs step_f) f_1e_9 in
          values <- minmax_loop (S (Z.to_nat max_iterations)) up
                                 stop_f tolerance step_f start_f 0 [] ;;
          match values with
          | [] => Raise ValueError
          | _ => OK values
          end
    | _ => Raise ValueError
    end
  else Raise ValueError.

End Expander.

(** The interpreter's [float(str)] is not needed where no string is
    converted. *)
Definition no_strings : string -> option PyFloat.float := fun _ => None.

(** ** Notions used to state the expander properties *)

Module ExpandSpec.

  (** The running sums [current, current + step, ...]: the first [n]
      values the loop tests. *)
Fixpoint sums (n : nat) (current step_f : PyFloat.float) : list PyFloat.float :=
  match n with
  | O => []
  | S n' => current :: sums n' (PyFloat.add current step_f) step_f
  end.

(** The running sum after [n] additions. *)
Fixpoint sum_after (n : nat) (current step_f : PyFloat.float) : PyFloat.float :=
  match n with
  | O => current
  | S n' => sum_after n' (PyFloat.add current step_f) step_f
  end.

(** The loop's test: the value is kept unless it is past [stop] by
    more than the tolerance, in the direction of the step. *)
Definition past_stop (up : bool) (stop_f tolerance current : PyFloat.float)
  : bool :=
  (up && PyFloat.gtb current (PyFloat.add stop_f tolerance))
  || (negb up && PyFloat.ltb current (PyFloat.sub stop_f tolerance)).

(** The retention condition in the words of the design document. *)
Definition within_stop (up : bool) (stop_f tolerance current : PyFloat.float)
  : bool :=
  if up then PyFloat.leb current (PyFloat.add stop_f tolerance)
  else PyFloat.geb current (PyFloat.sub stop_f tolerance).

(** Two consecutive values ordered in the direction of the step. *)
Definition in_step_direction (up : bool) (a b : PyFloat.float) : bool :=
  if up then PyFloat.leb a b else PyFloat.geb a b.

(** A sequence that never goes against the direction of the step. *)
Definition monotonic (up : bool) (cs : list PyFloat.float) : Prop :=
  Sorted (fun a b => in_step_direction up a b = true) cs.

(** Exact test: is the finite float [r] within [1e-10] of its nearest
    integer?  (The design document's wording of the coercion rule.) *)
Definition within_1e_10_of_integer (r : PyFloat.float) : bool :=
  match r with
  | S754_zero _ => true
  | S754_finite _ m e =>
      let num := PyFloat.mag_num m e in
      let den := PyFloat.mag_den e in
      let n := PyFloat.nearest_even_div num den in
      Z.abs (num - n * den) * 10 ^ 10 <=? den
  | _ => false
  end.

(** The coercion rule as the design document words it: an absolute
    tolerance of [1e-10] after rounding to 10 decimals. *)
Definition coerce_numeric_as_specified (v : value) : result value :=
  match v with
  | VFloat f =>
      rounded <- PyFloat.round_ndigits f 10 ;;
      if within_1e_10_of_integer rounded
      then nearest <- PyFloat.round_int rounded ;; OK (VInt nearest)
      else OK (VFloat rounded)
  | _ => OK v
  end.

(** [2.000000001] *)
Definition f_2_000000001 : PyFloat.float :=
  PyFloat.of_ratio false 2000000001 1000000000.

End ExpandSpec.

Definition is_nan (x : PyFloat.float) : bool :=
  match x with S754_nan => true | _ => false end.

Definition f_3 : PyFloat.float := PyFloat.of_ratio false 3 1.
Definition f_9 : PyFloat.float := PyFloat.of_ratio false 9 1.
Definition f_10 : PyFloat.float := PyFloat.of_ratio false 10 1.

(** ** The combination engine ([wedge_submitter.py]) *)

Abbreviation Axis := ((string * string) * list value)%type (only parsing).

(** [itertools.product] of the value lists. *)
Fixpoint product (value_lists : list (list value)) : list (list value) :=
  match value_lists with
  | [] => [[]]
  | values :: rest =>
      flat_map (fun v => map (cons v) (product rest)) values
  end.

(** [combination.setdefault(node_name, {})[param] = value] *)
Definition assign (node_name param : string) (v : value)
           (combination : assignment) : assignment :=
  let params := match Dict.get node_name combination with
                | Some params => params
                | None => []
                end in
  Dict.set node_name (Dict.set param v params) combination.

(** The body of the [for combo_values in product(...)] loop. *)
Definition build_combination (keys : list (string * string))
           (combo_values : list value) : assignment :=
  fold_left (fun combination kv =>
               assign (fst (fst kv)) (snd (fst kv)) (snd kv) combination)
            (combine keys combo_values) [].

(** The assignments [iter_combinations] yields, in order. *)
Definition iter_combinations (axes : list Axis) : list assignment :=
  match axes with
  | [] => [[]]
  | _ =>
      let keys := map fst axes in
      let value_lists := map snd axes in
      map (build_combination keys) (product value_lists)
  end.

Module CombinationSpec.

  (** Product of the axes' value-list lengths. *)
Definition size (value_lists : list (list value)) : nat :=
  fold_right Nat.mul 1%nat (map (@List.length value) value_lists).

(** The indices of the [k]-th tuple in cartesian-product order: the
    digits of [k] in the mixed radix of the axis lengths, the last
    axis the least significant. *)
Fixpoint odometer (value_lists : list (list value)) (k : nat) : list nat :=
  match value_lists with
  | [] => []
  | _ :: rest => (k / size rest)%nat :: odometer rest (k mod size rest)%nat
  end.

(** The values at the given indices, one per axis. *)
Definition choose (value_lists : list (list value)) (indices : list nat)
  : list value :=
  map (fun vi => nth (snd vi) (fst vi) VNone) (combine value_lists indices).

Definition at_index (i : nat) (values : list value) : value := nth i values VNone.

Definition two_by_one : list Axis :=
  [(("A", "p"), [VInt 1; VInt 2]); (("B", "q"), [VInt 7])].

Definition two_by_three : list Axis :=
  [(("A", "p"), [VInt 1; VInt 2]); (("B", "q"), [VInt 7; VInt 8; VInt 9])].

End CombinationSpec.

(** ** The submission orchestrator ([main] of [wedge_submitter.py])

    The template, the execution client, the operator and the path
    library are collaborators: variables of the section.  [main] is
    taken from the point where the configuration is loaded and
    [axes = build_axes(config)] is computed.  The elapsed-time
    bookkeeping and the ETA line change no control flow and are left
    out of the trace. *)

Record Args : Type := {
  limit : option Z;
  dry_run : bool;
  print_combinations : bool;
  confirm : bool;
  no_confirm : bool;
  output_node : string
}.

Inductive metadata : Type :=
| WedgeConfigMeta (config : Dict.t value)
| WedgeIterationMeta (index count : Z) (combination : assignment).

Inductive outcome : Type :=
| NothingToRun
| DryRunComplete
| Cancelled
| AllProcessed
| Aborted (e : exn).

Definition normalize_base_url (url : value) : result string :=
  match url with
  | VStr url =>
      if String.prefix "http://" url || String.prefix "https://" url then OK url
      else OK ("http://" ++ url)
  | _ => Raise AttributeError
  end.

Definition total_runs (axes : list Axis) : Z :=
  match axes with
  | [] => 1
  | _ => fold_right Z.mul 1 (map (fun axis => Z.of_nat (List.length (snd axis))) axes)
  end.

Definition as_str (v : value) : result string :=
  match v with
  | VStr s => OK s
  | _ => Raise TypeError
  end.

Section Orchestrator.

Variable workflow : Type.
(** [workflow.set_param_value(node, param, value)]: [None] is [False]. *)
Variable set_param_value : workflow -> string -> value -> value -> option workflow.
Variable update_adhoc_metadata : workflow -> string -> metadata -> workflow.
(** The titles of the template's [SaveImage] nodes. *)
Variable save_image_titles : workflow -> list (option string).

Variable client : Type.
Variable connect : string -> client.
(** [client.queue_prompt] followed by [job.get("prompt_id")]. *)
Variable queue_prompt : client -> workflow -> result (client * option string).
(** [client.stream_until_done] and the reading of its history. *)
Variable stream_until_done : client -> string -> result client.

(** The operator's answer to the confirmation prompt. *)
Variable prompt_confirmation : Z -> string -> bool.
Variable path_join : string -> string -> string.
Variable repr_text : value -> string.

Inductive event : Type :=
| LogListing (idx total : Z) (combination : assignment)
| LogSubmitting (idx count : Z) (combination : assignment)
| Queued (run_workflow : workflow)
| LogCompleted (idx count : Z) (prompt_id : string).

Record run_state : Type := {
  trace : list event;
  run_client : client
}.

Definition log (st : run_state) (ev : event) : run_state :=
  {| trace := (trace st ++ [ev])%list; run_client := run_client st |}.

Fixpoint apply_entries (node_name : string) (overrides : list (list value))
         (w : workflow) : result workflow :=
  match overrides with
  | [] => OK w
  | entry :: rest =>
      match entry with
      | [param; v] =>
          match set_param_value w node_name param v with
          | Some w' => apply_entries node_name rest w'
          | None => Raise (RuntimeError "Failed to set override")
          end
      | _ => Raise ValueError
      end
  end.

Fixpoint apply_overrides_of (overrides : Dict.t (list (list value)))
         (w : workflow) : result workflow :=
  match overrides with
  | [] => OK w
  | (node_name, entries) :: rest =>
      w' <- apply_entries node_name entries w ;;
      apply_overrides_of rest w'
  end.

Definition apply_param_overrides (w : workflow) (config : Config.WedgeConfig)
  : result workflow :=
  apply_overrides_of (Config.param_overrides config) w.

Fixpoint apply_params (node_name : string) (params : Dict.t value)
         (w : workflow) : result workflow :=
  match params with
  | [] => OK w
  | (param, v) :: rest =>
      match set_param_value w node_name (VStr param) v with
      | Some w' => apply_params node_name rest w'
      | None => Raise (RuntimeError "Failed to set wedge parameter")
      end
  end.

Fixpoint apply_combination (w : workflow) (combination : assignment)
  : result workflow :=
  match combination with
  | [] => OK w
  | (node_name, params) :: rest =>
      w' <- apply_params node_name params w ;;
      apply_combination w' rest
  end.

Definition set_output_prefix (w : workflow) (filename_prefix : string)
           (preferred_node_title : string) : result workflow :=
  match set_param_value w preferred_node_title (VStr "filename_prefix")
                        (VStr filename_prefix) with
  | Some w' => OK w'
  | None =>
      match save_image_titles w with
      | [Some node_title] =>
          if String.eqb node_title "" then
            Raise (RuntimeError "Unable to determine output node")
          else
            match set_param_value w node_title (VStr "filename_prefix")
                                  (VStr filename_prefix) with
            | Some w' => OK w'
            | None => Raise (RuntimeError "Unable to determine output node")
            end
      | _ => Raise (RuntimeError "Unable to determine output node")
      end
  end.

Section Run.
Variable args : Args.
Variable config : Config.WedgeConfig.
Variable max_runs : Z.
Variable output_dir : string.
Variable base_workflow : workflow.

(** The first half of the loop body: clone the template, apply the
    overrides and the combination, attach the iteration metadata,
    set the output name. *)
Definition prepare (idx : Z) (combination : assignment) : result workflow :=
  let run_workflow := base_workflow in
  w1 <- apply_param_overrides run_workflow config ;;
  w2 <- apply_combination w1 combination ;;
  let w3 := update_adhoc_metadata
              w2 "wedge_iteration"
              (WedgeIterationMeta idx max_runs combination) in
  prefix <- as_str (Config.filename_prefix config) ;;
  let filename := Submitter.build_filename repr_text prefix combination in
  set_output_prefix w3 (path_join output_dir filename) (output_node args).

(** One round of the submission loop; the state it returns holds
    what was logged and sent before an exception, if any. *)
Definition iteration (idx : Z) (combination : assignment) (st : run_state)
  : run_state * option exn :=
  match prepare idx combination with
  | Raise e => (st, Some e)
  | OK w =>
      let st1 := log (log st (LogSubmitting idx max_runs combination))
                     (Queued w) in
      match queue_prompt (run_client st1) w with
      | Raise e => (st1, Some e)
      | OK (c, None) =>
          ({| trace := trace st1; run_client := c |},
           Some (RuntimeError "ComfyUI did not return a prompt_id"))
      | OK (c, Some prompt_id) =>
          if String.eqb prompt_id "" then
            ({| trace := trace st1; run_client := c |},
             Some (RuntimeError "ComfyUI did not return a prompt_id"))
          else
            match stream_until_done c prompt_id with
            | Raise e => ({| trace := trace st1; run_client := c |}, Some e)
            | OK c' =>
                (log {| trace := trace st1; run_client := c' |}
                     (LogCompleted idx max_runs prompt_id),
                 None)
            end
      end
  end.

(** [for idx, combination in enumerate(combinations_iter, 1)] with
    [if idx > max_runs: break]. *)
Fixpoint submit_loop (combinations : list assignment) (idx : Z)
         (st : run_state) : run_state * option exn :=
  match combinations with
  | [] => (st, None)
  | combination :: rest =>
      if idx >? max_runs then (st, None)
      else
        match iteration idx combination st with
        | (st', None) => submit_loop rest (idx + 1) st'
        | (st', Some e) => (st', Some e)
        end
  end.

(** The listing of [--print-combinations] and [--dry-run]. *)
Fixpoint listing_loop (total : Z) (combinations : list assignment) (idx : Z)
         (listed : list event) : list event :=
  match combinations with
  | [] => listed
  | combination :: rest =>
      let listed' := (listed ++ [LogListing idx total combination])%list in
      if idx >=? max_runs then listed'
      else listing_loop total rest (idx + 1) listed'
  end.
End Run.

(** What [main] logged and sent, and how it ended; [Raise] is an
    exception outside the submission loop. *)
Definition main (args : Args) (config : Config.WedgeConfig)
           (axes : list Axis) (workflow_from_file : workflow)
  : result (list event * outcome) :=
  let total := total_runs axes in
  let max_runs := match limit args with
                  | Some l => Z.min total l
                  | None => total
                  end in
  if max_runs <=? 0 then OK ([], NothingToRun)
  else
    let listing := print_combinations args || dry_run args in
    let listed := if listing
                  then listing_loop max_runs total (iter_combinations axes) 1 []
                  else [] in
    if listing && dry_run args then OK (listed, DryRunComplete)
    else
      let require_confirmation := confirm args && negb (no_confirm args) in
      folder <- as_str (Config.output_folder config) ;;
      let output_dir := path_join folder "images" in
      if require_confirmation && negb (prompt_confirmation max_runs output_dir)
      then OK (listed, Cancelled)
      else
        let base_workflow :=
          update_adhoc_metadata workflow_from_file "wedge_config"
                                (WedgeConfigMeta (Config.to_dict config)) in
        url <- normalize_base_url (Config.url config) ;;
        let st := {| trace := listed; run_client := connect url |} in
        match submit_loop args config max_runs output_dir base_workflow
                          (iter_combinations axes) 1 st with
        | (st', None) => OK (trace st', AllProcessed)
        | (st', Some e) => OK (trace st', Aborted e)
        end.

(** *** Reading a trace *)

Definition submit_progress (t : list event) : list (Z * Z) :=
  flat_map (fun ev => match ev with
                      | LogSubmitting idx n _ => [(idx, n)]
                      | _ => []
                      end) t.

Definition listing_progress (t : list event) : list (Z * Z) :=
  flat_map (fun ev => match ev with
                      | LogListing idx n _ => [(idx, n)]
                      | _ => []
                      end) t.

Definition submissions (t : list event) : list workflow :=
  flat_map (fun ev => match ev with
                      | Queued w => [w]
                      | _ => []
                      end) t.

(** Collaborators that accept every request. *)
Definition cooperative : Prop :=
  (forall w node param v, set_param_value w node param v <> None)
  /\ (forall c w, exists c' prompt_id,
         queue_prompt c w = OK (c', Some prompt_id) /\ prompt_id <> "")
  /\ (forall c prompt_id, exists c', stream_until_done c prompt_id = OK c').

End Orchestrator.

Arguments trace {workflow client} r.
Arguments run_client {workflow client} r.
Arguments Build_run_state {workflow client} trace run_client.
Arguments log {workflow client} st ev.
Arguments LogListing {workflow} idx total combination.
Arguments LogSubmitting {workflow} idx count combination.
Arguments Queued {workflow} run_workflow.
Arguments LogCompleted {workflow} idx count prompt_id.
Arguments submit_progress {workflow} t.
Arguments listing_progress {workflow} t.
Arguments submissions {workflow} t.

(** ** Collaborators for concrete runs

    A template that records what is set on it: one that has every node
    and parameter, and one whose parameter ["steps"] does not take the
    value [3]; a client that numbers its jobs. *)

Module Demo.

Definition workflow : Type := list (string * value * value).

Definition set_param_value (w : workflow) (node : string) (param v : value)
  : option workflow :=
  Some (w ++ [(node, param, v)])%list.

Definition picky_set_param_value (w : workflow) (node : string) (param v : value)
  : option workflow :=
  match param, v with
  | VStr "steps", VInt 3 => None
  | _, _ => Some (w ++ [(node, param, v)])%list
  end.

Definition update_adhoc_metadata (w : workflow) (key : string) (m : metadata)
  : workflow := w.

Definition save_image_titles (w : workflow) : list (option string) := [].

Definition client : Type := Z.

Definition connect (url : string) : client := 0.

Definition queue_prompt (c : client) (w : workflow)
  : result (client * option string) :=
  OK (c + 1, Some ("job-" ++ str_of_int (c + 1))).

Definition stream_until_done (c : client) (prompt_id : string) : result client :=
  OK c.

Definition prompt_confirmation (total_runs : Z) (output_dir : string) : bool :=
  true.

Definition path_join (a b : string) : string := a ++ "/" ++ b.

Definition repr_text (v : value) : string := "".

Definition run (args : Args) (config : Config.WedgeConfig) (axes : list Axis)
  : result (list (event workflow) * outcome) :=
  main workflow set_param_value update_adhoc_metadata save_image_titles
       client connect queue_prompt stream_until_done prompt_confirmation
       path_join repr_text args config axes [].

Definition picky_run (args : Args) (config : Config.WedgeConfig)
           (axes : list Axis)
  : result (list (event workflow) * outcome) :=
  main workflow picky_set_param_value update_adhoc_metadata save_image_titles
       client connect queue_prompt stream_until_done prompt_confirmation
       path_join repr_text args config axes [].

Definition config : Config.WedgeConfig := {|
  Config.output_folder := VStr "out";
  Config.filename_prefix := VStr "img";
  Config.url := VStr "127.0.0.1:8188";
  Config.param_overrides := [("Loader", [[VStr "ckpt"; VStr "base"]])];
  Config.param_wedges := []
|}.

(** Twelve combinations: three values by four. *)
Definition twelve : list Axis :=
  [(("KSampler", "cfg"), [VInt 5; VInt 6; VInt 7]);
   (("KSampler", "seed"), [VInt 10; VInt 20; VInt 30; VInt 40])].

(** Ten combinations; the third one asks for [steps = 3]. *)
Definition ten : list Axis :=
  [(("KSampler", "steps"),
    [VInt 1; VInt 2; VInt 3; VInt 4; VInt 5;
     VInt 6; VInt 7; VInt 8; VInt 9; VInt 10])].

Definition limit_5 : Args := {|
  limit := Some 5;
  dry_run := false;
  print_combinations := true;
  confirm := false;
  no_confirm := false;
  output_node := "OUT_image"
|}.

Definition no_limit : Args := {|
  limit := None;
  dry_run := false;
  print_combinations := false;
  confirm := false;
  no_confirm := false;
  output_node := "OUT_image"
|}.

End Demo.

(** ** Binary64 values as integers

    A finite binary64 value is an integer multiple of [2^-1074]; the
    order and the rounding of floating-point addition are stated on
    these integers. *)

Module Binary64.

(** Value of a finite binary64 magnitude in units of [2^-1074]. *)
Definition units (m : positive) (e : Z) : Z := Zpos m * 2 ^ (e + 1074).

(** Signed value of a finite float, in units of [2^-1074]. *)
Definition sunits (x : spec_float) : Z :=
  match x with
  | S754_finite s m e => if s then - units m e else units m e
  | _ => 0
  end.

(** The float of magnitude [k * 2^t] for [k <= 2^53]: the shape of
    every result of rounding to nearest. *)
Definition canon (s : bool) (k t : Z) : spec_float :=
  if k <? 2 ^ 53 then
    if t <=? 971 then S754_finite s (Z.to_pos k) t else S754_infinity s
  else
    if t + 1 <=? 971 then S754_finite s (Z.to_pos (2 ^ 52)) (t + 1)
    else S754_infinity s.

(** The values a Python [float] takes: the canonical binary64
    representations. *)
Definition valid (x : spec_float) : bool := valid_binary 53 1024 x.

End Binary64.

(** ** Notions used to state further configuration properties *)

(** The node's sequence as the mutators and the getters read it. *)
Definition entries_of (node : string) (d : Dict.t (list (list value)))
  : list (list value) :=
  match Dict.get node d with
  | Some l => l
  | None => []
  end.


(** Every entry of every node's sequence satisfies [Q]. *)
Definition all_entries (Q : list value -> Prop)
           (d : Dict.t (list (list value))) : Prop :=
  Forall (fun kv => Forall Q (snd kv)) d.

(** The example configuration after [set_param_override("KSampler",
    "seed", 7)]. *)
Definition example_config_with_seed : Config.WedgeConfig :=
  Config.with_overrides
    ConfigSpec.example_config
    [("KSampler", [[VStr "steps"; VInt 20]; [VStr "seed"; VInt 7]])].

(** A legacy override entry [[node, param, value]]. *)
Definition legacy_override (t : string * value * value) : value :=
  VList [VStr (fst (fst t)); snd (fst t); snd t].

(** A legacy wedge item [param: [node, values, mode]]. *)
Definition legacy_wedge (item : string * (string * value * value))
  : string * value :=
  (fst item,
   VList [VStr (fst (fst (snd item))); snd (fst (snd item)); snd (snd item)]).

(** The entries made of the items addressed to [node], in the order
    of the items. *)
Definition grouped {A : Type} (node_of : A -> string) (entry_of : A -> list value)
           (node : string) (items : list A) : list (list value) :=
  map entry_of (filter (fun a => String.eqb (node_of a) node) items).

(** ** More of the submitter ([wedge_submitter.py]) *)

(** The characters [sanitize_value] replaces. *)
Definition forbidden : list ascii :=
  [" "; "/"; "\"; ":"; ","; ";"; "034"; "'"]%char.

(** What [sanitize_value] makes of one character. *)
Definition safe_char (a : ascii) : ascii :=
  if existsb (Ascii.eqb a) forbidden then "_"%char else a.

Section Logging.
Variable repr_text : value -> string.

(** One part of the log line: [f"{node_name}.{param_name}={value}"]. *)
Definition cell_part (c : string * string * value) : string :=
  fst (fst c) ++ "." ++ snd (fst c) ++ "=" ++ py_str repr_text (snd c).

Definition format_combination (combination : assignment) : string :=
  match combination with
  | [] => "<no wedges>"
  | _ =>
      let parts :=
        flat_map (fun node_name =>
                    match Dict.get node_name combination with
                    | Some params =>
                        flat_map (fun param_name =>
                                    match Dict.get param_name params with
                                    | Some v =>
                                        [node_name ++ "." ++ param_name ++ "="
                                                   ++ py_str repr_text v]
                                    | None => []
                                    end)
                                 (sorted (Dict.keys params))
                    | None => []
                    end)
                 (sorted (Dict.keys combination)) in
      String.concat ", " parts
  end.
End Logging.

(** The cells a tuple of values makes with the axis keys:
    [zip(keys, combo_values)]. *)
Definition chosen_cells (keys : list (string * string))
           (combo_values : list value) : list (string * string * value) :=
  map (fun kv => (fst (fst kv), snd (fst kv), snd kv)) (combine keys combo_values).

(** One value taken from each axis. *)
Definition one_per_axis (axes : list Axis) (combo_values : list value) : Prop :=
  Forall2 (fun axis v => In v (snd axis)) axes combo_values.

(** *** Building the axes *)

(** An axis as [build_axes] makes it: the param is whatever the wedge
    entry holds in its first place. *)
Abbreviation RawAxis := ((string * value) * list value)%type (only parsing).

Section BuildAxes.

(** Iterating over a [str] gives its characters, as the interpreter
    splits them. *)
Variable code_points : string -> list string.
Variable float_of_str : string -> option PyFloat.float.

(** [list(v)]: a list is copied, a mapping gives its keys, a string its
    characters; the other values are not iterable. *)
Definition py_list (v : value) : result (list value) :=
  match v with
  | VList l => OK l
  | VDict d => OK (map VStr (Dict.keys d))
  | VStr s => OK (map VStr (code_points s))
  | VNone | VBool _ | VInt _ | VFloat _ => Raise TypeError
  end.

(** The call [expand_wedge_values(values_spec, wedge_type)] on the two
    values of a wedge entry: [list(spec)] is evaluated in the branch of
    a recognised type only. *)
Definition expand_wedge_entry (values_spec wedge_type : value)
  : result (list value) :=
  match wedge_type with
  | VStr t =>
      if String.eqb t "explicit" || String.eqb t "minmax" then
        spec <- py_list values_spec ;;
        expand_wedge_values float_of_str spec t
      else Raise ValueError
  | _ => Raise ValueError
  end.

(** The inner loop of [build_axes]: the axes of one node. *)
Fixpoint axes_of_node (node_name : string) (wedges : list (list value))
  : result (list RawAxis) :=
  match wedges with
  | [] => OK []
  | wedge :: rest =>
      match wedge with
      | [param; values_spec; wedge_type] =>
          expanded <- expand_wedge_entry values_spec wedge_type ;;
          more <- axes_of_node node_name rest ;;
          OK (((node_name, param), expanded) :: more)
      | _ => Raise ValueError
      end
  end.

Fixpoint axes_of_wedges (param_wedges : Dict.t (list (list value)))
  : result (list RawAxis) :=
  match param_wedges with
  | [] => OK []
  | (node_name, wedges) :: rest =>
      axes <- axes_of_node node_name wedges ;;
      more <- axes_of_wedges rest ;;
      OK (axes ++ more)%list
  end.

Definition build_axes (config : Config.WedgeConfig) : result (list RawAxis) :=
  axes_of_wedges (Config.param_wedges config).

End BuildAxes.

(** The axes whose params are strings, as [iter_combinations] takes
    them. *)
Definition typed_axis (a : RawAxis) : option Axis :=
  match a with
  | ((node_name, VStr param), values) => Some ((node_name, param), values)
  | _ => None
  end.

Fixpoint typed_axes (raw : list RawAxis) : option (list Axis) :=
  match raw with
  | [] => Some []
  | a :: rest =>
      match typed_axis a, typed_axes rest with
      | Some a', Some rest' => Some (a' :: rest')
      | _, _ => None
      end
  end.

(** The wedge entries of a configuration, each with its node, in the
    order in which [build_axes] visits them. *)
Definition wedge_entries (config : Config.WedgeConfig)
  : list (string * list value) :=
  flat_map (fun nw => map (fun wedge => (fst nw, wedge)) (snd nw))
           (Config.param_wedges config).

(** A wedge entry and the axis made of it. *)
Definition axis_of_entry (expand : value -> value -> result (list value))
           (entry : string * list value) (axis : RawAxis) : Prop :=
  exists param values_spec wedge_type,
    snd entry = [param; values_spec; wedge_type]
    /\ fst axis = (fst entry, param)
    /\ expand values_spec wedge_type = OK (snd axis).

(** ** Further concrete runs *)

Module Runs.

(** The count [main] clamps the run to. *)
Definition max_runs (args : Args) (axes : list Axis) : Z :=
  match limit args with
  | Some l => Z.min (total_runs axes) l
  | None => total_runs axes
  end.

(** The progress pairs [1/n, 2/n, ..., count/n]. *)
Definition progress (count n : Z) : list (Z * Z) :=
  map (fun k => (1 + Z.of_nat k, n)) (seq 0 (Z.to_nat count)).

Definition dry_run_limit_5 : Args := {|
  limit := Some 5;
  dry_run := true;
  print_combinations := false;
  confirm := false;
  no_confirm := false;
  output_node := "OUT_image"
|}.

Definition confirm_first : Args := {|
  limit := None;
  dry_run := false;
  print_combinations := false;
  confirm := true;
  no_confirm := false;
  output_node := "OUT_image"
|}.

(** An operator who answers no. *)
Definition declining (total_runs : Z) (output_dir : string) : bool := false.

Definition declined_run (args : Args) (config : Config.WedgeConfig)
           (axes : list Axis)
  : result (list (event Demo.workflow) * outcome) :=
  main Demo.workflow Demo.set_param_value Demo.update_adhoc_metadata
       Demo.save_image_titles Demo.client Demo.connect Demo.queue_prompt
       Demo.stream_until_done declining Demo.path_join Demo.repr_text
       args config axes [].

(** A configuration with one explicit wedge of two values. *)
Definition two_seeds : Config.WedgeConfig := {|
  Config.output_folder := VStr "out";
  Config.filename_prefix := VStr "img";
  Config.url := VStr "127.0.0.1:8188";
  Config.param_overrides := [];
  Config.param_wedges :=
    [("KSampler", [[VStr "seed"; VList [VInt 1; VInt 2]; VStr "explicit"]])]
|}.

End Runs.

(** The calls [workflow.set_param_value(node, param, value)] a run
    makes for its static overrides, in order. *)
Definition override_calls (config : Config.WedgeConfig)
  : list (string * value * value) :=
  flat_map (fun no => map (fun entry => (fst no, nth 0 entry VNone, nth 1 entry VNone))
                          (snd no))
           (Config.param_overrides config).

(** The calls it makes for an assignment, in order. *)
Definition wedge_calls (combination : assignment) : list (string * value * value) :=
  map (fun c => (fst (fst c), VStr (snd (fst c)), snd c)) (cells combination).

(** ** The viewer's axes ([view_wedges.py]) *)

(** The literal [1e-10]. *)
Definition f_1e_10 : PyFloat.float := PyFloat.of_ratio false 1 10000000000.

Module ViewerAxes.

Section Expansion.
Variable code_points : string -> list string.
Variable float_of_str : string -> option PyFloat.float.

(** The body of the loop of [expand_minmax]: the value appended for
    [current].  In [rounded - round(rounded)] the integer is converted
    to a float. *)
Definition coerce_current (current : PyFloat.float) : result value :=
  rounded <- PyFloat.round_ndigits current 10 ;;
  nearest <- PyFloat.round_int rounded ;;
  nearest_f <- PyFloat.of_Z nearest ;;
  if PyFloat.ltb (PyFloat.abs (PyFloat.sub rounded nearest_f)) f_1e_10
  then OK (VInt nearest)
  else OK (VFloat rounded).

(** The [while] loop of [expand_minmax].  The guard ends it within
    100001 rounds, which is the fuel [expand_minmax] gives it. *)
Fixpoint expand_loop (fuel : nat) (stop stepf current : PyFloat.float)
         (guard : Z) (values : list value) : result (list value) :=
  match fuel with
  | O => Raise (RuntimeError "loop guard")
  | S fuel' =>
      let keep :=
        if PyFloat.gtb stepf (S754_zero false)
        then PyFloat.leb current
                         (PyFloat.add stop (PyFloat.mul (PyFloat.abs stepf) f_1e_9))
        else PyFloat.geb current
                         (PyFloat.sub stop (PyFloat.mul (PyFloat.abs stepf) f_1e_9)) in
      if keep then
        v <- coerce_current current ;;
        let values := (values ++ [v])%list in
        let current := PyFloat.add current stepf in
        let guard := guard + 1 in
        if guard >? 100000 then OK values
        else expand_loop fuel' stop stepf current guard values
      else OK values
  end.

Definition expand_minmax (min_val max_val step : value) : result (list value) :=
  if eq_zero step then OK []
  else
    current <- py_float float_of_str min_val ;;
    stop <- py_float float_of_str max_val ;;
    stepf <- py_float float_of_str step ;;
    expand_loop (S (Z.to_nat 100000)) stop stepf current 0 [].

(** The dataclass [WedgeEntry]. *)
Record WedgeEntry : Type := {
  node : string;
  param : value;
  values : list value;
  type : value
}.

(** The [minmax] branch of [_flatten_wedges]: whatever goes wrong, the
    axis has no values. *)
Definition minmax_values (values_spec : value) : list value :=
  let attempt :=
    spec <- py_list code_points values_spec ;;
    match spec with
    | [min_v; max_v; step] => expand_minmax min_v max_v step
    | _ => Raise ValueError
    end in
  match attempt with
  | OK values => values
  | Raise _ => []
  end.

(** One item of a node's list: anything but a list of three is
    skipped. *)
Definition flatten_item (node_name : string) (item : value)
  : result (list WedgeEntry) :=
  match item with
  | VList [param; values_spec; wtype] =>
      values <- (if eq_str wtype "explicit" then py_list code_points values_spec
                 else if eq_str wtype "minmax" then OK (minmax_values values_spec)
                 else OK []) ;;
      OK [{| node := node_name; param := param; values := values; type := wtype |}]
  | _ => OK []
  end.

Fixpoint flatten_items (node_name : string) (items : list value)
  : result (list WedgeEntry) :=
  match items with
  | [] => OK []
  | item :: rest =>
      entries <- flatten_item node_name item ;;
      more <- flatten_items node_name rest ;;
      OK (entries ++ more)%list
  end.

Fixpoint flatten_nodes (param_wedges : list (string * value))
  : result (list WedgeEntry) :=
  match param_wedges with
  | [] => OK []
  | (node_name, items) :: rest =>
      entries <- match items with
                 | VList l => flatten_items node_name l
                 | _ => OK []
                 end ;;
      more <- flatten_nodes rest ;;
      OK (entries ++ more)%list
  end.

(** [(param_wedges or {}).items()]: a false value counts as the empty
    mapping, another value that is no mapping has no [items]. *)
Definition _flatten_wedges (param_wedges : value) : result (list WedgeEntry) :=
  if negb (truthy param_wedges) then OK []
  else
    match param_wedges with
    | VDict d => flatten_nodes d
    | _ => Raise AttributeError
    end.

End Expansion.

(** An axis of the submitter and the entry the viewer makes of the
    same wedge: same node and param, as many values, and for an
    explicit wedge the same values. *)
Definition same_axis (axis : RawAxis) (entry : WedgeEntry) : Prop :=
  node entry = fst (fst axis)
  /\ param entry = snd (fst axis)
  /\ List.length (values entry) = List.length (snd axis)
  /\ (type entry = VStr "explicit" -> values entry = snd axis).

End ViewerAxes.

(** ** Reading the history of a run ([extract_last_image_path]) *)

Section History.
Variable code_points : string -> list string.
(** [str(Path(subfolder) / filename)], as the path library joins. *)
Variable path_of : string -> string -> string.

(** [v.get(k, default)]: only a mapping has [get]. *)
Definition py_get (k : string) (v : value) (default : value) : result value :=
  match v with
  | VDict d => OK (Config.get_default k d default)
  | _ => Raise AttributeError
  end.

(** The loop [for node_output in outputs.values(): images.extend(...)]. *)
Fixpoint collect_images (node_outputs : list value) (images : list value)
  : result (list value) :=
  match node_outputs with
  | [] => OK images
  | node_output :: rest =>
      found <- py_get "images" node_output (VList []) ;;
      more <- py_list code_points found ;;
      collect_images rest (images ++ more)%list
  end.

(** From [filename = last_image.get("filename")] to the end. *)
Definition image_path (last_image : value) : result (option value) :=
  filename <- py_get "filename" last_image VNone ;;
  if negb (truthy filename) then OK None
  else
    subfolder <- py_get "subfolder" last_image VNone ;;
    if truthy subfolder then
      match subfolder, filename with
      | VStr s, VStr f => OK (Some (VStr (path_of s f)))
      | _, _ => Raise TypeError
      end
    else OK (Some filename).

Definition extract_last_image_path (history : Dict.t value) (prompt_id : string)
  : result (option value) :=
  match Dict.get prompt_id history with
  | None => OK None
  | Some prompt_history =>
      if negb (truthy prompt_history) then OK None
      else
        outputs <- py_get "outputs" prompt_history (VDict []) ;;
        match outputs with
        | VDict node_outputs =>
            images <- collect_images (map snd node_outputs) [] ;;
            match rev images with
            | [] => OK None
            | last_image :: _ => image_path last_image
            end
        | _ => Raise AttributeError
        end
  end.

End History.

(** A node output that records the images [images]. *)
Definition records_images (node_output : string * value) (images : list value)
  : Prop :=
  exists fields,
    snd node_output = VDict fields
    /\ Config.get_default "images" fields (VList []) = VList images.

(** An image record with a file name and no subfolder. *)
Definition image_named (filename : string) : value :=
  VDict [("filename", VStr filename); ("subfolder", VStr ""); ("type", VStr "output")].

(** ** Notions used to state the properties of integer sweeps *)

Module IntSweep.

(** [float(z)] where it is exact. *)
Definition float_of_int (z : Z) : PyFloat.float :=
  binary_normalize PyFloat.prec PyFloat.emax z 0 false.

(** The integers [start, start + step, ...] that do not pass [stop],
    for a positive [step]: [count] of them. *)
Definition count (start stop step : Z) : Z := (stop - start) / step + 1.

Definition progression (start step : Z) (n : nat) : list Z :=
  map (fun k => start + Z.of_nat k * step) (seq 0 n).

(** The bounds within which the sweep is computed exactly. *)
Definition in_range (z : Z) : Prop := Z.abs z <= 2 ^ 51.
Definition small_step (step : Z) : Prop := 0 < Z.abs step <= 2 ^ 27.

(** From [c], [n] more values are due before the sweep passes [stop]:
    the [n] values [c, c + step, ...] are within it and the next one is
    not. *)
Definition due (stop step c : Z) (n : nat) : Prop :=
  (0 < step
   /\ (n = 0%nat \/ c + (Z.of_nat n - 1) * step <= stop)
   /\ stop < c + Z.of_nat n * step)
  \/ (step < 0
      /\ (n = 0%nat \/ stop <= c + (Z.of_nat n - 1) * step)
      /\ c + Z.of_nat n * step < stop).

End IntSweep.

(** ** Rounding to nearest *)

Module Nearest.

(** The record of a right shift holds the integer part of [N / D] and
    tells, with its round and sticky bits, where the rest lies with
    respect to one half. *)
Definition located (rec : shr_record) (N D : Z) : Prop :=
  shr_m rec * D <= N < (shr_m rec + 1) * D
  /\ shr_r rec = (D <=? 2 * (N - shr_m rec * D))
  /\ shr_s rec = negb ((N =? shr_m rec * D) || (2 * (N - shr_m rec * D) =? D)).

(** [r] is a finite float nearest to the rational [N / D], counted in
    units of [2^-1074]: no float is closer. *)
Definition nearest_float (N D : Z) (r : spec_float) : Prop :=
  Binary64.valid r = true
  /\ PyFloat.is_finite r = true
  /\ forall z,
      Binary64.valid z = true -> PyFloat.is_finite z = true ->
      Z.abs (Binary64.sunits r * D - N) <= Z.abs (Binary64.sunits z * D - N).

(** [x * 10^10] rounded to an integer (ties to even), with the sign of
    [x]: the count of [1e-10] that [round(x, 10)] reads back. *)
Definition decimal_units (x : spec_float) : Z :=
  match x with
  | S754_finite s m e =>
      cond_Zopp s (PyFloat.nearest_even_div
                     (PyFloat.mag_num m e * 10 ^ 10) (PyFloat.mag_den e))
  | _ => 0
  end.

(** The tolerance [abs(rel_tol * a)] of [math.isclose], in units of
    [2^-1074]. *)
Definition tol_units (a : spec_float) : Z :=
  Binary64.sunits (PyFloat.abs (PyFloat.mul PyFloat.rel_tol a)).

End Nearest.

(** ** The order of the values a sweep returns *)

Module ValueOrder.

(** The number a value stands for, in units of [2^-1074]: exact for an
    [int] and for a finite [float]. *)
Definition units_of (v : value) : option Z :=
  match v with
  | VInt z => Some (z * 2 ^ 1074)
  | VFloat f => if PyFloat.is_finite f then Some (Binary64.sunits f) else None
  | _ => None
  end.

(** [v <= w] between two such numbers; an [int] and a [float] are
    compared by their exact values, as Python does. *)
Definition value_leb (v w : value) : bool :=
  match units_of v, units_of w with
  | Some a, Some b => a <=? b
  | _, _ => false
  end.

(** Two consecutive values ordered in the direction of the step. *)
Definition in_value_direction (up : bool) (v w : value) : bool :=
  if up then value_leb v w else value_leb w v.

(** A returned sequence that never goes against the direction of the
    step. *)
Definition monotonic_values (up : bool) (vs : list value) : Prop :=
  Sorted (fun v w => in_value_direction up v w = true) vs.

End ValueOrder.

(** ** A configuration document of any kind *)

(** [WedgeConfig.from_dict(data)] for whatever the JSON parser
    returned: the first thing [from_dict] does is [data.get], which a
    mapping has and a list, a string, a number or [None] has not. *)
Definition from_json_value (data : value) : result Config.WedgeConfig :=
  match data with
  | VDict d => Config.from_dict d
  | _ => Raise AttributeError
  end.

(** * Properties *)

(** ** Lists and the order on strings *)

Lemma flat_map_ext_in {A B : Type} (f g : A -> list B) (l : list A) :
  (forall a, In a l -> f a = g a) -> flat_map f l = flat_map g l.
Proof.
  induction l as [|a l IH]; intros H; simpl; [reflexivity|].
  rewrite (H a (or_introl eq_refl)), IH; auto.
  intros b Hb. apply H. now right.
Qed.

Lemma flat_map_perm_in {A B : Type} (f g : A -> list B) (l : list A) :
  (forall a, In a l -> Permutation (f a) (g a)) ->
  Permutation (flat_map f l) (flat_map g l).
Proof.
  induction l as [|a l IH]; intros H; simpl; [constructor|].
  apply Permutation_app.
  - apply H. now left.
  - apply IH. intros b Hb. apply H. now right.
Qed.

Lemma map_flat_map {A B C : Type} (h : B -> C) (f : A -> list B) (l : list A) :
  map h (flat_map f l) = flat_map (fun a => map h (f a)) l.
Proof.
  induction l as [|a l IH]; simpl; [reflexivity|].
  now rewrite map_app, IH.
Qed.

Lemma StronglySorted_app {A : Type} (R : A -> A -> Prop) (l1 l2 : list A) :
  StronglySorted R l1 -> StronglySorted R l2 ->
  (forall a b, In a l1 -> In b l2 -> R a b) ->
  StronglySorted R (l1 ++ l2).
Proof.
  induction l1 as [|x l1 IH]; intros H1 H2 Hc; simpl; [assumption|].
  inversion H1 as [|? ? Hs Hf]; subst.
  constructor.
  - apply IH; auto. intros a b Ha Hb. apply Hc; [now right|assumption].
  - apply Forall_app. split; [assumption|].
    apply Forall_forall. intros b Hb. apply Hc; [now left|assumption].
Qed.

Lemma string_leb_iff (a b : string) :
  String.leb a b = true <-> a = b \/ String_as_OT.lt a b.
Proof.
  unfold String.leb.
  destruct (String.compare a b) eqn:E.
  - apply String.compare_eq_iff in E. tauto.
  - apply String_as_OT.cmp_lt in E. tauto.
  - split; [discriminate|].
    intros [->|H].
    + assert (String_as_OT.cmp b b = Eq) as H by now apply String_as_OT.cmp_eq.
      unfold String_as_OT.cmp in H. congruence.
    + apply String_as_OT.cmp_lt in H. unfold String_as_OT.cmp in H. congruence.
Qed.

Lemma string_leb_trans (a b c : string) :
  String.leb a b = true -> String.leb b c = true -> String.leb a c = true.
Proof.
  rewrite !string_leb_iff.
  intros [->|H1] [->|H2]; auto.
  right. eapply String_as_OT.lt_trans; eassumption.
Qed.

Lemma sorted_strongly (l : list string) :
  StronglySorted (fun a b => String.leb a b = true) (sorted l).
Proof.
  apply (StringSort.StronglySorted_sort l).
  intros a b c. unfold is_true, StringOrder.leb. apply string_leb_trans.
Qed.

Lemma sorted_perm (l : list string) : Permutation (sorted l) l.
Proof. symmetry. apply StringSort.Permuted_sort. Qed.

(** ** Dictionaries *)

Lemma get_not_in_keys {V : Type} (k : string) (d : Dict.t V) :
  ~ In k (Dict.keys d) -> Dict.get k d = None.
Proof.
  induction d as [|[k' v] d IH]; simpl; intros H; [reflexivity|].
  destruct (String.eqb_spec k' k) as [->|Hne]; [tauto|].
  apply IH. tauto.
Qed.

Lemma flat_map_get_keys {V B : Type} (g : string -> V -> list B) (d : Dict.t V) :
  Dict.wf d ->
  flat_map (fun k => match Dict.get k d with
                     | Some v => g k v
                     | None => []
                     end) (Dict.keys d)
  = flat_map (fun kv => g (fst kv) (snd kv)) d.
Proof.
  unfold Dict.wf.
  induction d as [|[k v] d IH]; simpl; intros H; [reflexivity|].
  inversion H as [|? ? Hnin Hnd]; subst.
  rewrite String.eqb_refl. f_equal.
  rewrite <- (IH Hnd).
  apply flat_map_ext_in. intros a Ha.
  destruct (String.eqb_spec k a) as [->|Hne]; [contradiction|reflexivity].
Qed.

(** ** Naming *)

Lemma build_filename_cells repr_text prefix combination :
  Submitter.build_filename repr_text prefix combination
  = String.concat "__"
      (prefix :: map (cell_token repr_text) (ordered_cells combination)).
Proof.
  unfold Submitter.build_filename, ordered_cells, Submitter.node_parts.
  do 2 f_equal.
  rewrite map_flat_map. apply flat_map_ext_in. intros node _.
  destruct (Dict.get node combination) as [params|]; [|reflexivity].
  rewrite map_flat_map. apply flat_map_ext_in. intros param _.
  destruct (Dict.get param params); reflexivity.
Qed.

Lemma node_cells_perm (node : string) (params : Dict.t value) :
  Dict.wf params ->
  Permutation
    (flat_map (fun param_name =>
                 match Dict.get param_name params with
                 | Some v => [(node, param_name, v)]
                 | None => []
                 end)
              (sorted (Dict.keys params)))
    (map (fun pv => (node, fst pv, snd pv)) params).
Proof.
  intros Hwf.
  rewrite (Permutation_flat_map _ (sorted_perm (Dict.keys params))).
  rewrite (flat_map_get_keys (fun p v => [(node, p, v)]) params Hwf).
  clear Hwf. induction params as [|[p v] params IH]; simpl; [constructor|].
  now constructor.
Qed.

Lemma ordered_cells_perm (combination : assignment) :
  assignment_wf combination ->
  Permutation (ordered_cells combination) (cells combination).
Proof.
  intros [Hwf Hin]. unfold ordered_cells, cells.
  rewrite (Permutation_flat_map _ (sorted_perm (Dict.keys combination))).
  rewrite (flat_map_get_keys
             (fun node params =>
                flat_map (fun param_name =>
                            match Dict.get param_name params with
                            | Some v => [(node, param_name, v)]
                            | None => []
                            end)
                         (sorted (Dict.keys params)))
             combination Hwf).
  apply flat_map_perm_in. intros [node params] Hnp. simpl.
  apply node_cells_perm.
  rewrite Forall_forall in Hin. exact (Hin _ Hnp).
Qed.

Lemma node_cells_sorted (node : string) (params : Dict.t value) (ps : list string) :
  StronglySorted (fun a b => String.leb a b = true) ps ->
  StronglySorted cell_le
    (flat_map (fun param_name =>
                 match Dict.get param_name params with
                 | Some v => [(node, param_name, v)]
                 | None => []
                 end) ps).
Proof.
  induction 1 as [|p ps Hs IH Hf]; simpl; [constructor|].
  apply StronglySorted_app; auto.
  - destruct (Dict.get p params); repeat constructor.
  - intros a b Ha Hb.
    destruct (Dict.get p params) as [v|]; [|contradiction].
    destruct Ha as [<-|[]].
    apply in_flat_map in Hb. destruct Hb as [q [Hq Hb]].
    destruct (Dict.get q params) as [w|]; [|contradiction].
    destruct Hb as [<-|[]].
    unfold cell_le, cell_leb. simpl. rewrite String.eqb_refl.
    rewrite Forall_forall in Hf. auto.
Qed.

Lemma in_node_cells (node : string) (params : Dict.t value) (ps : list string) c :
  In c (flat_map (fun param_name =>
                    match Dict.get param_name params with
                    | Some v => [(node, param_name, v)]
                    | None => []
                    end) ps) ->
  fst (fst c) = node.
Proof.
  intros H. apply in_flat_map in H. destruct H as [q [_ H]].
  destruct (Dict.get q params); [|contradiction].
  destruct H as [<-|[]]. reflexivity.
Qed.

Lemma ordered_cells_sorted (combination : assignment) :
  Dict.wf combination -> StronglySorted cell_le (ordered_cells combination).
Proof.
  intros Hwf. unfold ordered_cells.
  assert (Hnd : NoDup (sorted (Dict.keys combination))).
  { eapply Permutation_NoDup; [symmetry; apply sorted_perm|exact Hwf]. }
  pose proof (sorted_strongly (Dict.keys combination)) as Hs.
  induction Hs as [|n ns Hs IH Hf]; simpl; [constructor|].
  inversion Hnd as [|? ? Hnin Hnd']; subst.
  apply StronglySorted_app; auto.
  - destruct (Dict.get n combination); [|constructor].
    apply node_cells_sorted, sorted_strongly.
  - intros a b Ha Hb.
    destruct (Dict.get n combination) as [params|]; [|contradiction].
    apply in_node_cells in Ha.
    apply in_flat_map in Hb. destruct Hb as [m [Hm Hb]].
    destruct (Dict.get m combination) as [params'|]; [|contradiction].
    apply in_node_cells in Hb.
    unfold cell_le, cell_leb. rewrite Ha, Hb.
    destruct (String.eqb_spec n m) as [->|_]; [contradiction|].
    rewrite Forall_forall in Hf. auto.
Qed.

(** C1.  [build_filename] returns the prefix followed by one token
    [node-param-sanitize(value)] per cell of the assignment, the cells
    taken in lexicographic order of node and, within a node, of param,
    all joined with a double underscore; and
    [build_filename("img", {"A": {"p": 3.0}, "B": {"q": "x y"}})] is
    ["img__A-p-3__B-q-x_y"]. *)
Theorem build_filename_sorted_tokens (repr_text : value -> string) :
  (forall prefix combination,
      assignment_wf combination ->
      exists cs,
        Permutation cs (cells combination)
        /\ StronglySorted cell_le cs
        /\ Submitter.build_filename repr_text prefix combination
           = String.concat "__" (prefix :: map (cell_token repr_text) cs))
  /\ Submitter.build_filename repr_text "img" example_assignment
     = "img__A-p-3__B-q-x_y".
Proof.
  split; [|reflexivity].
  intros prefix combination Hwf.
  exists (ordered_cells combination).
  split; [now apply ordered_cells_perm|].
  split; [apply ordered_cells_sorted, Hwf|].
  apply build_filename_cells.
Qed.

Lemma example_assignment_wf : assignment_wf example_assignment.
Proof.
  split.
  - repeat constructor; simpl; intuition discriminate.
  - repeat constructor; simpl; intuition discriminate.
Defined.

Lemma build_filename_sorted_tokens_witness :
  assignment_wf example_assignment
  /\ exists cs,
      Permutation cs (cells example_assignment)
      /\ StronglySorted cell_le cs
      /\ Submitter.build_filename (fun _ => "") "out" example_assignment
         = String.concat "__" ("out" :: map (cell_token (fun _ => "")) cs).
Proof.
  split; [exact example_assignment_wf|].
  apply (proj1 (build_filename_sorted_tokens (fun _ => ""))).
  exact example_assignment_wf.
Defined.

(** C10.  The viewer's [stringify_value] and [sanitize_value] return the
    submitter's strings for every value, and the base name the viewer
    rebuilds for an assignment is the submitter's [build_filename] for
    the same prefix and assignment. *)
Theorem viewer_names_match_submitter (repr_text : value -> string) :
  (forall v, Viewer.stringify_value repr_text v
             = Submitter.stringify_value repr_text v)
  /\ (forall v, Viewer.sanitize_value repr_text v
                = Submitter.sanitize_value repr_text v)
  /\ (forall prefix combo,
         Viewer.base_name repr_text prefix combo
         = Submitter.build_filename repr_text prefix combo).
Proof.
  assert (Hs : forall v, Viewer.stringify_value repr_text v
                         = Submitter.stringify_value repr_text v).
  { intros v. destruct v; reflexivity. }
  assert (Hz : forall v, Viewer.sanitize_value repr_text v
                         = Submitter.sanitize_value repr_text v).
  { intros v. unfold Viewer.sanitize_value, Submitter.sanitize_value.
    now rewrite Hs. }
  split; [exact Hs|]. split; [exact Hz|].
  intros prefix combo. reflexivity.
Qed.

(** ** Configuration: normalisation and serialisation *)

Section ConfigProperties.
Import Config ConfigSpec.

(** C6.  The legacy override list [[["A","p",1]]] normalises to
    [{"A": [["p", 1]]}], and the legacy wedge mapping
    [{"p": ["A", [0,1,0.5], "minmax"]}] to
    [{"A": [["p", [0,1,0.5], "minmax"]]}]: legacy entries are re-keyed
    by node. *)
Theorem legacy_forms_rekeyed_by_node :
  _normalize_overrides (VList [VList [VStr "A"; VStr "p"; VInt 1]])
  = OK [("A", [[VStr "p"; VInt 1]])]
  /\ _normalize_wedges
       (VDict [("p", VList [VStr "A";
                            VList [VInt 0; VInt 1; VFloat f_0_5];
                            VStr "minmax"])])
     = OK [("A", [[VStr "p";
                   VList [VInt 0; VInt 1; VFloat f_0_5];
                   VStr "minmax"]])].
Proof. split; reflexivity. Qed.

Lemma set_fresh {V : Type} (k : string) (v : V) (d : Dict.t V) :
  ~ In k (Dict.keys d) -> Dict.set k v d = (d ++ [(k, v)])%list.
Proof.
  induction d as [|[k' v'] d IH]; simpl; intros H; [reflexivity|].
  destruct (String.eqb_spec k' k) as [->|Hne]; [tauto|].
  rewrite IH; tauto.
Qed.

Lemma convert_entries_map (n : nat) (es : list (list value)) :
  Forall (fun e => List.length e = n) es ->
  convert_entries n (map VList es) = OK es.
Proof.
  induction 1 as [|e es He _ IH]; simpl; [reflexivity|].
  rewrite He, Nat.eqb_refl, IH. reflexivity.
Qed.

Lemma normalize_overrides_dict_entries (d acc : Dict.t (list ParamOverride)) :
  Forall (fun no => Forall (fun e => List.length e = 2%nat) (snd no)) d ->
  NoDup (Dict.keys acc ++ Dict.keys d) ->
  normalize_overrides_dict
    (map (fun ne => (fst ne, VList (map VList (snd ne)))) d) acc
  = OK (acc ++ d)%list.
Proof.
  revert acc. induction d as [|[node es] d IH]; intros acc Hlen Hnd; simpl.
  - now rewrite app_nil_r.
  - inversion Hlen as [|? ? He Hlen']; subst. simpl in He.
    rewrite (convert_entries_map 2 es He). simpl.
    assert (Hfresh : ~ In node (Dict.keys acc)).
    { intros Hin. simpl in Hnd. apply NoDup_remove_2 in Hnd.
      apply Hnd. apply in_or_app. now left. }
    rewrite (set_fresh node es acc Hfresh).
    rewrite IH; auto.
    + now rewrite <- app_assoc.
    + unfold Dict.keys in *. rewrite map_app. simpl.
      rewrite <- app_assoc. exact Hnd.
Qed.

Lemma normalize_wedges_items_entries (d acc : Dict.t (list ParamWedge)) :
  Forall (fun nw => Forall (fun e => List.length e = 3%nat) (snd nw)) d ->
  no_empty d ->
  NoDup (Dict.keys acc ++ Dict.keys d) ->
  normalize_wedges_items
    (map (fun ne => (fst ne, VList (map VList (snd ne)))) d) acc
  = OK (acc ++ d)%list.
Proof.
  revert acc. induction d as [|[node es] d IH]; intros acc Hlen Hne Hnd; simpl.
  - now rewrite app_nil_r.
  - inversion Hlen as [|? ? He Hlen']; subst. simpl in He.
    inversion Hne as [|? ? Hes Hne']; subst. simpl in Hes.
    destruct es as [|e es]; [congruence|].
    cbn [map is_modern_entry].
    change (VList e :: map VList es) with (map VList (e :: es)).
    rewrite (convert_entries_map 3 (e :: es) He). simpl.
    assert (Hfresh : ~ In node (Dict.keys acc)).
    { intros Hin. simpl in Hnd. apply NoDup_remove_2 in Hnd.
      apply Hnd. apply in_or_app. now left. }
    rewrite (set_fresh node (e :: es) acc Hfresh).
    rewrite IH; auto.
    + now rewrite <- app_assoc.
    + unfold Dict.keys in *. rewrite map_app. simpl.
      rewrite <- app_assoc. exact Hnd.
Qed.

Lemma normalize_overrides_serialised (d : Dict.t (list ParamOverride)) :
  Forall (fun no => Forall (fun e => List.length e = 2%nat) (snd no)) d ->
  Dict.wf d ->
  _normalize_overrides (entries_value d) = OK d.
Proof.
  intros Hlen Hwf. destruct d as [|x d]; [reflexivity|].
  unfold entries_value, _normalize_overrides.
  change (map ?f (x :: d)) with (f x :: map f d).
  change (?f x :: map ?f d) with (map f (x :: d)) at 1.
  cbv beta.
  pose proof (normalize_overrides_dict_entries (x :: d) [] Hlen Hwf) as H.
  simpl in H. simpl. exact H.
Qed.

Lemma normalize_wedges_serialised (d : Dict.t (list ParamWedge)) :
  Forall (fun nw => Forall (fun e => List.length e = 3%nat) (snd nw)) d ->
  no_empty d ->
  Dict.wf d ->
  _normalize_wedges (entries_value d) = OK d.
Proof.
  intros Hlen Hne Hwf. destruct d as [|x d]; [reflexivity|].
  pose proof (normalize_wedges_items_entries (x :: d) [] Hlen Hne Hwf) as H.
  unfold entries_value, _normalize_wedges. simpl in H. simpl. exact H.
Qed.

Lemma valid_wedge_length (e : ParamWedge) :
  valid_wedge e = true -> List.length e = 3%nat.
Proof.
  destruct e as [|a [|b [|c [|? ?]]]]; simpl; intros H;
    try discriminate; reflexivity.
Qed.

Lemma vet_ok (c : WedgeConfig) :
  vet c = OK tt ->
  nonempty_str (output_folder c) = true
  /\ nonempty_str (filename_prefix c) = true
  /\ nonempty_str (url c) = true
  /\ Forall (fun no => Forall (fun e => List.length e = 2%nat) (snd no))
            (param_overrides c)
  /\ Forall (fun nw => Forall (fun e => valid_wedge e = true) (snd nw))
            (param_wedges c).
Proof.
  unfold vet.
  destruct (nonempty_str (output_folder c)); [|discriminate].
  destruct (nonempty_str (filename_prefix c)); [|discriminate].
  destruct (nonempty_str (url c)); [|discriminate].
  simpl.
  match goal with
  | |- context [forallb ?f (param_overrides c)] =>
      destruct (forallb f (param_overrides c)) eqn:Ho; [|discriminate]
  end.
  match goal with
  | |- context [forallb ?f (param_wedges c)] =>
      destruct (forallb f (param_wedges c)) eqn:Hw; [|discriminate]
  end.
  intros _. repeat split; auto.
  - rewrite forallb_forall in Ho. apply Forall_forall. intros no Hin.
    specialize (Ho no Hin). rewrite forallb_forall in Ho.
    apply Forall_forall. intros e He. apply Nat.eqb_eq. auto.
  - rewrite forallb_forall in Hw. apply Forall_forall. intros nw Hin.
    specialize (Hw nw Hin). rewrite forallb_forall in Hw.
    apply Forall_forall. auto.
Qed.

Lemma nonempty_str_truthy (v : value) : nonempty_str v = true -> truthy v = true.
Proof. destruct v; simpl; auto; discriminate. Qed.

(** C5.  For a canonical configuration [c], normalising the serialised
    form of [c] gives [c] back, and the serialised form has the
    current shape: [param_overrides] a mapping node -> [[param, value]]
    pairs, [param_wedges] a mapping node -> [[param, values_spec,
    kind]] triples which the loader reads as the current form, never
    as the legacy one. *)
Theorem serialize_normalize_roundtrip (c : WedgeConfig) :
  canonical c ->
  from_dict (to_dict c) = OK c
  /\ current_overrides_shape (get_default "param_overrides" (to_dict c) VNone)
  /\ current_wedges_shape (get_default "param_wedges" (to_dict c) VNone).
Proof.
  intros (Hvet & Hwo & Hww & Hne).
  destruct (vet_ok c Hvet) as (Hof & Hfp & Hurl & Hlo & Hlw).
  assert (Hlw3 : Forall (fun nw => Forall (fun e => List.length e = 3%nat) (snd nw))
                        (param_wedges c)).
  { eapply Forall_impl; [|exact Hlw]. intros nw H.
    eapply Forall_impl; [|exact H]. intros e. apply valid_wedge_length. }
  split; [|split].
  - unfold from_dict, to_dict, get_default. cbn [Dict.get String.eqb Ascii.eqb Bool.eqb].
    rewrite (nonempty_str_truthy _ Hof).
    rewrite (normalize_overrides_serialised _ Hlo Hwo).
    rewrite (normalize_wedges_serialised _ Hlw3 Hne Hww).
    cbn [bind]. destruct c; cbn in *. rewrite Hvet. reflexivity.
  - unfold to_dict, get_default. cbn [Dict.get String.eqb Ascii.eqb Bool.eqb].
    eexists. split; [reflexivity|].
    apply Forall_forall. intros kv Hin. apply in_map_iff in Hin.
    destruct Hin as [no [<- Hin]]. exists (snd no). split; [reflexivity|].
    rewrite Forall_forall in Hlo. auto.
  - unfold to_dict, get_default. cbn [Dict.get String.eqb Ascii.eqb Bool.eqb].
    eexists. split; [reflexivity|].
    apply Forall_forall. intros kv Hin. apply in_map_iff in Hin.
    destruct Hin as [nw [<- Hin]]. cbn [snd fst].
    unfold no_empty in Hne. rewrite Forall_forall in Hlw, Hne.
    specialize (Hne nw Hin). specialize (Hlw nw Hin).
    split.
    + destruct nw as [n [|e es]]; simpl in *; [now elim Hne|reflexivity].
    + exists (snd nw). split; [reflexivity|exact Hlw].
Qed.

Lemma example_config_canonical : canonical example_config.
Proof.
  repeat split.
  - repeat constructor; simpl; tauto.
  - repeat constructor; simpl; tauto.
  - repeat constructor; simpl; discriminate.
Defined.

Lemma serialize_normalize_roundtrip_witness :
  canonical example_config
  /\ from_dict (to_dict example_config) = OK example_config.
Proof.
  split; [exact example_config_canonical|].
  exact (proj1 (serialize_normalize_roundtrip example_config
                  example_config_canonical)).
Defined.

End ConfigProperties.

(** ** Configuration: mutators and the no-empty-sequence invariant *)

Section ConfigInvariant.
Import Config ConfigSpec.

Lemma get_set_same {V : Type} (k : string) (v : V) (d : Dict.t V) :
  Dict.get k (Dict.set k v d) = Some v.
Proof.
  induction d as [|[k' v'] d IH]; simpl.
  - now rewrite String.eqb_refl.
  - destruct (String.eqb_spec k' k) as [->|Hne]; simpl.
    + now rewrite String.eqb_refl.
    + destruct (String.eqb_spec k' k); [contradiction|exact IH].
Qed.

Lemma no_empty_set {A : Type} (k : string) (l : list A) (d : Dict.t (list A)) :
  no_empty d -> l <> [] -> no_empty (Dict.set k l d).
Proof.
  unfold no_empty. intros Hd Hl.
  induction Hd as [|[k' l'] d Hk Hd IH]; simpl.
  - now repeat constructor.
  - destruct (String.eqb k' k); constructor; auto.
Qed.

Lemma no_empty_pop {A : Type} (k : string) (d : Dict.t (list A)) :
  no_empty d -> no_empty (Dict.pop k d).
Proof.
  unfold no_empty. intros Hd.
  induction Hd as [|[k' l'] d Hk Hd IH]; simpl; [constructor|].
  destruct (String.eqb k' k); [assumption|now constructor].
Qed.

Lemma no_empty_setdefault_append {A : Type} (k : string) (x : A)
      (d : Dict.t (list A)) :
  no_empty d -> no_empty (setdefault_append k x d).
Proof.
  unfold no_empty. intros Hd.
  induction Hd as [|[k' l'] d Hk Hd IH]; simpl.
  - repeat constructor. simpl. discriminate.
  - destruct (String.eqb k' k); constructor; auto.
    simpl. intros H. apply app_eq_nil in H. destruct H; discriminate.
Qed.

Lemma pop_removes_key {V : Type} (k : string) (d : Dict.t V) :
  Dict.wf d -> ~ In k (Dict.keys (Dict.pop k d)).
Proof.
  unfold Dict.wf.
  induction d as [|[k' v'] d IH]; simpl; intros Hnd; [tauto|].
  inversion Hnd as [|? ? Hnin Hnd']; subst.
  destruct (String.eqb_spec k' k) as [->|Hne]; [assumption|].
  simpl. intros [H|H]; [contradiction|]. now apply IH.
Qed.

Lemma without_param_filter (param : string) (entries kept : list (list value)) :
  without_param param entries = OK kept ->
  kept = filter (fun e => negb (head_is param e)) entries
  /\ Forall (fun e => e <> []) entries.
Proof.
  revert kept. induction entries as [|e es IH]; simpl; intros kept H.
  - inversion H. split; [reflexivity|constructor].
  - destruct e as [|h t]; [discriminate|].
    destruct (without_param param es) as [kept'|] eqn:E; [|discriminate].
    simpl in H. inversion H; subst. clear H.
    destruct (IH kept' eq_refl) as [-> Hne].
    split; [|constructor; [discriminate|assumption]].
    simpl. destruct (eq_str h param); reflexivity.
Qed.

Lemma count_param_kept (param : string) (entries : list (list value)) :
  count_param param (filter (fun e => negb (head_is param e)) entries) = 0%nat.
Proof.
  unfold count_param. induction entries as [|e es IH]; simpl; [reflexivity|].
  destruct (head_is param e) eqn:E; simpl; [exact IH|].
  fold (head_is param e). rewrite E. exact IH.
Qed.

Lemma count_param_app (param : string) (l1 l2 : list (list value)) :
  count_param param (l1 ++ l2) = (count_param param l1 + count_param param l2)%nat.
Proof. unfold count_param. now rewrite filter_app, length_app. Qed.

Lemma find_param_replaced (param : string) (entries : list (list value))
      (rest : list value) :
  Forall (fun e => e <> []) entries ->
  find_param param
    (filter (fun e => negb (head_is param e)) entries ++ [VStr param :: rest])
  = OK (Some (VStr param :: rest)).
Proof.
  induction 1 as [|e es He _ IH]; simpl.
  - now rewrite String.eqb_refl.
  - destruct e as [|h t]; [congruence|]. simpl.
    destruct (eq_str h param) eqn:E; simpl; [exact IH|].
    rewrite E. exact IH.
Qed.

(** What [set_entry] does to a mapping. *)
Lemma set_entry_replaces (node param : string) (rest : list value)
      (d d' : Dict.t (list (list value))) :
  set_entry node param (VStr param :: rest) d = OK d' ->
  (no_empty d -> no_empty d')
  /\ (exists entries,
         Dict.get node d' = Some entries
         /\ count_param param entries = 1%nat
         /\ find_param param entries = OK (Some (VStr param :: rest))).
Proof.
  unfold set_entry. intros H.
  destruct (without_param param _) as [kept|] eqn:E; [|discriminate].
  simpl in H. inversion H; subst. clear H.
  apply without_param_filter in E. destruct E as [-> Hne].
  split.
  - intros Hd. apply no_empty_set; [assumption|].
    intros H. apply app_eq_nil in H. destruct H; discriminate.
  - eexists. split; [apply get_set_same|]. split.
    + rewrite count_param_app, count_param_kept. unfold count_param. simpl.
      now rewrite String.eqb_refl.
    + now apply find_param_replaced.
Qed.

Lemma remove_entry_no_empty (node param : string)
      (d d' : Dict.t (list (list value))) (b : bool) :
  remove_entry node param d = OK (d', b) -> no_empty d -> no_empty d'.
Proof.
  unfold remove_entry. intros H Hd.
  destruct (Dict.get node d) as [[|e es]|]; try (inversion H; subst; assumption).
  destruct (without_param param (e :: es)) as [kept|]; [|discriminate].
  simpl in H. destruct kept as [|k ks]; inversion H; subst.
  - now apply no_empty_pop.
  - apply no_empty_set; [assumption|discriminate].
Qed.

Lemma remove_entry_last (node param : string) (rest : list value)
      (d : Dict.t (list (list value))) :
  Dict.wf d ->
  Dict.get node d = Some [VStr param :: rest] ->
  exists d', remove_entry node param d = OK (d', true)
             /\ ~ In node (Dict.keys d').
Proof.
  intros Hwf Hget. unfold remove_entry. rewrite Hget. simpl.
  rewrite String.eqb_refl. simpl.
  eexists. split; [reflexivity|]. now apply pop_removes_key.
Qed.

Lemma convert_entries_length (n : nat) (entries : list value) converted :
  convert_entries n entries = OK converted ->
  List.length converted = List.length entries.
Proof.
  revert converted. induction entries as [|e es IH]; simpl; intros converted H.
  - now inversion H.
  - destruct e; try discriminate.
    destruct (Nat.eqb _ n); [|discriminate].
    destruct (convert_entries n es) as [c|]; [|discriminate].
    simpl in H. inversion H; subst. simpl. f_equal. now apply IH.
Qed.

Lemma normalize_wedges_items_no_empty items :
  forall acc w,
    normalize_wedges_items items acc = OK w -> no_empty acc -> no_empty w.
Proof.
  induction items as [|[key v] items IH]; simpl; intros acc w H Hacc.
  - inversion H; subst; assumption.
  - destruct (is_modern_entry v) eqn:Em.
    + destruct v as [| | | | |l|]; try discriminate.
      destruct (convert_entries 3 l) as [converted|] eqn:Ec; [|discriminate].
      simpl in H. apply (IH _ _ H).
      apply no_empty_set; [assumption|].
      apply convert_entries_length in Ec.
      destruct l; [discriminate|]. destruct converted; discriminate.
    + destruct v as [| | | | |l|]; simpl in H; try discriminate.
      destruct l as [|a [|b [|c [|? ?]]]]; simpl in H; try discriminate;
        destruct a; try discriminate.
      apply (IH _ _ H). now apply no_empty_setdefault_append.
Qed.

Lemma normalize_overrides_list_no_empty entries :
  forall acc o,
    normalize_overrides_list entries acc = OK o -> no_empty acc -> no_empty o.
Proof.
  induction entries as [|e es IH]; simpl; intros acc o H Hacc.
  - inversion H; subst; assumption.
  - destruct e as [| | | | |l|]; try discriminate.
    destruct l as [|a [|b [|c [|? ?]]]]; try discriminate;
      destruct a; try discriminate.
    apply (IH _ _ H). now apply no_empty_setdefault_append.
Qed.

Lemma normalize_overrides_dict_no_empty items :
  forall acc o,
    normalize_overrides_dict items acc = OK o ->
    Forall (fun kv => snd kv <> VList []) items ->
    no_empty acc -> no_empty o.
Proof.
  induction items as [|[node v] items IH]; simpl; intros acc o H Hne Hacc.
  - inversion H; subst; assumption.
  - inversion Hne as [|? ? Hv Hne']; subst. simpl in Hv.
    destruct v as [| | | | |l|]; try discriminate.
    destruct (convert_entries 2 l) as [converted|] eqn:Ec; [|discriminate].
    simpl in H. apply (IH _ _ H Hne').
    apply no_empty_set; [assumption|].
    apply convert_entries_length in Ec.
    destruct l; [congruence|]. destruct converted; discriminate.
Qed.

(** C9, as the code has it.  The mutators keep the invariant "no node
    is mapped to an empty sequence" and have replace semantics: after
    setting an override or a wedge, the node's sequence holds exactly
    one entry for the param, the one just set; removing the only entry
    of a node deletes the node key.  Normalisation never produces an
    empty sequence of wedges, nor of overrides from the legacy list
    form; from the mapping form it produces one exactly where the
    document has one. *)
Theorem mutators_keep_sequences_nonempty :
  (forall c node param v c',
      set_param_override c node param v = OK c' ->
      (no_empty (param_overrides c) -> no_empty (param_overrides c'))
      /\ (exists entries,
             Dict.get node (param_overrides c') = Some entries
             /\ count_param param entries = 1%nat)
      /\ get_param_override c' node param = OK (Some [VStr param; v]))
  /\ (forall c node param vs kind c',
         set_param_wedge c node param vs kind = OK c' ->
         (no_empty (param_wedges c) -> no_empty (param_wedges c'))
         /\ (exists entries,
                Dict.get node (param_wedges c') = Some entries
                /\ count_param param entries = 1%nat)
         /\ get_param_wedge c' node param
            = OK (Some [VStr param; VList vs; VStr kind]))
  /\ (forall c node param c' b,
         remove_param_override c node param = OK (c', b) ->
         no_empty (param_overrides c) -> no_empty (param_overrides c'))
  /\ (forall c node param c' b,
         remove_param_wedge c node param = OK (c', b) ->
         no_empty (param_wedges c) -> no_empty (param_wedges c'))
  /\ (forall c node param v,
         Dict.wf (param_overrides c) ->
         Dict.get node (param_overrides c) = Some [[VStr param; v]] ->
         exists c', remove_param_override c node param = OK (c', true)
                    /\ ~ In node (Dict.keys (param_overrides c')))
  /\ (forall c node param vs kind,
         Dict.wf (param_wedges c) ->
         Dict.get node (param_wedges c) = Some [[VStr param; vs; kind]] ->
         exists c', remove_param_wedge c node param = OK (c', true)
                    /\ ~ In node (Dict.keys (param_wedges c')))
  /\ (forall raw w, _normalize_wedges raw = OK w -> no_empty w)
  /\ (forall entries o, _normalize_overrides (VList entries) = OK o -> no_empty o)
  /\ (forall items o,
         _normalize_overrides (VDict items) = OK o ->
         Forall (fun kv => snd kv <> VList []) items -> no_empty o).
Proof.
  repeat match goal with |- _ /\ _ => split end.
  - intros c node param v c' H. unfold set_param_override in H.
    destruct (set_entry _ _ _ _) as [d|] eqn:E; [|discriminate].
    simpl in H. inversion H; subst. clear H.
    destruct (set_entry_replaces _ _ _ _ _ E) as (Hinv & entries & Hg & Hc & Hf).
    split; [exact Hinv|]. split; [now exists entries|].
    unfold get_param_override. simpl. now rewrite Hg.
  - intros c node param vs kind c' H. unfold set_param_wedge in H.
    destruct (negb _); [discriminate|].
    destruct (set_entry _ _ _ _) as [d|] eqn:E; [|discriminate].
    simpl in H. inversion H; subst. clear H.
    destruct (set_entry_replaces _ _ _ _ _ E) as (Hinv & entries & Hg & Hc & Hf).
    split; [exact Hinv|]. split; [now exists entries|].
    unfold get_param_wedge. simpl. now rewrite Hg.
  - intros c node param c' b H. unfold remove_param_override in H.
    destruct (remove_entry _ _ _) as [[d b']|] eqn:E; [|discriminate].
    simpl in H. inversion H; subst. simpl.
    eapply remove_entry_no_empty; eassumption.
  - intros c node param c' b H. unfold remove_param_wedge in H.
    destruct (remove_entry _ _ _) as [[d b']|] eqn:E; [|discriminate].
    simpl in H. inversion H; subst. simpl.
    eapply remove_entry_no_empty; eassumption.
  - intros c node param v Hwf Hget.
    destruct (remove_entry_last _ _ _ _ Hwf Hget) as (d' & Hr & Hk).
    unfold remove_param_override. rewrite Hr. simpl.
    eexists. split; [reflexivity|exact Hk].
  - intros c node param vs kind Hwf Hget.
    destruct (remove_entry_last _ _ _ _ Hwf Hget) as (d' & Hr & Hk).
    unfold remove_param_wedge. rewrite Hr. simpl.
    eexists. split; [reflexivity|exact Hk].
  - intros raw w H. unfold _normalize_wedges in H.
    destruct raw as [| | | | | |d]; try discriminate.
    + inversion H. constructor.
    + destruct d as [|x d]; [inversion H; constructor|].
      eapply normalize_wedges_items_no_empty; [exact H|constructor].
  - intros entries o H.
    eapply normalize_overrides_list_no_empty; [exact H|constructor].
  - intros items o H Hne. destruct items as [|x items].
    + inversion H. constructor.
    + eapply normalize_overrides_dict_no_empty; [exact H|exact Hne|constructor].
Qed.

Lemma mutators_keep_sequences_nonempty_witness :
  exists c',
    set_param_override example_config "KSampler" "steps" (VInt 30) = OK c'
    /\ no_empty (param_overrides c')
    /\ get_param_override c' "KSampler" "steps" = OK (Some [VStr "steps"; VInt 30]).
Proof.
  eexists. split; [reflexivity|].
  destruct mutators_keep_sequences_nonempty as (Hset & _).
  destruct (Hset example_config "KSampler" "steps" (VInt 30) _ eq_refl)
    as (Hinv & _ & Hget).
  split; [|exact Hget].
  apply Hinv. repeat constructor. simpl. discriminate.
Defined.

(** C9 as stated fails at construction: a document whose overrides map
    a node to an empty list is accepted, and the configuration built
    from it maps that node to an empty sequence. *)
Lemma normalisation_keeps_empty_override_sequence :
  from_dict empty_overrides_document
  = OK {| output_folder := VStr "out";
          filename_prefix := VStr "img";
          url := VStr "127.0.0.1:8188";
          param_overrides := [("A", [])];
          param_wedges := [] |}
  /\ ~ no_empty (A:=ParamOverride) [("A", [])].
Proof.
  split; [reflexivity|].
  intros H. inversion H as [|? ? Hhd _]; subst. now apply Hhd.
Qed.

End ConfigInvariant.

(** ** Numeric coercion *)

Section CoercionProperties.
Import ExpandSpec.

Lemma nearest_even_div_close (a d : Z) :
  0 < d -> 2 * Z.abs (a - PyFloat.nearest_even_div a d * d) <= d.
Proof.
  intros Hd. unfold PyFloat.nearest_even_div.
  pose proof (Z.div_mod a d ltac:(lia)) as Hdm.
  pose proof (Z.mod_pos_bound a d Hd) as Hb.
  destruct (Z.compare_spec (2 * (a mod d)) d) as [He|Hl|Hg].
  - destruct (Z.even (a / d)); lia.
  - lia.
  - lia.
Qed.

(** C3: the code breaks the stated rule, at [2.000000001].  The value
    is its own rounding to 10 decimals and lies [1e-9] from its nearest
    integer, more than [1e-10]: the rule keeps the float, and so does
    the viewer's [expand_minmax], which applies the rule as stated in
    order to match the submitter's names.  [_coerce_numeric] tests
    [math.isclose] with its default relative tolerance [1e-9] instead
    and returns the integer [2]: the submitter names the value [2]
    where the viewer names it [2.000000001]. *)
Theorem coerce_numeric_snaps_beyond_1e_10 :
  PyFloat.round_ndigits f_2_000000001 10 = OK f_2_000000001
  /\ within_1e_10_of_integer f_2_000000001 = false
  /\ coerce_numeric_as_specified (VFloat f_2_000000001)
     = OK (VFloat f_2_000000001)
  /\ ViewerAxes.coerce_current f_2_000000001 = OK (VFloat f_2_000000001)
  /\ _coerce_numeric (VFloat f_2_000000001) = OK (VInt 2)
  /\ (forall repr_text,
         Submitter.sanitize_value repr_text (VInt 2) = "2"
         /\ Viewer.sanitize_value repr_text (VFloat f_2_000000001)
            = "2.000000001").
Proof.
  repeat match goal with |- _ /\ _ => split end;
    try (vm_compute; reflexivity).
  intros repr_text. split; vm_compute; reflexivity.
Qed.

End CoercionProperties.

(** ** Binary64 addition and the order

    Addition rounds the exact sum to the nearest canonical value, and
    rounding to nearest never crosses a canonical value: adding a
    positive step to [x] gives at least [x], adding a step that is not
    positive gives at most [x]. *)

Section Binary64Properties.
Import Binary64.

Lemma fexp_64 (e : Z) : fexp 53 1024 e = Z.max (e - 53) (-1074).
Proof. reflexivity. Qed.

Lemma digits2_bounds (p : positive) :
  2 ^ (Zpos (digits2_pos p) - 1) <= Zpos p < 2 ^ Zpos (digits2_pos p).
Proof.
  induction p as [p IH|p IH|]; cbn [digits2_pos].
  - rewrite Pos2Z.inj_succ.
    replace (Z.succ (Zpos (digits2_pos p)) - 1) with (Z.succ (Zpos (digits2_pos p) - 1)) by lia.
    rewrite !Z.pow_succ_r by lia. lia.
  - rewrite Pos2Z.inj_succ.
    replace (Z.succ (Zpos (digits2_pos p)) - 1) with (Z.succ (Zpos (digits2_pos p) - 1)) by lia.
    rewrite !Z.pow_succ_r by lia. lia.
  - simpl. lia.
Qed.

Lemma digits2_unique (p : positive) (d : Z) :
  2 ^ (d - 1) <= Zpos p < 2 ^ d -> Zpos (digits2_pos p) = d.
Proof.
  intros [Hl Hu]. pose proof (digits2_bounds p) as [Hl' Hu'].
  assert (Hd : 0 < d).
  { destruct (Z.ltb_spec 0 d); [assumption|].
    assert (2 ^ d <= 2 ^ 0) by (destruct (Z.eq_dec d 0); [subst; lia|rewrite Z.pow_neg_r by lia; lia]).
    simpl in *. lia. }
  destruct (Z.lt_trichotomy (Zpos (digits2_pos p)) d) as [H|[H|H]]; [|assumption|].
  - assert (2 ^ Zpos (digits2_pos p) <= 2 ^ (d - 1)) by (apply Z.pow_le_mono_r; lia). lia.
  - assert (2 ^ d <= 2 ^ (Zpos (digits2_pos p) - 1)) by (apply Z.pow_le_mono_r; lia). lia.
Qed.

Lemma bounded_cases (m : positive) (e : Z) :
  bounded 53 1024 m e = true ->
  -1074 <= e <= 971
  /\ Zpos (digits2_pos m) <= 53
  /\ (-1074 < e -> Zpos (digits2_pos m) = 53).
Proof.
  unfold bounded, canonical_mantissa. rewrite fexp_64.
  intros H. apply andb_prop in H. destruct H as [Hc He].
  apply Z.eqb_eq in Hc. apply Z.leb_le in He.
  change (1024 - 53) with 971 in He. lia.
Qed.

Lemma bounded_intro (m : positive) (e : Z) :
  -1074 <= e <= 971 ->
  Zpos (digits2_pos m) <= 53 ->
  (-1074 < e -> Zpos (digits2_pos m) = 53) ->
  bounded 53 1024 m e = true.
Proof.
  intros He Hd Hn. unfold bounded, canonical_mantissa. rewrite fexp_64.
  apply andb_true_intro. split.
  - apply Z.eqb_eq. destruct (Z.eq_dec e (-1074)); lia.
  - apply Z.leb_le. change (1024 - 53) with 971. lia.
Qed.

Lemma units_bounds (m : positive) (e : Z) :
  -1074 <= e ->
  2 ^ (Zpos (digits2_pos m) - 1 + (e + 1074)) <= units m e
    < 2 ^ (Zpos (digits2_pos m) + (e + 1074)).
Proof.
  intros He. unfold units. pose proof (digits2_bounds m) as [Hl Hu].
  assert (Hp : 0 < 2 ^ (e + 1074)) by (apply Z.pow_pos_nonneg; lia).
  rewrite (Z.pow_add_r 2 (Zpos (digits2_pos m) - 1) (e + 1074)) by lia.
  rewrite (Z.pow_add_r 2 (Zpos (digits2_pos m)) (e + 1074)) by lia.
  split.
  - apply Z.mul_le_mono_nonneg_r; lia.
  - apply Z.mul_lt_mono_pos_r; lia.
Qed.

(** Order of canonical magnitudes. *)
Lemma units_lt_exponent (m1 m2 : positive) (e1 e2 : Z) :
  bounded 53 1024 m1 e1 = true -> bounded 53 1024 m2 e2 = true ->
  e1 < e2 -> units m1 e1 < units m2 e2.
Proof.
  intros H1 H2 Hlt.
  destruct (bounded_cases _ _ H1) as (He1 & Hd1 & _).
  destruct (bounded_cases _ _ H2) as (He2 & _ & Hd2).
  pose proof (units_bounds m1 e1 ltac:(lia)) as [_ Hu].
  pose proof (units_bounds m2 e2 ltac:(lia)) as [Hl _].
  rewrite (Hd2 ltac:(lia)) in Hl.
  assert (2 ^ (Zpos (digits2_pos m1) + (e1 + 1074)) <= 2 ^ (53 - 1 + (e2 + 1074)))
    by (apply Z.pow_le_mono_r; lia).
  lia.
Qed.

Lemma compare_units (m1 m2 : positive) (e1 e2 : Z) :
  bounded 53 1024 m1 e1 = true -> bounded 53 1024 m2 e2 = true ->
  SFcompare (S754_finite false m1 e1) (S754_finite false m2 e2)
  = Some (units m1 e1 ?= units m2 e2).
Proof.
  intros H1 H2. cbn [SFcompare]. f_equal.
  destruct (Z.compare_spec e1 e2) as [->|Hlt|Hgt].
  - unfold units.
    destruct (bounded_cases _ _ H2) as (He & _).
    assert (Hp : 0 < 2 ^ (e2 + 1074)) by (apply Z.pow_pos_nonneg; lia).
    change (Pos.compare_cont Eq m1 m2) with (Pos.compare m1 m2).
    destruct (Pos.compare_spec m1 m2) as [->|H|H]; symmetry.
    + apply Z.compare_refl.
    + apply Z.compare_lt_iff. apply Z.mul_lt_mono_pos_r; lia.
    + apply Z.compare_gt_iff. apply Z.mul_lt_mono_pos_r; lia.
  - symmetry. apply Z.compare_lt_iff. now apply units_lt_exponent.
  - symmetry. apply Z.compare_gt_iff. now apply units_lt_exponent.
Qed.

(** *** Shifts *)

Lemma shr_1_m (rec : shr_record) :
  0 <= shr_m rec -> shr_m (shr_1 rec) = shr_m rec / 2 /\ 0 <= shr_m (shr_1 rec).
Proof.
  destruct rec as [m r s]. cbn [shr_m]. intros Hm.
  destruct m as [|p|p]; [split; reflexivity| |lia].
  destruct p as [p|p|]; cbn [shr_1 shr_m].
  - split; [|lia]. rewrite Pos2Z.inj_xI.
    apply Z.div_unique with (r := 1); lia.
  - split; [|lia]. rewrite Pos2Z.inj_xO.
    apply Z.div_unique with (r := 0); lia.
  - split; [reflexivity|lia].
Qed.

Lemma iter_shr_m (p : positive) :
  forall rec,
    0 <= shr_m rec ->
    shr_m (iter_pos shr_1 p rec) = shr_m rec / 2 ^ Zpos p
    /\ 0 <= shr_m (iter_pos shr_1 p rec).
Proof.
  induction p as [p IH|p IH|]; intros rec Hm; cbn [iter_pos].
  - destruct (shr_1_m rec Hm) as [E1 P1].
    destruct (IH _ P1) as [E2 P2]. destruct (IH _ P2) as [E3 P3].
    split; [|exact P3]. rewrite E3, E2, E1.
    assert (Hp : 0 < 2 ^ Zpos p) by (apply Z.pow_pos_nonneg; lia).
    rewrite !Z.div_div by lia. f_equal.
    assert (H2 : Zpos p~1 = Zpos p + Zpos p + 1) by lia.
    rewrite H2, (Z.pow_add_r 2 (Zpos p + Zpos p) 1), (Z.pow_add_r 2 (Zpos p) (Zpos p)) by lia.
    change (2 ^ 1) with 2. lia.
  - destruct (IH _ Hm) as [E2 P2]. destruct (IH _ P2) as [E3 P3].
    split; [|exact P3]. rewrite E3, E2.
    assert (Hp : 0 < 2 ^ Zpos p) by (apply Z.pow_pos_nonneg; lia).
    rewrite !Z.div_div by lia. f_equal.
    assert (H2 : Zpos p~0 = Zpos p + Zpos p) by lia.
    rewrite H2, (Z.pow_add_r 2 (Zpos p) (Zpos p)) by lia. lia.
  - destruct (shr_1_m rec Hm) as [E1 P1]. split; [|exact P1].
    rewrite E1. reflexivity.
Qed.

Lemma shr_record_of_loc_m (m : Z) (l : location) :
  shr_m (shr_record_of_loc m l) = m.
Proof. destruct l as [|[]]; reflexivity. Qed.

Lemma shr_fexp_shift (m e : Z) (l : location) :
  0 <= m ->
  0 < fexp 53 1024 (Zdigits2 m + e) - e ->
  shr_m (fst (shr_fexp 53 1024 m e l)) = m / 2 ^ (fexp 53 1024 (Zdigits2 m + e) - e)
  /\ snd (shr_fexp 53 1024 m e l) = fexp 53 1024 (Zdigits2 m + e).
Proof.
  intros Hm Hn. unfold shr_fexp, shr.
  destruct (fexp 53 1024 (Zdigits2 m + e) - e) as [|p|p] eqn:En; try lia.
  cbn [fst snd]. split; [|lia].
  destruct (iter_shr_m p (shr_record_of_loc m l)) as [E _].
  - now rewrite shr_record_of_loc_m.
  - now rewrite E, shr_record_of_loc_m.
Qed.

Lemma shr_fexp_keep (m e : Z) :
  fexp 53 1024 (Zdigits2 m + e) - e <= 0 ->
  shr_fexp 53 1024 m e loc_Exact = (Build_shr_record m false false, e).
Proof.
  intros Hn. unfold shr_fexp, shr.
  destruct (fexp 53 1024 (Zdigits2 m + e) - e) as [|p|p] eqn:En; try lia; reflexivity.
Qed.

Lemma round_nearest_even_bounds (m : Z) (l : location) :
  m <= round_nearest_even m l <= m + 1.
Proof.
  destruct l as [|[]]; cbn [round_nearest_even]; try lia.
  destruct (Z.even m); lia.
Qed.

Lemma iter_xO (d : positive) (m : positive) :
  Zpos (Pos.iter xO m d) = Zpos m * 2 ^ Zpos d.
Proof.
  induction d as [|d IH] using Pos.peano_ind.
  - simpl. lia.
  - rewrite Pos.iter_succ, Pos2Z.inj_xO, IH, Pos2Z.inj_succ, Z.pow_succ_r by lia.
    lia.
Qed.

(** *** Rounding a positive magnitude *)

Lemma Zdigits2_unique (k d : Z) :
  0 < k -> 2 ^ (d - 1) <= k < 2 ^ d -> Zdigits2 k = d.
Proof.
  intros Hk Hb. destruct k as [|p|p]; try lia.
  cbn [Zdigits2]. now apply digits2_unique.
Qed.

Lemma binary_round_aux_canonical (s : bool) (k t : Z) :
  -1074 <= t -> 0 < k < 2 ^ 53 -> (-1074 < t -> 2 ^ 52 <= k) ->
  Z.max (Zdigits2 k + t - 53) (-1074) = t ->
  binary_round_aux 53 1024 s k t loc_Exact = canon s k t.
Proof.
  intros Ht Hk Hn Hd. unfold binary_round_aux.
  rewrite shr_fexp_keep by (rewrite fexp_64; lia).
  cbn [shr_m loc_of_shr_record round_nearest_even].
  rewrite shr_fexp_keep by (rewrite fexp_64; lia).
  cbn [shr_m]. unfold canon.
  destruct (Z.ltb_spec k (2 ^ 53)) as [_|]; [|lia].
  destruct k as [|p|p]; try lia.
  change (1024 - 53) with 971. reflexivity.
Qed.

Lemma binary_round_spec (s : bool) (mx : positive) (ex : Z) :
  -1074 <= ex ->
  exists t k k',
    -1074 <= t
    /\ 0 < k < 2 ^ 53
    /\ (-1074 < t -> 2 ^ 52 <= k)
    /\ k * 2 ^ (t + 1074) <= units mx ex < (k + 1) * 2 ^ (t + 1074)
    /\ (k' = k \/ k' = k + 1)
    /\ binary_round 53 1024 s mx ex = canon s k' t.
Proof.
  intros Hex.
  set (d := Zpos (digits2_pos mx)).
  set (t := Z.max (d + ex - 53) (-1074)).
  pose proof (digits2_bounds mx) as Hmx. fold d in Hmx.
  assert (Hd : 0 < d) by (unfold d; lia).
  unfold binary_round. rewrite fexp_64. fold d. fold t.
  destruct (Z.le_gt_cases t ex) as [Hle|Hgt].
  - (* no bit is lost: the mantissa is aligned on exponent [t] *)
    set (k := Zpos mx * 2 ^ (ex - t)).
    assert (Hp : 0 < 2 ^ (ex - t)) by (apply Z.pow_pos_nonneg; lia).
    assert (Hsh : shl_align mx ex t = (Z.to_pos k, t)).
    { unfold shl_align. destruct (t - ex) as [|p|p] eqn:E; try lia.
      - assert (t = ex) by lia. subst k. replace (ex - t) with 0 by lia.
        rewrite Z.mul_1_r. simpl. f_equal. lia.
      - f_equal. apply Pos2Z.inj. rewrite iter_xO.
        unfold k. rewrite Z2Pos.id by lia. f_equal. f_equal. lia. }
    rewrite Hsh. rewrite Z2Pos.id by (unfold k; lia).
    assert (Hkd : 2 ^ (d + (ex - t) - 1) <= k < 2 ^ (d + (ex - t))).
    { unfold k.
      replace (d + (ex - t) - 1) with (d - 1 + (ex - t)) by lia.
      rewrite (Z.pow_add_r 2 (d - 1) (ex - t)), (Z.pow_add_r 2 d (ex - t)) by lia.
      split; [apply Z.mul_le_mono_nonneg_r|apply Z.mul_lt_mono_pos_r]; lia. }
    assert (Hk53 : k < 2 ^ 53).
    { assert (2 ^ (d + (ex - t)) <= 2 ^ 53) by (apply Z.pow_le_mono_r; lia). lia. }
    assert (Hk52 : -1074 < t -> 2 ^ 52 <= k).
    { intros Ht. assert (d + (ex - t) - 1 = 52) as E by lia.
      rewrite E in Hkd. lia. }
    exists t, k, k. repeat split; try lia.
    + unfold units, k. rewrite <- Z.mul_assoc, <- Z.pow_add_r by lia.
      replace (ex - t + (t + 1074)) with (ex + 1074) by lia. lia.
    + unfold units, k. rewrite Z.mul_add_distr_r, <- Z.mul_assoc, <- Z.pow_add_r by lia.
      replace (ex - t + (t + 1074)) with (ex + 1074) by lia.
      assert (0 < 2 ^ (t + 1074)) by (apply Z.pow_pos_nonneg; lia). lia.
    + apply binary_round_aux_canonical; try lia.
      rewrite (Zdigits2_unique k (d + (ex - t))) by lia. lia.
  - (* [t - ex] low bits are rounded away *)
    assert (Ht : t = d + ex - 53) by lia.
    set (n := t - ex). assert (Hn : 0 < n) by lia.
    assert (Hsh : shl_align mx ex t = (mx, ex)).
    { unfold shl_align. destruct (t - ex) as [|p|p] eqn:E; try lia; reflexivity. }
    rewrite Hsh. unfold binary_round_aux.
    assert (Hfe : fexp 53 1024 (Zdigits2 (Zpos mx) + ex) = t).
    { rewrite fexp_64. reflexivity. }
    destruct (shr_fexp_shift (Zpos mx) ex loc_Exact ltac:(lia)) as [Em Ee];
      [rewrite Hfe; lia|].
    rewrite Hfe in Em, Ee. fold n in Em.
    destruct (shr_fexp 53 1024 (Zpos mx) ex loc_Exact) as [mrs' e'].
    cbn [fst snd] in Em, Ee. subst e'.
    set (k := Zpos mx / 2 ^ n) in *.
    assert (Hp : 0 < 2 ^ n) by (apply Z.pow_pos_nonneg; lia).
    assert (Hdn : d = 53 + n) by lia.
    assert (Hk : 2 ^ 52 <= k < 2 ^ 53).
    { unfold k. split.
      - apply Z.div_le_lower_bound; [lia|].
        rewrite <- Z.pow_add_r by lia. replace (n + 52) with (d - 1) by lia. lia.
      - apply Z.div_lt_upper_bound; [lia|].
        rewrite <- Z.pow_add_r by lia. replace (n + 53) with d by lia. lia. }
    assert (Hku : k * 2 ^ n <= Zpos mx < (k + 1) * 2 ^ n).
    { unfold k. pose proof (Z.mul_div_le (Zpos mx) (2 ^ n) Hp).
      pose proof (Z.mul_succ_div_gt (Zpos mx) (2 ^ n) Hp). lia. }
    pose proof (round_nearest_even_bounds (shr_m mrs') (loc_of_shr_record mrs')) as Hr.
    set (k' := round_nearest_even (shr_m mrs') (loc_of_shr_record mrs')) in *.
    rewrite Em in Hr.
    assert (Hu : 2 ^ (t + 1074) = 2 ^ n * 2 ^ (ex + 1074)).
    { rewrite <- Z.pow_add_r by lia. f_equal. lia. }
    assert (Hpe : 0 < 2 ^ (ex + 1074)) by (apply Z.pow_pos_nonneg; lia).
    exists t, k, k'. split; [lia|]. split; [lia|]. split; [lia|].
    split.
    { unfold units. rewrite Hu. split.
      - rewrite Z.mul_assoc. apply Z.mul_le_mono_nonneg_r; lia.
      - rewrite Z.mul_assoc. apply Z.mul_lt_mono_pos_r; lia. }
    split; [lia|].
    unfold canon.
    destruct (Z.ltb_spec k' (2 ^ 53)) as [Hlt|Hge].
    + rewrite shr_fexp_keep.
      * cbn [shr_m]. destruct k' as [|p|p]; try lia.
        change (1024 - 53) with 971. reflexivity.
      * rewrite fexp_64, (Zdigits2_unique k' 53) by lia. lia.
    + assert (Ek : k' = 2 ^ 53) by lia.
      destruct (shr_fexp_shift k' t loc_Exact ltac:(lia)) as [Em2 Ee2].
      { rewrite fexp_64, (Zdigits2_unique k' 54) by (rewrite Ek; simpl; lia). lia. }
      rewrite fexp_64, (Zdigits2_unique k' 54) in Em2, Ee2 by (rewrite Ek; simpl; lia).
      destruct (shr_fexp 53 1024 k' t loc_Exact) as [mrs'' e''].
      cbn [fst snd] in Em2, Ee2. rewrite Em2, Ee2, Ek.
      replace (Z.max (54 + t - 53) (-1074)) with (t + 1) by lia.
      replace (t + 1 - t) with 1 by lia.
      change (2 ^ 53 / 2 ^ 1) with (Zpos (Z.to_pos (2 ^ 52))).
      change (1024 - 53) with 971. reflexivity.
Qed.

Lemma canon_finite (s : bool) (k k' t : Z) :
  -1074 <= t -> 0 < k < 2 ^ 53 -> (-1074 < t -> 2 ^ 52 <= k) ->
  k' = k \/ k' = k + 1 ->
  (k' < 2 ^ 53 -> t <= 971) -> (k' = 2 ^ 53 -> t + 1 <= 971) ->
  exists m e,
    canon s k' t = S754_finite s m e
    /\ bounded 53 1024 m e = true
    /\ units m e = k' * 2 ^ (t + 1074).
Proof.
  intros Ht Hk Hn Hk' Hf1 Hf2. unfold canon.
  destruct (Z.ltb_spec k' (2 ^ 53)) as [Hlt|Hge].
  - destruct (Z.leb_spec t 971) as [_|]; [|lia].
    exists (Z.to_pos k'), t. split; [reflexivity|]. split.
    + pose proof (digits2_bounds (Z.to_pos k')) as Hb.
      rewrite Z2Pos.id in Hb by lia.
      apply bounded_intro; [lia| |].
      * destruct (Z.le_gt_cases (Zpos (digits2_pos (Z.to_pos k'))) 53) as [|Hgt];
          [assumption|].
        assert (2 ^ 53 <= 2 ^ (Zpos (digits2_pos (Z.to_pos k')) - 1))
          by (apply Z.pow_le_mono_r; lia). lia.
      * intros Ht'. apply digits2_unique. rewrite Z2Pos.id by lia.
        specialize (Hn Ht'). simpl (53 - 1). lia.
    + unfold units. rewrite Z2Pos.id by lia. reflexivity.
  - assert (Ek : k' = 2 ^ 53) by lia.
    destruct (Z.leb_spec (t + 1) 971) as [_|]; [|lia].
    exists (Z.to_pos (2 ^ 52)), (t + 1). split; [reflexivity|]. split.
    + apply bounded_intro; [lia|simpl; lia|reflexivity].
    + unfold units. rewrite Ek.
      replace (t + 1 + 1074) with (1 + (t + 1074)) by lia.
      rewrite (Z.pow_add_r 2 1 (t + 1074)) by lia.
      change (Zpos (Z.to_pos (2 ^ 52))) with (2 ^ 52).
      change (2 ^ 53) with (2 ^ 52 * 2 ^ 1). lia.
Qed.

Lemma canon_valid (s : bool) (k k' t : Z) :
  -1074 <= t -> 0 < k < 2 ^ 53 -> (-1074 < t -> 2 ^ 52 <= k) ->
  k' = k \/ k' = k + 1 ->
  canon s k' t = S754_infinity s
  \/ exists m e,
      canon s k' t = S754_finite s m e
      /\ bounded 53 1024 m e = true
      /\ units m e = k' * 2 ^ (t + 1074).
Proof.
  intros Ht Hk Hn Hk'.
  destruct (Z.ltb_spec k' (2 ^ 53)) as [Hlt|Hge].
  - destruct (Z.leb_spec t 971) as [Hle|Hgt].
    + right. apply (canon_finite s k k' t); auto; lia.
    + left. unfold canon.
      destruct (Z.ltb_spec k' (2 ^ 53)); [|lia].
      destruct (Z.leb_spec t 971); [lia|reflexivity].
  - destruct (Z.leb_spec (t + 1) 971) as [Hle|Hgt].
    + right. apply (canon_finite s k k' t); auto; lia.
    + left. unfold canon.
      destruct (Z.ltb_spec k' (2 ^ 53)); [lia|].
      destruct (Z.leb_spec (t + 1) 971); [lia|reflexivity].
Qed.

Lemma pow2_split (a b : Z) :
  0 <= a -> a <= b -> 2 ^ b = 2 ^ (b - a) * 2 ^ a /\ 1 <= 2 ^ (b - a).
Proof.
  intros Ha Hab. split.
  - rewrite <- Z.pow_add_r by lia. f_equal. lia.
  - assert (0 < 2 ^ (b - a)) by (apply Z.pow_pos_nonneg; lia). lia.
Qed.

(** How a canonical magnitude [z] sits with respect to the grid of
    exponent [t] around the exact value. *)
Lemma below_grid (mz : positive) (ez t k X : Z) :
  bounded 53 1024 mz ez = true ->
  -1074 <= t -> 0 < k < 2 ^ 53 -> (-1074 < t -> 2 ^ 52 <= k) ->
  k * 2 ^ (t + 1074) <= X < (k + 1) * 2 ^ (t + 1074) ->
  units mz ez <= X ->
  units mz ez <= k * 2 ^ (t + 1074).
Proof.
  intros Hz Ht Hk Hn HX Hle.
  destruct (bounded_cases _ _ Hz) as (Hez & Hd & Hd').
  pose proof (units_bounds mz ez ltac:(lia)) as [Hl Hu].
  set (u := 2 ^ (t + 1074)) in *.
  assert (Hpu : 0 < u) by (apply Z.pow_pos_nonneg; lia).
  destruct (Z.lt_trichotomy ez t) as [Hlt|[->|Hgt]].
  - specialize (Hn ltac:(lia)).
    assert (2 ^ (Zpos (digits2_pos mz) + (ez + 1074)) <= 2 ^ (52 + (t + 1074)))
      by (apply Z.pow_le_mono_r; lia).
    rewrite (Z.pow_add_r 2 52 (t + 1074)) in H by lia. fold u in H.
    assert (2 ^ 52 * u <= k * u) by (apply Z.mul_le_mono_nonneg_r; lia).
    lia.
  - unfold units in *. fold u in Hle |- *.
    apply Z.mul_le_mono_nonneg_r; [lia|].
    assert (Zpos mz * u < (k + 1) * u) by lia.
    apply Z.mul_lt_mono_pos_r in H; lia.
  - exfalso. rewrite (Hd' ltac:(lia)) in Hl.
    assert (2 ^ (53 + (t + 1074)) <= 2 ^ (53 - 1 + (ez + 1074)))
      by (apply Z.pow_le_mono_r; lia).
    rewrite (Z.pow_add_r 2 53 (t + 1074)) in H by lia. fold u in H.
    assert ((k + 1) * u <= 2 ^ 53 * u) by (apply Z.mul_le_mono_nonneg_r; lia).
    lia.
Qed.

Lemma above_grid (mz : positive) (ez t k X : Z) :
  bounded 53 1024 mz ez = true ->
  -1074 <= t -> 0 < k < 2 ^ 53 -> (-1074 < t -> 2 ^ 52 <= k) ->
  k * 2 ^ (t + 1074) <= X < (k + 1) * 2 ^ (t + 1074) ->
  X < units mz ez ->
  (k + 1) * 2 ^ (t + 1074) <= units mz ez
  /\ t <= 971
  /\ (k + 1 = 2 ^ 53 -> t + 1 <= 971).
Proof.
  intros Hz Ht Hk Hn HX Hlt.
  destruct (bounded_cases _ _ Hz) as (Hez & Hd & Hd').
  pose proof (units_bounds mz ez ltac:(lia)) as [Hl Hu].
  set (u := 2 ^ (t + 1074)) in *.
  assert (Hpu : 0 < u) by (apply Z.pow_pos_nonneg; lia).
  destruct (Z.lt_trichotomy ez t) as [Hlt'|[->|Hgt]].
  - exfalso. specialize (Hn ltac:(lia)).
    assert (2 ^ (Zpos (digits2_pos mz) + (ez + 1074)) <= 2 ^ (52 + (t + 1074)))
      by (apply Z.pow_le_mono_r; lia).
    rewrite (Z.pow_add_r 2 52 (t + 1074)) in H by lia. fold u in H.
    assert (2 ^ 52 * u <= k * u) by (apply Z.mul_le_mono_nonneg_r; lia).
    lia.
  - unfold units in *. fold u in Hlt, Hu |- *.
    assert (Hk1 : k < Zpos mz).
    { assert (k * u < Zpos mz * u) by lia.
      apply Z.mul_lt_mono_pos_r in H; lia. }
    split; [apply Z.mul_le_mono_nonneg_r; lia|]. split; [lia|].
    intros E. exfalso.
    pose proof (digits2_bounds mz) as [_ Hb].
    assert (2 ^ Zpos (digits2_pos mz) <= 2 ^ 53) by (apply Z.pow_le_mono_r; lia).
    lia.
  - rewrite (Hd' ltac:(lia)) in Hl.
    assert (2 ^ (53 + (t + 1074)) <= 2 ^ (53 - 1 + (ez + 1074)))
      by (apply Z.pow_le_mono_r; lia).
    rewrite (Z.pow_add_r 2 53 (t + 1074)) in H by lia. fold u in H.
    assert ((k + 1) * u <= 2 ^ 53 * u) by (apply Z.mul_le_mono_nonneg_r; lia).
    split; [lia|]. split; lia.
Qed.

Lemma round_valid (s : bool) (mx : positive) (ex : Z) :
  -1074 <= ex ->
  binary_round 53 1024 s mx ex = S754_infinity s
  \/ exists m e,
      binary_round 53 1024 s mx ex = S754_finite s m e
      /\ bounded 53 1024 m e = true.
Proof.
  intros Hex.
  destruct (binary_round_spec s mx ex Hex) as (t & k & k' & Ht & Hk & Hn & HX & Hk' & ->).
  destruct (canon_valid s k k' t Ht Hk Hn Hk') as [->|(m & e & -> & Hb & _)];
    [now left|right; eauto].
Qed.

Lemma round_lower (s : bool) (mx mz : positive) (ex ez : Z) :
  -1074 <= ex ->
  bounded 53 1024 mz ez = true ->
  units mz ez <= units mx ex ->
  binary_round 53 1024 s mx ex = S754_infinity s
  \/ exists m e,
      binary_round 53 1024 s mx ex = S754_finite s m e
      /\ bounded 53 1024 m e = true
      /\ units mz ez <= units m e.
Proof.
  intros Hex Hz Hle.
  destruct (binary_round_spec s mx ex Hex) as (t & k & k' & Ht & Hk & Hn & HX & Hk' & ->).
  pose proof (below_grid mz ez t k _ Hz Ht Hk Hn HX Hle) as Hb.
  destruct (canon_valid s k k' t Ht Hk Hn Hk') as [->|(m & e & -> & Hbd & Hu)];
    [now left|right].
  exists m, e. split; [reflexivity|]. split; [assumption|].
  rewrite Hu.
  assert (0 < 2 ^ (t + 1074)) by (apply Z.pow_pos_nonneg; lia).
  assert (k * 2 ^ (t + 1074) <= k' * 2 ^ (t + 1074))
    by (apply Z.mul_le_mono_nonneg_r; lia).
  lia.
Qed.

Lemma round_upper (s : bool) (mx mz : positive) (ex ez : Z) :
  -1074 <= ex ->
  bounded 53 1024 mz ez = true ->
  units mx ex < units mz ez ->
  exists m e,
    binary_round 53 1024 s mx ex = S754_finite s m e
    /\ bounded 53 1024 m e = true
    /\ units m e <= units mz ez.
Proof.
  intros Hex Hz Hlt.
  destruct (binary_round_spec s mx ex Hex) as (t & k & k' & Ht & Hk & Hn & HX & Hk' & ->).
  destruct (above_grid mz ez t k _ Hz Ht Hk Hn HX Hlt) as (Ha & Ht' & Hk1).
  destruct (canon_finite s k k' t Ht Hk Hn Hk') as (m & e & -> & Hbd & Hu);
    [lia|lia|].
  exists m, e. split; [reflexivity|]. split; [assumption|].
  rewrite Hu.
  assert (0 < 2 ^ (t + 1074)) by (apply Z.pow_pos_nonneg; lia).
  assert (k' * 2 ^ (t + 1074) <= (k + 1) * 2 ^ (t + 1074))
    by (apply Z.mul_le_mono_nonneg_r; lia).
  lia.
Qed.

(** *** Addition *)

Lemma units_pos (m : positive) (e : Z) : -1074 <= e -> 0 < units m e.
Proof.
  intros He. unfold units.
  assert (0 < 2 ^ (e + 1074)) by (apply Z.pow_pos_nonneg; lia). lia.
Qed.

Lemma compare_units_neg (m1 m2 : positive) (e1 e2 : Z) :
  bounded 53 1024 m1 e1 = true -> bounded 53 1024 m2 e2 = true ->
  SFcompare (S754_finite true m1 e1) (S754_finite true m2 e2)
  = Some (units m2 e2 ?= units m1 e1).
Proof.
  intros H1 H2.
  pose proof (compare_units m2 m1 e2 e1 H2 H1) as Hc.
  cbn [SFcompare] in Hc |- *. injection Hc as Hc'. f_equal.
  rewrite <- Hc'. rewrite (Z.compare_antisym e1 e2).
  destruct (e1 ?= e2); cbn [CompOpp]; try reflexivity.
  change (Pos.compare_cont Eq m1 m2) with (Pos.compare m1 m2).
  change (Pos.compare_cont Eq m2 m1) with (Pos.compare m2 m1).
  rewrite (Pos.compare_antisym m1 m2). reflexivity.
Qed.

Lemma leb_of_compare (a b : spec_float) (c : comparison) :
  SFcompare a b = Some c -> c <> Gt -> SFleb a b = true.
Proof. unfold SFleb. intros -> H. destruct c; congruence. Qed.

Lemma shl_align_units (mx : positive) (ex ez : Z) :
  -1074 <= ez -> ez <= ex ->
  Zpos (fst (shl_align mx ex ez)) * 2 ^ (ez + 1074) = units mx ex.
Proof.
  intros Hz Hle. unfold shl_align, units.
  destruct (ez - ex) as [|p|p] eqn:E; try lia; cbn [fst].
  - replace ez with ex by lia. reflexivity.
  - rewrite iter_xO, <- Z.mul_assoc, <- Z.pow_add_r by lia.
    do 2 f_equal. lia.
Qed.

(** The result of rounding the exact value [v] (in units of [2^ez]),
    compared with a canonical PyFloat.is_finite float on either side of it. *)
Lemma normalize_above (z : spec_float) (v ez : Z) :
  -1074 <= ez -> valid z = true -> PyFloat.is_finite z = true ->
  sunits z < v * 2 ^ (ez + 1074) ->
  SFleb z (binary_normalize 53 1024 v ez false) = true.
Proof.
  intros Hez Hwf Hfin Hlt.
  assert (Hp : 0 < 2 ^ (ez + 1074)) by (apply Z.pow_pos_nonneg; lia).
  destruct v as [|m|m]; cbn [binary_normalize].
  - destruct z as [sz|sz| |sz mz ez']; try discriminate.
    destruct sz; [reflexivity|].
    cbn [valid valid_binary] in Hwf.
    destruct (bounded_cases _ _ Hwf) as (He & _).
    pose proof (units_pos mz ez' ltac:(lia)). simpl in Hlt. lia.
  - destruct z as [sz|sz| |sz mz ez']; try discriminate.
    + destruct (round_valid false m ez Hez) as [->|(m' & e' & -> & _)]; reflexivity.
    + destruct sz.
      * destruct (round_valid false m ez Hez) as [->|(m' & e' & -> & _)]; reflexivity.
      * cbn [valid valid_binary] in Hwf. cbn [sunits] in Hlt.
        destruct (round_lower false m mz ez ez' Hez Hwf) as [->|(m' & e' & -> & Hb & Hle)].
        { unfold units at 2. lia. }
        { reflexivity. }
        eapply leb_of_compare; [apply compare_units; assumption|].
        intros Hc. apply Z.compare_gt_iff in Hc. lia.
  - destruct z as [sz|sz| |sz mz ez']; try discriminate.
    + cbn [sunits] in Hlt. nia.
    + cbn [valid valid_binary] in Hwf.
      destruct (bounded_cases _ _ Hwf) as (He & _).
      pose proof (units_pos mz ez' ltac:(lia)) as Hpz.
      destruct sz; cbn [sunits] in Hlt; [|lia].
      destruct (round_upper true m mz ez ez' Hez Hwf) as (m' & e' & -> & Hb & Hle).
      { unfold units at 1. lia. }
      eapply leb_of_compare; [apply compare_units_neg; assumption|].
      intros Hc. apply Z.compare_gt_iff in Hc. lia.
Qed.

Lemma normalize_below (z : spec_float) (v ez : Z) :
  -1074 <= ez -> valid z = true -> PyFloat.is_finite z = true ->
  v * 2 ^ (ez + 1074) < sunits z ->
  SFleb (binary_normalize 53 1024 v ez false) z = true.
Proof.
  intros Hez Hwf Hfin Hlt.
  assert (Hp : 0 < 2 ^ (ez + 1074)) by (apply Z.pow_pos_nonneg; lia).
  destruct v as [|m|m]; cbn [binary_normalize].
  - destruct z as [sz|sz| |sz mz ez']; try discriminate.
    destruct sz; [|reflexivity].
    cbn [valid valid_binary] in Hwf.
    destruct (bounded_cases _ _ Hwf) as (He & _).
    pose proof (units_pos mz ez' ltac:(lia)). simpl in Hlt. lia.
  - destruct z as [sz|sz| |sz mz ez']; try discriminate.
    + cbn [sunits] in Hlt. nia.
    + cbn [valid valid_binary] in Hwf.
      destruct (bounded_cases _ _ Hwf) as (He & _).
      pose proof (units_pos mz ez' ltac:(lia)) as Hpz.
      destruct sz; cbn [sunits] in Hlt; [lia|].
      destruct (round_upper false m mz ez ez' Hez Hwf) as (m' & e' & -> & Hb & Hle).
      { unfold units at 1. lia. }
      eapply leb_of_compare; [apply compare_units; assumption|].
      intros Hc. apply Z.compare_gt_iff in Hc. lia.
  - destruct z as [sz|sz| |sz mz ez']; try discriminate.
    + destruct (round_valid true m ez Hez) as [->|(m' & e' & -> & _)]; reflexivity.
    + destruct sz.
      * cbn [valid valid_binary] in Hwf. cbn [sunits] in Hlt.
        destruct (round_lower true m mz ez ez' Hez Hwf) as [->|(m' & e' & -> & Hb & Hle)].
        { unfold units at 2. lia. }
        { reflexivity. }
        eapply leb_of_compare; [apply compare_units_neg; assumption|].
        intros Hc. apply Z.compare_gt_iff in Hc. lia.
      * destruct (round_valid true m ez Hez) as [->|(m' & e' & -> & _)]; reflexivity.
Qed.

Lemma normalize_valid (v ez : Z) :
  -1074 <= ez -> valid (binary_normalize 53 1024 v ez false) = true.
Proof.
  intros Hez. destruct v as [|m|m]; cbn [binary_normalize]; [reflexivity| |].
  - destruct (round_valid false m ez Hez) as [->|(m' & e' & -> & Hb)];
      [reflexivity|exact Hb].
  - destruct (round_valid true m ez Hez) as [->|(m' & e' & -> & Hb)];
      [reflexivity|exact Hb].
Qed.

Lemma add_exact (sx sy : bool) (mx my : positive) (ex ey : Z) :
  -1074 <= ex -> -1074 <= ey ->
  (cond_Zopp sx (Zpos (fst (shl_align mx ex (Z.min ex ey))))
   + cond_Zopp sy (Zpos (fst (shl_align my ey (Z.min ex ey)))))
  * 2 ^ (Z.min ex ey + 1074)
  = sunits (S754_finite sx mx ex) + sunits (S754_finite sy my ey).
Proof.
  intros Hx Hy.
  pose proof (shl_align_units mx ex (Z.min ex ey) ltac:(lia) ltac:(lia)) as Ex.
  pose proof (shl_align_units my ey (Z.min ex ey) ltac:(lia) ltac:(lia)) as Ey.
  cbn [sunits]. rewrite <- Ex, <- Ey.
  destruct sx, sy; cbn [cond_Zopp]; lia.
Qed.

Lemma add_valid (x y : spec_float) :
  valid x = true -> valid y = true -> valid (SFadd 53 1024 x y) = true.
Proof.
  intros Hx Hy.
  destruct x as [sx|sx| |sx mx ex], y as [sy|sy| |sy my ey]; cbn [SFadd];
    try assumption; try reflexivity;
    try (destruct sx, sy; reflexivity).
  cbn [valid valid_binary] in Hx, Hy.
  destruct (bounded_cases _ _ Hx) as (Hex & _).
  destruct (bounded_cases _ _ Hy) as (Hey & _).
  apply normalize_valid. lia.
Qed.

Lemma leb_refl (x : spec_float) :
  valid x = true -> is_nan x = false -> SFleb x x = true.
Proof.
  intros Hx Hn.
  destruct x as [sx|sx| |sx mx ex]; try discriminate;
    [reflexivity|destruct sx; reflexivity|].
  cbn [valid valid_binary] in Hx.
  destruct sx;
    (eapply leb_of_compare;
     [first [apply compare_units_neg|apply compare_units]; assumption|]);
    rewrite Z.compare_refl; discriminate.
Qed.

(** Adding a positive step never gives less; adding a step that is not
    positive never gives more. *)
Lemma add_increases (x y : spec_float) :
  valid x = true -> valid y = true ->
  is_nan x = false -> is_nan (SFadd 53 1024 x y) = false ->
  SFltb (S754_zero false) y = true ->
  SFleb x (SFadd 53 1024 x y) = true.
Proof.
  intros Hx Hy Hnx Hns Hpos.
  destruct y as [sy|sy| |sy my ey]; try discriminate.
  - destruct sy; [discriminate|].
    destruct x as [sx|sx| |sx mx ex]; try discriminate; try reflexivity.
    destruct sx; [discriminate|reflexivity].
  - destruct sy; [discriminate|].
    cbn [valid valid_binary] in Hy.
    destruct (bounded_cases _ _ Hy) as (Hey & _).
    pose proof (units_pos my ey ltac:(lia)) as Hpy.
    destruct x as [sx|sx| |sx mx ex]; try discriminate;
      [reflexivity|destruct sx; reflexivity|].
    cbn [valid valid_binary] in Hx.
    destruct (bounded_cases _ _ Hx) as (Hex & _).
    cbn [SFadd]. apply normalize_above; [lia|exact Hx|reflexivity|].
    rewrite add_exact by lia. cbn [sunits]. lia.
Qed.

Lemma add_decreases (x y : spec_float) :
  valid x = true -> valid y = true ->
  is_nan x = false -> is_nan (SFadd 53 1024 x y) = false ->
  SFltb (S754_zero false) y = false ->
  SFleb (SFadd 53 1024 x y) x = true.
Proof.
  intros Hx Hy Hnx Hns Hpos.
  destruct y as [sy|sy| |sy my ey].
  - destruct x as [sx|sx| |sx mx ex]; try discriminate.
    + destruct sx, sy; reflexivity.
    + destruct sx; reflexivity.
    + apply (leb_refl (S754_finite sx mx ex)); [exact Hx|reflexivity].
  - destruct sy; [|discriminate].
    destruct x as [sx|sx| |sx mx ex]; try discriminate; try reflexivity.
    destruct sx; [reflexivity|discriminate].
  - destruct x; discriminate.
  - destruct sy; [|discriminate].
    cbn [valid valid_binary] in Hy.
    destruct (bounded_cases _ _ Hy) as (Hey & _).
    pose proof (units_pos my ey ltac:(lia)) as Hpy.
    destruct x as [sx|sx| |sx mx ex]; try discriminate;
      [reflexivity|destruct sx; reflexivity|].
    cbn [valid valid_binary] in Hx.
    destruct (bounded_cases _ _ Hx) as (Hex & _).
    cbn [SFadd]. apply normalize_below; [lia|exact Hx|reflexivity|].
    rewrite add_exact by lia. cbn [sunits]. lia.
Qed.

End Binary64Properties.

(** ** Exact arithmetic on representable values *)

Section ExactProperties.
Import Binary64.

Lemma units_magnitude (m1 m2 : positive) (e1 e2 : Z) :
  -1074 <= e1 -> -1074 <= e2 ->
  units m1 e1 = units m2 e2 ->
  Zpos (digits2_pos m1) + e1 = Zpos (digits2_pos m2) + e2.
Proof.
  intros H1 H2 E.
  pose proof (units_bounds m1 e1 H1) as [L1 U1].
  pose proof (units_bounds m2 e2 H2) as [L2 U2].
  rewrite E in L1, U1.
  destruct (Z.lt_trichotomy (Zpos (digits2_pos m1) + e1) (Zpos (digits2_pos m2) + e2))
    as [Hlt|[Heq|Hgt]]; [|exact Heq|].
  - assert (2 ^ (Zpos (digits2_pos m1) + (e1 + 1074))
            <= 2 ^ (Zpos (digits2_pos m2) - 1 + (e2 + 1074)))
      by (apply Z.pow_le_mono_r; lia). lia.
  - assert (2 ^ (Zpos (digits2_pos m2) + (e2 + 1074))
            <= 2 ^ (Zpos (digits2_pos m1) - 1 + (e1 + 1074)))
      by (apply Z.pow_le_mono_r; lia). lia.
Qed.

Lemma bounded_exponent (m : positive) (e : Z) :
  bounded 53 1024 m e = true ->
  e = Z.max (Zpos (digits2_pos m) + e - 53) (-1074).
Proof.
  intros H. destruct (bounded_cases _ _ H) as (He & Hd & Hn).
  destruct (Z.eq_dec e (-1074)) as [->|Hne]; [lia|].
  specialize (Hn ltac:(lia)). lia.
Qed.

Lemma units_inj (m1 m2 : positive) (e1 e2 : Z) :
  bounded 53 1024 m1 e1 = true -> bounded 53 1024 m2 e2 = true ->
  units m1 e1 = units m2 e2 -> m1 = m2 /\ e1 = e2.
Proof.
  intros H1 H2 E.
  destruct (bounded_cases _ _ H1) as (He1 & _).
  destruct (bounded_cases _ _ H2) as (He2 & _).
  pose proof (units_magnitude m1 m2 e1 e2 ltac:(lia) ltac:(lia) E) as Hm.
  pose proof (bounded_exponent _ _ H1) as X1.
  pose proof (bounded_exponent _ _ H2) as X2.
  assert (e1 = e2) by lia. subst e2. split; [|reflexivity].
  unfold units in E.
  assert (Hp : 0 < 2 ^ (e1 + 1074)) by (apply Z.pow_pos_nonneg; lia).
  apply Z.mul_cancel_r in E; [|lia]. congruence.
Qed.

Lemma shr_1_even (m : Z) :
  0 <= m -> m mod 2 = 0 ->
  shr_1 (Build_shr_record m false false) = Build_shr_record (m / 2) false false.
Proof.
  intros Hm He. destruct m as [|p|p]; [reflexivity| |lia].
  destruct p as [p|p|]; cbn [shr_1 orb].
  - rewrite Pos2Z.inj_xI in He.
    replace (2 * Zpos p + 1) with (1 + Zpos p * 2) in He by lia.
    rewrite Z.mod_add in He by lia. discriminate.
  - f_equal. rewrite Pos2Z.inj_xO.
    apply Z.div_unique with (r := 0); lia.
  - discriminate.
Qed.

Lemma iter_shr_exact (p : positive) :
  forall m,
    0 <= m -> m mod 2 ^ Zpos p = 0 ->
    iter_pos shr_1 p (Build_shr_record m false false)
    = Build_shr_record (m / 2 ^ Zpos p) false false.
Proof.
  assert (Hdiv : forall m a b, 0 <= m -> 0 <= a -> 0 <= b ->
                               m mod 2 ^ (a + b) = 0 ->
                               m mod 2 ^ a = 0 /\ (m / 2 ^ a) mod 2 ^ b = 0
                               /\ 0 <= m / 2 ^ a
                               /\ m / 2 ^ a / 2 ^ b = m / 2 ^ (a + b)).
  { intros m a b Hm Ha Hb H.
    assert (Pa : 0 < 2 ^ a) by (apply Z.pow_pos_nonneg; lia).
    assert (Pb : 0 < 2 ^ b) by (apply Z.pow_pos_nonneg; lia).
    rewrite Z.pow_add_r in H by lia.
    apply Z.mod_divide in H; [|lia]. destruct H as [q Hq].
    assert (E : m / 2 ^ a = q * 2 ^ b).
    { subst m. rewrite Z.mul_assoc. replace (q * 2 ^ a * 2 ^ b) with (q * 2 ^ b * 2 ^ a) by lia.
      now rewrite Z.div_mul by lia. }
    split; [|split; [|split]].
    - subst m. rewrite Z.mul_assoc.
      replace (q * 2 ^ a * 2 ^ b) with (q * 2 ^ b * 2 ^ a) by lia.
      apply Z.mod_mul. lia.
    - rewrite E. apply Z.mod_mul. lia.
    - apply Z.div_pos; lia.
    - rewrite Z.div_div by lia. now rewrite Z.pow_add_r by lia. }
  induction p as [p IH|p IH|]; intros m Hm Hd; cbn [iter_pos].
  - assert (E : Zpos p~1 = 1 + (Zpos p + Zpos p)) by lia.
    rewrite E in Hd |- *.
    destruct (Hdiv m 1 (Zpos p + Zpos p) Hm ltac:(lia) ltac:(lia) Hd)
      as (H1 & H2 & P1 & Q1).
    change (2 ^ 1) with 2 in *.
    rewrite (shr_1_even m Hm H1).
    destruct (Hdiv (m / 2) (Zpos p) (Zpos p) P1 ltac:(lia) ltac:(lia) H2)
      as (H3 & H4 & P2 & Q2).
    rewrite (IH _ P1 H3), (IH _ P2 H4). f_equal. now rewrite Q2, Q1.
  - assert (E : Zpos p~0 = Zpos p + Zpos p) by lia.
    rewrite E in Hd |- *.
    destruct (Hdiv m (Zpos p) (Zpos p) Hm ltac:(lia) ltac:(lia) Hd)
      as (H3 & H4 & P2 & Q2).
    rewrite (IH _ Hm H3), (IH _ P2 H4). f_equal. exact Q2.
  - change (2 ^ 1) with 2 in *. now apply shr_1_even.
Qed.

Lemma units_ratio (mx mz : positive) (ex ez : Z) :
  -1074 <= ex <= ez ->
  units mx ex = units mz ez ->
  Zpos mx = Zpos mz * 2 ^ (ez - ex).
Proof.
  intros Hex E. unfold units in E.
  replace (ez + 1074) with ((ez - ex) + (ex + 1074)) in E by lia.
  rewrite (Z.pow_add_r 2 (ez - ex) (ex + 1074)), Z.mul_assoc in E by lia.
  assert (Hp : 0 < 2 ^ (ex + 1074)) by (apply Z.pow_pos_nonneg; lia).
  apply Z.mul_cancel_r in E; lia.
Qed.

(** Rounding a value that is representable gives its representation:
    from a mantissa that is at least as fine as the canonical one, *)
Lemma binary_round_aux_on_grid (s : bool) (mx mz : positive) (ex ez : Z) :
  -1074 <= ex <= ez ->
  bounded 53 1024 mz ez = true ->
  units mx ex = units mz ez ->
  binary_round_aux 53 1024 s (Zpos mx) ex loc_Exact = S754_finite s mz ez.
Proof.
  intros Hex Hz E.
  destruct (bounded_cases _ _ Hz) as (Hez & Hdz & _).
  pose proof (units_magnitude mx mz ex ez ltac:(lia) ltac:(lia) E) as Hm.
  pose proof (bounded_exponent _ _ Hz) as Xz.
  assert (Ht : Z.max (Zpos (digits2_pos mx) + ex - 53) (-1074) = ez) by lia.
  pose proof (units_ratio mx mz ex ez Hex E) as Hk.
  unfold binary_round_aux.
  assert (Hshr : shr_fexp 53 1024 (Zpos mx) ex loc_Exact
                 = (Build_shr_record (Zpos mz) false false, ez)).
  { unfold shr_fexp, shr. rewrite fexp_64. cbn [Zdigits2]. rewrite Ht.
    cbn [shr_record_of_loc].
    destruct (ez - ex) as [|p|p] eqn:En; try lia.
    - rewrite Z.pow_0_r, Z.mul_1_r in Hk. rewrite Hk. f_equal. lia.
    - assert (Hpp : 0 < 2 ^ Zpos p) by (apply Z.pow_pos_nonneg; lia).
      rewrite iter_shr_exact.
      + f_equal; [|lia]. f_equal. rewrite Hk. now rewrite Z.div_mul by lia.
      + lia.
      + rewrite Hk. apply Z.mod_mul. lia. }
  rewrite Hshr. cbn [shr_m loc_of_shr_record round_nearest_even].
  rewrite shr_fexp_keep by (rewrite fexp_64; cbn [Zdigits2]; lia).
  cbn [shr_m]. change (1024 - 53) with 971.
  destruct (Z.leb_spec ez 971); [reflexivity|lia].
Qed.

(** and from any mantissa. *)
Lemma binary_round_on_grid (s : bool) (mx mz : positive) (ex ez : Z) :
  -1074 <= ex ->
  bounded 53 1024 mz ez = true ->
  units mx ex = units mz ez ->
  binary_round 53 1024 s mx ex = S754_finite s mz ez.
Proof.
  intros Hex Hz E.
  destruct (bounded_cases _ _ Hz) as (Hez & Hdz & _).
  pose proof (units_magnitude mx mz ex ez Hex ltac:(lia) E) as Hm.
  pose proof (bounded_exponent _ _ Hz) as Xz.
  assert (Ht : Z.max (Zpos (digits2_pos mx) + ex - 53) (-1074) = ez) by lia.
  unfold binary_round. rewrite fexp_64, Ht.
  destruct (Z.le_gt_cases ez ex) as [Hle|Hgt].
  - assert (Hk : Zpos mz = Zpos mx * 2 ^ (ex - ez))
      by (apply units_ratio; [lia|now symmetry]).
    assert (Hsh : shl_align mx ex ez = (mz, ez)).
    { unfold shl_align. destruct (ez - ex) as [|p|p] eqn:En; try lia.
      - replace (ex - ez) with 0 in Hk by lia.
        rewrite Z.pow_0_r, Z.mul_1_r in Hk. f_equal; lia.
      - f_equal. apply Pos2Z.inj. rewrite iter_xO, Hk. do 2 f_equal. lia. }
    rewrite Hsh. apply binary_round_aux_on_grid; [lia|exact Hz|reflexivity].
  - assert (Hsh : shl_align mx ex ez = (mx, ex)).
    { unfold shl_align. destruct (ez - ex) as [|p|p] eqn:En; try lia; reflexivity. }
    rewrite Hsh. apply binary_round_aux_on_grid; [lia|exact Hz|exact E].
Qed.

(** A magnitude of at most 53 bits is representable. *)
Lemma representable_small (mx : positive) (ex : Z) :
  -1074 <= ex <= 971 ->
  Zpos (digits2_pos mx) <= 53 ->
  exists m e, bounded 53 1024 m e = true /\ units m e = units mx ex.
Proof.
  intros Hex Hd.
  set (d := Zpos (digits2_pos mx)) in *.
  set (t := Z.max (d + ex - 53) (-1074)).
  assert (Ht : -1074 <= t <= ex) by lia.
  set (k := Zpos mx * 2 ^ (ex - t)).
  assert (Hp : 0 < 2 ^ (ex - t)) by (apply Z.pow_pos_nonneg; lia).
  pose proof (digits2_bounds mx) as Hmx. fold d in Hmx.
  assert (Hkd : 2 ^ (d + (ex - t) - 1) <= k < 2 ^ (d + (ex - t))).
  { unfold k.
    replace (d + (ex - t) - 1) with (d - 1 + (ex - t)) by lia.
    rewrite (Z.pow_add_r 2 (d - 1) (ex - t)), (Z.pow_add_r 2 d (ex - t)) by lia.
    split; [apply Z.mul_le_mono_nonneg_r|apply Z.mul_lt_mono_pos_r]; lia. }
  assert (Hk0 : 0 < k) by (unfold k; lia).
  exists (Z.to_pos k), t. split.
  - apply bounded_intro; [lia| |].
    + pose proof (digits2_unique (Z.to_pos k) (d + (ex - t))) as Hu.
      rewrite Z2Pos.id in Hu by lia. rewrite (Hu Hkd). lia.
    + intros Hn.
      pose proof (digits2_unique (Z.to_pos k) (d + (ex - t))) as Hu.
      rewrite Z2Pos.id in Hu by lia. rewrite (Hu Hkd). lia.
  - unfold units. rewrite Z2Pos.id by lia. unfold k.
    rewrite <- Z.mul_assoc, <- Z.pow_add_r by lia. do 2 f_equal. lia.
Qed.

(** The order of finite canonical values is the order of the integers
    they are in units of [2^-1074]. *)
Lemma compare_sunits (x y : spec_float) :
  valid x = true -> valid y = true ->
  PyFloat.is_finite x = true -> PyFloat.is_finite y = true ->
  SFcompare x y = Some (sunits x ?= sunits y).
Proof.
  intros Hx Hy Fx Fy.
  destruct x as [sx|sx| |sx mx ex]; try discriminate;
    destruct y as [sy|sy| |sy my ey]; try discriminate;
    cbn [valid valid_binary] in Hx, Hy; cbn [sunits].
  - reflexivity.
  - destruct (bounded_cases _ _ Hy) as (He & _).
    pose proof (units_pos my ey ltac:(lia)) as Hp.
    destruct sy; cbn [SFcompare]; f_equal; symmetry;
      [apply Z.compare_gt_iff|apply Z.compare_lt_iff]; lia.
  - destruct (bounded_cases _ _ Hx) as (He & _).
    pose proof (units_pos mx ex ltac:(lia)) as Hp.
    destruct sx; cbn [SFcompare]; f_equal; symmetry;
      [apply Z.compare_lt_iff|apply Z.compare_gt_iff]; lia.
  - destruct (bounded_cases _ _ Hx) as (Hex & _).
    destruct (bounded_cases _ _ Hy) as (Hey & _).
    pose proof (units_pos mx ex ltac:(lia)) as Hpx.
    pose proof (units_pos my ey ltac:(lia)) as Hpy.
    destruct sx, sy.
    + rewrite (compare_units_neg mx my ex ey Hx Hy). f_equal.
      rewrite <- Z.compare_opp. reflexivity.
    + cbn [SFcompare]. f_equal. symmetry. apply Z.compare_lt_iff. lia.
    + cbn [SFcompare]. f_equal. symmetry. apply Z.compare_gt_iff. lia.
    + exact (compare_units mx my ex ey Hx Hy).
Qed.

End ExactProperties.
(** ** Sweeps over integers *)

Section IntSweepProperties.
Import Binary64 IntSweep.

Local Abbreviation F := float_of_int.

Lemma digits_of_small (p : positive) :
  Zpos p < 2 ^ 53 -> Zpos (digits2_pos p) <= 53.
Proof.
  intros H. pose proof (digits2_bounds p) as [Hl _].
  destruct (Z.le_gt_cases (Zpos (digits2_pos p)) 53) as [|Hgt]; [assumption|].
  assert (2 ^ 53 <= 2 ^ (Zpos (digits2_pos p) - 1)) by (apply Z.pow_le_mono_r; lia).
  lia.
Qed.

(** The value [n * 2^t] with [n] of at most 53 bits is a float. *)
Lemma grid_value (n t : Z) :
  n <> 0 -> Z.abs n < 2 ^ 53 -> -1074 <= t <= 971 ->
  exists m e,
    bounded 53 1024 m e = true
    /\ units m e = Z.abs n * 2 ^ (t + 1074)
    /\ binary_normalize 53 1024 n t false = S754_finite (n <? 0) m e.
Proof.
  intros Hn Hb Ht.
  destruct n as [|p|p]; [congruence| |].
  - destruct (representable_small p t Ht (digits_of_small p Hb)) as (m & e & Hbd & Hu).
    exists m, e. split; [exact Hbd|split; [exact Hu|]].
    cbn [binary_normalize]. apply binary_round_on_grid; [lia|exact Hbd|now symmetry].
  - destruct (representable_small p t Ht (digits_of_small p Hb)) as (m & e & Hbd & Hu).
    exists m, e. split; [exact Hbd|split; [exact Hu|]].
    cbn [binary_normalize]. apply binary_round_on_grid; [lia|exact Hbd|now symmetry].
Qed.

Lemma float_of_int_finite (z : Z) :
  z <> 0 -> Z.abs z < 2 ^ 53 ->
  exists m e,
    bounded 53 1024 m e = true
    /\ units m e = Z.abs z * 2 ^ 1074
    /\ F z = S754_finite (z <? 0) m e.
Proof.
  intros Hz Hb.
  destruct (grid_value z 0 Hz Hb ltac:(lia)) as (m & e & Hbd & Hu & E).
  exists m, e. auto.
Qed.

Lemma float_of_int_exact (z : Z) :
  Z.abs z < 2 ^ 53 ->
  valid (F z) = true /\ PyFloat.is_finite (F z) = true
  /\ sunits (F z) = z * 2 ^ 1074.
Proof.
  intros Hb. destruct (Z.eq_dec z 0) as [->|Hz].
  - repeat split.
  - destruct (float_of_int_finite z Hz Hb) as (m & e & Hbd & Hu & ->).
    split; [exact Hbd|split; [reflexivity|]].
    cbn [sunits]. rewrite Hu.
    destruct (Z.ltb_spec z 0); lia.
Qed.

Lemma of_Z_int (z : Z) :
  Z.abs z < 2 ^ 53 -> PyFloat.of_Z z = OK (F z).
Proof.
  intros Hb. unfold PyFloat.of_Z. fold (F z).
  destruct (float_of_int_exact z Hb) as (_ & Hf & _).
  destruct (F z); try discriminate; reflexivity.
Qed.

(** A sum or difference that is such an integer is computed exactly. *)
Lemma normalize_to_int (v ez z : Z) :
  -1074 <= ez -> Z.abs z < 2 ^ 53 ->
  v * 2 ^ (ez + 1074) = z * 2 ^ 1074 ->
  binary_normalize 53 1024 v ez false = F z.
Proof.
  intros Hez Hb E.
  assert (Hp : 0 < 2 ^ (ez + 1074)) by (apply Z.pow_pos_nonneg; lia).
  assert (Hq : 0 < 2 ^ 1074) by (apply Z.pow_pos_nonneg; lia).
  destruct (Z.eq_dec z 0) as [->|Hz].
  - assert (v = 0) by nia. subst v. reflexivity.
  - destruct (float_of_int_finite z Hz Hb) as (m & e & Hbd & Hu & ->).
    destruct v as [|p|p]; cbn [binary_normalize].
    + exfalso. nia.
    + assert (0 < z) by nia.
      destruct (Z.ltb_spec z 0); [lia|].
      apply binary_round_on_grid; [lia|exact Hbd|].
      rewrite Hu. unfold units. lia.
    + assert (z < 0) by nia.
      destruct (Z.ltb_spec z 0); [|lia].
      apply binary_round_on_grid; [lia|exact Hbd|].
      rewrite Hu. unfold units. lia.
Qed.

Lemma sub_exact (sx sy : bool) (mx my : positive) (ex ey : Z) :
  -1074 <= ex -> -1074 <= ey ->
  (cond_Zopp sx (Zpos (fst (shl_align mx ex (Z.min ex ey))))
   - cond_Zopp sy (Zpos (fst (shl_align my ey (Z.min ex ey)))))
  * 2 ^ (Z.min ex ey + 1074)
  = sunits (S754_finite sx mx ex) - sunits (S754_finite sy my ey).
Proof.
  intros Hx Hy.
  pose proof (shl_align_units mx ex (Z.min ex ey) ltac:(lia) ltac:(lia)) as Ex.
  pose proof (shl_align_units my ey (Z.min ex ey) ltac:(lia) ltac:(lia)) as Ey.
  cbn [sunits]. rewrite <- Ex, <- Ey.
  destruct sx, sy; cbn [cond_Zopp]; lia.
Qed.

Lemma add_int (a s : Z) :
  Z.abs a < 2 ^ 53 -> Z.abs s < 2 ^ 53 -> Z.abs (a + s) < 2 ^ 53 ->
  PyFloat.add (F a) (F s) = F (a + s).
Proof.
  intros Ha Hs Hsum. unfold PyFloat.add.
  destruct (Z.eq_dec a 0) as [->|Na]; [|destruct (Z.eq_dec s 0) as [->|Ns]].
  - rewrite Z.add_0_l. change (F 0) with (S754_zero false).
    destruct (Z.eq_dec s 0) as [->|Ns]; [reflexivity|].
    destruct (float_of_int_finite s Ns Hs) as (m & e & _ & _ & ->). reflexivity.
  - rewrite Z.add_0_r. change (F 0) with (S754_zero false).
    destruct (float_of_int_finite a Na Ha) as (m & e & _ & _ & ->). reflexivity.
  - pose proof (float_of_int_exact a Ha) as (_ & _ & Ua).
    pose proof (float_of_int_exact s Hs) as (_ & _ & Us).
    destruct (float_of_int_finite a Na Ha) as (ma & ea & Ba & _ & Ea).
    destruct (float_of_int_finite s Ns Hs) as (ms & es & Bs & _ & Es).
    rewrite Ea in Ua |- *. rewrite Es in Us |- *.
    destruct (bounded_cases _ _ Ba) as (Hea & _).
    destruct (bounded_cases _ _ Bs) as (Hes & _).
    cbn [SFadd]. apply normalize_to_int; [lia|exact Hsum|].
    rewrite add_exact by lia. rewrite Ua, Us. lia.
Qed.

Lemma sub_int (a s : Z) :
  Z.abs a < 2 ^ 53 -> Z.abs s < 2 ^ 53 -> s <> 0 -> Z.abs (a - s) < 2 ^ 53 ->
  PyFloat.sub (F a) (F s) = F (a - s).
Proof.
  intros Ha Hs Ns Hsum. unfold PyFloat.sub.
  pose proof (float_of_int_exact s Hs) as (_ & _ & Us).
  destruct (float_of_int_finite s Ns Hs) as (ms & es & Bs & Hus & Es).
  destruct (bounded_cases _ _ Bs) as (Hes & _).
  destruct (Z.eq_dec a 0) as [->|Na].
  - change (F 0) with (S754_zero false). rewrite Es. cbn [SFsub].
    assert (Hn : - s <> 0) by lia.
    destruct (float_of_int_finite (- s) Hn ltac:(lia)) as (m' & e' & B' & Hu' & E').
    replace (0 - s) with (- s) by lia. rewrite E'.
    rewrite Z.abs_opp, <- Hus in Hu'.
    destruct (units_inj _ _ _ _ B' Bs Hu') as [-> ->].
    f_equal. destruct (Z.ltb_spec s 0), (Z.ltb_spec (- s) 0); try reflexivity; lia.
  - pose proof (float_of_int_exact a Ha) as (_ & _ & Ua).
    destruct (float_of_int_finite a Na Ha) as (ma & ea & Ba & _ & Ea).
    rewrite Ea in Ua |- *. rewrite Es in Us |- *.
    destruct (bounded_cases _ _ Ba) as (Hea & _).
    cbn [SFsub]. apply normalize_to_int; [lia|exact Hsum|].
    rewrite sub_exact by lia. rewrite Ua, Us. lia.
Qed.

(** The order of finite values is the order of their integers. *)
Lemma ltb_sunits (x y : spec_float) :
  valid x = true -> valid y = true ->
  PyFloat.is_finite x = true -> PyFloat.is_finite y = true ->
  SFltb x y = (sunits x <? sunits y).
Proof.
  intros Hx Hy Fx Fy. unfold SFltb. rewrite (compare_sunits x y Hx Hy Fx Fy).
  unfold Z.ltb. destruct (sunits x ?= sunits y); reflexivity.
Qed.

Lemma leb_sunits (x y : spec_float) :
  valid x = true -> valid y = true ->
  PyFloat.is_finite x = true -> PyFloat.is_finite y = true ->
  SFleb x y = (sunits x <=? sunits y).
Proof.
  intros Hx Hy Fx Fy. unfold SFleb. rewrite (compare_sunits x y Hx Hy Fx Fy).
  unfold Z.leb. destruct (sunits x ?= sunits y); reflexivity.
Qed.

Lemma eqb_int (z : Z) : Z.abs z < 2 ^ 53 -> PyFloat.eqb (F z) (F z) = true.
Proof.
  intros Hb. destruct (float_of_int_exact z Hb) as (Hv & Hf & _).
  unfold PyFloat.eqb, SFeqb. rewrite (compare_sunits _ _ Hv Hv Hf Hf).
  now rewrite Z.compare_refl.
Qed.

Lemma round_aux_is_round (s : bool) (mx : positive) (ex : Z) :
  53 <= Zpos (digits2_pos mx) ->
  binary_round_aux 53 1024 s (Zpos mx) ex loc_Exact = binary_round 53 1024 s mx ex.
Proof.
  intros Hd. unfold binary_round. rewrite fexp_64. unfold shl_align.
  destruct (Z.max (Zpos (digits2_pos mx) + ex - 53) (-1074) - ex) eqn:E;
    try reflexivity. lia.
Qed.

(** The exponent of an integer is above [-53]. *)
Lemma int_exponent (z : Z) (m : positive) (e : Z) :
  z <> 0 -> bounded 53 1024 m e = true -> units m e = Z.abs z * 2 ^ 1074 ->
  -53 < e.
Proof.
  intros Hz Bd Hu.
  destruct (bounded_cases _ _ Bd) as (He & Hd & _).
  pose proof (units_bounds m e ltac:(lia)) as [_ Hub]. rewrite Hu in Hub.
  assert (Hq : 0 < 2 ^ 1074) by (apply Z.pow_pos_nonneg; lia).
  assert (H1 : 2 ^ 1074 < 2 ^ (Zpos (digits2_pos m) + (e + 1074))) by nia.
  apply Z.pow_lt_mono_r_iff in H1; lia.
Qed.

End IntSweepProperties.

(** ** Rounding to nearest: the shifts keep track of the exact value *)

Section NearestProperties.
Import Binary64 Nearest.

Lemma located_exact (m D : Z) :
  0 < D -> located (Build_shr_record m false false) (m * D) D.
Proof.
  intros HD. unfold located. cbn [shr_m shr_r shr_s].
  split; [lia|]. split.
  - symmetry. apply Z.leb_gt. lia.
  - rewrite Z.eqb_refl. reflexivity.
Qed.

Lemma shr_1_located (rec : shr_record) (N D : Z) :
  0 <= shr_m rec -> 0 < D ->
  located rec N D -> located (shr_1 rec) N (2 * D).
Proof.
  destruct rec as [m r s]. unfold located. cbn [shr_m shr_r shr_s].
  intros Hm HD (Hb & Hr & Hs).
  assert (Hs' : orb r s = negb (N =? m * D)).
  { rewrite Hr, Hs.
    destruct (Z.eqb_spec N (m * D)) as [E|E];
      destruct (Z.leb_spec D (2 * (N - m * D)));
      destruct (Z.eqb_spec (2 * (N - m * D)) D); cbn [negb orb]; try reflexivity; lia. }
  destruct m as [|p|p]; [| |lia].
  - cbn [shr_1 shr_m shr_r shr_s]. rewrite Hs'.
    split; [lia|]. split.
    + symmetry. apply Z.leb_gt. lia.
    + destruct (Z.eqb_spec N (0 * D)); destruct (Z.eqb_spec N (0 * (2 * D)));
        destruct (Z.eqb_spec (2 * (N - 0 * (2 * D))) (2 * D)); cbn [negb orb]; try reflexivity; lia.
  - destruct p as [p|p|]; cbn [shr_1 shr_m shr_r shr_s]; rewrite Hs'.
    + rewrite (Pos2Z.inj_xI p) in *. split; [lia|]. split.
      * symmetry. apply Z.leb_le. lia.
      * destruct (Z.eqb_spec N ((2 * Zpos p + 1) * D));
          destruct (Z.eqb_spec N (Zpos p * (2 * D)));
          destruct (Z.eqb_spec (2 * (N - Zpos p * (2 * D))) (2 * D));
          cbn [negb orb]; try reflexivity; lia.
    + rewrite (Pos2Z.inj_xO p) in *. split; [lia|]. split.
      * symmetry. apply Z.leb_gt. lia.
      * destruct (Z.eqb_spec N (2 * Zpos p * D));
          destruct (Z.eqb_spec N (Zpos p * (2 * D)));
          destruct (Z.eqb_spec (2 * (N - Zpos p * (2 * D))) (2 * D));
          cbn [negb orb]; try reflexivity; lia.
    + split; [lia|]. split.
      * symmetry. apply Z.leb_le. lia.
      * destruct (Z.eqb_spec N (1 * D));
          destruct (Z.eqb_spec N (0 * (2 * D)));
          destruct (Z.eqb_spec (2 * (N - 0 * (2 * D))) (2 * D));
          cbn [negb orb]; try reflexivity; lia.
Qed.

Lemma iter_shr_located (p : positive) :
  forall rec N D,
    0 <= shr_m rec -> 0 < D ->
    located rec N D ->
    located (iter_pos shr_1 p rec) N (D * 2 ^ Zpos p).
Proof.
  induction p as [p IH|p IH|]; intros rec N D Hm HD H; cbn [iter_pos].
  - pose proof (shr_1_located rec N D Hm HD H) as H1.
    destruct (shr_1_m rec Hm) as [_ P1].
    assert (Hp : 0 < 2 ^ Zpos p) by (apply Z.pow_pos_nonneg; lia).
    pose proof (IH _ N (2 * D) P1 ltac:(lia) H1) as H2.
    destruct (iter_shr_m p _ P1) as [_ P2].
    pose proof (IH _ N (2 * D * 2 ^ Zpos p) P2 ltac:(lia) H2) as H3.
    replace (D * 2 ^ Zpos p~1) with (2 * D * 2 ^ Zpos p * 2 ^ Zpos p); [exact H3|].
    assert (H4 : Zpos p~1 = Zpos p + Zpos p + 1) by lia.
    rewrite H4, (Z.pow_add_r 2 (Zpos p + Zpos p) 1),
      (Z.pow_add_r 2 (Zpos p) (Zpos p)) by lia.
    change (2 ^ 1) with 2. lia.
  - assert (Hp : 0 < 2 ^ Zpos p) by (apply Z.pow_pos_nonneg; lia).
    pose proof (IH _ N D Hm HD H) as H2.
    destruct (iter_shr_m p _ Hm) as [_ P2].
    pose proof (IH _ N (D * 2 ^ Zpos p) P2 ltac:(lia) H2) as H3.
    replace (D * 2 ^ Zpos p~0) with (D * 2 ^ Zpos p * 2 ^ Zpos p); [exact H3|].
    assert (H4 : Zpos p~0 = Zpos p + Zpos p) by lia.
    rewrite H4, (Z.pow_add_r 2 (Zpos p) (Zpos p)) by lia. lia.
  - change (2 ^ 1) with 2. rewrite Z.mul_comm. now apply shr_1_located.
Qed.

(** Rounding the located value gives a nearest integer. *)
Lemma round_nearest_even_located (rec : shr_record) (N D : Z) :
  0 < D -> located rec N D ->
  let k' := round_nearest_even (shr_m rec) (loc_of_shr_record rec) in
  (k' = shr_m rec \/ k' = shr_m rec + 1)
  /\ 2 * Z.abs (k' * D - N) <= D.
Proof.
  destruct rec as [m r s]. unfold located. cbn [shr_m shr_r shr_s].
  intros HD (Hb & Hr & Hs).
  destruct (Z.leb_spec D (2 * (N - m * D))) as [Hle|Hgt];
    destruct (Z.eqb_spec N (m * D)) as [E1|E1];
    destruct (Z.eqb_spec (2 * (N - m * D)) D) as [E2|E2];
    cbn [negb orb] in Hs; subst r s; cbn [loc_of_shr_record round_nearest_even]; try lia.
  destruct (Z.even m); lia.
Qed.


Lemma shr_fexp_located (m e N D : Z) (l : location) :
  0 <= m -> 0 < D ->
  located (shr_record_of_loc m l) N D ->
  0 <= fexp 53 1024 (Zdigits2 m + e) - e ->
  exists rec,
    shr_fexp 53 1024 m e l = (rec, fexp 53 1024 (Zdigits2 m + e))
    /\ shr_m rec = m / 2 ^ (fexp 53 1024 (Zdigits2 m + e) - e)
    /\ located rec N (D * 2 ^ (fexp 53 1024 (Zdigits2 m + e) - e)).
Proof.
  intros Hm HD Hl Hp. unfold shr_fexp, shr.
  destruct (fexp 53 1024 (Zdigits2 m + e) - e) as [|p|p] eqn:En; try lia.
  - exists (shr_record_of_loc m l). split; [f_equal; lia|].
    rewrite shr_record_of_loc_m, Z.pow_0_r, Z.div_1_r, Z.mul_1_r. auto.
  - exists (iter_pos shr_1 p (shr_record_of_loc m l)).
    assert (H0 : 0 <= shr_m (shr_record_of_loc m l))
      by now rewrite shr_record_of_loc_m.
    split; [f_equal; lia|]. split.
    + destruct (iter_shr_m p _ H0) as [E _].
      now rewrite E, shr_record_of_loc_m.
    + now apply iter_shr_located.
Qed.

Lemma small_digits (k : Z) : 0 < k < 2 ^ 53 -> Zdigits2 k <= 53.
Proof.
  intros Hk. destruct k as [|p|p]; try lia. cbn [Zdigits2].
  pose proof (digits2_bounds p) as [Hl _].
  destruct (Z.le_gt_cases (Zpos (digits2_pos p)) 53) as [|Hgt]; [assumption|].
  assert (2 ^ 53 <= 2 ^ (Zpos (digits2_pos p) - 1)) by (apply Z.pow_le_mono_r; lia).
  lia.
Qed.

(** The second shift of [binary_round_aux] only renormalises a carry. *)
Lemma round_aux_finish (s : bool) (k' t : Z) :
  -1074 <= t -> 0 < k' <= 2 ^ 53 ->
  (let '(mrs, e) := shr_fexp 53 1024 k' t loc_Exact in
   match shr_m mrs with
   | 0 => S754_zero s
   | Zpos m => if e <=? 1024 - 53 then S754_finite s m e else S754_infinity s
   | Zneg _ => S754_nan
   end) = canon s k' t.
Proof.
  intros Ht Hk. unfold canon.
  destruct (Z.ltb_spec k' (2 ^ 53)) as [Hlt|Hge].
  - rewrite shr_fexp_keep.
    + cbn [shr_m]. destruct k' as [|p|p]; try lia.
      change (1024 - 53) with 971. reflexivity.
    + rewrite fexp_64. pose proof (small_digits k' ltac:(lia)). lia.
  - assert (Ek : k' = 2 ^ 53) by lia.
    destruct (shr_fexp_shift k' t loc_Exact ltac:(lia)) as [Em2 Ee2].
    { rewrite fexp_64, (Zdigits2_unique k' 54) by (rewrite Ek; simpl; lia). lia. }
    rewrite fexp_64, (Zdigits2_unique k' 54) in Em2, Ee2 by (rewrite Ek; simpl; lia).
    destruct (shr_fexp 53 1024 k' t loc_Exact) as [mrs'' e''].
    cbn [fst snd] in Em2, Ee2. rewrite Em2, Ee2, Ek.
    replace (Z.max (54 + t - 53) (-1074)) with (t + 1) by lia.
    replace (t + 1 - t) with 1 by lia.
    change (2 ^ 53 / 2 ^ 1) with (Zpos (Z.to_pos (2 ^ 52))).
    change (1024 - 53) with 971. reflexivity.
Qed.

(** [binary_round_aux] on a mantissa that needs no left shift: the
    result is the grid point [k'] next to the exact value [N / D]
    (counted in units of [2^e]) and at most half a grid step away. *)
Lemma round_aux_spec (s : bool) (m e N D : Z) (l : location) :
  -1074 <= e -> 0 < m -> 0 < D ->
  e <= Z.max (Zdigits2 m + e - 53) (-1074) ->
  located (shr_record_of_loc m l) N D ->
  exists t k k',
    -1074 <= t
    /\ 0 < k < 2 ^ 53
    /\ (-1074 < t -> 2 ^ 52 <= k)
    /\ k * 2 ^ (t + 1074) * D <= N * 2 ^ (e + 1074) < (k + 1) * 2 ^ (t + 1074) * D
    /\ (k' = k \/ k' = k + 1)
    /\ 2 * Z.abs (k' * 2 ^ (t + 1074) * D - N * 2 ^ (e + 1074)) <= 2 ^ (t + 1074) * D
    /\ binary_round_aux 53 1024 s m e l = canon s k' t.
Proof.
  intros He Hm HD Hsh Hloc.
  set (d := Zdigits2 m) in *.
  set (t := Z.max (d + e - 53) (-1074)) in *.
  assert (Hfe : fexp 53 1024 (Zdigits2 m + e) = t) by (rewrite fexp_64; reflexivity).
  destruct (shr_fexp_located m e N D l ltac:(lia) HD Hloc ltac:(lia))
    as (rec & Esh & Em & Hrec).
  rewrite Hfe in Esh, Em, Hrec.
  set (p := t - e) in *. assert (Hp : 0 <= p) by (unfold p; lia).
  assert (H2p : 0 < 2 ^ p) by (apply Z.pow_pos_nonneg; lia).
  assert (HE : 0 < 2 ^ (e + 1074)) by (apply Z.pow_pos_nonneg; lia).
  assert (Hd : 2 ^ (d - 1) <= m < 2 ^ d).
  { destruct m as [|q|q]; try lia. apply digits2_bounds. }
  assert (Hd0 : 0 < d).
  { destruct m as [|q|q]; try lia. unfold d. cbn [Zdigits2]. lia. }
  set (k := m / 2 ^ p) in *.
  assert (Hku : k * 2 ^ p <= m < (k + 1) * 2 ^ p).
  { unfold k. pose proof (Z.mul_div_le m (2 ^ p) H2p).
    pose proof (Z.mul_succ_div_gt m (2 ^ p) H2p). lia. }
  assert (Hk : 0 < k < 2 ^ 53 /\ (-1074 < t -> 2 ^ 52 <= k)).
  { destruct (Z.eq_dec p 0) as [E0|N0].
    - assert (k = m) by (unfold k; rewrite E0, Z.pow_0_r; apply Z.div_1_r).
      assert (Hd53 : d <= 53) by lia.
      assert (2 ^ d <= 2 ^ 53) by (apply Z.pow_le_mono_r; lia).
      split; [lia|]. intros Ht.
      assert (d = 53) by lia.
      replace (d - 1) with 52 in Hd by lia. lia.
    - assert (Hdp : d = 53 + p) by lia.
      assert (2 ^ 52 <= k < 2 ^ 53).
      { unfold k. split.
        - apply Z.div_le_lower_bound; [lia|].
          rewrite <- Z.pow_add_r by lia. replace (p + 52) with (d - 1) by lia. lia.
        - apply Z.div_lt_upper_bound; [lia|].
          rewrite <- Z.pow_add_r by lia. replace (p + 53) with d by lia. lia. }
      split; lia. }
  destruct Hk as [Hk Hkn].
  destruct (round_nearest_even_located rec N (D * 2 ^ p) ltac:(lia) Hrec)
    as [Hk' Hhalf].
  set (k' := round_nearest_even (shr_m rec) (loc_of_shr_record rec)) in *.
  rewrite Em in Hk'.
  destruct Hrec as (Hb & _). rewrite Em in Hb.
  assert (Hu : 2 ^ (t + 1074) = 2 ^ p * 2 ^ (e + 1074)).
  { rewrite <- Z.pow_add_r by lia. f_equal. unfold p. lia. }
  exists t, k, k'. split; [lia|]. split; [exact Hk|]. split; [exact Hkn|].
  split; [rewrite Hu; nia|]. split; [exact Hk'|]. split.
  - rewrite Hu.
    replace (k' * (2 ^ p * 2 ^ (e + 1074)) * D - N * 2 ^ (e + 1074))
      with ((k' * (D * 2 ^ p) - N) * 2 ^ (e + 1074)) by lia.
    rewrite Z.abs_mul, (Z.abs_eq (2 ^ (e + 1074))) by lia. nia.
  - unfold binary_round_aux. rewrite Esh. fold k'.
    apply round_aux_finish; lia.
Qed.

End NearestProperties.

(** ** Rounding to nearest: no float is closer *)

Section NearestFloat.
Import Binary64 Nearest.

(** The grid point chosen is at least as close to the exact value as
    any canonical magnitude. *)
Lemma grid_nearest (t k k' N D : Z) (mz : positive) (ez : Z) :
  0 < D -> -1074 <= t -> 0 < k < 2 ^ 53 -> (-1074 < t -> 2 ^ 52 <= k) ->
  k * 2 ^ (t + 1074) * D <= N < (k + 1) * 2 ^ (t + 1074) * D ->
  k' = k \/ k' = k + 1 ->
  2 * Z.abs (k' * 2 ^ (t + 1074) * D - N) <= 2 ^ (t + 1074) * D ->
  bounded 53 1024 mz ez = true ->
  Z.abs (k' * 2 ^ (t + 1074) * D - N) <= Z.abs (units mz ez * D - N).
Proof.
  intros HD Ht Hk Hn HX Hk' Hhalf Hz.
  set (u := 2 ^ (t + 1074)) in *.
  assert (Hu : 0 < u) by (apply Z.pow_pos_nonneg; lia).
  assert (HXf : k * u <= N / D < (k + 1) * u).
  { split.
    - apply Z.div_le_lower_bound; lia.
    - apply Z.div_lt_upper_bound; lia. }
  pose proof (Z.mul_div_le N D HD) as Hf1.
  pose proof (Z.mul_succ_div_gt N D HD) as Hf2.
  destruct (Z.le_gt_cases (units mz ez * D) N) as [Hle|Hgt].
  - assert (Hzf : units mz ez <= N / D) by (apply Z.div_le_lower_bound; lia).
    pose proof (below_grid mz ez t k (N / D) Hz Ht Hk Hn HXf Hzf) as Hb.
    fold u in Hb.
    assert (units mz ez * D <= k * u * D) by (apply Z.mul_le_mono_nonneg_r; lia).
    destruct Hk' as [->| ->]; lia.
  - assert (Hzf : N / D < units mz ez).
    { apply Z.div_lt_upper_bound; lia. }
    destruct (above_grid mz ez t k (N / D) Hz Ht Hk Hn HXf Hzf) as (Ha & _).
    fold u in Ha.
    assert ((k + 1) * u * D <= units mz ez * D) by (apply Z.mul_le_mono_nonneg_r; lia).
    destruct Hk' as [->| ->]; lia.
Qed.

(** The result of a rounding that satisfies the grid specification is
    infinite or a nearest float of the signed value. *)
Lemma canon_nearest (s : bool) (t k k' N D : Z) :
  0 < D -> -1074 <= t -> 0 < k < 2 ^ 53 -> (-1074 < t -> 2 ^ 52 <= k) ->
  k * 2 ^ (t + 1074) * D <= N < (k + 1) * 2 ^ (t + 1074) * D ->
  k' = k \/ k' = k + 1 ->
  2 * Z.abs (k' * 2 ^ (t + 1074) * D - N) <= 2 ^ (t + 1074) * D ->
  canon s k' t = S754_infinity s
  \/ (nearest_float (if s then - N else N) D (canon s k' t)
      /\ exists m e, canon s k' t = S754_finite s m e).
Proof.
  intros HD Ht Hk Hn HX Hk' Hhalf.
  destruct (canon_valid s k k' t Ht Hk Hn Hk') as [->|(m & e & E & Hb & Hu)];
    [now left|right].
  rewrite E. split; [|eauto].
  set (u := 2 ^ (t + 1074)) in *.
  assert (Hpu : 0 < u) by (apply Z.pow_pos_nonneg; lia).
  assert (HkuD : 0 < k * u * D) by nia.
  split; [exact Hb|]. split; [reflexivity|].
  intros z Vz Fz.
  assert (Hself : Z.abs (sunits (S754_finite s m e) * D - (if s then - N else N))
                  = Z.abs (k' * u * D - N)).
  { cbn [sunits]. rewrite Hu. destruct s; [|reflexivity].
    replace (- (k' * u) * D - - N) with (- (k' * u * D - N)) by lia.
    apply Z.abs_opp. }
  rewrite Hself.
  assert (Hzero : Z.abs (k' * u * D - N) <= N).
  { destruct Hk' as [->| ->]; lia. }
  destruct z as [sz|sz| |sz mz ez]; try discriminate.
  - cbn [sunits]. destruct s; lia.
  - cbn [valid valid_binary] in Vz.
    pose proof (grid_nearest t k k' N D mz ez HD Ht Hk Hn HX Hk' Hhalf Vz) as Hg.
    fold u in Hg.
    destruct (bounded_cases _ _ Vz) as (Hez & _).
    pose proof (units_pos mz ez ltac:(lia)) as Hpz.
    assert (0 < units mz ez * D) by nia.
    cbn [sunits]. destruct s, sz; lia.
Qed.

Lemma nearest_float_mono (N1 D1 N2 D2 : Z) (r1 r2 : spec_float) :
  0 < D1 -> 0 < D2 ->
  nearest_float N1 D1 r1 -> nearest_float N2 D2 r2 ->
  N1 * D2 < N2 * D1 ->
  sunits r1 <= sunits r2.
Proof.
  intros H1 H2 (V1 & F1 & Near1) (V2 & F2 & Near2) Hlt.
  destruct (Z.le_gt_cases (sunits r1) (sunits r2)) as [|Hgt]; [assumption|exfalso].
  specialize (Near1 r2 V2 F2). specialize (Near2 r1 V1 F1).
  set (a := sunits r1) in *. set (b := sunits r2) in *.
  assert (Hp : b * D1 < a * D1) by nia.
  assert (Hq : b * D2 < a * D2) by nia.
  assert (Ha : (a + b) * D1 <= 2 * N1) by lia.
  assert (Hb : 2 * N2 <= (a + b) * D2) by lia.
  assert ((a + b) * D1 * D2 <= 2 * N1 * D2) by nia.
  assert (2 * N2 * D1 <= (a + b) * D2 * D1) by nia.
  nia.
Qed.

(** A float on one side of the exact value is on the same side of
    its rounding. *)
Lemma nearest_float_above (N D : Z) (r z : spec_float) :
  0 < D -> nearest_float N D r ->
  valid z = true -> PyFloat.is_finite z = true ->
  sunits z * D <= N -> sunits z <= sunits r.
Proof.
  intros HD (_ & _ & Near) Vz Fz Hle.
  specialize (Near z Vz Fz).
  destruct (Z.le_gt_cases (sunits z) (sunits r)) as [|Hgt]; [assumption|exfalso].
  assert (sunits r * D < sunits z * D) by nia. lia.
Qed.

Lemma nearest_float_below (N D : Z) (r z : spec_float) :
  0 < D -> nearest_float N D r ->
  valid z = true -> PyFloat.is_finite z = true ->
  N <= sunits z * D -> sunits r <= sunits z.
Proof.
  intros HD (_ & _ & Near) Vz Fz Hle.
  specialize (Near z Vz Fz).
  destruct (Z.le_gt_cases (sunits r) (sunits z)) as [|Hgt]; [assumption|exfalso].
  assert (sunits z * D < sunits r * D) by nia. lia.
Qed.

Lemma nearest_float_scale (N D c : Z) (r : spec_float) :
  0 < c -> nearest_float (N * c) (D * c) r <-> nearest_float N D r.
Proof.
  intros Hc. unfold nearest_float.
  assert (E : forall a, Z.abs (a * (D * c) - N * c) = Z.abs (a * D - N) * c).
  { intros a. replace (a * (D * c) - N * c) with ((a * D - N) * c) by lia.
    rewrite Z.abs_mul. f_equal. lia. }
  split; intros (V & F & Near); (split; [exact V|split; [exact F|]]);
    intros z Vz Fz; specialize (Near z Vz Fz); rewrite ?E in *; nia.
Qed.

End NearestFloat.

(** ** Rounding to nearest: the operations *)

Section NearestOperations.
Import Binary64 Nearest.

Lemma round_aux_nearest (s : bool) (m e N D : Z) (l : location) :
  -1074 <= e -> 0 < m -> 0 < D ->
  e <= Z.max (Zdigits2 m + e - 53) (-1074) ->
  located (shr_record_of_loc m l) N D ->
  binary_round_aux 53 1024 s m e l = S754_infinity s
  \/ (nearest_float (if s then - (N * 2 ^ (e + 1074)) else N * 2 ^ (e + 1074)) D
                    (binary_round_aux 53 1024 s m e l)
      /\ exists m' e', binary_round_aux 53 1024 s m e l = S754_finite s m' e').
Proof.
  intros He Hm HD Hsh Hloc.
  destruct (round_aux_spec s m e N D l He Hm HD Hsh Hloc)
    as (t & k & k' & Ht & Hk & Hn & HX & Hk' & Hhalf & ->).
  exact (canon_nearest s t k k' _ D HD Ht Hk Hn HX Hk' Hhalf).
Qed.

(** Rounding a binary magnitude. *)
Lemma binary_round_nearest (s : bool) (mx : positive) (ex : Z) :
  -1074 <= ex ->
  binary_round 53 1024 s mx ex = S754_infinity s
  \/ (nearest_float (if s then - units mx ex else units mx ex) 1
                    (binary_round 53 1024 s mx ex)
      /\ exists m e, binary_round 53 1024 s mx ex = S754_finite s m e).
Proof.
  intros Hex.
  set (d := Zpos (digits2_pos mx)).
  set (t := Z.max (d + ex - 53) (-1074)).
  pose proof (digits2_bounds mx) as Hmx. fold d in Hmx.
  assert (Hd : 0 < d) by (unfold d; lia).
  unfold binary_round. rewrite fexp_64. fold d. fold t.
  destruct (Z.le_gt_cases t ex) as [Hle|Hgt].
  - set (k := Zpos mx * 2 ^ (ex - t)).
    assert (Hp : 0 < 2 ^ (ex - t)) by (apply Z.pow_pos_nonneg; lia).
    assert (Hsh : shl_align mx ex t = (Z.to_pos k, t)).
    { unfold shl_align. destruct (t - ex) as [|p|p] eqn:E; try lia.
      - assert (t = ex) by lia. subst k. replace (ex - t) with 0 by lia.
        rewrite Z.mul_1_r. simpl. f_equal. lia.
      - f_equal. apply Pos2Z.inj. rewrite iter_xO.
        unfold k. rewrite Z2Pos.id by lia. f_equal. f_equal. lia. }
    rewrite Hsh. rewrite Z2Pos.id by (unfold k; lia).
    assert (Hkd : 2 ^ (d + (ex - t) - 1) <= k < 2 ^ (d + (ex - t))).
    { unfold k.
      replace (d + (ex - t) - 1) with (d - 1 + (ex - t)) by lia.
      rewrite (Z.pow_add_r 2 (d - 1) (ex - t)), (Z.pow_add_r 2 d (ex - t)) by lia.
      split; [apply Z.mul_le_mono_nonneg_r|apply Z.mul_lt_mono_pos_r]; lia. }
    assert (Hu : k * 2 ^ (t + 1074) = units mx ex).
    { unfold units, k. rewrite <- Z.mul_assoc, <- Z.pow_add_r by lia.
      do 2 f_equal. lia. }
    pose proof (round_aux_nearest s k t (k * 1) 1 loc_Exact ltac:(lia)
                  ltac:(unfold k; lia) ltac:(lia)) as H.
    rewrite Z.mul_1_r, Hu in H. apply H.
    + rewrite (Zdigits2_unique k (d + (ex - t))) by (unfold k in *; lia). lia.
    + rewrite <- (Z.mul_1_r k) at 2. apply located_exact. lia.
  - assert (Hsh : shl_align mx ex t = (mx, ex)).
    { unfold shl_align. destruct (t - ex) as [|p|p] eqn:E; try lia; reflexivity. }
    rewrite Hsh.
    pose proof (round_aux_nearest s (Zpos mx) ex (Zpos mx * 1) 1 loc_Exact Hex
                  ltac:(lia) ltac:(lia)) as H.
    rewrite Z.mul_1_r in H. apply H.
    + cbn [Zdigits2]. fold d. lia.
    + rewrite <- (Z.mul_1_r (Zpos mx)) at 2. apply located_exact. lia.
Qed.

(** The quotient of a division with its remainder located. *)
Lemma located_division (q r D : Z) :
  0 < D -> 0 <= r < D -> Z.even D = true ->
  located (shr_record_of_loc q (new_location D r)) (q * D + r) D.
Proof.
  intros HD Hr Hev. unfold new_location. rewrite Hev.
  unfold new_location_even.
  unfold located.
  destruct (Z.eqb_spec r 0) as [->|Hn].
  - cbn [shr_record_of_loc shr_m shr_r shr_s].
    split; [lia|]. split.
    + symmetry. apply Z.leb_gt. lia.
    + replace (q * D + 0) with (q * D) by lia. now rewrite Z.eqb_refl.
  - destruct (Z.compare_spec (2 * r) D) as [E|E|E];
      cbn [shr_record_of_loc shr_m shr_r shr_s];
      (split; [lia|]);
      destruct (Z.leb_spec D (2 * (q * D + r - q * D)));
      destruct (Z.eqb_spec (q * D + r) (q * D));
      destruct (Z.eqb_spec (2 * (q * D + r - q * D)) D);
      cbn [negb orb]; (split; [try reflexivity; lia|try reflexivity; lia]).
Qed.

Lemma div_core_spec (n : positive) :
  exists e' q r,
    SFdiv_core_binary 53 1024 (Zpos n) 0 10000000000 0
    = (q, e', new_location 10000000000 r)
    /\ -1074 <= e' <= 0
    /\ 0 <= r < 10000000000
    /\ q * 10000000000 + r = Zpos n * 2 ^ (- e')
    /\ 2 ^ 52 <= q.
Proof.
  unfold SFdiv_core_binary. rewrite fexp_64.
  change (Zdigits2 10000000000) with 34. cbn [Zdigits2].
  set (d1 := Zpos (digits2_pos n)).
  pose proof (digits2_bounds n) as Hn. fold d1 in Hn.
  assert (Hd1 : 0 < d1) by (unfold d1; lia).
  set (e' := Z.min (Z.max (d1 + 0 - (34 + 0) - 53) (-1074)) (0 - 0)).
  assert (He' : -1074 <= e' <= 0) by (unfold e'; lia).
  assert (Hs : e' = 0 /\ 88 <= d1 \/ e' = d1 - 87 /\ d1 <= 87) by (unfold e'; lia).
  clearbody e'.
  assert (Hm : match 0 - 0 - e' with
               | 0 => Zpos n
               | Zpos _ => Z.shiftl (Zpos n) (0 - 0 - e')
               | Zneg _ => 0
               end = Zpos n * 2 ^ (- e')).
  { replace (0 - 0 - e') with (- e') by lia.
    destruct (- e') as [|p|p] eqn:Ep; try lia.
    rewrite Z.shiftl_mul_pow2 by lia. lia. }
  rewrite Hm.
  set (a := Zpos n * 2 ^ (- e')).
  assert (Ed : Z.div_eucl a 10000000000 = (a / 10000000000, a mod 10000000000)).
  { unfold Z.div, Z.modulo. destruct (Z.div_eucl a 10000000000); reflexivity. }
  rewrite Ed.
  exists e', (a / 10000000000), (a mod 10000000000).
  split; [reflexivity|]. split; [exact He'|]. split.
  { apply Z.mod_pos_bound. lia. }
  split.
  { pose proof (Z.div_mod a 10000000000 ltac:(lia)). lia. }
  apply Z.div_le_lower_bound; [lia|].
  assert (H86 : 10000000000 * 2 ^ 52 <= 2 ^ 86) by (vm_compute; discriminate).
  assert (2 ^ 86 <= a); [|lia].
  unfold a. destruct Hs as [[-> Hd]|[-> Hd]].
  - change (2 ^ (- 0)) with 1.
    assert (2 ^ 86 <= 2 ^ (d1 - 1)) by (apply Z.pow_le_mono_r; lia). lia.
  - replace 86 with ((d1 - 1) + (- (d1 - 87))) by lia.
    rewrite (Z.pow_add_r 2 (d1 - 1) (- (d1 - 87))) by lia.
    apply Z.mul_le_mono_nonneg_r; [|lia].
    apply Z.pow_nonneg. lia.
Qed.

(** [of_ratio s n 10^10] is a float nearest to [n / 10^10]. *)
Lemma of_ratio_nearest (s : bool) (n : positive) :
  PyFloat.of_ratio s n 10000000000 = S754_infinity s
  \/ (nearest_float (if s then - (Zpos n * 2 ^ 1074) else Zpos n * 2 ^ 1074)
                    10000000000 (PyFloat.of_ratio s n 10000000000)
      /\ exists m e, PyFloat.of_ratio s n 10000000000 = S754_finite s m e).
Proof.
  unfold PyFloat.of_ratio, PyFloat.prec, PyFloat.emax.
  destruct (div_core_spec n) as (e' & q & r & -> & He' & Hr & Hq & Hq52).
  assert (Hd : 53 <= Zdigits2 q).
  { destruct q as [|p|p]; try lia. cbn [Zdigits2].
    pose proof (digits2_bounds p) as [_ Hu].
    destruct (Z.le_gt_cases 53 (Zpos (digits2_pos p))) as [|Hlt]; [assumption|].
    assert (2 ^ Zpos (digits2_pos p) <= 2 ^ 52) by (apply Z.pow_le_mono_r; lia).
    lia. }
  pose proof (round_aux_nearest s q e' (q * 10000000000 + r) 10000000000
                (new_location 10000000000 r) ltac:(lia) ltac:(lia) ltac:(lia)
                ltac:(lia)
                (located_division q r 10000000000 ltac:(lia) Hr eq_refl)) as H.
  rewrite Hq in H.
  replace (Zpos n * 2 ^ (- e') * 2 ^ (e' + 1074)) with (Zpos n * 2 ^ 1074) in H;
    [exact H|].
  rewrite <- Z.mul_assoc, <- Z.pow_add_r by lia. do 2 f_equal. lia.
Qed.

End NearestOperations.

(** ** The two roundings of the coercion *)

Section CoercionRoundings.
Import Binary64 Nearest.

Lemma mag_units (m : positive) (e : Z) :
  -1074 <= e ->
  PyFloat.mag_num m e * 2 ^ 1074 = units m e * PyFloat.mag_den e
  /\ 0 < PyFloat.mag_den e.
Proof.
  intros He. unfold units, PyFloat.mag_num, PyFloat.mag_den.
  destruct (Z.le_gt_cases 0 e) as [Hpos|Hneg].
  - rewrite Z.max_l, Z.max_r by lia. rewrite Z.pow_0_r. split; [|lia].
    rewrite (Z.pow_add_r 2 e 1074) by lia. lia.
  - rewrite Z.max_r, Z.max_l by lia. rewrite Z.pow_0_r.
    split; [|apply Z.pow_pos_nonneg; lia].
    replace 1074 with (- e + (e + 1074)) at 1 by lia.
    rewrite (Z.pow_add_r 2 (- e) (e + 1074)) by lia. lia.
Qed.

Lemma nearest_even_div_nonneg (a d : Z) :
  0 <= a -> 0 < d -> 0 <= PyFloat.nearest_even_div a d.
Proof.
  intros Ha Hd. unfold PyFloat.nearest_even_div.
  assert (0 <= a / d) by (apply Z.div_pos; lia).
  destruct (2 * (a mod d) ?= d); [destruct (Z.even (a / d))| |]; lia.
Qed.

(** Two canonical finite floats of the same value are the same float,
    or two zeros. *)
Lemma same_units (x y : spec_float) :
  valid x = true -> valid y = true ->
  PyFloat.is_finite x = true -> PyFloat.is_finite y = true ->
  sunits x = sunits y ->
  x = y \/ (sunits x = 0 /\ (exists sx, x = S754_zero sx) /\ exists sy, y = S754_zero sy).
Proof.
  intros Vx Vy Fx Fy E.
  destruct x as [sx|sx| |sx mx ex]; try discriminate;
    destruct y as [sy|sy| |sy my ey]; try discriminate;
    cbn [valid valid_binary] in Vx, Vy; cbn [sunits] in E.
  - right. eauto.
  - destruct (bounded_cases _ _ Vy) as (He & _).
    pose proof (units_pos my ey ltac:(lia)). destruct sy; lia.
  - destruct (bounded_cases _ _ Vx) as (He & _).
    pose proof (units_pos mx ex ltac:(lia)). destruct sx; lia.
  - destruct (bounded_cases _ _ Vx) as (Hex & _).
    destruct (bounded_cases _ _ Vy) as (Hey & _).
    pose proof (units_pos mx ex ltac:(lia)).
    pose proof (units_pos my ey ltac:(lia)).
    left. destruct sx, sy; try lia;
      (destruct (units_inj mx my ex ey Vx Vy ltac:(lia)) as [-> ->]; reflexivity).
Qed.

(** [round(r)] is an integer nearest to [r]. *)
Lemma round_int_nearest (r : spec_float) :
  valid r = true -> PyFloat.is_finite r = true ->
  exists n,
    PyFloat.round_int r = OK n
    /\ 2 * Z.abs (n * 2 ^ 1074 - sunits r) <= 2 ^ 1074.
Proof.
  intros Vr Fr.
  assert (HU : 0 < 2 ^ 1074) by (apply Z.pow_pos_nonneg; lia).
  destruct r as [s|s| |s m e]; try discriminate.
  - exists 0. split; [reflexivity|]. cbn [sunits]. lia.
  - cbn [valid valid_binary] in Vr.
    destruct (bounded_cases _ _ Vr) as (He & _).
    destruct (mag_units m e ltac:(lia)) as [Hm Hden].
    pose proof (nearest_even_div_close (PyFloat.mag_num m e) (PyFloat.mag_den e) Hden)
      as Hc.
    set (n0 := PyFloat.nearest_even_div (PyFloat.mag_num m e) (PyFloat.mag_den e)) in *.
    exists (if s then - n0 else n0). split; [reflexivity|].
    cbn [sunits].
    assert (Hk : 2 * Z.abs (n0 * 2 ^ 1074 - units m e) <= 2 ^ 1074).
    { set (U := 2 ^ 1074) in *. set (den := PyFloat.mag_den e) in *.
      set (num := PyFloat.mag_num m e) in *.
      assert (E : (num - n0 * den) * U = (units m e - n0 * U) * den) by lia.
      assert (E' : Z.abs (num - n0 * den) * U = Z.abs (units m e - n0 * U) * den).
      { rewrite <- (Z.abs_eq U) at 1 by lia. rewrite <- Z.abs_mul, E, Z.abs_mul.
        f_equal. lia. }
      assert (2 * (Z.abs (units m e - n0 * U) * den) <= den * U) by nia.
      assert (2 * Z.abs (units m e - n0 * U) <= U) by nia.
      lia. }
    destruct s; [|exact Hk].
    replace (- n0 * 2 ^ 1074 - - units m e) with (- (n0 * 2 ^ 1074 - units m e)) by lia.
    now rewrite Z.abs_opp.
Qed.

Lemma round_int_mono (r1 r2 : spec_float) (n1 n2 : Z) :
  valid r1 = true -> valid r2 = true ->
  PyFloat.is_finite r1 = true -> PyFloat.is_finite r2 = true ->
  sunits r1 <= sunits r2 ->
  PyFloat.round_int r1 = OK n1 -> PyFloat.round_int r2 = OK n2 ->
  n1 <= n2.
Proof.
  intros V1 V2 F1 F2 Hle E1 E2.
  destruct (Z.eq_dec (sunits r1) (sunits r2)) as [Heq|Hne].
  - destruct (same_units r1 r2 V1 V2 F1 F2 Heq)
      as [->|(_ & [s1 ->] & [s2 ->])].
    + rewrite E1 in E2. inversion E2. lia.
    + cbn in E1, E2. inversion E1. inversion E2. lia.
  - destruct (round_int_nearest r1 V1 F1) as (n1' & E1' & H1).
    destruct (round_int_nearest r2 V2 F2) as (n2' & E2' & H2).
    rewrite E1 in E1'. rewrite E2 in E2'. inversion E1'. inversion E2'. subst.
    set (U := 2 ^ 1074) in *.
    assert (HU : 0 < U) by (apply Z.pow_pos_nonneg; lia).
    destruct (Z.le_gt_cases n1' n2') as [|Hgt]; [assumption|exfalso].
    assert (n2' * U + U <= n1' * U) by nia. lia.
Qed.

(** [x * 10^10] and its rounding. *)
Lemma decimal_units_nearest (x : spec_float) :
  valid x = true -> PyFloat.is_finite x = true ->
  2 * Z.abs (decimal_units x * 2 ^ 1074 - sunits x * 10 ^ 10) <= 2 ^ 1074.
Proof.
  intros Vx Fx.
  assert (HU : 0 < 2 ^ 1074) by (apply Z.pow_pos_nonneg; lia).
  destruct x as [s|s| |s m e]; try discriminate Fx.
  - cbn [decimal_units sunits]. rewrite !Z.mul_0_l. cbn [Z.sub Z.opp Z.add Z.abs]. lia.
  - cbn [valid valid_binary] in Vx.
    destruct (bounded_cases _ _ Vx) as (He & _).
    destruct (mag_units m e ltac:(lia)) as [Hm Hden].
    pose proof (nearest_even_div_close (PyFloat.mag_num m e * 10 ^ 10)
                  (PyFloat.mag_den e) Hden) as Hc.
    cbn [decimal_units sunits].
    set (n0 := PyFloat.nearest_even_div (PyFloat.mag_num m e * 10 ^ 10)
                                         (PyFloat.mag_den e)) in *.
    assert (Hk : 2 * Z.abs (n0 * 2 ^ 1074 - units m e * 10 ^ 10) <= 2 ^ 1074).
    { set (U := 2 ^ 1074) in *. set (den := PyFloat.mag_den e) in *.
      set (num := PyFloat.mag_num m e) in *. set (T := 10 ^ 10) in *.
      assert (E : (num * T - n0 * den) * U = (units m e * T - n0 * U) * den) by lia.
      assert (E' : Z.abs (num * T - n0 * den) * U
                   = Z.abs (units m e * T - n0 * U) * den).
      { rewrite <- (Z.abs_eq U) at 1 by lia. rewrite <- Z.abs_mul, E, Z.abs_mul.
        f_equal. lia. }
      assert (2 * (Z.abs (units m e * T - n0 * U) * den) <= den * U) by nia.
      assert (2 * Z.abs (units m e * T - n0 * U) <= U) by nia.
      lia. }
    destruct s; cbn [cond_Zopp]; [|exact Hk].
    replace (- n0 * 2 ^ 1074 - - units m e * 10 ^ 10)
      with (- (n0 * 2 ^ 1074 - units m e * 10 ^ 10)) by lia.
    now rewrite Z.abs_opp.
Qed.

Lemma decimal_units_mono (x y : spec_float) :
  valid x = true -> valid y = true ->
  PyFloat.is_finite x = true -> PyFloat.is_finite y = true ->
  sunits x <= sunits y ->
  decimal_units x <= decimal_units y.
Proof.
  intros Vx Vy Fx Fy Hle.
  destruct (Z.eq_dec (sunits x) (sunits y)) as [Heq|Hne].
  - destruct (same_units x y Vx Vy Fx Fy Heq) as [->|(_ & [s1 ->] & [s2 ->])];
      [lia|reflexivity].
  - pose proof (decimal_units_nearest x Vx Fx) as H1.
    pose proof (decimal_units_nearest y Vy Fy) as H2.
    set (U := 2 ^ 1074) in *.
    assert (HU : 0 < U) by (apply Z.pow_pos_nonneg; lia).
    change (10 ^ 10) with 10000000000 in *.
    destruct (Z.le_gt_cases (decimal_units x) (decimal_units y)) as [|Hgt];
      [assumption|exfalso].
    assert (decimal_units y * U + U <= decimal_units x * U) by nia. lia.
Qed.

(** [round(x, 10)] is a float nearest to that many [1e-10]. *)
Lemma round_ndigits_nearest (x rx : spec_float) :
  valid x = true -> PyFloat.is_finite x = true ->
  PyFloat.round_ndigits x 10 = OK rx ->
  nearest_float (decimal_units x * 2 ^ 1074) 10000000000 rx.
Proof.
  intros Vx Fx H.
  destruct x as [s|s| |s m e]; try discriminate.
  - cbn in H. inversion H; subst.
    split; [reflexivity|]. split; [reflexivity|]. intros z _ _.
    cbn [decimal_units sunits]. lia.
  - cbn [valid valid_binary] in Vx.
    destruct (bounded_cases _ _ Vx) as (He & _).
    destruct (mag_units m e ltac:(lia)) as [_ Hden].
    unfold PyFloat.round_ndigits in H. cbn [decimal_units].
    pose proof (nearest_even_div_nonneg (PyFloat.mag_num m e * 10 ^ 10)
                  (PyFloat.mag_den e)) as Hnn.
    assert (0 <= PyFloat.mag_num m e * 10 ^ 10).
    { unfold PyFloat.mag_num.
      assert (0 < 2 ^ Z.max e 0) by (apply Z.pow_pos_nonneg; lia).
      change (10 ^ 10) with 10000000000. nia. }
    specialize (Hnn ltac:(lia) Hden).
    destruct (PyFloat.nearest_even_div (PyFloat.mag_num m e * 10 ^ 10)
                                       (PyFloat.mag_den e)) as [|n|n]; [| |lia].
    + inversion H; subst. destruct s; cbn [cond_Zopp];
        (split; [reflexivity|]; split; [reflexivity|]; intros z _ _;
         cbn [sunits]; lia).
    + change (Z.to_pos (10 ^ 10)) with 10000000000%positive in H.
      destruct (of_ratio_nearest s n) as [Einf|[Hnear _]].
      * rewrite Einf in H. discriminate.
      * destruct (PyFloat.is_inf _); [discriminate|]. inversion H; subst.
        destruct s; cbn [cond_Zopp]; [|exact Hnear].
        replace (Z.neg n * 2 ^ 1074) with (- (Zpos n * 2 ^ 1074)) by lia.
        exact Hnear.
Qed.

Lemma round_ndigits_same (x y rx ry : spec_float) :
  valid x = true -> valid y = true ->
  PyFloat.is_finite x = true -> PyFloat.is_finite y = true ->
  decimal_units x = decimal_units y ->
  PyFloat.round_ndigits x 10 = OK rx -> PyFloat.round_ndigits y 10 = OK ry ->
  sunits rx = sunits ry.
Proof.
  intros Vx Vy Fx Fy E Hx Hy.
  pose (f := fun S : Z =>
               match S with
               | 0 => 0
               | Zpos n => sunits (PyFloat.of_ratio false n 10000000000)
               | Zneg n => sunits (PyFloat.of_ratio true n 10000000000)
               end).
  assert (Hf : forall a ra,
             valid a = true -> PyFloat.is_finite a = true ->
             PyFloat.round_ndigits a 10 = OK ra ->
             sunits ra = f (decimal_units a)).
  { intros a ra Va Fa Ha. destruct a as [s|s| |s m e]; try discriminate.
    - cbn in Ha. inversion Ha. reflexivity.
    - cbn [valid valid_binary] in Va.
      destruct (bounded_cases _ _ Va) as (He & _).
      destruct (mag_units m e ltac:(lia)) as [_ Hden].
      pose proof (nearest_even_div_nonneg (PyFloat.mag_num m e * 10 ^ 10)
                    (PyFloat.mag_den e)) as Hnn.
      assert (0 <= PyFloat.mag_num m e * 10 ^ 10).
      { unfold PyFloat.mag_num.
        assert (0 < 2 ^ Z.max e 0) by (apply Z.pow_pos_nonneg; lia).
        change (10 ^ 10) with 10000000000. nia. }
      specialize (Hnn ltac:(lia) Hden).
      unfold PyFloat.round_ndigits in Ha. cbn [decimal_units].
      destruct (PyFloat.nearest_even_div (PyFloat.mag_num m e * 10 ^ 10)
                                         (PyFloat.mag_den e)) as [|n|n]; [| |lia].
      + inversion Ha. destruct s; reflexivity.
      + change (Z.to_pos (10 ^ 10)) with 10000000000%positive in Ha.
        destruct (PyFloat.is_inf _); [discriminate|]. inversion Ha.
        destruct s; reflexivity. }
  rewrite (Hf x rx Vx Fx Hx), (Hf y ry Vy Fy Hy), E. reflexivity.
Qed.

End CoercionRoundings.

(** ** The closeness test of the coercion *)

Section Closeness.
Import Binary64 Nearest IntSweep.

Local Abbreviation F := float_of_int.
Local Abbreviation U := (2 ^ 1074).

Lemma abs_round_aux (s : bool) (m e : Z) (l : location) :
  SFabs (binary_round_aux 53 1024 s m e l) = binary_round_aux 53 1024 false m e l.
Proof.
  unfold binary_round_aux.
  destruct (shr_fexp 53 1024 m e l) as [mrs' e'].
  destruct (shr_fexp 53 1024 _ e' loc_Exact) as [mrs'' e''].
  destruct (shr_m mrs'') as [|p|p]; try reflexivity.
  destruct (e'' <=? 1024 - 53); reflexivity.
Qed.

Lemma rel_tol_value : PyFloat.rel_tol = S754_finite false 4835703278458517 (-82).
Proof. vm_compute. reflexivity. Qed.

(** The tolerance of a float that is not tiny is a float nearest to
    [rel_tol] times its magnitude. *)
Lemma tol_nearest (sa : bool) (ma : positive) (ea : Z) :
  bounded 53 1024 ma ea = true -> -992 <= ea ->
  exists mt et,
    PyFloat.abs (PyFloat.mul PyFloat.rel_tol (S754_finite sa ma ea))
    = S754_finite false mt et
    /\ nearest_float (4835703278458517 * units ma ea) (2 ^ 82) (S754_finite false mt et).
Proof.
  intros Ba Hea. rewrite rel_tol_value.
  unfold PyFloat.abs, PyFloat.mul, PyFloat.prec, PyFloat.emax. cbn [SFmul].
  rewrite abs_round_aux.
  set (m9 := 4835703278458517%positive).
  assert (Hm9 : 2 ^ 52 <= Zpos m9 < 2 ^ 53)
    by (unfold m9; split; [vm_compute; discriminate|vm_compute; reflexivity]).
  assert (Hd : 53 <= Zpos (digits2_pos (m9 * ma))).
  { pose proof (digits2_bounds (m9 * ma)) as [_ Hu'].
    rewrite Pos2Z.inj_mul in Hu'.
    destruct (Z.le_gt_cases 53 (Zpos (digits2_pos (m9 * ma)))) as [|Hlt]; [assumption|].
    assert (2 ^ Zpos (digits2_pos (m9 * ma)) <= 2 ^ 52) by (apply Z.pow_le_mono_r; lia).
    nia. }
  destruct (bounded_cases _ _ Ba) as (Hb & _).
  assert (HW : 0 < 2 ^ (-82 + ea + 1074)) by (apply Z.pow_pos_nonneg; lia).
  assert (Hsplit : 2 ^ (ea + 1074) = 2 ^ (-82 + ea + 1074) * 2 ^ 82).
  { rewrite <- Z.pow_add_r by lia. f_equal. lia. }
  (* the product is below the float itself, so it does not overflow *)
  destruct (round_upper false (m9 * ma) ma (-82 + ea) ea ltac:(lia) Ba)
    as (mt & et & Er & Bt & Hle).
  { unfold units. rewrite Pos2Z.inj_mul, Hsplit.
    change (2 ^ 82) with 4835703278458516698824704.
    change (2 ^ 53) with 9007199254740992 in Hm9. nia. }
  rewrite <- (round_aux_is_round false (m9 * ma) (-82 + ea) Hd) in Er.
  exists mt, et. split; [exact Er|].
  destruct (round_aux_nearest false (Zpos (m9 * ma)) (-82 + ea)
              (Zpos (m9 * ma) * 1) 1 loc_Exact ltac:(lia) ltac:(lia) ltac:(lia))
    as [Einf|[Hnear _]].
  - cbn [Zdigits2]. lia.
  - apply located_exact. lia.
  - rewrite Er in Einf. discriminate.
  - rewrite Er in Hnear. cbn beta iota in Hnear.
    apply (nearest_float_scale _ _ (2 ^ 82)) in Hnear; [|apply Z.pow_pos_nonneg; lia].
    rewrite Z.mul_1_l in Hnear.
    replace (Zpos (m9 * ma) * 1 * 2 ^ (-82 + ea + 1074) * 2 ^ 82)
      with (Zpos m9 * units ma ea) in Hnear; [exact Hnear|].
    unfold units. rewrite Pos2Z.inj_mul, Hsplit. lia.
Qed.

Lemma tol_units_zero (s : bool) : tol_units (S754_zero s) = 0.
Proof. unfold tol_units. rewrite rel_tol_value. reflexivity. Qed.

Lemma tol_units_finite (sa : bool) (ma : positive) (ea : Z) :
  bounded 53 1024 ma ea = true -> -992 <= ea ->
  exists t,
    PyFloat.abs (PyFloat.mul PyFloat.rel_tol (S754_finite sa ma ea)) = t
    /\ valid t = true /\ PyFloat.is_finite t = true
    /\ sunits t = tol_units (S754_finite sa ma ea)
    /\ nearest_float (4835703278458517 * units ma ea) (2 ^ 82) t.
Proof.
  intros Ba Hea.
  destruct (tol_nearest sa ma ea Ba Hea) as (mt & et & E & Hn).
  exists (S754_finite false mt et).
  split; [exact E|]. destruct Hn as (V & Fi & Near).
  split; [exact V|]. split; [exact Fi|]. split.
  - unfold tol_units. now rewrite E.
  - split; [exact V|split; [exact Fi|exact Near]].
Qed.

(** The tolerance grows with the magnitude. *)
Lemma tol_units_mono (s1 s2 : bool) (m1 m2 : positive) (e1 e2 : Z) :
  bounded 53 1024 m1 e1 = true -> bounded 53 1024 m2 e2 = true ->
  -992 <= e1 -> -992 <= e2 ->
  units m1 e1 <= units m2 e2 ->
  tol_units (S754_finite s1 m1 e1) <= tol_units (S754_finite s2 m2 e2).
Proof.
  intros B1 B2 H1 H2 Hle.
  destruct (tol_nearest s1 m1 e1 B1 H1) as (mt1 & et1 & E1 & N1).
  destruct (tol_nearest s2 m2 e2 B2 H2) as (mt2 & et2 & E2 & N2).
  unfold tol_units. rewrite E1, E2.
  destruct (Z.eq_dec (units m1 e1) (units m2 e2)) as [Heq|Hne].
  - destruct (units_inj m1 m2 e1 e2 B1 B2 Heq) as [-> ->].
    destruct (tol_nearest s1 m2 e2 B2 H2) as (mt3 & et3 & E3 & _).
    assert (Hsame : PyFloat.abs (PyFloat.mul PyFloat.rel_tol (S754_finite s1 m2 e2))
                    = PyFloat.abs (PyFloat.mul PyFloat.rel_tol (S754_finite s2 m2 e2))).
    { rewrite rel_tol_value.
      unfold PyFloat.abs, PyFloat.mul, PyFloat.prec, PyFloat.emax. cbn [SFmul].
      now rewrite !abs_round_aux. }
    rewrite E1, E2 in Hsame. rewrite Hsame. lia.
  - assert (HD : 0 < 2 ^ 82) by (apply Z.pow_pos_nonneg; lia).
    apply (nearest_float_mono _ (2 ^ 82) _ (2 ^ 82) _ _ HD HD N1 N2). nia.
Qed.

End Closeness.

(** ** When the coercion snaps to an integer *)

Section SnapProperties.
Import Binary64 Nearest IntSweep.

Local Abbreviation F := float_of_int.
Local Abbreviation U := (2 ^ 1074).

Lemma eqb_sunits (x y : spec_float) :
  valid x = true -> valid y = true ->
  PyFloat.is_finite x = true -> PyFloat.is_finite y = true ->
  PyFloat.eqb x y = (sunits x =? sunits y).
Proof.
  intros Hx Hy Fx Fy. unfold PyFloat.eqb, SFeqb.
  rewrite (compare_sunits x y Hx Hy Fx Fy).
  destruct (Z.compare_spec (sunits x) (sunits y));
    destruct (Z.eqb_spec (sunits x) (sunits y)); try reflexivity; lia.
Qed.

(** A float that is not an integer has a negative exponent and is
    below [2^52]. *)
Lemma fraction_bounds (s : bool) (m : positive) (e n : Z) :
  bounded 53 1024 m e = true ->
  2 * Z.abs (n * U - sunits (S754_finite s m e)) <= U ->
  sunits (S754_finite s m e) <> n * U ->
  e < 0 /\ Z.abs n <= 2 ^ 52.
Proof.
  intros Bd Hn Hne.
  destruct (bounded_cases _ _ Bd) as (He & Hd & _).
  assert (HU : 0 < U) by (apply Z.pow_pos_nonneg; lia).
  assert (Hneg : e < 0).
  { destruct (Z.lt_ge_cases e 0) as [|Hge]; [assumption|exfalso].
    assert (Hu : units m e = Zpos m * 2 ^ e * U).
    { unfold units. rewrite (Z.pow_add_r 2 e 1074) by lia. lia. }
    cbn [sunits] in Hn, Hne. rewrite Hu in Hn, Hne.
    set (j := Zpos m * 2 ^ e) in *.
    destruct s.
    - assert (n = - j) by nia. subst n. lia.
    - assert (n = j) by nia. subst n. lia. }
  split; [exact Hneg|].
  pose proof (units_bounds m e ltac:(lia)) as [_ Hub].
  assert (H52 : 2 ^ (Zpos (digits2_pos m) + (e + 1074)) <= 2 ^ (52 + 1074))
    by (apply Z.pow_le_mono_r; lia).
  rewrite (Z.pow_add_r 2 52 1074) in H52 by lia.
  pose proof (units_pos m e ltac:(lia)) as Hp.
  cbn [sunits] in Hn.
  change (2 ^ 52) with 4503599627370496 in *.
  destruct s; nia.
Qed.

(** The difference the test computes is exact. *)
Lemma exact_difference (s : bool) (m : positive) (e n : Z) :
  bounded 53 1024 m e = true ->
  2 * Z.abs (n * U - sunits (S754_finite s m e)) <= U ->
  sunits (S754_finite s m e) <> n * U ->
  exists d,
    PyFloat.abs (PyFloat.sub (F n) (S754_finite s m e)) = d
    /\ valid d = true /\ PyFloat.is_finite d = true
    /\ sunits d = Z.abs (n * U - sunits (S754_finite s m e)).
Proof.
  intros Bd Hn Hne.
  destruct (fraction_bounds s m e n Bd Hn Hne) as [Hneg Hn52].
  destruct (bounded_cases _ _ Bd) as (He & Hd & _).
  pose proof (units_pos m e ltac:(lia)) as Hp.
  assert (HU : 0 < U) by (apply Z.pow_pos_nonneg; lia).
  unfold PyFloat.abs, PyFloat.sub, PyFloat.prec, PyFloat.emax.
  destruct (Z.eq_dec n 0) as [->|Nn].
  - change (F 0) with (S754_zero false). cbn [SFsub SFabs].
    exists (S754_finite false m e). split; [reflexivity|].
    split; [exact Bd|]. split; [reflexivity|].
    cbn [sunits]. destruct s; lia.
  - assert (Hn53 : Z.abs n < 2 ^ 53).
    { assert (2 ^ 52 < 2 ^ 53) by (apply Z.pow_lt_mono_r; lia). lia. }
    pose proof (float_of_int_exact n Hn53) as (_ & _ & Ub).
    destruct (float_of_int_finite n Nn Hn53) as (mb & eb & Bb & Hub & Eb).
    rewrite Eb in Ub |- *.
    pose proof (int_exponent n mb eb Nn Bb Hub) as Heb.
    destruct (bounded_cases _ _ Bb) as (Hebb & _).
    (* the exponent of the float: it is at least one half *)
    assert (Her : -54 < e).
    { pose proof (units_bounds m e ltac:(lia)) as [_ Hub'].
      assert (Hge : 2 ^ 1073 <= units m e).
      { cbn [sunits] in Hn. change U with (2 ^ 1073 * 2) in *.
        destruct s; nia. }
      assert (Hlt : 2 ^ 1073 < 2 ^ (Zpos (digits2_pos m) + (e + 1074))) by lia.
      apply Z.pow_lt_mono_r_iff in Hlt; lia. }
    cbn [SFsub].
    set (ez := Z.min eb e).
    set (V := cond_Zopp (n <? 0) (Zpos (fst (shl_align mb eb ez)))
              - cond_Zopp s (Zpos (fst (shl_align m e ez)))).
    assert (HV : V * 2 ^ (ez + 1074) = n * U - sunits (S754_finite s m e)).
    { unfold V, ez. rewrite sub_exact by lia. now rewrite Ub. }
    assert (Hez : -53 <= ez <= 971) by (unfold ez; lia).
    assert (Hpe : 0 < 2 ^ (ez + 1074)) by (apply Z.pow_pos_nonneg; lia).
    assert (H1021 : 2 ^ 1021 <= 2 ^ (ez + 1074)) by (apply Z.pow_le_mono_r; lia).
    assert (HVb : Z.abs V < 2 ^ 53).
    { assert (Hab : Z.abs V * 2 ^ (ez + 1074) = Z.abs (n * U - sunits (S754_finite s m e))).
      { rewrite <- HV, Z.abs_mul. f_equal. lia. }
      change U with (2 ^ 1021 * 2 ^ 53) in Hn.
      assert (0 < 2 ^ 1021) by (apply Z.pow_pos_nonneg; lia).
      change (2 ^ 53) with 9007199254740992 in *. nia. }
    assert (HV0 : V <> 0) by (intros E0; rewrite E0 in HV; lia).
    clearbody V.
    destruct V as [|p|p]; [congruence| |]; cbn [binary_normalize].
    + destruct (representable_small p ez ltac:(lia) (digits_of_small p HVb))
        as (m' & e' & B' & Hu').
      rewrite (binary_round_on_grid false p m' ez e' ltac:(lia) B' (eq_sym Hu')).
      exists (S754_finite false m' e'). split; [reflexivity|].
      split; [exact B'|]. split; [reflexivity|].
      rewrite <- HV. cbn [sunits]. rewrite Hu'. unfold units.
      symmetry. apply Z.abs_eq. nia.
    + destruct (representable_small p ez ltac:(lia) (digits_of_small p HVb))
        as (m' & e' & B' & Hu').
      rewrite (binary_round_on_grid true p m' ez e' ltac:(lia) B' (eq_sym Hu')).
      exists (S754_finite false m' e'). split; [reflexivity|].
      split; [exact B'|]. split; [reflexivity|].
      rewrite <- HV. cbn [sunits]. rewrite Hu'. unfold units.
      rewrite Z.abs_neq by nia. lia.
Qed.

(** A float that is an integer is close to it. *)
Lemma isclose_integer (r : spec_float) (n : Z) :
  valid r = true -> PyFloat.is_finite r = true ->
  sunits r = n * U -> PyFloat.isclose r n = OK true.
Proof.
  intros Vr Fr E.
  assert (HU : 0 < U) by (apply Z.pow_pos_nonneg; lia).
  unfold PyFloat.isclose, PyFloat.of_Z, PyFloat.prec, PyFloat.emax.
  destruct r as [s|s| |s m e]; try discriminate.
  - cbn [sunits] in E. assert (n = 0) by nia. subst n.
    cbn [binary_normalize PyFloat.is_inf bind]. destruct s; reflexivity.
  - cbn [valid valid_binary] in Vr.
    destruct (bounded_cases _ _ Vr) as (He & _).
    pose proof (units_pos m e ltac:(lia)) as Hp.
    cbn [sunits] in E.
    assert (Hb : binary_normalize 53 1024 n 0 false = S754_finite s m e).
    { destruct n as [|p|p]; cbn [binary_normalize].
      - destruct s; lia.
      - destruct s; [lia|].
        apply binary_round_on_grid; [lia|exact Vr|]. unfold units at 1. lia.
      - destruct s; [|lia].
        apply binary_round_on_grid; [lia|exact Vr|]. unfold units at 1. lia. }
    rewrite Hb. cbn [PyFloat.is_inf bind].
    rewrite (eqb_sunits (S754_finite s m e) (S754_finite s m e) Vr Vr eq_refl eq_refl),
      Z.eqb_refl.
    reflexivity.
Qed.


Lemma finite_not_inf (x : spec_float) :
  PyFloat.is_finite x = true -> PyFloat.is_inf x = false.
Proof. destruct x; try discriminate; reflexivity. Qed.

(** The tolerance of an integer. *)
Lemma tol_of_int (n : Z) :
  Z.abs n < 2 ^ 53 ->
  exists t,
    PyFloat.abs (PyFloat.mul PyFloat.rel_tol (F n)) = t
    /\ valid t = true /\ PyFloat.is_finite t = true
    /\ sunits t = tol_units (F n).
Proof.
  intros Hn. destruct (Z.eq_dec n 0) as [->|Nn].
  - exists (S754_zero false). rewrite rel_tol_value. repeat split.
  - destruct (float_of_int_finite n Nn Hn) as (mb & eb & Bb & Hub & ->).
    pose proof (int_exponent n mb eb Nn Bb Hub) as Heb.
    destruct (tol_units_finite (n <? 0) mb eb Bb ltac:(lia))
      as (t & E & V & Fi & Ut & _).
    exists t. auto.
Qed.

(** The test on a float that is not an integer: its exact distance to
    the integer against the two tolerances. *)
Lemma isclose_fraction (s : bool) (m : positive) (e n : Z) :
  bounded 53 1024 m e = true -> -992 <= e ->
  2 * Z.abs (n * U - sunits (S754_finite s m e)) <= U ->
  sunits (S754_finite s m e) <> n * U ->
  PyFloat.isclose (S754_finite s m e) n
  = OK ((Z.abs (n * U - sunits (S754_finite s m e)) <=? tol_units (F n))
        || (Z.abs (n * U - sunits (S754_finite s m e))
            <=? tol_units (S754_finite s m e))).
Proof.
  intros Bd He Hn Hne.
  destruct (fraction_bounds s m e n Bd Hn Hne) as [_ Hn52].
  assert (Hn53 : Z.abs n < 2 ^ 53).
  { assert (2 ^ 52 < 2 ^ 53) by (apply Z.pow_lt_mono_r; lia). lia. }
  destruct (float_of_int_exact n Hn53) as (Vb & Fb & Ub).
  destruct (exact_difference s m e n Bd Hn Hne) as (d & Ed & Vd & Fd & Ud).
  destruct (tol_of_int n Hn53) as (tb & Etb & Vtb & Ftb & Utb).
  destruct (tol_units_finite s m e Bd He) as (ta & Eta & Vta & Fta & Uta & _).
  unfold PyFloat.isclose. rewrite (of_Z_int n Hn53). cbn [bind].
  rewrite (eqb_sunits (S754_finite s m e) (F n) Bd Vb eq_refl Fb), Ub.
  destruct (Z.eqb_spec (sunits (S754_finite s m e)) (n * U)) as [|_]; [contradiction|].
  rewrite (finite_not_inf (F n) Fb). cbn [PyFloat.is_inf orb].
  rewrite Ed, Etb, Eta.
  unfold PyFloat.leb.
  rewrite (leb_sunits d tb Vd Vtb Fd Ftb), (leb_sunits d ta Vd Vta Fd Fta).
  rewrite (leb_sunits d (S754_zero false) Vd eq_refl Fd eq_refl).
  rewrite Ud, Utb, Uta. change (sunits (S754_zero false)) with 0.
  destruct (Z.leb_spec (Z.abs (n * U - sunits (S754_finite s m e))) 0) as [H0|_];
    [lia|].
  now rewrite orb_false_r.
Qed.

(** Between a float that snaps and the integer, every float snaps. *)
Lemma snap_closer (f g : spec_float) (n : Z) :
  valid f = true -> valid g = true ->
  PyFloat.is_finite f = true -> PyFloat.is_finite g = true ->
  (forall s m e, f = S754_finite s m e -> -992 <= e) ->
  (forall s m e, g = S754_finite s m e -> -992 <= e) ->
  2 * Z.abs (n * U - sunits f) <= U ->
  2 * Z.abs (n * U - sunits g) <= U ->
  (sunits f <= sunits g <= n * U \/ n * U <= sunits g <= sunits f) ->
  PyFloat.isclose f n = OK true -> PyFloat.isclose g n = OK true.
Proof.
  intros Vf Vg Ff Fg Cf Cg Hnf Hng Hbet Hclose.
  assert (HU : 0 < U) by (apply Z.pow_pos_nonneg; lia).
  destruct (Z.eq_dec (sunits g) (n * U)) as [Eg|Ng];
    [now apply isclose_integer|].
  assert (Nf : sunits f <> n * U) by lia.
  destruct f as [sf|sf| |sf mf ef]; try discriminate;
    [cbn [sunits] in *; exfalso; nia|].
  destruct g as [sg|sg| |sg mg eg]; try discriminate;
    [cbn [sunits] in *; exfalso; nia|].
  cbn [valid valid_binary] in Vf, Vg.
  specialize (Cf sf mf ef eq_refl). specialize (Cg sg mg eg eq_refl).
  rewrite (isclose_fraction sf mf ef n Vf Cf Hnf Nf) in Hclose.
  rewrite (isclose_fraction sg mg eg n Vg Cg Hng Ng). f_equal.
  match type of Hclose with
  | OK ?b = _ => assert (Hc : b = true) by congruence
  end.
  clear Hclose.
  apply orb_true_iff in Hc. apply orb_true_iff.
  set (df := Z.abs (n * U - sunits (S754_finite sf mf ef))) in *.
  set (dg := Z.abs (n * U - sunits (S754_finite sg mg eg))) in *.
  assert (Hd : dg <= df) by (unfold df, dg; lia).
  destruct Hc as [Hb|Ha]; [left; apply Z.leb_le in Hb; apply Z.leb_le; lia|].
  apply Z.leb_le in Ha.
  destruct (bounded_cases _ _ Vf) as (Hef & _).
  destruct (bounded_cases _ _ Vg) as (Heg & _).
  pose proof (units_pos mf ef ltac:(lia)) as Pf.
  pose proof (units_pos mg eg ltac:(lia)) as Pg.
  right. apply Z.leb_le.
  destruct (Z.le_gt_cases (units mf ef) (units mg eg)) as [Hle|Hgt].
  - pose proof (tol_units_mono sf sg mf mg ef eg Vf Vg Cf Cg Hle). lia.
  - destruct (Z.le_gt_cases dg (tol_units (S754_finite sg mg eg))) as [|Hfail];
      [assumption|exfalso].
    destruct (tol_units_finite sf mf ef Vf Cf) as (tf & _ & _ & _ & Utf & Nearf).
    destruct (tol_units_finite sg mg eg Vg Cg) as (tg & _ & _ & _ & Utg & Nearg).
    destruct (exact_difference sg mg eg n Vg Hng Ng) as (d & _ & Vd & Fd & Ud).
    destruct Nearf as (_ & _ & Nearf). destruct Nearg as (_ & _ & Nearg).
    specialize (Nearf d Vd Fd). specialize (Nearg d Vd Fd).
    rewrite Utf, Ud in Nearf. rewrite Utg, Ud in Nearg. fold dg in Nearf, Nearg.
    change (2 ^ 82) with 4835703278458516698824704 in Nearf, Nearg.
    assert (Hlt : dg < df).
    { destruct (Z.eq_dec dg df) as [E|]; [|lia].
      unfold df, dg in E. cbn [sunits] in *. destruct sf, sg; lia. }
    assert (Hv : units mf ef - units mg eg <= df - dg).
    { unfold df, dg. cbn [sunits] in *. destruct sf, sg; lia. }
    clearbody df dg. lia.
Qed.

End SnapProperties.

(** ** The coercion keeps the order *)

Section CoercionOrder.
Import Binary64 Nearest ValueOrder.

Local Abbreviation U := (2 ^ 1074).

(** A value rounded to 10 decimals is zero or at least [2^-34]. *)
Lemma rounded_exponent (S : Z) (r : spec_float) :
  nearest_float (S * U) 10000000000 r ->
  forall s m e, r = S754_finite s m e -> -992 <= e.
Proof.
  intros Hn s m e ->.
  assert (HU : 0 < U) by (apply Z.pow_pos_nonneg; lia).
  pose proof Hn as (V & _ & Near).
  cbn [valid valid_binary] in V.
  destruct (bounded_cases _ _ V) as (He & Hd & _).
  pose proof (units_pos m e ltac:(lia)) as Hp.
  pose proof (units_bounds m e ltac:(lia)) as [_ Hub].
  assert (Hanchor : 2 ^ 1040 <= units m e).
  { assert (Bz : bounded 53 1024 4503599627370496 (-86) = true) by reflexivity.
    assert (Uz : units 4503599627370496 (-86) = 2 ^ 1040) by reflexivity.
    assert (H34 : 2 ^ 1040 * 10000000000 <= U) by (vm_compute; discriminate).
    destruct (Z.lt_trichotomy S 0) as [Hneg|[->|Hpos]].
    - pose proof (nearest_float_below (S * U) 10000000000
                    (S754_finite s m e) (S754_finite true 4503599627370496 (-86))
                    ltac:(lia) Hn Bz eq_refl) as H.
      cbn [sunits] in H. rewrite Uz in H.
      assert (S * U <= - 2 ^ 1040 * 10000000000) by nia.
      specialize (H ltac:(lia)). destruct s; lia.
    - specialize (Near (S754_zero false) eq_refl eq_refl).
      cbn [sunits] in Near. destruct s; lia.
    - pose proof (nearest_float_above (S * U) 10000000000
                    (S754_finite s m e) (S754_finite false 4503599627370496 (-86))
                    ltac:(lia) Hn Bz eq_refl) as H.
      cbn [sunits] in H. rewrite Uz in H.
      assert (2 ^ 1040 * 10000000000 <= S * U) by nia.
      specialize (H ltac:(lia)). destruct s; lia. }
  assert (Hlt : 2 ^ 1040 < 2 ^ (Zpos (digits2_pos m) + (e + 1074))) by lia.
  apply Z.pow_lt_mono_r_iff in Hlt; lia.
Qed.

Lemma round_ndigits_mono (x y rx ry : spec_float) :
  valid x = true -> valid y = true ->
  PyFloat.is_finite x = true -> PyFloat.is_finite y = true ->
  sunits x <= sunits y ->
  PyFloat.round_ndigits x 10 = OK rx -> PyFloat.round_ndigits y 10 = OK ry ->
  sunits rx <= sunits ry.
Proof.
  intros Vx Vy Fx Fy Hle Hx Hy.
  assert (HU : 0 < U) by (apply Z.pow_pos_nonneg; lia).
  pose proof (decimal_units_mono x y Vx Vy Fx Fy Hle) as HS.
  destruct (Z.eq_dec (decimal_units x) (decimal_units y)) as [E|Hne].
  - rewrite (round_ndigits_same x y rx ry Vx Vy Fx Fy E Hx Hy). lia.
  - apply (nearest_float_mono (decimal_units x * U) 10000000000
                              (decimal_units y * U) 10000000000);
      [lia|lia| | |].
    + now apply round_ndigits_nearest.
    + now apply round_ndigits_nearest.
    + nia.
Qed.

Lemma coerce_finite (x : spec_float) (v : value) :
  _coerce_numeric (VFloat x) = OK v -> PyFloat.is_finite x = true.
Proof. destruct x; try reflexivity; cbn; discriminate. Qed.

(** What [_coerce_numeric] does on a float, step by step. *)
Lemma coerce_steps (x : spec_float) (v : value) :
  _coerce_numeric (VFloat x) = OK v ->
  exists r n b,
    PyFloat.round_ndigits x 10 = OK r
    /\ PyFloat.round_int r = OK n
    /\ PyFloat.isclose r n = OK b
    /\ v = if b then VInt n else VFloat r.
Proof.
  unfold _coerce_numeric. intros H.
  destruct (PyFloat.round_ndigits x 10) as [r|] eqn:E1; [|discriminate].
  cbn [bind] in H.
  destruct (PyFloat.round_int r) as [n|] eqn:E2; [|discriminate].
  cbn [bind] in H.
  destruct (PyFloat.isclose r n) as [b|] eqn:E3; [|discriminate].
  cbn [bind] in H.
  exists r, n, b. split; [reflexivity|]. split; [exact E2|]. split; [exact E3|].
  destruct b; inversion H; reflexivity.
Qed.

(** The coercion of a smaller float is not a larger number. *)
Lemma coerce_monotone (x y : spec_float) (v w : value) :
  valid x = true -> valid y = true ->
  PyFloat.leb x y = true ->
  _coerce_numeric (VFloat x) = OK v ->
  _coerce_numeric (VFloat y) = OK w ->
  value_leb v w = true.
Proof.
  intros Vx Vy Hle Hv Hw.
  assert (HU : 0 < U) by (apply Z.pow_pos_nonneg; lia).
  pose proof (coerce_finite x v Hv) as Fx.
  pose proof (coerce_finite y w Hw) as Fy.
  unfold PyFloat.leb in Hle. rewrite (leb_sunits x y Vx Vy Fx Fy) in Hle.
  apply Z.leb_le in Hle.
  destruct (coerce_steps x v Hv) as (rx & nx & bx & Erx & Enx & Ebx & ->).
  destruct (coerce_steps y w Hw) as (ry & ny & by_ & Ery & Eny & Eby & ->).
  pose proof (round_ndigits_nearest x rx Vx Fx Erx) as Nx.
  pose proof (round_ndigits_nearest y ry Vy Fy Ery) as Ny.
  pose proof (round_ndigits_mono x y rx ry Vx Vy Fx Fy Hle Erx Ery) as Hr.
  pose proof (rounded_exponent _ rx Nx) as Cx.
  pose proof (rounded_exponent _ ry Ny) as Cy.
  destruct Nx as (Vrx & Frx & _). destruct Ny as (Vry & Fry & _).
  pose proof (round_int_mono rx ry nx ny Vrx Vry Frx Fry Hr Enx Eny) as Hn.
  destruct (round_int_nearest rx Vrx Frx) as (nx' & Enx' & Hnx).
  destruct (round_int_nearest ry Vry Fry) as (ny' & Eny' & Hny).
  rewrite Enx in Enx'. rewrite Eny in Eny'.
  injection Enx' as <-. injection Eny' as <-.
  unfold value_leb.
  destruct bx, by_; cbn [units_of]; rewrite ?Frx, ?Fry; apply Z.leb_le.
  - nia.
  - destruct (Z.le_gt_cases (nx * U) (sunits ry)) as [|Hgt]; [assumption|exfalso].
    assert (ny = nx) by nia. subst ny.
    pose proof (snap_closer rx ry nx Vrx Vry Frx Fry Cx Cy Hnx Hny
                  ltac:(left; lia) Ebx) as Hc.
    congruence.
  - destruct (Z.le_gt_cases (sunits rx) (ny * U)) as [|Hgt]; [assumption|exfalso].
    assert (nx = ny) by nia. subst nx.
    pose proof (snap_closer ry rx ny Vry Vrx Fry Frx Cy Cx Hny Hnx
                  ltac:(right; lia) Eby) as Hc.
    congruence.
  - exact Hr.
Qed.

End CoercionOrder.

(** ** The returned values keep the order of the running sums *)

Section ReturnedOrder.
Import Binary64 ValueOrder ExpandSpec.

Lemma sums_valid (step_f : PyFloat.float) (n : nat) :
  valid step_f = true ->
  forall current,
    valid current = true ->
    Forall (fun c => valid c = true) (sums n current step_f).
Proof.
  intros Hs. induction n as [|n IH]; intros current Hc; cbn [sums]; constructor.
  - exact Hc.
  - apply IH. now apply add_valid.
Qed.

Lemma coerced_monotonic (up : bool) (cs : list PyFloat.float) (vs : list value) :
  Forall (fun c => valid c = true) cs ->
  Forall2 (fun c v => _coerce_numeric (VFloat c) = OK v) cs vs ->
  monotonic up cs ->
  monotonic_values up vs.
Proof.
  unfold monotonic, monotonic_values.
  intros Hv H2. revert Hv.
  induction H2 as [|c v cs vs Hcv H2 IH]; intros Hv Hs; [constructor|].
  apply Forall_cons_iff in Hv. destruct Hv as [Vc Hv].
  apply Sorted_inv in Hs. destruct Hs as [Hs Hd].
  constructor; [now apply IH|].
  destruct H2 as [|c' v' cs' vs' Hcv' H2']; constructor.
  apply Forall_cons_iff in Hv. destruct Hv as [Vc' _].
  apply HdRel_inv in Hd.
  unfold in_step_direction in Hd. unfold in_value_direction.
  destruct up.
  - exact (coerce_monotone c c' v v' Vc Vc' Hd Hcv Hcv').
  - exact (coerce_monotone c' c v' v Vc' Vc Hd Hcv' Hcv).
Qed.

End ReturnedOrder.


(** ** Range expansion *)

Section ExpanderProperties.
Import ExpandSpec.

Lemma SFcompare_swap (x y : spec_float) :
  SFcompare y x = option_map CompOpp (SFcompare x y).
Proof.
  assert (Hsw : forall p q,
             Pos.compare_cont Eq q p = CompOpp (Pos.compare_cont Eq p q)).
  { intros p q. symmetry. apply (Pos.compare_cont_antisym p q Eq). }
  destruct x as [sx|sx| |sx mx ex], y as [sy|sy| |sy my ey]; simpl;
    try destruct sx; try destruct sy; try reflexivity;
    rewrite (Z.compare_antisym ex ey);
    destruct (ex ?= ey); simpl; try reflexivity;
    rewrite (Hsw mx my); reflexivity.
Qed.

Lemma SFcompare_defined (x y : spec_float) :
  is_nan x = false -> is_nan y = false -> exists c, SFcompare x y = Some c.
Proof.
  destruct x as [sx|sx| |sx mx ex], y as [sy|sy| |sy my ey]; simpl;
    intros Hx Hy; try discriminate; eexists; reflexivity.
Qed.

Lemma not_lt_ge (a b : spec_float) :
  is_nan a = false -> is_nan b = false ->
  SFltb a b = false -> SFleb b a = true.
Proof.
  intros Ha Hb. unfold SFltb, SFleb. rewrite (SFcompare_swap a b).
  destruct (SFcompare_defined a b Ha Hb) as [c ->]. simpl.
  destruct c; simpl; congruence.
Qed.

Lemma lt_not_nan (a b : spec_float) :
  SFltb a b = true -> is_nan a = false /\ is_nan b = false.
Proof.
  unfold SFltb. destruct a, b; simpl; try discriminate; auto.
Qed.

Lemma coerce_float_finite (c : PyFloat.float) (v : value) :
  _coerce_numeric (VFloat c) = OK v -> is_nan c = false.
Proof. destruct c; simpl; try discriminate; reflexivity. Qed.

Lemma minmax_loop_returns (fuel : nat) :
  forall up stop_f tolerance step_f current iterations acc vs,
    iterations <= max_iterations ->
    minmax_loop fuel up stop_f tolerance step_f current iterations acc = OK vs ->
    exists produced,
      vs = (acc ++ produced)%list
      /\ Forall2 (fun c v => _coerce_numeric (VFloat c) = OK v)
                 (sums (List.length produced) current step_f) produced
      /\ Forall (fun c => past_stop up stop_f tolerance c = false)
                (sums (List.length produced) current step_f)
      /\ past_stop up stop_f tolerance
                   (sum_after (List.length produced) current step_f) = true
      /\ iterations + Z.of_nat (List.length produced) <= max_iterations.
Proof.
  induction fuel as [|fuel IH];
    intros up stop_f tolerance step_f current iterations acc vs Hit H;
    [discriminate|].
  cbn [minmax_loop] in H.
  destruct (up && PyFloat.gtb current (PyFloat.add stop_f tolerance)) eqn:E1.
  { inversion H; subst. exists []. rewrite app_nil_r. simpl.
    repeat split; try constructor; try lia.
    unfold past_stop. now rewrite E1. }
  destruct (negb up && PyFloat.ltb current (PyFloat.sub stop_f tolerance)) eqn:E2.
  { inversion H; subst. exists []. rewrite app_nil_r. simpl.
    repeat split; try constructor; try lia.
    unfold past_stop. now rewrite E1, E2. }
  destruct (_coerce_numeric (VFloat current)) as [v|] eqn:Ev; [|discriminate].
  cbn [bind] in H.
  destruct (iterations + 1 >? max_iterations) eqn:Eg; [discriminate|].
  rewrite Z.gtb_ltb in Eg. apply Z.ltb_ge in Eg.
  destruct (IH _ _ _ _ _ _ _ _ Eg H) as (produced & -> & Hc & Hp & He & Hn).
  exists (v :: produced). rewrite <- app_assoc. cbn [List.length sums sum_after].
  repeat split; auto.
  - constructor; auto. unfold past_stop. now rewrite E1, E2.
  - rewrite Nat2Z.inj_succ. lia.
Qed.

Lemma kept_within_stop up stop_f tolerance (cs : list PyFloat.float)
      (vs : list value) (last : PyFloat.float) :
  Forall2 (fun c v => _coerce_numeric (VFloat c) = OK v) cs vs ->
  Forall (fun c => past_stop up stop_f tolerance c = false) cs ->
  past_stop up stop_f tolerance last = true ->
  Forall (fun c => within_stop up stop_f tolerance c = true) cs.
Proof.
  intros Hc Hp Hl. unfold past_stop, within_stop in *.
  induction Hc as [|c v cs vs Hcv _ IH]; [constructor|].
  inversion Hp as [|? ? Hpc Hp']; subst.
  constructor; [|now apply IH].
  apply coerce_float_finite in Hcv.
  destruct up; simpl in *.
  - rewrite orb_false_r in Hl, Hpc. unfold PyFloat.gtb in *.
    apply lt_not_nan in Hl. apply not_lt_ge; tauto.
  - unfold PyFloat.ltb, PyFloat.geb in *.
    apply lt_not_nan in Hl. apply not_lt_ge; tauto.
Qed.

Lemma within_stop_not_nan up stop_f tolerance (c : PyFloat.float) :
  within_stop up stop_f tolerance c = true -> is_nan c = false.
Proof.
  unfold within_stop, PyFloat.leb, PyFloat.geb, SFleb.
  destruct c; try reflexivity.
  destruct up; [discriminate|].
  destruct (PyFloat.sub stop_f tolerance); discriminate.
Qed.

Lemma sums_monotonic (up : bool) (stop_f tolerance step_f : PyFloat.float)
      (n : nat) :
  Binary64.valid step_f = true ->
  up = PyFloat.gtb step_f (S754_zero false) ->
  forall current,
    Binary64.valid current = true ->
    Forall (fun c => within_stop up stop_f tolerance c = true)
           (sums n current step_f) ->
    monotonic up (sums n current step_f).
Proof.
  intros Hstep Hup. unfold monotonic.
  induction n as [|n IH]; intros current Hc Hk; cbn [sums]; [constructor|].
  cbn [sums] in Hk. apply Forall_cons_iff in Hk. destruct Hk as [Hk1 Hk2].
  constructor.
  - apply IH; [apply add_valid; assumption|exact Hk2].
  - destruct n as [|n]; cbn [sums]; constructor.
    cbn [sums] in Hk2. apply Forall_cons_iff in Hk2. destruct Hk2 as [Hk3 _].
    apply within_stop_not_nan in Hk1, Hk3.
    unfold in_step_direction, PyFloat.leb, PyFloat.geb, PyFloat.add.
    unfold PyFloat.gtb in Hup.
    destruct up.
    + apply add_increases; auto.
    + apply add_decreases; auto.
Qed.

Variable float_of_str : string -> option PyFloat.float.

(** C2, as the code has it.  For a [minmax] triple with non-zero step
    on which [expand_wedge_values] returns, the result is non-empty
    and has at most 100000 elements; its elements are, in order, the
    numeric coercions of the running sums [start, start + step, ...]
    (accumulated in floating point), so the first is [start] after
    numeric coercion; every running sum kept satisfies
    [v <= stop + tolerance] (step > 0) or [v >= stop - tolerance]
    (otherwise), with [tolerance = |step| * 1e-9], and the running sum
    that follows the last one kept is past that bound; neither the
    running sums kept nor the values returned for them ever go against
    the direction of the step: each returned value is [<=] the next
    when the step is positive and [>=] the next otherwise, whether it
    is an [int] or a [float] (for canonical binary64 [start] and
    [step], the values Python floats take).  When [start] itself is
    past the bound the call raises. *)
Theorem expand_minmax_returns_running_sums (start stop step : value) :
  eq_zero step = false ->
  (forall vs,
      expand_wedge_values float_of_str [start; stop; step] "minmax" = OK vs ->
      exists start_f stop_f step_f first rest,
        py_float float_of_str start = OK start_f
        /\ py_float float_of_str stop = OK stop_f
        /\ py_float float_of_str step = OK step_f
        /\ vs = first :: rest
        /\ _coerce_numeric (VFloat start_f) = OK first
        /\ Z.of_nat (List.length vs) <= max_iterations
        /\ let up := PyFloat.gtb step_f (S754_zero false) in
           let tolerance := PyFloat.mul (PyFloat.abs step_f) f_1e_9 in
           let cs := sums (List.length vs) start_f step_f in
           Forall2 (fun c v => _coerce_numeric (VFloat c) = OK v) cs vs
           /\ Forall (fun c => within_stop up stop_f tolerance c = true) cs
           /\ past_stop up stop_f tolerance
                        (sum_after (List.length vs) start_f step_f) = true
           /\ (valid_binary PyFloat.prec PyFloat.emax start_f = true ->
               valid_binary PyFloat.prec PyFloat.emax step_f = true ->
               monotonic up cs /\ ValueOrder.monotonic_values up vs))
  /\ (forall start_f stop_f step_f,
         py_float float_of_str start = OK start_f ->
         py_float float_of_str stop = OK stop_f ->
         py_float float_of_str step = OK step_f ->
         past_stop (PyFloat.gtb step_f (S754_zero false)) stop_f
                   (PyFloat.mul (PyFloat.abs step_f) f_1e_9) start_f = true ->
         expand_wedge_values float_of_str [start; stop; step] "minmax"
         = Raise ValueError).
Proof.
  intros Hz. split.
  - intros vs H. unfold expand_wedge_values in H.
    cbn [String.eqb Ascii.eqb Bool.eqb] in H. rewrite Hz in H.
    destruct (py_float float_of_str start) as [start_f|]; [|discriminate].
    destruct (py_float float_of_str stop) as [stop_f|]; [|discriminate].
    destruct (py_float float_of_str step) as [step_f|]; [|discriminate].
    cbn [bind] in H.
    remember (S (Z.to_nat max_iterations)) as fuel.
    destruct (minmax_loop fuel _ _ _ _ _ _ _) as [values|] eqn:El; [|discriminate].
    cbn [bind] in H.
    apply minmax_loop_returns in El; [|unfold max_iterations; lia].
    destruct El as (produced & Hv & Hc & Hp & He & Hn). simpl in Hv. subst values.
    destruct produced as [|first rest]; [discriminate|].
    inversion H; subst vs. clear H.
    exists start_f, stop_f, step_f, first, rest.
    split; [reflexivity|]. split; [reflexivity|]. split; [reflexivity|].
    split; [reflexivity|].
    split; [cbn [List.length sums] in Hc; now inversion Hc|].
    split; [lia|].
    assert (Hk : Forall (fun c =>
                       within_stop (PyFloat.gtb step_f (S754_zero false)) stop_f
                                   (PyFloat.mul (PyFloat.abs step_f) f_1e_9) c
                       = true)
                    (sums (List.length (first :: rest)) start_f step_f))
      by (eapply kept_within_stop; eassumption).
    cbv zeta.
    split; [exact Hc|]. split; [exact Hk|]. split; [exact He|].
    intros Hstart Hstep.
    assert (Hm : monotonic (PyFloat.gtb step_f (S754_zero false))
                           (sums (List.length (first :: rest)) start_f step_f))
      by (eapply sums_monotonic; [exact Hstep|reflexivity|exact Hstart|exact Hk]).
    split; [exact Hm|].
    eapply coerced_monotonic; [|exact Hc|exact Hm].
    now apply sums_valid.
  - intros start_f stop_f step_f Hs Ht Hp Hpast.
    unfold expand_wedge_values. cbn [String.eqb Ascii.eqb Bool.eqb].
    rewrite Hz, Hs, Ht, Hp. cbn [bind].
    remember (Z.to_nat max_iterations) as fuel.
    cbn [minmax_loop]. unfold past_stop in Hpast.
    destruct (PyFloat.gtb step_f (S754_zero false) && _); [reflexivity|].
    simpl in Hpast. rewrite Hpast. reflexivity.
Qed.

(** C2 as stated fails: on [[0, 10, 3]] the result is [[0, 3, 6, 9]],
    whose last element is 1 away from [stop] while the tolerance is
    [3e-9]; on [[5, 1, 1]] nothing is returned, the call raises. *)
Lemma expand_minmax_stops_short_of_stop :
  expand_wedge_values no_strings [VInt 0; VInt 10; VInt 3] "minmax"
  = OK [VInt 0; VInt 3; VInt 6; VInt 9]
  /\ PyFloat.leb (PyFloat.abs (PyFloat.sub f_9 f_10))
                 (PyFloat.mul (PyFloat.abs f_3) f_1e_9) = false
  /\ expand_wedge_values no_strings [VInt 5; VInt 1; VInt 1] "minmax"
     = Raise ValueError.
Proof. repeat split; vm_compute; reflexivity. Qed.

End ExpanderProperties.

Lemma expand_minmax_returns_running_sums_witness :
  eq_zero (VInt 3) = false
  /\ exists first rest,
      [VInt 0; VInt 3; VInt 6; VInt 9] = first :: rest
      /\ _coerce_numeric (VFloat (S754_zero false)) = OK first.
Proof.
  split; [reflexivity|].
  destruct (proj1 (expand_minmax_returns_running_sums
                     no_strings (VInt 0) (VInt 10) (VInt 3) eq_refl)
                  [VInt 0; VInt 3; VInt 6; VInt 9])
    as (start_f & stop_f & step_f & first & rest & Hs & _ & _ & Hv & Hc & _).
  - vm_compute. reflexivity.
  - exists first, rest. split; [exact Hv|].
    vm_compute in Hs. inversion Hs; subst. exact Hc.
Defined.

(** ** Enumeration of combinations *)

Section CombinationProperties.
Import CombinationSpec.

Lemma length_flat_map_uniform {A B : Type} (f : A -> list B) (p : nat)
      (l : list A) :
  (forall a, List.length (f a) = p) ->
  List.length (flat_map f l) = (List.length l * p)%nat.
Proof.
  intros Hf. induction l as [|a l IH]; simpl; [reflexivity|].
  now rewrite length_app, Hf, IH.
Qed.

Lemma length_product (value_lists : list (list value)) :
  List.length (product value_lists) = size value_lists.
Proof.
  induction value_lists as [|vs rest IH]; simpl; [reflexivity|].
  rewrite (length_flat_map_uniform _ (size rest)); [reflexivity|].
  intros v. now rewrite length_map.
Qed.

Lemma iter_combinations_length (axes : list Axis) :
  axes <> [] ->
  List.length (iter_combinations axes) = size (map snd axes).
Proof.
  destruct axes as [|a axes]; [congruence|]. intros _.
  unfold iter_combinations. now rewrite length_map, length_product.
Qed.

Lemma nth_error_flat_map_uniform {A B : Type} (f : A -> list B) (p : nat)
      (l : list A) :
  (forall a, List.length (f a) = p) ->
  forall k,
    (k < List.length l * p)%nat ->
    nth_error (flat_map f l) k
    = match nth_error l (k / p) with
      | Some a => nth_error (f a) (k mod p)
      | None => None
      end.
Proof.
  intros Hf. induction l as [|a l IH]; intros k Hk; simpl in *; [lia|].
  assert (Hp : (0 < p)%nat) by (destruct p; lia).
  destruct (Nat.lt_ge_cases k p) as [Hlt|Hge].
  - rewrite nth_error_app1 by (rewrite Hf; exact Hlt).
    rewrite Nat.div_small, Nat.mod_small by exact Hlt. reflexivity.
  - rewrite nth_error_app2 by (rewrite Hf; exact Hge).
    rewrite Hf, IH by lia.
    assert (Hk' : k = (k - p + 1 * p)%nat) by lia.
    assert (Hd : (k / p = S ((k - p) / p))%nat).
    { rewrite Hk' at 1. rewrite Nat.div_add by lia. lia. }
    assert (Hm : (k mod p = (k - p) mod p)%nat).
    { rewrite Hk' at 1. apply Nat.Div0.mod_add. }
    rewrite Hd, Hm. reflexivity.
Qed.

Lemma nth_error_product (value_lists : list (list value)) :
  forall k,
    (k < size value_lists)%nat ->
    nth_error (product value_lists) k
    = Some (choose value_lists (odometer value_lists k)).
Proof.
  induction value_lists as [|vs rest IH]; intros k Hk.
  - simpl in Hk. assert (k = 0%nat) as -> by (unfold size in Hk; simpl in Hk; lia).
    reflexivity.
  - change (size (vs :: rest)) with (List.length vs * size rest)%nat in Hk.
    cbn [product odometer].
    assert (Hp : (0 < size rest)%nat) by (destruct (size rest); lia).
    rewrite (nth_error_flat_map_uniform _ (size rest));
      [|intros v; now rewrite length_map, length_product|exact Hk].
    assert (Hq : (k / size rest < List.length vs)%nat).
    { apply Nat.Div0.div_lt_upper_bound. lia. }
    destruct (nth_error vs (k / size rest)) as [v|] eqn:Ev.
    + rewrite nth_error_map, IH by (apply Nat.mod_upper_bound; lia).
      unfold choose. cbn [combine map fst snd option_map].
      now rewrite (nth_error_nth _ _ VNone Ev).
    + apply nth_error_None in Ev. lia.
Qed.

Lemma odometer_zero (value_lists : list (list value)) :
  choose value_lists (odometer value_lists 0) = map (at_index 0) value_lists.
Proof.
  unfold choose.
  induction value_lists as [|vs rest IH]; [reflexivity|].
  cbn [odometer combine map fst snd].
  rewrite Nat.Div0.div_0_l, Nat.Div0.mod_0_l, IH. reflexivity.
Qed.

Lemma size_app_last (front : list (list value)) (last : list value) :
  Forall (fun vs => vs <> []) front ->
  (List.length last <= size (front ++ [last]))%nat.
Proof.
  induction 1 as [|vs front Hvs _ IH].
  - unfold size. simpl. lia.
  - change (size ((vs :: front) ++ [last]))
      with (List.length vs * size (front ++ [last]))%nat.
    destruct vs; [congruence|]. simpl. lia.
Qed.

Lemma odometer_one (front : list (list value)) (last : list value) :
  Forall (fun vs => vs <> []) front ->
  (2 <= List.length last)%nat ->
  choose (front ++ [last]) (odometer (front ++ [last]) 1)
  = (map (at_index 0) front ++ [at_index 1 last])%list.
Proof.
  intros Hne Hl. unfold choose.
  induction Hne as [|vs front Hvs Hne IH].
  - reflexivity.
  - cbn [app odometer combine map fst snd].
    pose proof (size_app_last front last Hne) as Hs.
    rewrite Nat.div_small, Nat.mod_small by lia.
    rewrite IH. reflexivity.
Qed.

Lemma size_positive (front : list (list value)) (last : list value) :
  Forall (fun vs => vs <> []) front ->
  (2 <= List.length last)%nat ->
  (1 < size (front ++ [last]))%nat.
Proof. intros Hne Hl. pose proof (size_app_last front last Hne). lia. Qed.

(** C4, as the code has it.  Over no axes [iter_combinations] yields
    one assignment, the empty mapping.  Over a non-empty list of axes
    it yields as many assignments as the product of the value-list
    lengths, in cartesian-product order with the last axis varying
    fastest: the [k]-th assignment takes on each axis the index given
    by the mixed-radix digits of [k]; the first takes index 0 of every
    axis, and when the last axis has at least two values the second
    differs from the first only by taking index 1 on the last axis. *)
Theorem iter_combinations_cartesian_order :
  iter_combinations [] = [[]]
  /\ (forall axes,
         axes <> [] ->
         List.length (iter_combinations axes) = size (map snd axes))
  /\ (forall axes k,
         axes <> [] ->
         (k < size (map snd axes))%nat ->
         nth_error (iter_combinations axes) k
         = Some (build_combination
                   (map fst axes)
                   (choose (map snd axes) (odometer (map snd axes) k))))
  /\ (forall axes,
         axes <> [] ->
         (0 < size (map snd axes))%nat ->
         nth_error (iter_combinations axes) 0
         = Some (build_combination (map fst axes)
                                   (map (at_index 0) (map snd axes))))
  /\ (forall (front : list Axis) (last : Axis),
         Forall (fun vs => vs <> []) (map snd front) ->
         (2 <= List.length (snd last))%nat ->
         nth_error (iter_combinations (front ++ [last])%list) 1
         = Some (build_combination
                   (map fst (front ++ [last])%list)
                   (map (at_index 0) (map snd front)
                        ++ [at_index 1 (snd last)])%list)).
Proof.
  assert (Hk : forall axes k,
             axes <> [] ->
             (k < size (map snd axes))%nat ->
             nth_error (iter_combinations axes) k
             = Some (build_combination
                       (map fst axes)
                       (choose (map snd axes) (odometer (map snd axes) k)))).
  { intros axes k Hne Hlt. destruct axes as [|a axes]; [congruence|].
    unfold iter_combinations.
    now rewrite nth_error_map, nth_error_product. }
  split; [reflexivity|]. split; [exact iter_combinations_length|].
  split; [exact Hk|]. split.
  - intros axes Hne Hpos. rewrite Hk by assumption. now rewrite odometer_zero.
  - intros front last Hne Hl.
    assert (Hax : (front ++ [last])%list <> []) by (destruct front; discriminate).
    rewrite Hk; [|exact Hax|].
    + rewrite (map_app snd). cbn [map].
      rewrite odometer_one by assumption. reflexivity.
    + rewrite (map_app snd). cbn [map]. now apply size_positive.
Qed.

Lemma iter_combinations_cartesian_order_witness :
  nth_error (iter_combinations two_by_three) 1
  = Some [("A", [("p", VInt 1)]); ("B", [("q", VInt 8)])].
Proof.
  destruct iter_combinations_cartesian_order as (_ & _ & _ & _ & H).
  apply (H [(("A", "p"), [VInt 1; VInt 2])]
           (("B", "q"), [VInt 7; VInt 8; VInt 9])).
  - repeat constructor. discriminate.
  - simpl. lia.
Defined.

(** C4 as stated fails when the last axis has a single value: over
    axes of sizes 2 and 1 the second assignment keeps the last axis
    and advances the first one. *)
Lemma second_assignment_advances_first_axis :
  iter_combinations two_by_one
  = [[("A", [("p", VInt 1)]); ("B", [("q", VInt 7)])];
     [("A", [("p", VInt 2)]); ("B", [("q", VInt 7)])]]
  /\ (forall first second,
         iter_combinations two_by_one = [first; second] ->
         Dict.get "B" first = Dict.get "B" second
         /\ Dict.get "A" first <> Dict.get "A" second).
Proof.
  split; [reflexivity|].
  intros first second H. inversion H; subst. split; [reflexivity|].
  simpl. discriminate.
Qed.

End CombinationProperties.

(** ** The submission loop *)

Lemma total_runs_length (axes : list Axis) :
  total_runs axes = Z.of_nat (List.length (iter_combinations axes)).
Proof.
  destruct axes as [|a axes]; [reflexivity|].
  rewrite iter_combinations_length by discriminate.
  unfold total_runs, CombinationSpec.size.
  generalize (a :: axes). intros l.
  induction l as [|x l IH]; [reflexivity|].
  cbn [map fold_right]. now rewrite Nat2Z.inj_mul, IH.
Qed.

Section OrchestratorProperties.

Variable workflow : Type.
Variable set_param_value : workflow -> string -> value -> value -> option workflow.
Variable update_adhoc_metadata : workflow -> string -> metadata -> workflow.
Variable save_image_titles : workflow -> list (option string).
Variable client : Type.
Variable connect : string -> client.
Variable queue_prompt : client -> workflow -> result (client * option string).
Variable stream_until_done : client -> string -> result client.
Variable prompt_confirmation : Z -> string -> bool.
Variable path_join : string -> string -> string.
Variable repr_text : value -> string.

Local Abbreviation prepare' :=
  (prepare workflow set_param_value update_adhoc_metadata save_image_titles
           path_join repr_text).
Local Abbreviation iteration' :=
  (iteration workflow set_param_value update_adhoc_metadata save_image_titles
             client queue_prompt stream_until_done path_join repr_text).
Local Abbreviation submit_loop' :=
  (submit_loop workflow set_param_value update_adhoc_metadata save_image_titles
               client queue_prompt stream_until_done path_join repr_text).
Local Abbreviation main' :=
  (main workflow set_param_value update_adhoc_metadata save_image_titles
        client connect queue_prompt stream_until_done prompt_confirmation
        path_join repr_text).
Local Abbreviation cooperative' :=
  (cooperative workflow set_param_value client queue_prompt stream_until_done).
Local Abbreviation apply_param_overrides' :=
  (apply_param_overrides workflow set_param_value).
Local Abbreviation apply_combination' := (apply_combination workflow set_param_value).

Variable args : Args.
Variable config : Config.WedgeConfig.

(** *** Runs in which every request is accepted *)

Section Cooperative.
Hypothesis Hcoop : cooperative'.
Hypothesis Hvet : Config.vet config = OK tt.

Lemma apply_param_overrides_accepted (w : workflow) :
  exists w', apply_param_overrides' w config = OK w'.
Proof.
  destruct Hcoop as (Hset & _).
  destruct (vet_ok config Hvet) as (_ & _ & _ & Hlen & _).
  unfold apply_param_overrides'.
  revert w. induction Hlen as [|[node entries] d Hd _ IH]; intros w.
  - now exists w.
  - cbn [apply_overrides_of]. simpl in Hd.
    assert (He : exists w', apply_entries workflow set_param_value
                                          node entries w = OK w').
    { clear IH. revert w. induction Hd as [|e es He _ IHe]; intros w.
      - now exists w.
      - destruct e as [|p [|v [|? ?]]]; try discriminate.
        cbn [apply_entries].
        destruct (set_param_value w node p v) as [w'|] eqn:Es.
        + apply IHe.
        + now elim (Hset w node p v). }
    destruct He as [w' ->]. cbn [bind]. apply IH.
Qed.

Lemma apply_combination_accepted (combination : assignment) :
  forall w, exists w', apply_combination' w combination = OK w'.
Proof.
  destruct Hcoop as (Hset & _).
  induction combination as [|[node params] rest IH]; intros w.
  - now exists w.
  - cbn [apply_combination].
    assert (He : exists w', apply_params workflow set_param_value
                                         node params w = OK w').
    { clear IH. revert w. induction params as [|[p v] ps IHp]; intros w.
      - now exists w.
      - cbn [apply_params].
        destruct (set_param_value w node (VStr p) v) as [w'|] eqn:Es.
        + apply IHp.
        + now elim (Hset w node (VStr p) v). }
    destruct He as [w' ->]. cbn [bind]. apply IH.
Qed.

Lemma prepare_accepted max_runs output_dir base idx combination :
  exists w, prepare' args config max_runs output_dir base idx combination = OK w.
Proof.
  unfold prepare.
  destruct (apply_param_overrides_accepted base) as [w1 ->]. cbn [bind].
  destruct (apply_combination_accepted combination w1) as [w2 ->]. cbn [bind].
  destruct (vet_ok config Hvet) as (_ & Hp & _).
  destruct (Config.filename_prefix config); try discriminate.
  cbn [as_str bind]. unfold set_output_prefix.
  destruct Hcoop as (Hset & _).
  match goal with
  | |- context [set_param_value ?w ?n ?p ?v] =>
      destruct (set_param_value w n p v) as [w'|] eqn:Es;
      [now exists w'|now elim (Hset w n p v)]
  end.
Qed.

Lemma iteration_accepted max_runs output_dir base idx combination st :
  exists st' w prompt_id,
    iteration' args config max_runs output_dir base idx combination st
    = (st', None)
    /\ trace st' = (trace st ++ [LogSubmitting idx max_runs combination;
                                 Queued w;
                                 LogCompleted idx max_runs prompt_id])%list.
Proof.
  unfold iteration.
  destruct (prepare_accepted max_runs output_dir base idx combination) as [w ->].
  destruct Hcoop as (_ & Hq & Hs).
  cbn [log run_client trace].
  destruct (Hq (run_client st) w) as (c & prompt_id & -> & Hid).
  destruct (String.eqb_spec prompt_id "") as [|_]; [contradiction|].
  destruct (Hs c prompt_id) as (c' & ->).
  eexists _, w, prompt_id. split; [reflexivity|].
  cbn [log trace]. now rewrite <- !app_assoc.
Qed.

Lemma submit_loop_accepted max_runs output_dir base combinations :
  forall idx st,
    exists st',
      submit_loop' args config max_runs output_dir base combinations idx st
      = (st', None)
      /\ submit_progress (trace st')
         = (submit_progress (trace st)
            ++ map (fun k => (idx + Z.of_nat k, max_runs))
                   (seq 0 (Nat.min (List.length combinations)
                                   (Z.to_nat (max_runs - idx + 1)))))%list
      /\ List.length (submissions (trace st'))
         = (List.length (submissions (trace st))
            + Nat.min (List.length combinations)
                      (Z.to_nat (max_runs - idx + 1)))%nat
      /\ listing_progress (trace st') = listing_progress (trace st).
Proof.
  induction combinations as [|c rest IH]; intros idx st.
  - exists st. cbn. rewrite app_nil_r. repeat split; lia.
  - cbn [submit_loop].
    destruct (idx >? max_runs) eqn:Eg.
    + exists st. rewrite Z.gtb_ltb in Eg. apply Z.ltb_lt in Eg.
      replace (Z.to_nat (max_runs - idx + 1)) with 0%nat by lia.
      rewrite Nat.min_0_r. cbn. rewrite app_nil_r. repeat split; lia.
    + rewrite Z.gtb_ltb in Eg. apply Z.ltb_ge in Eg.
      destruct (iteration_accepted max_runs output_dir base idx c st)
        as (st1 & w & prompt_id & -> & Ht).
      destruct (IH (idx + 1) st1) as (st' & -> & Hp & Hn & Hl).
      exists st'. split; [reflexivity|].
      replace (Z.to_nat (max_runs - idx + 1))
        with (S (Z.to_nat (max_runs - (idx + 1) + 1))) by lia.
      cbn [List.length Nat.min seq map].
      rewrite Hp, Hn, Hl, Ht.
      unfold submit_progress, submissions, listing_progress.
      rewrite !flat_map_app. cbn [flat_map app]. rewrite !app_nil_r.
      rewrite length_app. cbn [List.length].
      repeat split; [|lia].
      rewrite <- app_assoc. cbn [app]. do 2 f_equal.
      * f_equal. lia.
      * rewrite <- seq_shift, map_map. apply map_ext.
        intros k. f_equal. lia.
Qed.

Lemma listing_loop_progress max_runs total combinations :
  forall idx (listed : list (event workflow)),
    combinations <> [] ->
    idx <= max_runs ->
    listing_progress (listing_loop workflow max_runs total combinations idx listed)
    = (listing_progress listed
       ++ map (fun k => (idx + Z.of_nat k, total))
              (seq 0 (Nat.min (List.length combinations)
                              (Z.to_nat (max_runs - idx + 1)))))%list
    /\ submit_progress (listing_loop workflow max_runs total combinations idx listed)
       = submit_progress listed
    /\ submissions (listing_loop workflow max_runs total combinations idx listed)
       = submissions listed.
Proof.
  induction combinations as [|c rest IH]; intros idx listed Hne Hle;
    [congruence|].
  cbn [listing_loop].
  replace (Z.to_nat (max_runs - idx + 1))
    with (S (Z.to_nat (max_runs - (idx + 1) + 1))) by lia.
  cbn [List.length Nat.min seq map].
  destruct (idx >=? max_runs) eqn:Eg.
  - rewrite Z.geb_leb in Eg. apply Z.leb_le in Eg.
    replace (Z.to_nat (max_runs - (idx + 1) + 1)) with 0%nat by lia.
    rewrite Nat.min_0_r. cbn [seq map].
    unfold listing_progress, submit_progress, submissions.
    rewrite !flat_map_app. cbn [flat_map app]. rewrite !app_nil_r.
    repeat split. do 3 f_equal. lia.
  - rewrite Z.geb_leb in Eg. apply Z.leb_gt in Eg.
    destruct rest as [|c' rest'].
    + cbn [listing_loop List.length Nat.min seq map].
      unfold listing_progress, submit_progress, submissions.
      rewrite !flat_map_app. cbn [flat_map app]. rewrite !app_nil_r.
      repeat split. do 3 f_equal. lia.
    + destruct (IH (idx + 1) (listed ++ [LogListing idx total c])%list)
        as (Hl & Hp & Hs); [discriminate|lia|].
      rewrite Hl, Hp, Hs.
      unfold listing_progress, submit_progress, submissions.
      rewrite !flat_map_app. cbn [flat_map app]. rewrite !app_nil_r.
      repeat split.
      rewrite <- app_assoc. cbn [app]. do 2 f_equal.
      * f_equal. lia.
      * rewrite <- seq_shift, map_map. apply map_ext.
        intros k. f_equal. lia.
Qed.
End Cooperative.

(** C7, as the code has it.  With 12 combinations and a limit of 5,
    and collaborators that accept every request, [main] submits
    exactly [min(5, 12) = 5] assignments; the progress it logs with
    the [k]-th submission is [k] against the clamped count 5 (the 5th
    is "5/5"); the true total 12 is what the optional listing logs
    its indices against ("5/12"). *)
Theorem clamped_run_reports_clamped_count (axes : list Axis) (template : workflow) :
  cooperative' ->
  Config.vet config = OK tt ->
  total_runs axes = 12 ->
  limit args = Some 5 ->
  dry_run args = false ->
  (confirm args && negb (no_confirm args) = true ->
   forall n dir, prompt_confirmation n dir = true) ->
  exists t,
    main' args config axes template = OK (t, AllProcessed)
    /\ List.length (submissions t) = 5%nat
    /\ submit_progress t = [(1, 5); (2, 5); (3, 5); (4, 5); (5, 5)]
    /\ listing_progress t
       = if print_combinations args
         then [(1, 12); (2, 12); (3, 12); (4, 12); (5, 12)]
         else [].
Proof.
  intros Hcoop Hvet Htotal Hlimit Hdry Hconfirm.
  assert (Hlen : List.length (iter_combinations axes) = 12%nat).
  { pose proof (total_runs_length axes) as H. rewrite Htotal in H. lia. }
  destruct (vet_ok config Hvet) as (Hfolder & _ & Hurl & _).
  unfold main. rewrite Hlimit, Htotal, Hdry.
  change (Z.min 12 5) with 5. change (5 <=? 0) with false. cbv iota.
  rewrite andb_false_r, orb_false_r.
  destruct (Config.output_folder config) as [| | | |folder| |]; try discriminate.
  cbn [as_str bind].
  assert (Hgo : confirm args && negb (no_confirm args)
                && negb (prompt_confirmation 5 (path_join folder "images"))
                = false).
  { destruct (confirm args && negb (no_confirm args)) eqn:Ec; [|reflexivity].
    now rewrite (Hconfirm eq_refl). }
  rewrite Hgo.
  destruct (Config.url config) as [| | | |url| |]; try discriminate.
  cbn [normalize_base_url].
  set (u := if String.prefix "http://" url || String.prefix "https://" url
            then url else "http://" ++ url).
  replace (if String.prefix "http://" url || String.prefix "https://" url
           then OK url else OK ("http://" ++ url)) with (OK u)
    by (unfold u; destruct (_ || _); reflexivity).
  cbn [bind].
  set (listed := if print_combinations args
                 then listing_loop workflow 5 12 (iter_combinations axes) 1 []
                 else []).
  assert (Hlisted : listing_progress listed
                    = (if print_combinations args
                       then [(1, 12); (2, 12); (3, 12); (4, 12); (5, 12)]
                       else [])
                    /\ submit_progress listed = []
                    /\ submissions listed = []).
  { unfold listed. destruct (print_combinations args); [|repeat split].
    destruct (listing_loop_progress 5 12 (iter_combinations axes) 1 [])
      as (Hl & Hp & Hs); [destruct (iter_combinations axes); discriminate|lia|].
    rewrite Hl, Hp, Hs, Hlen. repeat split. }
  destruct Hlisted as (Hl & Hp & Hs).
  match goal with
  | |- context [submit_loop' ?a ?c ?m ?o ?b ?l ?i ?st] =>
      destruct (submit_loop_accepted Hcoop Hvet m o b l i st)
        as (st' & -> & Hp' & Hn' & Hl')
  end.
  exists (trace st'). split; [reflexivity|].
  cbn [trace] in Hp', Hn', Hl'. rewrite Hlen in Hp', Hn'.
  rewrite Hp in Hp'. rewrite Hs in Hn'. rewrite Hl in Hl'.
  repeat split; assumption.
Qed.

(** *** Runs that fail while a template is prepared *)

Lemma iteration_completed max_runs output_dir base idx combination st st' :
  iteration' args config max_runs output_dir base idx combination st = (st', None) ->
  exists w prompt_id,
    trace st' = (trace st ++ [LogSubmitting idx max_runs combination;
                              Queued w;
                              LogCompleted idx max_runs prompt_id])%list.
Proof.
  unfold iteration.
  destruct (prepare' _ _ _ _ _ _ _) as [w|]; [|discriminate].
  destruct (queue_prompt _ w) as [[c [prompt_id|]]|]; try discriminate.
  destruct (String.eqb prompt_id ""); [discriminate|].
  destruct (stream_until_done c prompt_id) as [c'|]; [|discriminate].
  intros H. inversion H; subst. exists w, prompt_id.
  cbn [log trace]. now rewrite <- !app_assoc.
Qed.

Lemma submit_loop_completed max_runs output_dir base pre :
  forall idx st st',
    idx + Z.of_nat (List.length pre) - 1 <= max_runs ->
    submit_loop' args config max_runs output_dir base pre idx st = (st', None) ->
    List.length (submissions (trace st'))
    = (List.length (submissions (trace st)) + List.length pre)%nat
    /\ forall post,
        submit_loop' args config max_runs output_dir base (pre ++ post)%list idx st
        = submit_loop' args config max_runs output_dir base post
                      (idx + Z.of_nat (List.length pre)) st'.
Proof.
  induction pre as [|c pre IH]; intros idx st st' Hle H.
  - cbn in H. inversion H; subst. split; [cbn; lia|].
    intros post. cbn [app List.length Z.of_nat]. now rewrite Z.add_0_r.
  - cbn [List.length] in Hle. rewrite Nat2Z.inj_succ in Hle.
    cbn [submit_loop app] in *.
    assert (Eg : (idx >? max_runs) = false).
    { rewrite Z.gtb_ltb. apply Z.ltb_ge. lia. }
    rewrite Eg in *.
    destruct (iteration' args config max_runs output_dir base idx c st)
      as [st1 [e|]] eqn:Ei; [discriminate|].
    destruct (iteration_completed _ _ _ _ _ _ _ Ei) as (w & prompt_id & Ht).
    destruct (IH (idx + 1) st1 st' ltac:(lia) H) as (Hn & Happ).
    split.
    + rewrite Hn, Ht. unfold submissions. rewrite flat_map_app, length_app.
      cbn. lia.
    + intros post. rewrite Happ. f_equal. cbn [List.length].
      rewrite Nat2Z.inj_succ. lia.
Qed.

Lemma listing_loop_no_submissions max_runs total combinations :
  forall idx (listed : list (event workflow)),
    submissions (listing_loop workflow max_runs total combinations idx listed)
    = submissions listed.
Proof.
  induction combinations as [|c rest IH]; intros idx listed; [reflexivity|].
  cbn [listing_loop].
  assert (Hs : submissions (listed ++ [LogListing idx total c])%list
               = submissions listed).
  { unfold submissions. rewrite flat_map_app. cbn. now rewrite app_nil_r. }
  destruct (idx >=? max_runs); [exact Hs|]. now rewrite IH.
Qed.

(** C8.  When applying the static overrides or the assignment's values
    fails on the [k]-th assignment of a run ([pre] are the [k - 1]
    assignments before it, all completed), [main] ends there with that
    error: what it has logged and sent is what it had after the
    [k - 1] completed submissions -- they stay -- and nothing is
    prepared or submitted for the assignments [k + 1] onwards. *)
Theorem apply_error_halts_run (axes : list Axis) (template : workflow)
        (pre post : list assignment) (c : assignment) (e : exn)
        (folder url : string) (st_k : run_state workflow client) :
  let max_runs := match limit args with
                  | Some l => Z.min (total_runs axes) l
                  | None => total_runs axes
                  end in
  let output_dir := path_join folder "images" in
  let base := update_adhoc_metadata
                template "wedge_config"
                (WedgeConfigMeta (Config.to_dict config)) in
  let listed := if print_combinations args
                then listing_loop workflow max_runs (total_runs axes)
                                  (iter_combinations axes) 1 []
                else [] in
  dry_run args = false ->
  Config.output_folder config = VStr folder ->
  normalize_base_url (Config.url config) = OK url ->
  confirm args && negb (no_confirm args)
    && negb (prompt_confirmation max_runs output_dir) = false ->
  iter_combinations axes = (pre ++ c :: post)%list ->
  Z.of_nat (List.length pre) < max_runs ->
  submit_loop' args config max_runs output_dir base pre 1
              {| trace := listed; run_client := connect url |}
  = (st_k, None) ->
  (apply_param_overrides' base config = Raise e
   \/ exists w1, apply_param_overrides' base config = OK w1
                 /\ apply_combination' w1 c = Raise e) ->
  main' args config axes template = OK (trace st_k, Aborted e)
  /\ List.length (submissions (trace st_k)) = List.length pre.
Proof.
  intros max_runs output_dir base listed Hdry Hfolder Hurl Hgo Hcombos Hk Hpre Hfail.
  destruct (submit_loop_completed max_runs output_dir base pre 1 _ st_k
                                  ltac:(lia) Hpre) as (Hn & Happ).
  assert (Hprep : prepare' args config max_runs output_dir base
                          (1 + Z.of_nat (List.length pre)) c = Raise e).
  { unfold prepare.
    destruct Hfail as [->|(w1 & -> & Hc)]; [reflexivity|].
    cbn [bind]. now rewrite Hc. }
  split.
  - unfold main. fold max_runs.
    assert (Hpos : (max_runs <=? 0) = false) by (apply Z.leb_gt; lia).
    rewrite Hpos, Hdry, andb_false_r, orb_false_r, Hfolder.
    cbn [as_str bind]. fold output_dir. rewrite Hgo, Hurl. cbn [bind].
    fold base. fold listed. rewrite Hcombos, Happ.
    cbn [submit_loop].
    assert (Eg : (1 + Z.of_nat (List.length pre) >? max_runs) = false).
    { rewrite Z.gtb_ltb. apply Z.ltb_ge. lia. }
    rewrite Eg. unfold iteration. rewrite Hprep. reflexivity.
  - rewrite Hn. cbn [trace]. unfold listed.
    destruct (print_combinations args); [|reflexivity].
    now rewrite listing_loop_no_submissions.
Qed.

End OrchestratorProperties.

Lemma clamped_run_reports_clamped_count_witness :
  exists t,
    Demo.run Demo.limit_5 Demo.config Demo.twelve = OK (t, AllProcessed)
    /\ List.length (submissions t) = 5%nat
    /\ submit_progress t = [(1, 5); (2, 5); (3, 5); (4, 5); (5, 5)].
Proof.
  destruct (clamped_run_reports_clamped_count
              Demo.workflow Demo.set_param_value Demo.update_adhoc_metadata
              Demo.save_image_titles Demo.client Demo.connect Demo.queue_prompt
              Demo.stream_until_done Demo.prompt_confirmation Demo.path_join
              Demo.repr_text Demo.limit_5 Demo.config Demo.twelve [])
    as (t & Hrun & Hn & Hp & _).
  - split; [|split].
    + intros w node param v. discriminate.
    + intros c w. eexists _, _. split; [reflexivity|]. discriminate.
    + intros c p. eexists. reflexivity.
  - reflexivity.
  - reflexivity.
  - reflexivity.
  - reflexivity.
  - reflexivity.
  - exists t. auto.
Defined.

(** C7 as stated fails: with 12 combinations and a limit of 5, the
    progress logged with the 5th submission is 5 against 5, and no
    submission is logged against the total 12. *)
Lemma fifth_submission_reports_five_of_five :
  total_runs Demo.twelve = 12
  /\ exists t,
      Demo.run Demo.limit_5 Demo.config Demo.twelve = OK (t, AllProcessed)
      /\ nth_error (submit_progress t) 4 = Some (5, 5)
      /\ ~ In (5, 12) (submit_progress t).
Proof.
  split; [reflexivity|].
  eexists. split; [vm_compute; reflexivity|].
  split; [reflexivity|].
  cbn. intros H. repeat (destruct H as [H|H]; [discriminate H|]). exact H.
Qed.

Lemma apply_error_halts_run_witness :
  exists t,
    Demo.picky_run Demo.no_limit Demo.config Demo.ten
    = OK (t, Aborted (RuntimeError "Failed to set wedge parameter"))
    /\ List.length (submissions t) = 2%nat.
Proof.
  eexists.
  refine (apply_error_halts_run
            Demo.workflow Demo.picky_set_param_value Demo.update_adhoc_metadata
            Demo.save_image_titles Demo.client Demo.connect Demo.queue_prompt
            Demo.stream_until_done Demo.prompt_confirmation Demo.path_join
            Demo.repr_text Demo.no_limit Demo.config Demo.ten []
            [[("KSampler", [("steps", VInt 1)])];
             [("KSampler", [("steps", VInt 2)])]]
            [[("KSampler", [("steps", VInt 4)])];
             [("KSampler", [("steps", VInt 5)])];
             [("KSampler", [("steps", VInt 6)])];
             [("KSampler", [("steps", VInt 7)])];
             [("KSampler", [("steps", VInt 8)])];
             [("KSampler", [("steps", VInt 9)])];
             [("KSampler", [("steps", VInt 10)])]]
            [("KSampler", [("steps", VInt 3)])]
            (RuntimeError "Failed to set wedge parameter")
            "out" "http://127.0.0.1:8188" _ _ _ _ _ _ _ _ _).
  - reflexivity.
  - reflexivity.
  - reflexivity.
  - reflexivity.
  - reflexivity.
  - vm_compute. reflexivity.
  - vm_compute. reflexivity.
  - right. eexists. split; reflexivity.
Defined.
(** ** Configuration: what the loader returns *)

Section LoaderProperties.
Import Config ConfigSpec.

Lemma keys_set {V : Type} (k : string) (v : V) (d : Dict.t V) :
  Dict.keys (Dict.set k v d)
  = if existsb (String.eqb k) (Dict.keys d) then Dict.keys d
    else (Dict.keys d ++ [k])%list.
Proof.
  induction d as [|[k' v'] d IH]; simpl; [reflexivity|].
  rewrite (String.eqb_sym k k').
  destruct (String.eqb_spec k' k) as [->|Hne]; simpl; [reflexivity|].
  rewrite IH. now destruct (existsb _ _).
Qed.

Lemma existsb_eqb_in (k : string) (l : list string) :
  existsb (String.eqb k) l = false -> ~ In k l.
Proof.
  intros H Hin.
  assert (Ht : existsb (String.eqb k) l = true).
  { apply existsb_exists. exists k. split; [exact Hin|apply String.eqb_refl]. }
  congruence.
Qed.

Lemma NoDup_snoc {A : Type} (l : list A) (a : A) :
  NoDup l -> ~ In a l -> NoDup (l ++ [a]).
Proof.
  intros Hl Ha. apply NoDup_app; [exact Hl|repeat constructor; simpl; tauto|].
  simpl. intros x Hx [<-|[]]. tauto.
Qed.

Lemma set_wf {V : Type} (k : string) (v : V) (d : Dict.t V) :
  Dict.wf d -> Dict.wf (Dict.set k v d).
Proof.
  unfold Dict.wf. intros H. rewrite keys_set.
  destruct (existsb _ _) eqn:E; [exact H|].
  apply NoDup_snoc; [exact H|now apply existsb_eqb_in].
Qed.

Lemma keys_setdefault_append {A : Type} (k : string) (x : A)
      (d : Dict.t (list A)) :
  Dict.keys (setdefault_append k x d)
  = if existsb (String.eqb k) (Dict.keys d) then Dict.keys d
    else (Dict.keys d ++ [k])%list.
Proof.
  induction d as [|[k' v'] d IH]; simpl; [reflexivity|].
  rewrite (String.eqb_sym k k').
  destruct (String.eqb_spec k' k) as [->|Hne]; simpl; [reflexivity|].
  rewrite IH. now destruct (existsb _ _).
Qed.

Lemma setdefault_append_wf {A : Type} (k : string) (x : A)
      (d : Dict.t (list A)) :
  Dict.wf d -> Dict.wf (setdefault_append k x d).
Proof.
  unfold Dict.wf. intros H. rewrite keys_setdefault_append.
  destruct (existsb _ _) eqn:E; [exact H|].
  apply NoDup_snoc; [exact H|now apply existsb_eqb_in].
Qed.

Lemma normalize_overrides_dict_wf items :
  forall acc o,
    normalize_overrides_dict items acc = OK o -> Dict.wf acc -> Dict.wf o.
Proof.
  induction items as [|[node v] items IH]; simpl; intros acc o H Hacc.
  - inversion H; subst; assumption.
  - destruct v as [| | | | |l|]; try discriminate.
    destruct (convert_entries 2 l) as [converted|]; [|discriminate].
    simpl in H. apply (IH _ _ H). now apply set_wf.
Qed.

Lemma normalize_overrides_list_wf entries :
  forall acc o,
    normalize_overrides_list entries acc = OK o -> Dict.wf acc -> Dict.wf o.
Proof.
  induction entries as [|e es IH]; simpl; intros acc o H Hacc.
  - inversion H; subst; assumption.
  - destruct e as [| | | | |l|]; try discriminate.
    destruct l as [|a [|b [|c [|? ?]]]]; try discriminate;
      destruct a; try discriminate.
    apply (IH _ _ H). now apply setdefault_append_wf.
Qed.

Lemma normalize_wedges_items_wf items :
  forall acc w,
    normalize_wedges_items items acc = OK w -> Dict.wf acc -> Dict.wf w.
Proof.
  induction items as [|[key v] items IH]; simpl; intros acc w H Hacc.
  - inversion H; subst; assumption.
  - destruct (is_modern_entry v) eqn:Em.
    + destruct v as [| | | | |l|]; try discriminate.
      destruct (convert_entries 3 l) as [converted|]; [|discriminate].
      simpl in H. apply (IH _ _ H). now apply set_wf.
    + destruct v as [| | | | |l|]; simpl in H; try discriminate.
      destruct l as [|a [|b [|c [|? ?]]]]; simpl in H; try discriminate;
        destruct a; try discriminate.
      apply (IH _ _ H). now apply setdefault_append_wf.
Qed.

Lemma wf_nil {V : Type} : Dict.wf (@nil (string * V)).
Proof. constructor. Qed.

Lemma no_empty_nil {A : Type} : no_empty (@nil (string * list A)).
Proof. constructor. Qed.

Lemma normalize_overrides_wf raw o :
  _normalize_overrides raw = OK o -> Dict.wf o.
Proof.
  destruct raw as [| | | | |l|d]; simpl; try discriminate.
  - intros H. inversion H. apply wf_nil.
  - intros H. eapply normalize_overrides_list_wf; [exact H|apply wf_nil].
  - destruct d as [|x d]; intros H.
    + inversion H. apply wf_nil.
    + eapply normalize_overrides_dict_wf; [exact H|apply wf_nil].
Qed.

Lemma normalize_wedges_wf raw w :
  _normalize_wedges raw = OK w -> Dict.wf w /\ no_empty w.
Proof.
  destruct raw as [| | | | |l|d]; simpl; try discriminate.
  - intros H. inversion H. split; [apply wf_nil|apply no_empty_nil].
  - destruct d as [|x d]; intros H.
    + inversion H. split; [apply wf_nil|apply no_empty_nil].
    + split.
      * eapply normalize_wedges_items_wf; [exact H|apply wf_nil].
      * eapply normalize_wedges_items_no_empty; [exact H|apply no_empty_nil].
Qed.

(** What [from_dict] returns is what it built and [vet] accepted. *)
Lemma from_dict_ok (data : Dict.t value) (c : WedgeConfig) :
  from_dict data = OK c ->
  _normalize_overrides (get_default "param_overrides" data (VDict []))
  = OK (param_overrides c)
  /\ _normalize_wedges (get_default "param_wedges" data (VDict []))
     = OK (param_wedges c)
  /\ vet c = OK tt
  /\ output_folder c
     = (if truthy (get_default "output_folder" data VNone)
        then get_default "output_folder" data VNone
        else get_default "project_name" data (VStr ""))
  /\ filename_prefix c = get_default "filename_prefix" data (VStr "")
  /\ url c = get_default "url" data (VStr "").
Proof.
  unfold from_dict. intros H.
  destruct (_normalize_overrides _) as [o|]; [|discriminate].
  destruct (_normalize_wedges _) as [w|]; [|discriminate].
  cbn [bind] in H.
  match type of H with
  | (bind (vet ?cfg) _) = _ => destruct (vet cfg) as [[]|] eqn:Ev; [|discriminate]
  end.
  cbn [bind] in H. inversion H; subst c. clear H. cbn.
  repeat split; try reflexivity. exact Ev.
Qed.

(** The loader returns canonical configurations only: the three
    required fields are non-empty strings, every override is a pair
    and every wedge a triple of a recognised kind, a node occurs once
    in each mapping, and no node has an empty sequence of wedges. *)
Theorem from_dict_returns_canonical (data : Dict.t value) (c : WedgeConfig) :
  from_dict data = OK c -> canonical c.
Proof.
  intros H. apply from_dict_ok in H.
  destruct H as (Ho & Hw & Hv & _).
  apply normalize_overrides_wf in Ho. apply normalize_wedges_wf in Hw.
  unfold canonical. tauto.
Qed.

Lemma convert_entries_raises (n : nat) (entries : list value) (e : exn) :
  convert_entries n entries = Raise e -> e = ValueError.
Proof.
  induction entries as [|x xs IH]; simpl; [discriminate|].
  destruct x; try (intros H; now inversion H).
  destruct (Nat.eqb _ n); [|intros H; now inversion H].
  destruct (convert_entries n xs); simpl; [discriminate|].
  intros H. inversion H; subst. now apply IH.
Qed.

Lemma normalize_overrides_dict_raises items :
  forall acc e, normalize_overrides_dict items acc = Raise e -> e = ValueError.
Proof.
  induction items as [|[node v] items IH]; simpl; intros acc e H; [discriminate|].
  destruct v as [| | | | |l|]; try (now inversion H).
  destruct (convert_entries 2 l) as [converted|e'] eqn:Ec; simpl in H.
  - now apply IH in H.
  - inversion H; subst. now apply convert_entries_raises in Ec.
Qed.

Lemma normalize_overrides_list_raises entries :
  forall acc e, normalize_overrides_list entries acc = Raise e -> e = ValueError.
Proof.
  induction entries as [|x xs IH]; simpl; intros acc e H; [discriminate|].
  destruct x as [| | | | |l|]; try (now inversion H).
  destruct l as [|a [|b [|c [|? ?]]]]; try (now inversion H);
    destruct a; try (now inversion H).
  now apply IH in H.
Qed.

Lemma normalize_wedges_items_raises items :
  forall acc e, normalize_wedges_items items acc = Raise e -> e = ValueError.
Proof.
  induction items as [|[key v] items IH]; simpl; intros acc e H; [discriminate|].
  destruct (is_modern_entry v).
  - destruct v as [| | | | |l|]; try (now inversion H).
    destruct (convert_entries 3 l) as [converted|e'] eqn:Ec; simpl in H.
    + now apply IH in H.
    + inversion H; subst. now apply convert_entries_raises in Ec.
  - destruct (is_legacy_entry v); [|now inversion H].
    destruct v as [| | | | |l|]; try (now inversion H).
    destruct l as [|a [|b [|c [|? ?]]]]; try (now inversion H);
      destruct a; try (now inversion H).
    now apply IH in H.
Qed.

Lemma vet_raises (c : WedgeConfig) (e : exn) :
  vet c = Raise e -> e = ValueError.
Proof.
  unfold vet.
  repeat match goal with
         | |- context [if ?b then _ else _] => destruct b
         end; intros H; now inversion H.
Qed.

Lemma from_dict_object_raises (data : Dict.t value) (e : exn) :
  from_dict data = Raise e -> e = ValueError.
Proof.
  unfold from_dict.
  destruct (_normalize_overrides _) as [o|e1] eqn:Eo; cbn [bind].
  - destruct (_normalize_wedges _) as [w|e2] eqn:Ew; cbn [bind].
    + match goal with
      | |- (bind (vet ?cfg) _) = _ -> _ => destruct (vet cfg) as [[]|e3] eqn:Ev
      end; cbn [bind]; [discriminate|].
      intros H. inversion H; subst. now apply vet_raises in Ev.
    + intros H. inversion H; subst. clear H.
      destruct (get_default "param_wedges" data (VDict [])) as [| | | | |l|d];
        simpl in Ew; try (now inversion Ew).
      destruct d; [discriminate|]. now apply normalize_wedges_items_raises in Ew.
  - intros H. inversion H; subst. clear H.
    destruct (get_default "param_overrides" data (VDict [])) as [| | | | |l|d];
      simpl in Eo; try (now inversion Eo).
    + now apply normalize_overrides_list_raises in Eo.
    + destruct d; [discriminate|]. now apply normalize_overrides_dict_raises in Eo.
Qed.

(** The exceptions of [from_dict].  On a document that is a JSON
    object, whatever is wrong with it is reported with [ValueError].  A
    document that is not an object -- a list, a string, a number,
    [null], all of which the callers pass on unchecked -- has no [get]
    and leaves [from_dict] with [AttributeError].  No other exception
    leaves it. *)
Theorem from_dict_exception_by_document (data : value) (e : exn) :
  from_json_value data = Raise e ->
  e = match data with
      | VDict _ => ValueError
      | _ => AttributeError
      end.
Proof.
  destruct data; cbn [from_json_value]; intros H;
    try (inversion H; reflexivity).
  now apply from_dict_object_raises in H.
Qed.

(** A document without a usable [output_folder] loads only when it has
    a [project_name], which then is the output folder; a usable
    [output_folder] is taken as it is, whatever [project_name] says. *)
Theorem from_dict_output_folder_fallback (data : Dict.t value) (c : WedgeConfig) :
  from_dict data = OK c ->
  nonempty_str (output_folder c) = true
  /\ if truthy (get_default "output_folder" data VNone)
     then Dict.get "output_folder" data = Some (output_folder c)
     else Dict.get "project_name" data = Some (output_folder c).
Proof.
  intros H. apply from_dict_ok in H.
  destruct H as (_ & _ & Hv & Hf & _).
  apply vet_ok in Hv. destruct Hv as (Hne & _).
  split; [exact Hne|].
  rewrite Hf in Hne. rewrite Hf. unfold get_default in *.
  destruct (Dict.get "output_folder" data) as [v|]; simpl in *.
  - destruct (truthy v); [reflexivity|].
    destruct (Dict.get "project_name" data); [reflexivity|discriminate].
  - destruct (Dict.get "project_name" data); [reflexivity|discriminate].
Qed.

End LoaderProperties.

Lemma from_dict_returns_canonical_witness :
  ConfigSpec.canonical ConfigSpec.example_config.
Proof.
  apply (from_dict_returns_canonical (Config.to_dict ConfigSpec.example_config)).
  vm_compute. reflexivity.
Defined.

Lemma from_dict_exception_by_document_witness :
  from_json_value (VList []) = Raise AttributeError
  /\ from_json_value
       (VDict [("output_folder", VStr "out"); ("param_wedges", VInt 3)])
     = Raise ValueError.
Proof.
  split.
  - assert (H : exists e, from_json_value (VList []) = Raise e)
      by (eexists; vm_compute; reflexivity).
    destruct H as [e He]. rewrite He. f_equal.
    exact (from_dict_exception_by_document _ e He).
  - assert (H : exists e,
               from_json_value
                 (VDict [("output_folder", VStr "out"); ("param_wedges", VInt 3)])
               = Raise e)
      by (eexists; vm_compute; reflexivity).
    destruct H as [e He]. rewrite He. f_equal.
    exact (from_dict_exception_by_document _ e He).
Defined.

Lemma from_dict_output_folder_fallback_witness :
  Dict.get "project_name"
           [("project_name", VStr "legacy"); ("filename_prefix", VStr "img");
            ("url", VStr "127.0.0.1:8188")]
  = Some (VStr "legacy").
Proof.
  exact (proj2 (from_dict_output_folder_fallback
                  [("project_name", VStr "legacy"); ("filename_prefix", VStr "img");
                   ("url", VStr "127.0.0.1:8188")]
                  {| Config.output_folder := VStr "legacy";
                     Config.filename_prefix := VStr "img";
                     Config.url := VStr "127.0.0.1:8188";
                     Config.param_overrides := [];
                     Config.param_wedges := [] |}
                  eq_refl)).
Defined.

(** ** Configuration: the legacy forms in general *)

Section LegacyProperties.
Import Config ConfigSpec.

Lemma entries_of_setdefault_append (k node : string) (x : list value)
      (d : Dict.t (list (list value))) :
  entries_of node (setdefault_append k x d)
  = if String.eqb k node then (entries_of node d ++ [x])%list
    else entries_of node d.
Proof.
  unfold entries_of. induction d as [|[k' l] d IH]; simpl.
  - destruct (String.eqb k node); reflexivity.
  - destruct (String.eqb_spec k' k) as [->|Hk]; simpl.
    + destruct (String.eqb k node); reflexivity.
    + destruct (String.eqb_spec k' node) as [->|Hn].
      * destruct (String.eqb_spec k node); [congruence|reflexivity].
      * exact IH.
Qed.

Lemma in_keys_setdefault_append (k node : string) (x : list value)
      (d : Dict.t (list (list value))) :
  In node (Dict.keys (setdefault_append k x d)) <-> node = k \/ In node (Dict.keys d).
Proof.
  rewrite keys_setdefault_append.
  destruct (existsb (String.eqb k) (Dict.keys d)) eqn:E.
  - split; [tauto|]. intros [->|H]; [|exact H].
    apply existsb_exists in E. destruct E as (k' & Hin & He).
    apply String.eqb_eq in He. now subst.
  - rewrite in_app_iff. simpl. intuition.
Qed.

Section Grouping.
Variable A : Type.
Variable node_of : A -> string.
Variable entry_of : A -> list value.

Lemma fold_setdefault_grouped (items : list A) :
  forall acc node,
    entries_of node
      (fold_left (fun d a => setdefault_append (node_of a) (entry_of a) d) items acc)
    = (entries_of node acc ++ grouped node_of entry_of node items)%list.
Proof.
  unfold grouped.
  induction items as [|a items IH]; intros acc node; cbn [fold_left filter map].
  - now rewrite app_nil_r.
  - rewrite IH, entries_of_setdefault_append.
    destruct (String.eqb (node_of a) node); cbn [map].
    + now rewrite <- app_assoc.
    + reflexivity.
Qed.

Lemma fold_setdefault_keys (items : list A) :
  forall acc node,
    In node (Dict.keys
               (fold_left (fun d a => setdefault_append (node_of a) (entry_of a) d)
                          items acc))
    <-> In node (Dict.keys acc) \/ In node (map node_of items).
Proof.
  induction items as [|a items IH]; intros acc node; cbn [fold_left map].
  - simpl. tauto.
  - rewrite IH, in_keys_setdefault_append. simpl. intuition.
Qed.

Lemma fold_setdefault_wf (items : list A) :
  forall acc,
    Dict.wf acc ->
    Dict.wf (fold_left (fun d a => setdefault_append (node_of a) (entry_of a) d)
                       items acc).
Proof.
  induction items as [|a items IH]; intros acc Hacc; cbn [fold_left]; [exact Hacc|].
  apply IH. now apply setdefault_append_wf.
Qed.
End Grouping.

Lemma normalize_overrides_list_fold (triples : list (string * value * value)) :
  forall acc,
    normalize_overrides_list (map legacy_override triples) acc
    = OK (fold_left (fun d t => setdefault_append (fst (fst t)) [snd (fst t); snd t] d)
                    triples acc).
Proof.
  induction triples as [|[[node param] v] triples IH]; intros acc; [reflexivity|].
  cbn [map legacy_override normalize_overrides_list fold_left fst snd].
  apply IH.
Qed.

Lemma normalize_wedges_items_fold
      (items : list (string * (string * value * value))) :
  forall acc,
    normalize_wedges_items (map legacy_wedge items) acc
    = OK (fold_left (fun d item =>
                       setdefault_append (fst (fst (snd item)))
                                         [VStr (fst item); snd (fst (snd item));
                                          snd (snd item)] d)
                    items acc).
Proof.
  induction items as [|[param [[node vs] mode]] items IH]; intros acc; [reflexivity|].
  cbn [map legacy_wedge normalize_wedges_items fold_left fst snd
       is_modern_entry is_legacy_entry List.length Nat.eqb].
  apply IH.
Qed.

(** The legacy forms in general.  A legacy override list
    [[node, param, value], ...] normalises to a mapping whose nodes
    are those of the list, each with the pairs [[param, value]] of its
    entries in the order of the list; a legacy wedge mapping
    [param: [node, values, mode]] normalises likewise, each node with
    the triples [[param, values, mode]] of its items in the order of
    the mapping. *)
Theorem legacy_entries_grouped_by_node :
  (forall triples : list (string * value * value),
      exists d,
        _normalize_overrides (VList (map legacy_override triples)) = OK d
        /\ Dict.wf d
        /\ (forall node,
               In node (Dict.keys d) <-> In node (map (fun t => fst (fst t)) triples))
        /\ (forall node,
               entries_of node d
               = grouped (fun t => fst (fst t)) (fun t => [snd (fst t); snd t])
                         node triples))
  /\ (forall items : list (string * (string * value * value)),
         exists d,
           _normalize_wedges (VDict (map legacy_wedge items)) = OK d
           /\ Dict.wf d
           /\ (forall node,
                  In node (Dict.keys d)
                  <-> In node (map (fun item => fst (fst (snd item))) items))
           /\ (forall node,
                  entries_of node d
                  = grouped (fun item => fst (fst (snd item)))
                            (fun item => [VStr (fst item); snd (fst (snd item));
                                          snd (snd item)])
                            node items)).
Proof.
  split.
  - intros triples. eexists. split.
    + cbn [_normalize_overrides]. apply normalize_overrides_list_fold.
    + split; [apply fold_setdefault_wf, wf_nil|]. split.
      * intros node. rewrite fold_setdefault_keys. simpl. tauto.
      * intros node. now rewrite fold_setdefault_grouped.
  - intros items.
    exists (fold_left (fun d item =>
                         setdefault_append (fst (fst (snd item)))
                                           [VStr (fst item); snd (fst (snd item));
                                            snd (snd item)] d)
                      items []).
    split.
    + destruct items as [|item items]; [reflexivity|].
      cbn [_normalize_wedges map].
      exact (normalize_wedges_items_fold (item :: items) []).
    + split; [apply fold_setdefault_wf, wf_nil|]. split.
      * intros node. rewrite fold_setdefault_keys. simpl. tauto.
      * intros node. now rewrite fold_setdefault_grouped.
Qed.

End LegacyProperties.

(** ** Configuration: how the mutators compose *)

Section MutatorProperties.
Import Config ConfigSpec.

Lemma get_set_other {V : Type} (k k' : string) (v : V) (d : Dict.t V) :
  k' <> k -> Dict.get k' (Dict.set k v d) = Dict.get k' d.
Proof.
  intros Hne. induction d as [|[k0 v0] d IH]; simpl.
  - destruct (String.eqb_spec k k'); [congruence|reflexivity].
  - destruct (String.eqb_spec k0 k) as [->|Hk]; simpl.
    + destruct (String.eqb_spec k k'); [congruence|reflexivity].
    + destruct (String.eqb k0 k'); [reflexivity|exact IH].
Qed.

Lemma set_set {V : Type} (k : string) (v1 v2 : V) (d : Dict.t V) :
  Dict.set k v2 (Dict.set k v1 d) = Dict.set k v2 d.
Proof.
  induction d as [|[k0 v0] d IH]; simpl.
  - now rewrite String.eqb_refl.
  - destruct (String.eqb_spec k0 k) as [->|Hk]; simpl.
    + now rewrite String.eqb_refl.
    + destruct (String.eqb_spec k0 k); [contradiction|now rewrite IH].
Qed.

Lemma set_get_id {V : Type} (k : string) (v : V) (d : Dict.t V) :
  Dict.get k d = Some v -> Dict.set k v d = d.
Proof.
  induction d as [|[k0 v0] d IH]; simpl; [discriminate|].
  destruct (String.eqb k0 k); intros H.
  - now inversion H.
  - now rewrite IH.
Qed.

Lemma get_none_fresh {V : Type} (k : string) (d : Dict.t V) :
  Dict.get k d = None -> ~ In k (Dict.keys d).
Proof.
  induction d as [|[k0 v0] d IH]; simpl; [tauto|].
  destruct (String.eqb_spec k0 k) as [->|Hk]; [discriminate|].
  intros H [Hin|Hin]; [contradiction|]. now apply IH.
Qed.

Lemma pop_fresh_snoc {V : Type} (k : string) (v : V) (d : Dict.t V) :
  ~ In k (Dict.keys d) -> Dict.pop k (d ++ [(k, v)])%list = d.
Proof.
  induction d as [|[k0 v0] d IH]; simpl; intros H.
  - now rewrite String.eqb_refl.
  - destruct (String.eqb_spec k0 k) as [->|Hk]; [tauto|].
    rewrite IH; tauto.
Qed.

Lemma get_in {V : Type} (k : string) (v : V) (d : Dict.t V) :
  Dict.get k d = Some v -> In (k, v) d.
Proof.
  induction d as [|[k0 v0] d IH]; simpl; [discriminate|].
  destruct (String.eqb_spec k0 k) as [->|Hk]; intros H.
  - inversion H. now left.
  - right. now apply IH.
Qed.

Lemma pop_wf {V : Type} (k : string) (d : Dict.t V) :
  Dict.wf d -> Dict.wf (Dict.pop k d).
Proof.
  unfold Dict.wf. induction d as [|[k0 v0] d IH]; simpl; intros H; [exact H|].
  inversion H as [|? ? Hnin Hnd]; subst.
  destruct (String.eqb k0 k); [exact Hnd|].
  simpl. constructor; [|now apply IH].
  intros Hin. apply Hnin. clear - Hin.
  induction d as [|[k1 v1] d IH]; simpl in *; [tauto|].
  destruct (String.eqb k1 k); simpl in *; tauto.
Qed.

Lemma without_param_total (param : string) (entries : list (list value)) :
  Forall (fun e => e <> []) entries ->
  without_param param entries
  = OK (filter (fun e => negb (head_is param e)) entries).
Proof.
  induction 1 as [|e es He _ IH]; simpl; [reflexivity|].
  destruct e as [|h t]; [congruence|]. rewrite IH. simpl.
  now destruct (eq_str h param).
Qed.

Lemma filter_kept_twice (param : string) (entries : list (list value)) :
  filter (fun e => negb (head_is param e))
         (filter (fun e => negb (head_is param e)) entries)
  = filter (fun e => negb (head_is param e)) entries.
Proof.
  induction entries as [|e es IH]; simpl; [reflexivity|].
  destruct (head_is param e) eqn:E; simpl; [exact IH|].
  rewrite E. simpl. now rewrite IH.
Qed.

Lemma Forall_nonempty_filter (f : list value -> bool) (entries : list (list value)) :
  Forall (fun e => e <> []) entries -> Forall (fun e => e <> []) (filter f entries).
Proof.
  induction 1 as [|e es He _ IH]; simpl; [constructor|].
  destruct (f e); [constructor|]; assumption.
Qed.

Lemma find_param_kept (param : string) (entries : list (list value)) :
  Forall (fun e => e <> []) entries ->
  find_param param (filter (fun e => negb (head_is param e)) entries) = OK None.
Proof.
  induction 1 as [|e es He _ IH]; simpl; [reflexivity|].
  destruct e as [|h t]; [congruence|]. simpl.
  destruct (eq_str h param) eqn:E; simpl; [exact IH|].
  now rewrite E.
Qed.

Lemma find_param_none (param : string) (entries : list (list value)) :
  find_param param entries = OK None ->
  Forall (fun e => e <> []) entries
  /\ filter (fun e => negb (head_is param e)) entries = entries.
Proof.
  induction entries as [|e es IH]; simpl; intros H.
  - split; [constructor|reflexivity].
  - destruct e as [|h t]; [discriminate|].
    destruct (eq_str h param) eqn:E; [discriminate|].
    destruct (IH H) as [Hne Hf]. simpl. rewrite E. simpl.
    split; [constructor; [discriminate|assumption]|now rewrite Hf].
Qed.

Lemma eq_str_two (h : value) (p q : string) :
  eq_str h p = true -> q <> p -> eq_str h q = false.
Proof.
  destruct h; simpl; try discriminate.
  intros H Hne. apply String.eqb_eq in H. subst.
  destruct (String.eqb_spec p q); congruence.
Qed.

Lemma find_param_other (param param' : string) (rest : list value)
      (entries : list (list value)) :
  Forall (fun e => e <> []) entries ->
  param' <> param ->
  find_param param'
    (filter (fun e => negb (head_is param e)) entries ++ [VStr param :: rest])
  = find_param param' entries.
Proof.
  intros Hne Hp. induction Hne as [|e es He _ IH]; simpl.
  - destruct (String.eqb_spec param param'); [congruence|reflexivity].
  - destruct e as [|h t]; [congruence|]. simpl.
    destruct (eq_str h param) eqn:E; simpl.
    + now rewrite (eq_str_two h param param' E Hp).
    + destruct (eq_str h param'); [reflexivity|exact IH].
Qed.

(** What [set_entry] returns. *)
Lemma set_entry_ok (node param : string) (entry : list value)
      (d d' : Dict.t (list (list value))) :
  set_entry node param entry d = OK d' ->
  Forall (fun e => e <> []) (entries_of node d)
  /\ d' = Dict.set node
            (filter (fun e => negb (head_is param e)) (entries_of node d)
               ++ [entry])%list d.
Proof.
  unfold set_entry, entries_of. intros H.
  destruct (without_param param _) as [kept|] eqn:E; [|discriminate].
  apply without_param_filter in E. destruct E as [-> Hne].
  simpl in H. inversion H. split; [exact Hne|reflexivity].
Qed.

Lemma set_entry_frame (node param : string) (rest : list value)
      (d d' : Dict.t (list (list value))) (node' param' : string) :
  set_entry node param (VStr param :: rest) d = OK d' ->
  node' <> node \/ param' <> param ->
  find_param param' (entries_of node' d') = find_param param' (entries_of node' d).
Proof.
  intros H Hneq. apply set_entry_ok in H. destruct H as [Hne ->].
  unfold entries_of at 1.
  destruct (String.eqb_spec node' node) as [->|Hn].
  - rewrite get_set_same. destruct Hneq as [Hx|Hp]; [congruence|].
    now apply find_param_other.
  - rewrite get_set_other by assumption. reflexivity.
Qed.

Lemma set_entry_twice (node param : string) (rest1 entry2 : list value)
      (d d1 : Dict.t (list (list value))) :
  set_entry node param (VStr param :: rest1) d = OK d1 ->
  set_entry node param entry2 d1 = set_entry node param entry2 d.
Proof.
  intros H. apply set_entry_ok in H. destruct H as [Hne ->].
  unfold set_entry. rewrite get_set_same.
  fold (entries_of node d).
  rewrite (without_param_total param (entries_of node d) Hne).
  rewrite without_param_total.
  - cbn [bind]. rewrite filter_app, filter_kept_twice. simpl.
    rewrite String.eqb_refl. simpl. rewrite app_nil_r.
    now rewrite set_set.
  - apply Forall_app. split.
    + now apply Forall_nonempty_filter.
    + repeat constructor. discriminate.
Qed.

Lemma length_filter_le {A : Type} (f : A -> bool) (l : list A) :
  (List.length (filter f l) <= List.length l)%nat.
Proof.
  induction l as [|a l IH]; simpl; [lia|]. destruct (f a); simpl; lia.
Qed.

Lemma set_then_remove_entry (node param : string) (rest : list value)
      (d d1 : Dict.t (list (list value))) :
  Dict.wf d ->
  set_entry node param (VStr param :: rest) d = OK d1 ->
  exists d2,
    remove_entry node param d1 = OK (d2, true)
    /\ find_param param (entries_of node d2) = OK None
    /\ d2 = match filter (fun e => negb (head_is param e)) (entries_of node d) with
            | [] => Dict.pop node d1
            | kept => Dict.set node kept d
            end.
Proof.
  intros Hwf H. apply set_entry_ok in H. destruct H as [Hne ->].
  set (kept := filter (fun e => negb (head_is param e)) (entries_of node d)).
  assert (Hk : Forall (fun e => e <> []) kept) by now apply Forall_nonempty_filter.
  assert (Hw : without_param param (kept ++ [VStr param :: rest])%list = OK kept).
  { rewrite without_param_total.
    - rewrite filter_app. unfold kept. rewrite filter_kept_twice. simpl.
      rewrite String.eqb_refl. simpl. now rewrite app_nil_r.
    - apply Forall_app. split; [exact Hk|repeat constructor; discriminate]. }
  unfold remove_entry. rewrite get_set_same.
  destruct (kept ++ [VStr param :: rest])%list as [|e es] eqn:Eapp.
  { apply app_eq_nil in Eapp. destruct Eapp; discriminate. }
  rewrite Hw. cbn [bind].
  assert (Hlen : Nat.eqb (List.length kept) (List.length (e :: es)) = false).
  { rewrite <- Eapp, length_app. simpl. apply Nat.eqb_neq. lia. }
  rewrite Hlen. cbn [negb].
  destruct kept as [|k ks] eqn:Ekept.
  - eexists. split; [reflexivity|]. split; [|reflexivity].
    unfold entries_of. rewrite get_not_in_keys; [reflexivity|].
    apply pop_removes_key. now apply set_wf.
  - eexists. split; [reflexivity|]. split.
    + unfold entries_of. rewrite get_set_same.
      rewrite <- Ekept. unfold kept. now apply find_param_kept.
    + now rewrite set_set.
Qed.

Lemma remove_absent_entry (node param : string)
      (d : Dict.t (list (list value))) :
  find_param param (entries_of node d) = OK None ->
  remove_entry node param d = OK (d, false).
Proof.
  unfold entries_of, remove_entry. intros H.
  destruct (Dict.get node d) as [[|e es]|] eqn:Eg; try reflexivity.
  destruct (find_param_none _ _ H) as [Hne Hf].
  rewrite (without_param_total _ _ Hne), Hf. cbn [bind].
  rewrite Nat.eqb_refl. cbn [negb].
  now rewrite (set_get_id _ _ _ Eg).
Qed.

Lemma set_then_remove_restores (node param : string) (rest : list value)
      (d d1 : Dict.t (list (list value))) :
  find_param param (entries_of node d) = OK None ->
  Dict.get node d <> Some [] ->
  set_entry node param (VStr param :: rest) d = OK d1 ->
  remove_entry node param d1 = OK (d, true).
Proof.
  intros Hnone Hnonempty H.
  destruct (find_param_none _ _ Hnone) as [Hne Hf].
  apply set_entry_ok in H. destruct H as [_ ->]. rewrite Hf.
  set (current := entries_of node d) in *.
  assert (Hw : without_param param (current ++ [VStr param :: rest])%list
               = OK current).
  { rewrite without_param_total.
    - rewrite filter_app, Hf. simpl. rewrite String.eqb_refl. simpl.
      now rewrite app_nil_r.
    - apply Forall_app. split; [exact Hne|repeat constructor; discriminate]. }
  unfold remove_entry. rewrite get_set_same.
  destruct (current ++ [VStr param :: rest])%list as [|e es] eqn:Eapp.
  { apply app_eq_nil in Eapp. destruct Eapp; discriminate. }
  rewrite Hw. cbn [bind].
  assert (Hlen : Nat.eqb (List.length current) (List.length (e :: es)) = false).
  { rewrite <- Eapp, length_app. simpl. apply Nat.eqb_neq. lia. }
  rewrite Hlen. cbn [negb].
  unfold current, entries_of in *.
  destruct (Dict.get node d) as [l|] eqn:Eg.
  - destruct l as [|x xs]; [congruence|].
    rewrite set_set. now rewrite (set_get_id _ _ _ Eg).
  - simpl in Eapp. inversion Eapp; subst.
    rewrite set_fresh by now apply get_none_fresh.
    rewrite pop_fresh_snoc by now apply get_none_fresh. reflexivity.
Qed.

Lemma with_overrides_same (c : WedgeConfig) :
  with_overrides c (param_overrides c) = c.
Proof. now destruct c. Qed.

Lemma with_wedges_same (c : WedgeConfig) :
  with_wedges c (param_wedges c) = c.
Proof. now destruct c. Qed.

Lemma set_param_override_ok c node param v c' :
  set_param_override c node param v = OK c' ->
  exists d, set_entry node param [VStr param; v] (param_overrides c) = OK d
            /\ c' = with_overrides c d.
Proof.
  unfold set_param_override. intros H.
  destruct (set_entry _ _ _ _) as [d|]; [|discriminate].
  inversion H. now exists d.
Qed.

Lemma set_param_wedge_ok c node param vs kind c' :
  set_param_wedge c node param vs kind = OK c' ->
  (kind = "minmax" \/ kind = "explicit")
  /\ exists d, set_entry node param [VStr param; VList vs; VStr kind]
                         (param_wedges c) = OK d
               /\ c' = with_wedges c d.
Proof.
  unfold set_param_wedge. intros H.
  destruct (String.eqb_spec kind "minmax") as [->|Hm];
    [|destruct (String.eqb_spec kind "explicit") as [->|Hx]];
    simpl in H; try discriminate;
    (destruct (set_entry _ _ _ _) as [d|]; [|discriminate]);
    inversion H; (split; [tauto|now exists d]).
Qed.

(** Setting a parameter leaves every other address as it was: the
    entry of another parameter of the node, or of any parameter of
    another node, is the same before and after, and the mapping of the
    other kind is untouched. *)
Theorem set_param_leaves_other_addresses :
  (forall c node param v c' node' param',
      set_param_override c node param v = OK c' ->
      node' <> node \/ param' <> param ->
      get_param_override c' node' param' = get_param_override c node' param'
      /\ param_wedges c' = param_wedges c)
  /\ (forall c node param vs kind c' node' param',
         set_param_wedge c node param vs kind = OK c' ->
         node' <> node \/ param' <> param ->
         get_param_wedge c' node' param' = get_param_wedge c node' param'
         /\ param_overrides c' = param_overrides c).
Proof.
  split.
  - intros c node param v c' node' param' H Hneq.
    apply set_param_override_ok in H. destruct H as (d & Hd & ->).
    split; [|reflexivity].
    unfold get_param_override. cbn [param_overrides with_overrides].
    exact (set_entry_frame _ _ _ _ _ _ _ Hd Hneq).
  - intros c node param vs kind c' node' param' H Hneq.
    apply set_param_wedge_ok in H. destruct H as (_ & d & Hd & ->).
    split; [|reflexivity].
    unfold get_param_wedge. cbn [param_wedges with_wedges].
    exact (set_entry_frame _ _ _ _ _ _ _ Hd Hneq).
Qed.

(** Setting the same parameter twice is setting it once, to the later
    value: the first call leaves no trace. *)
Theorem set_param_last_write_wins :
  (forall c node param v1 v2 c1,
      set_param_override c node param v1 = OK c1 ->
      set_param_override c1 node param v2 = set_param_override c node param v2)
  /\ (forall c node param vs1 kind1 vs2 kind2 c1,
         set_param_wedge c node param vs1 kind1 = OK c1 ->
         set_param_wedge c1 node param vs2 kind2
         = set_param_wedge c node param vs2 kind2).
Proof.
  split.
  - intros c node param v1 v2 c1 H.
    apply set_param_override_ok in H. destruct H as (d & Hd & ->).
    unfold set_param_override. cbn [param_overrides with_overrides].
    rewrite (set_entry_twice _ _ _ _ _ _ Hd).
    destruct (set_entry _ _ _ _); reflexivity.
  - intros c node param vs1 kind1 vs2 kind2 c1 H.
    apply set_param_wedge_ok in H. destruct H as (_ & d & Hd & ->).
    unfold set_param_wedge. cbn [param_wedges with_wedges].
    rewrite (set_entry_twice _ _ _ _ _ _ Hd).
    destruct (negb _); [reflexivity|].
    destruct (set_entry _ _ _ _); reflexivity.
Qed.

(** Removing a parameter that was just set succeeds (it returns
    [True]) and afterwards the getter finds nothing at that address. *)
Theorem set_then_remove_param :
  (forall c node param v c1,
      Dict.wf (param_overrides c) ->
      set_param_override c node param v = OK c1 ->
      exists c2,
        remove_param_override c1 node param = OK (c2, true)
        /\ get_param_override c2 node param = OK None)
  /\ (forall c node param vs kind c1,
         Dict.wf (param_wedges c) ->
         set_param_wedge c node param vs kind = OK c1 ->
         exists c2,
           remove_param_wedge c1 node param = OK (c2, true)
           /\ get_param_wedge c2 node param = OK None).
Proof.
  split.
  - intros c node param v c1 Hwf H.
    apply set_param_override_ok in H. destruct H as (d & Hd & ->).
    destruct (set_then_remove_entry _ _ _ _ _ Hwf Hd) as (d2 & Hr & Hg & _).
    unfold remove_param_override. cbn [param_overrides with_overrides].
    rewrite Hr. cbn [bind fst snd]. eexists. split; [reflexivity|].
    exact Hg.
  - intros c node param vs kind c1 Hwf H.
    apply set_param_wedge_ok in H. destruct H as (_ & d & Hd & ->).
    destruct (set_then_remove_entry _ _ _ _ _ Hwf Hd) as (d2 & Hr & Hg & _).
    unfold remove_param_wedge. cbn [param_wedges with_wedges].
    rewrite Hr. cbn [bind fst snd]. eexists. split; [reflexivity|].
    exact Hg.
Qed.

(** Setting a parameter that was not set and removing it again gives
    the configuration back, provided the node was not mapped to an
    empty sequence (then removal drops the node). *)
Theorem set_then_remove_restores_config :
  (forall c node param v c1,
      get_param_override c node param = OK None ->
      Dict.get node (param_overrides c) <> Some [] ->
      set_param_override c node param v = OK c1 ->
      remove_param_override c1 node param = OK (c, true))
  /\ (forall c node param vs kind c1,
         get_param_wedge c node param = OK None ->
         Dict.get node (param_wedges c) <> Some [] ->
         set_param_wedge c node param vs kind = OK c1 ->
         remove_param_wedge c1 node param = OK (c, true)).
Proof.
  split.
  - intros c node param v c1 Hnone Hnonempty H.
    apply set_param_override_ok in H. destruct H as (d & Hd & ->).
    unfold remove_param_override. cbn [param_overrides with_overrides].
    rewrite (set_then_remove_restores _ _ _ _ _ Hnone Hnonempty Hd).
    cbn [bind fst snd]. now destruct c.
  - intros c node param vs kind c1 Hnone Hnonempty H.
    apply set_param_wedge_ok in H. destruct H as (_ & d & Hd & ->).
    unfold remove_param_wedge. cbn [param_wedges with_wedges].
    rewrite (set_then_remove_restores _ _ _ _ _ Hnone Hnonempty Hd).
    cbn [bind fst snd]. now destruct c.
Qed.

(** Removing a parameter the getter does not find changes nothing and
    returns [False]. *)
Theorem remove_absent_param_is_noop :
  (forall c node param,
      get_param_override c node param = OK None ->
      remove_param_override c node param = OK (c, false))
  /\ (forall c node param,
         get_param_wedge c node param = OK None ->
         remove_param_wedge c node param = OK (c, false)).
Proof.
  split; intros c node param H.
  - unfold remove_param_override.
    rewrite (remove_absent_entry _ _ _ H). cbn [bind fst snd].
    now rewrite with_overrides_same.
  - unfold remove_param_wedge.
    rewrite (remove_absent_entry _ _ _ H). cbn [bind fst snd].
    now rewrite with_wedges_same.
Qed.

End MutatorProperties.

(** ** Configuration: the mutators keep a configuration canonical *)

Section MutatorInvariant.
Import Config ConfigSpec.

Lemma vet_intro (c : WedgeConfig) :
  nonempty_str (output_folder c) = true ->
  nonempty_str (filename_prefix c) = true ->
  nonempty_str (url c) = true ->
  Forall (fun no => Forall (fun e => List.length e = 2%nat) (snd no))
         (param_overrides c) ->
  Forall (fun nw => Forall (fun e => valid_wedge e = true) (snd nw))
         (param_wedges c) ->
  vet c = OK tt.
Proof.
  intros H1 H2 H3 Ho Hw. unfold vet. rewrite H1, H2, H3. cbn [negb].
  match goal with
  | |- context [forallb ?f (param_overrides c)] =>
      assert (Hfo : forallb f (param_overrides c) = true)
  end.
  { apply forallb_forall. intros no Hin. apply forallb_forall. intros e He.
    apply Nat.eqb_eq. rewrite Forall_forall in Ho. specialize (Ho no Hin).
    rewrite Forall_forall in Ho. now apply Ho. }
  rewrite Hfo. cbn [negb].
  match goal with
  | |- context [forallb ?f (param_wedges c)] =>
      assert (Hfw : forallb f (param_wedges c) = true)
  end.
  { apply forallb_forall. intros nw Hin. apply forallb_forall. intros e He.
    rewrite Forall_forall in Hw. specialize (Hw nw Hin).
    rewrite Forall_forall in Hw. now apply Hw. }
  rewrite Hfw. reflexivity.
Qed.

Section Entries.
Variable Q : list value -> Prop.
Local Abbreviation all_entries := (all_entries Q).

Lemma all_entries_of (node : string) (d : Dict.t (list (list value))) :
  all_entries d -> Forall Q (entries_of node d).
Proof.
  unfold all_entries, entries_of. intros H.
  destruct (Dict.get node d) as [l|] eqn:E; [|constructor].
  apply get_in in E. rewrite Forall_forall in H. exact (H _ E).
Qed.

Lemma all_entries_set (node : string) (l : list (list value))
      (d : Dict.t (list (list value))) :
  all_entries d -> Forall Q l -> all_entries (Dict.set node l d).
Proof.
  unfold all_entries. intros Hd Hl.
  induction Hd as [|[k' l'] d Hk Hd IH]; simpl.
  - now repeat constructor.
  - destruct (String.eqb k' node); constructor; auto.
Qed.

Lemma all_entries_pop (node : string) (d : Dict.t (list (list value))) :
  all_entries d -> all_entries (Dict.pop node d).
Proof.
  unfold all_entries. intros Hd.
  induction Hd as [|[k' l'] d Hk Hd IH]; simpl; [constructor|].
  destruct (String.eqb k' node); [assumption|now constructor].
Qed.

Lemma Forall_filter_keep (f : list value -> bool) (l : list (list value)) :
  Forall Q l -> Forall Q (filter f l).
Proof.
  induction 1 as [|e es He _ IH]; simpl; [constructor|].
  destruct (f e); [constructor|]; assumption.
Qed.

Lemma set_entry_all (node param : string) (entry : list value)
      (d d' : Dict.t (list (list value))) :
  set_entry node param entry d = OK d' ->
  all_entries d -> Q entry -> all_entries d'.
Proof.
  intros H Hd Hq. apply set_entry_ok in H. destruct H as [_ ->].
  apply all_entries_set; [exact Hd|].
  apply Forall_app. split; [|now repeat constructor].
  apply Forall_filter_keep. now apply all_entries_of.
Qed.

Lemma remove_entry_all (node param : string)
      (d d' : Dict.t (list (list value))) (b : bool) :
  remove_entry node param d = OK (d', b) -> all_entries d -> all_entries d'.
Proof.
  unfold remove_entry. intros H Hd.
  pose proof (all_entries_of node d Hd) as Hcur. unfold entries_of in Hcur.
  destruct (Dict.get node d) as [[|e es]|]; try (inversion H; subst; assumption).
  destruct (without_param param (e :: es)) as [kept|] eqn:E; [|discriminate].
  apply without_param_filter in E. destruct E as [-> _].
  cbn [bind] in H.
  destruct (filter _ (e :: es)) as [|k ks] eqn:Ef; inversion H; subst.
  - now apply all_entries_pop.
  - apply all_entries_set; [exact Hd|].
    rewrite <- Ef. now apply Forall_filter_keep.
Qed.
End Entries.

Lemma set_entry_wf (node param : string) (entry : list value)
      (d d' : Dict.t (list (list value))) :
  set_entry node param entry d = OK d' -> Dict.wf d -> Dict.wf d'.
Proof.
  intros H Hd. apply set_entry_ok in H. destruct H as [_ ->]. now apply set_wf.
Qed.

Lemma remove_entry_wf (node param : string)
      (d d' : Dict.t (list (list value))) (b : bool) :
  remove_entry node param d = OK (d', b) -> Dict.wf d -> Dict.wf d'.
Proof.
  unfold remove_entry. intros H Hd.
  destruct (Dict.get node d) as [[|e es]|]; try (inversion H; subst; assumption).
  destruct (without_param param (e :: es)) as [kept|]; [|discriminate].
  cbn [bind] in H. destruct kept; inversion H; subst.
  - now apply pop_wf.
  - now apply set_wf.
Qed.

Lemma set_entry_no_empty (node param : string) (entry : list value)
      (d d' : Dict.t (list (list value))) :
  set_entry node param entry d = OK d' -> no_empty d -> no_empty d'.
Proof.
  intros H Hd. apply set_entry_ok in H. destruct H as [_ ->].
  apply no_empty_set; [exact Hd|].
  intros E. apply app_eq_nil in E. destruct E; discriminate.
Qed.

(** Every mutator takes a canonical configuration to a canonical one:
    what the loader accepts stays acceptable, node keys stay unique,
    and no node is left with an empty sequence of wedges. *)
Theorem mutators_keep_canonical (c : WedgeConfig) :
  canonical c ->
  (forall node param v c',
      set_param_override c node param v = OK c' -> canonical c')
  /\ (forall node param vs kind c',
         set_param_wedge c node param vs kind = OK c' -> canonical c')
  /\ (forall node param c' b,
         remove_param_override c node param = OK (c', b) -> canonical c')
  /\ (forall node param c' b,
         remove_param_wedge c node param = OK (c', b) -> canonical c').
Proof.
  intros (Hvet & Hwo & Hww & Hne).
  destruct (vet_ok c Hvet) as (H1 & H2 & H3 & Ho & Hw).
  repeat split.
  - apply set_param_override_ok in H. destruct H as (d & Hd & ->).
    apply vet_intro; cbn; auto.
    eapply (set_entry_all (fun e => List.length e = 2%nat)); eauto.
  - apply set_param_override_ok in H. destruct H as (d & Hd & ->). cbn.
    eapply set_entry_wf; eauto.
  - apply set_param_override_ok in H. destruct H as (d & Hd & ->). exact Hww.
  - apply set_param_override_ok in H. destruct H as (d & Hd & ->). exact Hne.
  - apply set_param_wedge_ok in H. destruct H as (Hk & d & Hd & ->).
    apply vet_intro; cbn; auto.
    eapply (set_entry_all (fun e => valid_wedge e = true)); eauto.
    destruct Hk as [-> | ->]; reflexivity.
  - apply set_param_wedge_ok in H. destruct H as (_ & d & Hd & ->). exact Hwo.
  - apply set_param_wedge_ok in H. destruct H as (_ & d & Hd & ->). cbn.
    eapply set_entry_wf; eauto.
  - apply set_param_wedge_ok in H. destruct H as (_ & d & Hd & ->). cbn.
    eapply set_entry_no_empty; eauto.
  - unfold remove_param_override in H.
    destruct (remove_entry _ _ _) as [[d b']|] eqn:E; [|discriminate].
    inversion H; subst. apply vet_intro; cbn; auto.
    eapply (remove_entry_all (fun e => List.length e = 2%nat)); eauto.
  - unfold remove_param_override in H.
    destruct (remove_entry _ _ _) as [[d b']|] eqn:E; [|discriminate].
    inversion H; subst. cbn. eapply remove_entry_wf; eauto.
  - unfold remove_param_override in H.
    destruct (remove_entry _ _ _) as [[d b']|] eqn:E; [|discriminate].
    inversion H; subst. exact Hww.
  - unfold remove_param_override in H.
    destruct (remove_entry _ _ _) as [[d b']|] eqn:E; [|discriminate].
    inversion H; subst. exact Hne.
  - unfold remove_param_wedge in H.
    destruct (remove_entry _ _ _) as [[d b']|] eqn:E; [|discriminate].
    inversion H; subst. apply vet_intro; cbn; auto.
    eapply (remove_entry_all (fun e => valid_wedge e = true)); eauto.
  - unfold remove_param_wedge in H.
    destruct (remove_entry _ _ _) as [[d b']|] eqn:E; [|discriminate].
    inversion H; subst. exact Hwo.
  - unfold remove_param_wedge in H.
    destruct (remove_entry _ _ _) as [[d b']|] eqn:E; [|discriminate].
    inversion H; subst. cbn. eapply remove_entry_wf; eauto.
  - unfold remove_param_wedge in H.
    destruct (remove_entry _ _ _) as [[d b']|] eqn:E; [|discriminate].
    inversion H; subst. cbn. eapply remove_entry_no_empty; eauto.
Qed.

End MutatorInvariant.

Lemma example_overrides_wf :
  Dict.wf (Config.param_overrides ConfigSpec.example_config).
Proof. exact (proj1 (proj2 example_config_canonical)). Defined.

Lemma set_param_leaves_other_addresses_witness :
  Config.get_param_override example_config_with_seed "KSampler" "steps"
  = Config.get_param_override ConfigSpec.example_config "KSampler" "steps".
Proof.
  refine (proj1 (proj1 set_param_leaves_other_addresses
                       ConfigSpec.example_config "KSampler" "seed" (VInt 7)
                       example_config_with_seed "KSampler" "steps"
                       eq_refl (or_intror _))).
  discriminate.
Defined.

Lemma set_param_last_write_wins_witness :
  Config.set_param_override example_config_with_seed "KSampler" "seed" (VInt 8)
  = Config.set_param_override ConfigSpec.example_config "KSampler" "seed" (VInt 8).
Proof.
  exact (proj1 set_param_last_write_wins
               ConfigSpec.example_config "KSampler" "seed" (VInt 7) (VInt 8)
               example_config_with_seed eq_refl).
Defined.

Lemma set_then_remove_param_witness :
  exists c2,
    Config.remove_param_override example_config_with_seed "KSampler" "seed"
    = OK (c2, true)
    /\ Config.get_param_override c2 "KSampler" "seed" = OK None.
Proof.
  exact (proj1 set_then_remove_param
               ConfigSpec.example_config "KSampler" "seed" (VInt 7)
               example_config_with_seed example_overrides_wf eq_refl).
Defined.

Lemma set_then_remove_restores_config_witness :
  Config.remove_param_override example_config_with_seed "KSampler" "seed"
  = OK (ConfigSpec.example_config, true).
Proof.
  refine (proj1 set_then_remove_restores_config
                ConfigSpec.example_config "KSampler" "seed" (VInt 7)
                example_config_with_seed eq_refl _ eq_refl).
  discriminate.
Defined.

Lemma remove_absent_param_is_noop_witness :
  Config.remove_param_override ConfigSpec.example_config "KSampler" "seed"
  = OK (ConfigSpec.example_config, false).
Proof.
  exact (proj1 remove_absent_param_is_noop
               ConfigSpec.example_config "KSampler" "seed" eq_refl).
Defined.

Lemma mutators_keep_canonical_witness :
  ConfigSpec.canonical example_config_with_seed.
Proof.
  exact (proj1 (mutators_keep_canonical ConfigSpec.example_config
                                        example_config_canonical)
               "KSampler" "seed" (VInt 7) example_config_with_seed eq_refl).
Defined.

(** ** Naming: safe tokens, the log line, the server address *)

Section NamingProperties.
Variable repr_text : value -> string.

Lemma replace_char_chars (ch by_ : ascii) (text : string) :
  list_ascii_of_string (replace_char ch by_ text)
  = map (fun a => if Ascii.eqb a ch then by_ else a) (list_ascii_of_string text).
Proof.
  induction text as [|a text IH]; simpl; [reflexivity|]. now rewrite IH.
Qed.

Lemma fold_replace_chars (chars : list ascii) (text : string) :
  list_ascii_of_string
    (fold_left (fun text ch => replace_char ch "_" text) chars text)
  = map (fun a => fold_left (fun a ch => if Ascii.eqb a ch then "_"%char else a)
                            chars a)
        (list_ascii_of_string text).
Proof.
  revert text. induction chars as [|ch chars IH]; intros text; simpl.
  - now rewrite map_id.
  - rewrite IH, replace_char_chars, map_map. reflexivity.
Qed.

Lemma fold_forbidden_safe (a : ascii) :
  fold_left (fun a ch => if Ascii.eqb a ch then "_"%char else a) forbidden a
  = safe_char a.
Proof.
  destruct a as [[] [] [] [] [] [] [] []]; reflexivity.
Qed.

Lemma safe_char_not_forbidden (a c : ascii) :
  In c forbidden -> safe_char a <> c.
Proof.
  intros Hc E. subst c. revert Hc.
  destruct a as [[] [] [] [] [] [] [] []]; cbv;
    intuition discriminate.
Qed.

(** [sanitize_value] works character by character: each of the eight
    separators becomes an underscore and every other character stays,
    so the token has the length of the value's text and none of the
    separators occurs in it. *)
Theorem sanitize_value_filename_safe (v : value) :
  list_ascii_of_string (Submitter.sanitize_value repr_text v)
  = map safe_char (list_ascii_of_string (Submitter.stringify_value repr_text v))
  /\ String.length (Submitter.sanitize_value repr_text v)
     = String.length (Submitter.stringify_value repr_text v)
  /\ forall c, In c forbidden ->
               ~ In c (list_ascii_of_string (Submitter.sanitize_value repr_text v)).
Proof.
  assert (H : list_ascii_of_string (Submitter.sanitize_value repr_text v)
              = map safe_char
                    (list_ascii_of_string (Submitter.stringify_value repr_text v))).
  { unfold Submitter.sanitize_value. rewrite fold_replace_chars.
    apply map_ext. intros a. exact (fold_forbidden_safe a). }
  split; [exact H|]. split.
  - assert (Hl : forall s, String.length s = List.length (list_ascii_of_string s)).
    { induction s; simpl; congruence. }
    now rewrite !Hl, H, length_map.
  - intros c Hc Hin. rewrite H in Hin. apply in_map_iff in Hin.
    destruct Hin as (a & Ha & _). exact (safe_char_not_forbidden a c Hc Ha).
Qed.

Lemma format_combination_cells (combination : assignment) :
  combination <> [] ->
  format_combination repr_text combination
  = String.concat ", " (map (cell_part repr_text) (ordered_cells combination)).
Proof.
  intros Hne. unfold format_combination.
  destruct combination as [|np rest]; [congruence|].
  f_equal. unfold ordered_cells.
  rewrite map_flat_map. apply flat_map_ext_in. intros node _.
  destruct (Dict.get node (np :: rest)) as [params|]; [|reflexivity].
  rewrite map_flat_map. apply flat_map_ext_in. intros param _.
  destruct (Dict.get param params); reflexivity.
Qed.

(** The log line of an assignment has one part [node.param=value] per
    cell, in the order in which [build_filename] lays out its tokens
    (by node, then by param); the empty assignment is logged as
    ["<no wedges>"]. *)
Theorem format_combination_follows_filename_order :
  format_combination repr_text [] = "<no wedges>"
  /\ forall prefix combination,
      assignment_wf combination ->
      combination <> [] ->
      exists cs,
        Permutation cs (cells combination)
        /\ StronglySorted cell_le cs
        /\ format_combination repr_text combination
           = String.concat ", " (map (cell_part repr_text) cs)
        /\ Submitter.build_filename repr_text prefix combination
           = String.concat "__" (prefix :: map (cell_token repr_text) cs).
Proof.
  split; [reflexivity|].
  intros prefix combination Hwf Hne.
  exists (ordered_cells combination).
  split; [now apply ordered_cells_perm|].
  split; [apply ordered_cells_sorted, Hwf|].
  split; [now apply format_combination_cells|apply build_filename_cells].
Qed.

End NamingProperties.

Lemma prefix_append (s w : string) : String.prefix s (s ++ w) = true.
Proof.
  induction s as [|a s IH]; simpl; [now destruct w|].
  destruct (ascii_dec a a); [exact IH|congruence].
Qed.

(** The address handed to the client always carries a scheme, and
    normalising it again changes nothing. *)
Theorem normalize_base_url_idempotent (url : value) (normalized : string) :
  normalize_base_url url = OK normalized ->
  String.prefix "http://" normalized || String.prefix "https://" normalized = true
  /\ normalize_base_url (VStr normalized) = OK normalized.
Proof.
  destruct url as [| | | |u| |]; cbn [normalize_base_url]; try discriminate.
  destruct (String.prefix "http://" u || String.prefix "https://" u) eqn:E;
    intros H; injection H as Hn.
  - subst normalized. split; [exact E|]. cbn [normalize_base_url]. now rewrite E.
  - assert (Hp : String.prefix "http://" normalized = true)
      by (rewrite <- Hn; exact (prefix_append "http://" u)).
    split; [now rewrite Hp|]. cbn [normalize_base_url]. now rewrite Hp.
Qed.

Lemma normalize_base_url_idempotent_witness :
  normalize_base_url (VStr "http://127.0.0.1:8188") = OK "http://127.0.0.1:8188".
Proof.
  exact (proj2 (normalize_base_url_idempotent
                  (VStr "127.0.0.1:8188") "http://127.0.0.1:8188" eq_refl)).
Defined.

(** ** Enumeration: what an assignment holds *)

Section AssignmentProperties.

Lemma Forall_snd_set {V : Type} (P : V -> Prop) (k : string) (v : V)
      (d : Dict.t V) :
  Forall (fun kv => P (snd kv)) d -> P v ->
  Forall (fun kv => P (snd kv)) (Dict.set k v d).
Proof.
  intros Hd Hv. induction Hd as [|[k' v'] d Hk Hd IH]; simpl.
  - now repeat constructor.
  - destruct (String.eqb k' k); constructor; auto.
Qed.

Lemma assign_wf (node param : string) (v : value) (combination : assignment) :
  assignment_wf combination -> assignment_wf (assign node param v combination).
Proof.
  intros [Hwf Hin]. unfold assign. split.
  - now apply set_wf.
  - apply Forall_snd_set; [exact Hin|].
    apply set_wf.
    destruct (Dict.get node combination) as [params|] eqn:E; [|apply wf_nil].
    apply get_in in E. rewrite Forall_forall in Hin. exact (Hin _ E).
Qed.

Lemma build_combination_wf (keys : list (string * string))
      (combo_values : list value) :
  assignment_wf (build_combination keys combo_values).
Proof.
  unfold build_combination.
  assert (H0 : assignment_wf []) by (split; constructor).
  revert H0. generalize (@nil (string * Dict.t value)) as acc.
  induction (combine keys combo_values) as [|kv l IH]; intros acc Hacc; simpl.
  - exact Hacc.
  - apply IH. now apply assign_wf.
Qed.

(** Every assignment [iter_combinations] yields is a well-formed
    mapping: a node occurs once, and a param once under its node, which
    is what [build_filename] and [format_combination] rely on. *)
Theorem iter_combinations_well_formed (axes : list Axis) :
  Forall assignment_wf (iter_combinations axes).
Proof.
  unfold iter_combinations. destruct axes as [|a axes].
  - repeat constructor.
  - apply Forall_forall. intros c Hc. apply in_map_iff in Hc.
    destruct Hc as (t & <- & _). apply build_combination_wf.
Qed.

Lemma not_in_keys_of_cells (node param : string) (params : Dict.t value) :
  (forall v, ~ In (node, param, v) (map (fun pv => (node, fst pv, snd pv)) params)) ->
  ~ In param (Dict.keys params).
Proof.
  intros H Hin. unfold Dict.keys in Hin. apply in_map_iff in Hin.
  destruct Hin as ([p v] & Hp & Hin). simpl in Hp. subst p.
  apply (H v). apply in_map_iff. now exists (param, v).
Qed.

Lemma cells_assign_fresh (node param : string) (v : value)
      (combination : assignment) :
  (forall v', ~ In (node, param, v') (cells combination)) ->
  Permutation (cells (assign node param v combination))
              ((node, param, v) :: cells combination).
Proof.
  unfold assign. induction combination as [|[k ps] rest IH]; intros Hfresh.
  - simpl. constructor. constructor.
  - cbn [Dict.get]. destruct (String.eqb_spec k node) as [->|Hk].
    + cbn [Dict.set]. rewrite String.eqb_refl. unfold cells. cbn [flat_map fst snd].
      rewrite set_fresh.
      * rewrite map_app. cbn [map fst snd]. rewrite <- app_assoc.
        symmetry. apply Permutation_middle.
      * apply (not_in_keys_of_cells node). intros v' Hin.
        apply (Hfresh v'). unfold cells. cbn [flat_map fst snd].
        apply in_or_app. now left.
    + cbn [Dict.set]. destruct (String.eqb_spec k node); [contradiction|].
      unfold cells in *. cbn [flat_map fst snd] in *.
      rewrite IH.
      * symmetry. apply Permutation_middle.
      * intros v' Hin. apply (Hfresh v'). apply in_or_app. now right.
Qed.

Lemma fold_assign_cells (keys : list (string * string)) :
  forall (combo_values : list value) (acc : assignment),
    NoDup keys ->
    (forall c, In c (cells acc) -> ~ In (fst c) keys) ->
    Permutation
      (cells (fold_left (fun combination kv =>
                           assign (fst (fst kv)) (snd (fst kv)) (snd kv) combination)
                        (combine keys combo_values) acc))
      (cells acc ++ chosen_cells keys combo_values).
Proof.
  unfold chosen_cells.
  induction keys as [|[node param] keys IH]; intros combo_values acc Hnd Hdis.
  - simpl. now rewrite app_nil_r.
  - destruct combo_values as [|v vs]; [simpl; now rewrite app_nil_r|].
    inversion Hnd as [|? ? Hnin Hnd']; subst.
    cbn [combine fold_left map fst snd].
    assert (Hfresh : forall v', ~ In (node, param, v') (cells acc)).
    { intros v' Hin. apply (Hdis _ Hin). now left. }
    pose proof (cells_assign_fresh node param v acc Hfresh) as Hp.
    rewrite IH; [| exact Hnd' |].
    + rewrite Hp. cbn [app]. apply Permutation_middle.
    + intros c Hc Hin.
      apply (Permutation_in _ Hp) in Hc. destruct Hc as [<-|Hc].
      * simpl in Hin. contradiction.
      * apply (Hdis _ Hc). now right.
Qed.

Lemma build_combination_cells (keys : list (string * string))
      (combo_values : list value) :
  NoDup keys ->
  Permutation (cells (build_combination keys combo_values))
              (chosen_cells keys combo_values).
Proof.
  intros Hnd. unfold build_combination.
  rewrite fold_assign_cells; [reflexivity|exact Hnd|].
  intros c [].
Qed.

Lemma in_product (value_lists : list (list value)) :
  forall t, In t (product value_lists) <-> Forall2 (fun vs v => In v vs) value_lists t.
Proof.
  induction value_lists as [|vs rest IH]; intros t; simpl.
  - split.
    + intros [<-|[]]. constructor.
    + intros H. inversion H. now left.
  - rewrite in_flat_map. split.
    + intros (v & Hv & Ht). apply in_map_iff in Ht.
      destruct Ht as (t' & <- & Ht'). constructor; [exact Hv|now apply IH].
    + intros H. inversion H as [|? v ? t' Hv Ht']; subst.
      exists v. split; [exact Hv|]. apply in_map. now apply IH.
Qed.

Lemma one_per_axis_product (axes : list Axis) (t : list value) :
  In t (product (map snd axes)) <-> one_per_axis axes t.
Proof.
  rewrite in_product. unfold one_per_axis. revert t.
  induction axes as [|a axes IH]; intros t; simpl.
  - split; intros H; inversion H; constructor.
  - split; intros H; inversion H; subst; constructor; auto; now apply IH.
Qed.

(** Over axes with distinct keys, an assignment is yielded exactly
    when its cells are those of one value taken from each axis: every
    yielded assignment has one cell per axis, holding a value of that
    axis, and every such choice of values is yielded. *)
Theorem iter_combinations_one_cell_per_axis (axes : list Axis) :
  NoDup (map fst axes) ->
  (forall combination,
      In combination (iter_combinations axes) ->
      exists combo_values,
        one_per_axis axes combo_values
        /\ Permutation (cells combination)
                       (chosen_cells (map fst axes) combo_values))
  /\ (forall combo_values,
         one_per_axis axes combo_values ->
         exists combination,
           In combination (iter_combinations axes)
           /\ Permutation (cells combination)
                          (chosen_cells (map fst axes) combo_values)).
Proof.
  intros Hnd. split.
  - intros combination Hin. destruct axes as [|a axes].
    + destruct Hin as [<-|[]]. exists []. split; constructor.
    + unfold iter_combinations in Hin. apply in_map_iff in Hin.
      destruct Hin as (t & <- & Ht). exists t.
      split; [now apply one_per_axis_product|].
      now apply build_combination_cells.
  - intros combo_values Hone. destruct axes as [|a axes].
    + inversion Hone; subst. exists []. split; [now left|constructor].
    + exists (build_combination (map fst (a :: axes)) combo_values). split.
      * unfold iter_combinations. apply in_map.
        now apply one_per_axis_product.
      * now apply build_combination_cells.
Qed.

End AssignmentProperties.

Lemma iter_combinations_one_cell_per_axis_witness :
  exists combination,
    In combination (iter_combinations CombinationSpec.two_by_three)
    /\ Permutation (cells combination) [("A", "p", VInt 2); ("B", "q", VInt 9)].
Proof.
  assert (Hnd : NoDup (map fst CombinationSpec.two_by_three)).
  { repeat constructor; simpl; intuition discriminate. }
  apply (proj2 (iter_combinations_one_cell_per_axis
                  CombinationSpec.two_by_three Hnd) [VInt 2; VInt 9]).
  repeat constructor; simpl; tauto.
Defined.

Lemma sanitize_value_filename_safe_witness :
  ~ In " "%char
       (list_ascii_of_string (Submitter.sanitize_value (fun _ => "") (VStr "x y"))).
Proof.
  refine (proj2 (proj2 (sanitize_value_filename_safe (fun _ => "") (VStr "x y")))
                " "%char _).
  simpl. tauto.
Defined.

Lemma format_combination_follows_filename_order_witness :
  exists cs,
    Permutation cs (cells example_assignment)
    /\ StronglySorted cell_le cs
    /\ format_combination (fun _ => "3.0") example_assignment
       = String.concat ", " (map (cell_part (fun _ => "3.0")) cs)
    /\ Submitter.build_filename (fun _ => "3.0") "img" example_assignment
       = String.concat "__" ("img" :: map (cell_token (fun _ => "3.0")) cs).
Proof.
  refine (proj2 (format_combination_follows_filename_order (fun _ => "3.0"))
                "img" example_assignment example_assignment_wf _).
  discriminate.
Defined.

(** ** Building the axes *)

Section BuildAxesProperties.
Variable code_points : string -> list string.
Variable float_of_str : string -> option PyFloat.float.

Local Abbreviation expand' := (expand_wedge_entry code_points float_of_str).
Local Abbreviation axes_of_node' := (axes_of_node code_points float_of_str).
Local Abbreviation axes_of_wedges' := (axes_of_wedges code_points float_of_str).
Local Abbreviation build_axes' := (build_axes code_points float_of_str).

Lemma Forall2_Forall_right {A B : Type} (R : A -> B -> Prop) (P : B -> Prop)
      (l1 : list A) (l2 : list B) :
  (forall a b, R a b -> P b) -> Forall2 R l1 l2 -> Forall P l2.
Proof. intros HR H. induction H; constructor; eauto. Qed.

Lemma Forall2_In_left {A B : Type} (R : A -> B -> Prop) (a : A)
      (l1 : list A) (l2 : list B) :
  Forall2 R l1 l2 -> In a l1 -> exists b, In b l2 /\ R a b.
Proof.
  intros H. induction H as [|x y l1 l2 Hxy _ IH]; intros Hin; [contradiction|].
  destruct Hin as [->|Hin].
  - exists y. split; [now left|exact Hxy].
  - destruct (IH Hin) as (b & Hb & Hr). exists b. split; [now right|exact Hr].
Qed.

Lemma expand_wedge_values_nonempty (spec : list value) (wedge_type : string)
      (values : list value) :
  expand_wedge_values float_of_str spec wedge_type = OK values -> values <> [].
Proof.
  unfold expand_wedge_values.
  destruct (String.eqb wedge_type "explicit").
  - destruct spec; [discriminate|]. intros H. inversion H. discriminate.
  - destruct (String.eqb wedge_type "minmax"); [|discriminate].
    destruct spec as [|start [|stop [|step [|? ?]]]]; try discriminate.
    destruct (eq_zero step); [discriminate|].
    destruct (py_float float_of_str start); [|discriminate].
    destruct (py_float float_of_str stop); [|discriminate].
    destruct (py_float float_of_str step); [|discriminate].
    cbn [bind].
    destruct (minmax_loop _ _ _ _ _ _ _ _) as [[|v vs]|]; cbn [bind];
      try discriminate.
    intros H. inversion H. discriminate.
Qed.

Lemma expand_wedge_entry_nonempty (values_spec wedge_type : value)
      (values : list value) :
  expand' values_spec wedge_type = OK values -> values <> [].
Proof.
  unfold expand_wedge_entry.
  destruct wedge_type as [| | | |t| |]; try discriminate.
  destruct (_ || _); [|discriminate].
  destruct (py_list code_points values_spec) as [spec|]; [|discriminate].
  cbn [bind]. apply expand_wedge_values_nonempty.
Qed.

Lemma axes_of_node_iff (node_name : string) (wedges : list (list value))
      (axes : list RawAxis) :
  axes_of_node' node_name wedges = OK axes
  <-> Forall2 (axis_of_entry expand')
              (map (fun wedge => (node_name, wedge)) wedges) axes.
Proof.
  revert axes. induction wedges as [|wedge rest IH]; intros axes; simpl.
  - split.
    + intros H. inversion H. constructor.
    + intros H. inversion H. reflexivity.
  - split.
    + intros H.
      destruct wedge as [|param [|values_spec [|wedge_type [|? ?]]]];
        try discriminate.
      destruct (expand' values_spec wedge_type) as [expanded|] eqn:E;
        [|discriminate].
      cbn [bind] in H.
      destruct (axes_of_node' node_name rest) as [more|] eqn:Em; [|discriminate].
      cbn [bind] in H. inversion H; subst. constructor.
      * exists param, values_spec, wedge_type. simpl. tauto.
      * now apply IH.
    + intros H. inversion H as [|? axis ? more Ha Hm]; subst.
      destruct Ha as (param & values_spec & wedge_type & Hw & Hk & He).
      simpl in Hw, Hk. subst wedge. rewrite He. cbn [bind].
      apply IH in Hm. rewrite Hm. cbn [bind].
      destruct axis as [key values]. simpl in *. now subst key.
Qed.

Lemma axes_of_wedges_iff (param_wedges : Dict.t (list (list value)))
      (axes : list RawAxis) :
  axes_of_wedges' param_wedges = OK axes
  <-> Forall2 (axis_of_entry expand')
              (flat_map (fun nw => map (fun wedge => (fst nw, wedge)) (snd nw))
                        param_wedges)
              axes.
Proof.
  revert axes. induction param_wedges as [|[node_name wedges] rest IH];
    intros axes; simpl.
  - split.
    + intros H. inversion H. constructor.
    + intros H. inversion H. reflexivity.
  - split.
    + intros H.
      destruct (axes_of_node' node_name wedges) as [first|] eqn:E; [|discriminate].
      cbn [bind] in H.
      destruct (axes_of_wedges' rest) as [more|] eqn:Em; [|discriminate].
      cbn [bind] in H. inversion H; subst.
      apply Forall2_app; [now apply axes_of_node_iff|now apply IH].
    + intros H. apply Forall2_app_inv_l in H.
      destruct H as (first & more & Hf & Hm & ->).
      apply axes_of_node_iff in Hf. apply IH in Hm.
      rewrite Hf, Hm. reflexivity.
Qed.

(** [build_axes] returns exactly when every wedge entry is a triple
    whose expansion returns; the axes are then, in the order of the
    configuration, one per entry: its node and param, and the values of
    its expansion.  No axis is empty, and the axis of an explicit wedge
    given as a list is that list. *)
Theorem build_axes_one_axis_per_wedge (config : Config.WedgeConfig) :
  (forall axes,
      build_axes' config = OK axes
      <-> Forall2 (axis_of_entry expand') (wedge_entries config) axes)
  /\ (forall axes,
         build_axes' config = OK axes -> Forall (fun axis => snd axis <> []) axes)
  /\ (forall axes node_name wedges param values,
         build_axes' config = OK axes ->
         In (node_name, wedges) (Config.param_wedges config) ->
         In [param; VList values; VStr "explicit"] wedges ->
         In ((node_name, param), values) axes).
Proof.
  assert (Hiff : forall axes,
             build_axes' config = OK axes
             <-> Forall2 (axis_of_entry expand') (wedge_entries config) axes).
  { intros axes. apply axes_of_wedges_iff. }
  split; [exact Hiff|]. split.
  - intros axes H. apply Hiff in H.
    refine (Forall2_Forall_right _ _ _ _ _ H). intros entry axis Ha.
    destruct Ha as (param & values_spec & wedge_type & _ & _ & He).
    now apply expand_wedge_entry_nonempty in He.
  - intros axes node_name wedges param values H Hn Hw. apply Hiff in H.
    assert (Hin : In (node_name, [param; VList values; VStr "explicit"])
                     (wedge_entries config)).
    { unfold wedge_entries. apply in_flat_map. exists (node_name, wedges).
      split; [exact Hn|]. simpl. now apply in_map. }
    destruct (Forall2_In_left _ _ _ _ H Hin) as ([key vs] & Hb & Ha).
    destruct Ha as (p & s & t & Hwedge & Hk & He).
    simpl in Hwedge, Hk, He. inversion Hwedge; subst p s t. subst key.
    unfold expand_wedge_entry in He. cbn in He.
    destruct values; [discriminate|]. inversion He; subst. exact Hb.
Qed.

End BuildAxesProperties.

Lemma build_axes_one_axis_per_wedge_witness :
  In (("KSampler", VStr "seed"), [VInt 1; VInt 2])
     [(("KSampler", VStr "seed"), [VInt 1; VInt 2])].
Proof.
  exact (proj2 (proj2 (build_axes_one_axis_per_wedge
                         (fun _ => []) no_strings
                         {| Config.output_folder := VStr "out";
                            Config.filename_prefix := VStr "img";
                            Config.url := VStr "127.0.0.1:8188";
                            Config.param_overrides := [];
                            Config.param_wedges :=
                              [("KSampler",
                                [[VStr "seed"; VList [VInt 1; VInt 2];
                                  VStr "explicit"]])] |}))
               _ "KSampler" _ (VStr "seed") [VInt 1; VInt 2]
               eq_refl (or_introl eq_refl) (or_introl eq_refl)).
Defined.

(** ** The orchestrator: what a run does and does not do *)

Lemma typed_axes_values (raw : list RawAxis) (axes : list Axis) :
  typed_axes raw = Some axes -> map snd axes = map snd raw.
Proof.
  revert axes. induction raw as [|[[node param] values] raw IH]; intros axes H.
  - inversion H. reflexivity.
  - cbn [typed_axes typed_axis] in H.
    destruct param; try discriminate.
    destruct (typed_axes raw) as [rest|]; [|discriminate].
    inversion H; subst. cbn [map snd]. now rewrite (IH rest eq_refl).
Qed.

Lemma total_runs_positive (axes : list Axis) :
  Forall (fun values => values <> []) (map snd axes) -> 1 <= total_runs axes.
Proof.
  intros H. unfold total_runs. destruct axes as [|a axes]; [lia|].
  remember (a :: axes) as l eqn:El. clear El a axes.
  induction l as [|a l IH]; cbn [map fold_right]; [lia|].
  inversion H as [|? ? Ha Hl]; subst. specialize (IH Hl).
  assert (1 <= Z.of_nat (List.length (snd a))).
  { destruct (snd a); [congruence|]. cbn [List.length]. lia. }
  nia.
Qed.

Lemma iter_combinations_nonempty (axes : list Axis) :
  1 <= total_runs axes -> iter_combinations axes <> [].
Proof.
  rewrite total_runs_length. destruct (iter_combinations axes); simpl; [lia|discriminate].
Qed.

Section RunProperties.

Variable workflow : Type.
Variable set_param_value : workflow -> string -> value -> value -> option workflow.
Variable update_adhoc_metadata : workflow -> string -> metadata -> workflow.
Variable save_image_titles : workflow -> list (option string).
Variable client : Type.
Variable connect : string -> client.
Variable queue_prompt : client -> workflow -> result (client * option string).
Variable stream_until_done : client -> string -> result client.
Variable prompt_confirmation : Z -> string -> bool.
Variable path_join : string -> string -> string.
Variable repr_text : value -> string.

Local Abbreviation main_with := 
  (main workflow set_param_value update_adhoc_metadata save_image_titles
        client connect queue_prompt stream_until_done).
Local Abbreviation main' := (main_with prompt_confirmation path_join repr_text).
Local Abbreviation submit_loop' :=
  (submit_loop workflow set_param_value update_adhoc_metadata save_image_titles
               client queue_prompt stream_until_done path_join repr_text).

Variable args : Args.
Variable config : Config.WedgeConfig.

Lemma main_nothing_to_run (axes : list Axis) (template : workflow)
      (t : list (event workflow)) :
  main' args config axes template = OK (t, NothingToRun) ->
  Runs.max_runs args axes <= 0.
Proof.
  unfold main. fold (Runs.max_runs args axes).
  destruct (Runs.max_runs args axes <=? 0) eqn:E; [intros _; now apply Z.leb_le|].
  destruct ((print_combinations args || dry_run args) && dry_run args);
    [discriminate|].
  destruct (as_str (Config.output_folder config)); [|discriminate].
  cbn [bind]. destruct (_ && negb (prompt_confirmation _ _)); [discriminate|].
  destruct (normalize_base_url (Config.url config)); [|discriminate].
  cbn [bind].
  destruct (submit_loop _ _ _ _ _ _ _ _ _ _ _ _ _ _ _ _ _) as [st' [e|]];
    discriminate.
Qed.

(** A run always has something to do.  The axes [build_axes] makes of
    a configuration are never empty, so with no limit or a positive
    one (the only ones the argument parser lets through) [main] never
    takes its exit "No combinations to run". *)
Theorem main_has_something_to_run
        (code_points : string -> list string)
        (float_of_str : string -> option PyFloat.float)
        (raw : list RawAxis) (axes : list Axis) (template : workflow)
        (t : list (event workflow)) :
  build_axes code_points float_of_str config = OK raw ->
  typed_axes raw = Some axes ->
  (forall l, limit args = Some l -> 0 < l) ->
  1 <= total_runs axes
  /\ main' args config axes template <> OK (t, NothingToRun).
Proof.
  intros Hb Ht Hl.
  assert (Hpos : 1 <= total_runs axes).
  { apply total_runs_positive. rewrite (typed_axes_values _ _ Ht).
    apply (proj1 (proj2 (build_axes_one_axis_per_wedge
                           code_points float_of_str config))) in Hb.
    clear - Hb. induction Hb; constructor; auto. }
  split; [exact Hpos|].
  intros H. apply main_nothing_to_run in H. unfold Runs.max_runs in H.
  destruct (limit args) as [l|]; [|lia].
  specialize (Hl l eq_refl). lia.
Qed.

Lemma listing_all (axes : list Axis) :
  0 < Runs.max_runs args axes ->
  let listed := listing_loop workflow (Runs.max_runs args axes) (total_runs axes)
                             (iter_combinations axes) 1 [] in
  listing_progress listed
  = Runs.progress (Runs.max_runs args axes) (total_runs axes)
  /\ submit_progress listed = []
  /\ submissions listed = [].
Proof.
  intros Hpos listed.
  assert (Htot : 1 <= total_runs axes).
  { unfold Runs.max_runs in Hpos. destruct (limit args); lia. }
  destruct (listing_loop_progress workflow (Runs.max_runs args axes)
                                  (total_runs axes) (iter_combinations axes) 1 [])
    as (Hl & Hp & Hs); [now apply iter_combinations_nonempty|lia|].
  fold listed in Hl, Hp, Hs. rewrite Hl, Hp, Hs.
  repeat split. cbn [listing_progress flat_map app]. unfold Runs.progress.
  do 2 f_equal. rewrite <- (Nat2Z.id (List.length (iter_combinations axes))).
  rewrite <- total_runs_length.
  unfold Runs.max_runs in *. destruct (limit args); lia.
Qed.

(** A dry run lists the combinations it would submit, each against
    the total, and does nothing else: it prepares and submits nothing,
    asks for no confirmation and needs nothing of the template, the
    server or the rest of the configuration. *)
Theorem dry_run_submits_nothing (axes : list Axis) (template : workflow) :
  dry_run args = true ->
  0 < Runs.max_runs args axes ->
  exists t,
    main' args config axes template = OK (t, DryRunComplete)
    /\ submissions t = []
    /\ submit_progress t = []
    /\ listing_progress t
       = Runs.progress (Runs.max_runs args axes) (total_runs axes).
Proof.
  intros Hdry Hpos. unfold main. fold (Runs.max_runs args axes).
  destruct (Runs.max_runs args axes <=? 0) eqn:E; [apply Z.leb_le in E; lia|].
  rewrite Hdry, orb_true_r. cbn [andb].
  eexists. split; [reflexivity|].
  destruct (listing_all axes Hpos) as (Hl & Hp & Hs). auto.
Qed.

(** When the operator is asked and declines, the run is cancelled
    before anything is prepared or submitted. *)
Theorem declined_confirmation_cancels (axes : list Axis) (template : workflow)
        (folder : string) :
  dry_run args = false ->
  confirm args = true ->
  no_confirm args = false ->
  0 < Runs.max_runs args axes ->
  Config.output_folder config = VStr folder ->
  prompt_confirmation (Runs.max_runs args axes) (path_join folder "images")
  = false ->
  exists t,
    main' args config axes template = OK (t, Cancelled)
    /\ submissions t = []
    /\ submit_progress t = [].
Proof.
  intros Hdry Hc Hn Hpos Hf Hp. unfold main. fold (Runs.max_runs args axes).
  destruct (Runs.max_runs args axes <=? 0) eqn:E; [apply Z.leb_le in E; lia|].
  rewrite Hdry, Hc, Hn, Hf, orb_false_r, andb_false_r.
  cbn [as_str bind negb andb]. rewrite Hp. cbn [negb].
  eexists. split; [reflexivity|].
  destruct (print_combinations args); [|split; reflexivity].
  destruct (listing_all axes Hpos) as (_ & Hsp & Hs). auto.
Qed.

(** Without [--confirm] the operator is never asked: whatever the
    answer would have been, the run is the same. *)
Theorem no_prompt_without_confirm (axes : list Axis) (template : workflow)
        (other_answer : Z -> string -> bool) :
  confirm args = false ->
  main_with other_answer path_join repr_text args config axes template
  = main' args config axes template.
Proof.
  intros Hc. unfold main. rewrite Hc. reflexivity.
Qed.

(** With collaborators that accept every request, a run that is not
    a dry run and is not declined submits exactly
    [min(total, limit)] assignments, the [k]-th logged as [k] against
    that count, and ends with "All requested combinations have been
    processed". *)
Theorem accepted_run_submits_clamped_count (axes : list Axis)
        (template : workflow) :
  cooperative workflow set_param_value client queue_prompt stream_until_done ->
  Config.vet config = OK tt ->
  dry_run args = false ->
  0 < Runs.max_runs args axes ->
  (forall n dir, prompt_confirmation n dir = true) ->
  exists t,
    main' args config axes template = OK (t, AllProcessed)
    /\ List.length (submissions t) = Z.to_nat (Runs.max_runs args axes)
    /\ submit_progress t
       = Runs.progress (Runs.max_runs args axes) (Runs.max_runs args axes).
Proof.
  intros Hcoop Hvet Hdry Hpos Hconfirm.
  destruct (vet_ok config Hvet) as (Hfolder & _ & Hurl & _).
  unfold main. fold (Runs.max_runs args axes).
  destruct (Runs.max_runs args axes <=? 0) eqn:E; [apply Z.leb_le in E; lia|].
  rewrite Hdry, andb_false_r, orb_false_r.
  destruct (Config.output_folder config) as [| | | |folder| |]; try discriminate.
  cbn [as_str bind]. rewrite Hconfirm. cbn [negb]. rewrite andb_false_r.
  destruct (Config.url config) as [| | | |url| |]; try discriminate.
  cbn [normalize_base_url].
  set (u := if String.prefix "http://" url || String.prefix "https://" url
            then url else "http://" ++ url).
  replace (if String.prefix "http://" url || String.prefix "https://" url
           then OK url else OK ("http://" ++ url)) with (OK u)
    by (unfold u; destruct (_ || _); reflexivity).
  cbn [bind].
  set (listed := if print_combinations args
                 then listing_loop workflow (Runs.max_runs args axes)
                                   (total_runs axes) (iter_combinations axes) 1 []
                 else []).
  assert (Hlisted : submit_progress listed = [] /\ submissions listed = []).
  { unfold listed. destruct (print_combinations args); [|split; reflexivity].
    destruct (listing_all axes Hpos) as (_ & Hp & Hs). auto. }
  destruct Hlisted as (Hp & Hs).
  match goal with
  | |- context [submit_loop' ?a ?c ?m ?o ?b ?l ?i ?st] =>
      destruct (submit_loop_accepted
                  workflow set_param_value update_adhoc_metadata
                  save_image_titles client queue_prompt stream_until_done
                  path_join repr_text a c Hcoop Hvet m o b l i st)
        as (st' & -> & Hp' & Hn' & _)
  end.
  exists (trace st'). split; [reflexivity|].
  cbn [trace] in Hp', Hn'. rewrite Hp in Hp'. rewrite Hs in Hn'.
  assert (Hmin : Nat.min (List.length (iter_combinations axes))
                         (Z.to_nat (Runs.max_runs args axes - 1 + 1))
                 = Z.to_nat (Runs.max_runs args axes)).
  { rewrite <- (Nat2Z.id (List.length (iter_combinations axes))).
    rewrite <- total_runs_length.
    unfold Runs.max_runs in *. destruct (limit args); lia. }
  rewrite Hmin in Hp', Hn'. split; [exact Hn'|exact Hp'].
Qed.

End RunProperties.

Lemma main_has_something_to_run_witness :
  1 <= total_runs [(("KSampler", "seed"), [VInt 1; VInt 2])].
Proof.
  refine (proj1 (main_has_something_to_run
                   Demo.workflow Demo.set_param_value Demo.update_adhoc_metadata
                   Demo.save_image_titles Demo.client Demo.connect
                   Demo.queue_prompt Demo.stream_until_done
                   Demo.prompt_confirmation Demo.path_join Demo.repr_text
                   Demo.no_limit Runs.two_seeds (fun _ => []) no_strings
                   [(("KSampler", VStr "seed"), [VInt 1; VInt 2])]
                   [(("KSampler", "seed"), [VInt 1; VInt 2])] [] []
                   eq_refl eq_refl _)).
  intros l H. discriminate H.
Defined.

Lemma dry_run_submits_nothing_witness :
  exists t,
    Demo.run Runs.dry_run_limit_5 Demo.config Demo.twelve = OK (t, DryRunComplete)
    /\ submissions t = []
    /\ submit_progress t = []
    /\ listing_progress t = [(1, 12); (2, 12); (3, 12); (4, 12); (5, 12)].
Proof.
  exact (dry_run_submits_nothing
           Demo.workflow Demo.set_param_value Demo.update_adhoc_metadata
           Demo.save_image_titles Demo.client Demo.connect Demo.queue_prompt
           Demo.stream_until_done Demo.prompt_confirmation Demo.path_join
           Demo.repr_text Runs.dry_run_limit_5 Demo.config Demo.twelve []
           eq_refl eq_refl).
Defined.

Lemma declined_confirmation_cancels_witness :
  exists t,
    Runs.declined_run Runs.confirm_first Demo.config Demo.twelve
    = OK (t, Cancelled)
    /\ submissions t = []
    /\ submit_progress t = [].
Proof.
  exact (declined_confirmation_cancels
           Demo.workflow Demo.set_param_value Demo.update_adhoc_metadata
           Demo.save_image_titles Demo.client Demo.connect Demo.queue_prompt
           Demo.stream_until_done Runs.declining Demo.path_join
           Demo.repr_text Runs.confirm_first Demo.config Demo.twelve [] "out"
           eq_refl eq_refl eq_refl eq_refl eq_refl eq_refl).
Defined.

Lemma no_prompt_without_confirm_witness :
  Runs.declined_run Demo.no_limit Demo.config Demo.twelve
  = Demo.run Demo.no_limit Demo.config Demo.twelve.
Proof.
  exact (no_prompt_without_confirm
           Demo.workflow Demo.set_param_value Demo.update_adhoc_metadata
           Demo.save_image_titles Demo.client Demo.connect Demo.queue_prompt
           Demo.stream_until_done Demo.prompt_confirmation Demo.path_join
           Demo.repr_text Demo.no_limit Demo.config Demo.twelve []
           Runs.declining eq_refl).
Defined.

Lemma accepted_run_submits_clamped_count_witness :
  exists t,
    Demo.run Demo.no_limit Demo.config Demo.twelve = OK (t, AllProcessed)
    /\ List.length (submissions t) = 12%nat
    /\ submit_progress t = Runs.progress 12 12.
Proof.
  refine (accepted_run_submits_clamped_count
            Demo.workflow Demo.set_param_value Demo.update_adhoc_metadata
            Demo.save_image_titles Demo.client Demo.connect Demo.queue_prompt
            Demo.stream_until_done Demo.prompt_confirmation Demo.path_join
            Demo.repr_text Demo.no_limit Demo.config Demo.twelve []
            _ eq_refl eq_refl eq_refl (fun _ _ => eq_refl)).
  split; [|split].
  - intros w node param v. discriminate.
  - intros c w. eexists _, _. split; [reflexivity|]. discriminate.
  - intros c p. eexists. reflexivity.
Defined.

(** ** The order in which a template is filled in *)

Section PrepareProperties.

Variable workflow : Type.
Variable set_param_value : workflow -> string -> value -> value -> option workflow.
Variable update_adhoc_metadata : workflow -> string -> metadata -> workflow.
Variable save_image_titles : workflow -> list (option string).
Variable path_join : string -> string -> string.
Variable repr_text : value -> string.

(** A template that takes every parameter: [set] is what setting does. *)
Variable set : workflow -> string * value * value -> workflow.
Hypothesis Hset :
  forall w node param v, set_param_value w node param v = Some (set w (node, param, v)).

Lemma apply_overrides_calls (overrides : Dict.t (list (list value))) :
  Forall (fun no => Forall (fun e => List.length e = 2%nat) (snd no)) overrides ->
  forall w,
    apply_overrides_of workflow set_param_value overrides w
    = OK (fold_left set
                    (flat_map (fun no => map (fun entry =>
                                                (fst no, nth 0 entry VNone,
                                                 nth 1 entry VNone))
                                             (snd no)) overrides)
                    w).
Proof.
  induction 1 as [|[node entries] d Hd _ IH]; intros w; [reflexivity|].
  cbn [apply_overrides_of flat_map fst snd]. rewrite fold_left_app.
  simpl in Hd.
  assert (He : apply_entries workflow set_param_value node entries w
               = OK (fold_left set
                               (map (fun entry => (node, nth 0 entry VNone,
                                                   nth 1 entry VNone)) entries)
                               w)).
  { clear IH. revert w. induction Hd as [|e es He _ IHe]; intros w; [reflexivity|].
    destruct e as [|param [|v [|? ?]]]; try discriminate.
    cbn [apply_entries map fold_left nth]. rewrite Hset. apply IHe. }
  rewrite He. cbn [bind]. apply IH.
Qed.

Lemma apply_combination_calls (combination : assignment) :
  forall w,
    apply_combination workflow set_param_value w combination
    = OK (fold_left set (wedge_calls combination) w).
Proof.
  unfold wedge_calls, cells.
  induction combination as [|[node params] rest IH]; intros w; [reflexivity|].
  cbn [apply_combination flat_map fst snd]. rewrite map_app, fold_left_app.
  assert (Hp : apply_params workflow set_param_value node params w
               = OK (fold_left set
                               (map (fun c => (fst (fst c), VStr (snd (fst c)), snd c))
                                    (map (fun pv => (node, fst pv, snd pv)) params))
                               w)).
  { clear IH. revert w. induction params as [|[param v] params IHp]; intros w;
      [reflexivity|].
    cbn [apply_params map fold_left fst snd]. rewrite Hset. apply IHp. }
  rewrite Hp. cbn [bind]. apply IH.
Qed.

(** Each run fills a fresh copy of the template in a fixed order:
    first the static overrides, in the order of the configuration,
    then the values of the assignment, node by node, so that a wedge
    value supersedes an override of the same parameter; then the
    iteration metadata is attached, and last the output name is set
    on the preferred node, to the output directory joined with
    [build_filename]. *)
Theorem template_filled_in_order (args : Args) (config : Config.WedgeConfig)
        (max_runs : Z) (output_dir : string) (base : workflow) (idx : Z)
        (combination : assignment) (prefix : string) :
  Config.vet config = OK tt ->
  Config.filename_prefix config = VStr prefix ->
  prepare workflow set_param_value update_adhoc_metadata save_image_titles
          path_join repr_text args config max_runs output_dir base idx combination
  = OK (set (update_adhoc_metadata
               (fold_left set (override_calls config ++ wedge_calls combination)%list
                          base)
               "wedge_iteration" (WedgeIterationMeta idx max_runs combination))
            (output_node args, VStr "filename_prefix",
             VStr (path_join output_dir
                             (Submitter.build_filename repr_text prefix combination)))).
Proof.
  intros Hvet Hprefix.
  destruct (vet_ok config Hvet) as (_ & _ & _ & Hlen & _).
  unfold prepare, apply_param_overrides.
  rewrite (apply_overrides_calls _ Hlen). cbn [bind].
  rewrite apply_combination_calls. cbn [bind].
  rewrite Hprefix. cbn [as_str bind]. unfold set_output_prefix.
  rewrite Hset. rewrite fold_left_app. reflexivity.
Qed.

End PrepareProperties.

Lemma template_filled_in_order_witness :
  prepare Demo.workflow Demo.set_param_value Demo.update_adhoc_metadata
          Demo.save_image_titles Demo.path_join Demo.repr_text
          Demo.no_limit Demo.config 1 "out/images" [] 1
          [("KSampler", [("cfg", VInt 5)])]
  = OK [("Loader", VStr "ckpt", VStr "base");
        ("KSampler", VStr "cfg", VInt 5);
        ("OUT_image", VStr "filename_prefix",
         VStr "out/images/img__KSampler-cfg-5")].
Proof.
  exact (template_filled_in_order
           Demo.workflow Demo.set_param_value Demo.update_adhoc_metadata
           Demo.save_image_titles Demo.path_join Demo.repr_text
           (fun w call => (w ++ [call])%list) (fun _ _ _ _ => eq_refl)
           Demo.no_limit Demo.config 1 "out/images" [] 1
           [("KSampler", [("cfg", VInt 5)])] "img" eq_refl eq_refl).
Defined.

(** ** The viewer's axes against the submitter's *)

Section ViewerAxesProperties.
Import ExpandSpec.
Variable code_points : string -> list string.
Variable float_of_str : string -> option PyFloat.float.

Local Abbreviation coerce_current := ViewerAxes.coerce_current.
Local Abbreviation expand_loop := ViewerAxes.expand_loop.
Local Abbreviation expand_minmax := (ViewerAxes.expand_minmax float_of_str).

Lemma coerce_current_defined (c : PyFloat.float) (v : value) :
  _coerce_numeric (VFloat c) = OK v -> exists v', coerce_current c = OK v'.
Proof.
  unfold _coerce_numeric, ViewerAxes.coerce_current.
  destruct (PyFloat.round_ndigits c 10) as [rounded|]; [|discriminate].
  cbn [bind].
  destruct (PyFloat.round_int rounded) as [nearest|]; [|discriminate].
  cbn [bind]. unfold PyFloat.isclose.
  destruct (PyFloat.of_Z nearest) as [nearest_f|]; [|discriminate].
  cbn [bind]. intros _.
  destruct (PyFloat.ltb _ _); eexists; reflexivity.
Qed.

Lemma coerce_current_raises (c : PyFloat.float) (e : exn) :
  coerce_current c = Raise e -> e = OverflowError \/ e = ValueError.
Proof.
  unfold ViewerAxes.coerce_current.
  destruct (PyFloat.round_ndigits c 10) as [rounded|e1] eqn:Er; cbn [bind].
  - destruct (PyFloat.round_int rounded) as [nearest|e2] eqn:Ei; cbn [bind].
    + destruct (PyFloat.of_Z nearest) as [nearest_f|e3] eqn:Ez; cbn [bind].
      * destruct (PyFloat.ltb _ _); discriminate.
      * intros H. inversion H; subst. unfold PyFloat.of_Z in Ez.
        destruct (PyFloat.is_inf _); inversion Ez. now left.
    + intros H. inversion H; subst.
      destruct rounded; simpl in Ei; inversion Ei; tauto.
  - intros H. inversion H; subst.
    destruct c as [| | |s m x]; simpl in Er; try discriminate.
    destruct (PyFloat.nearest_even_div _ _); try discriminate.
    destruct (PyFloat.is_inf _); inversion Er. now left.
Qed.

Lemma lt_not_le (a b : spec_float) : SFltb a b = true -> SFleb b a = false.
Proof.
  unfold SFltb, SFleb. rewrite (SFcompare_swap a b).
  destruct (SFcompare a b) as [[| |]|]; simpl; congruence.
Qed.

Lemma past_not_within (up : bool) (stop_f tolerance c : PyFloat.float) :
  past_stop up stop_f tolerance c = true ->
  within_stop up stop_f tolerance c = false.
Proof.
  unfold past_stop, within_stop, PyFloat.gtb, PyFloat.ltb, PyFloat.leb, PyFloat.geb.
  destruct up; simpl.
  - rewrite orb_false_r. apply lt_not_le.
  - apply lt_not_le.
Qed.

Lemma expand_loop_runs (stop stepf : PyFloat.float) (n : nat) :
  forall current guard acc fuel,
    Forall (fun c => within_stop (PyFloat.gtb stepf (S754_zero false)) stop
                                 (PyFloat.mul (PyFloat.abs stepf) f_1e_9) c = true)
           (sums n current stepf) ->
    Forall (fun c => exists v', coerce_current c = OK v') (sums n current stepf) ->
    within_stop (PyFloat.gtb stepf (S754_zero false)) stop
                (PyFloat.mul (PyFloat.abs stepf) f_1e_9)
                (sum_after n current stepf) = false ->
    guard + Z.of_nat n <= 100000 ->
    (n < fuel)%nat ->
    exists produced,
      expand_loop fuel stop stepf current guard acc = OK (acc ++ produced)%list
      /\ Forall2 (fun c v' => coerce_current c = OK v')
                 (sums n current stepf) produced.
Proof.
  induction n as [|n IH]; intros current guard acc fuel Hkeep Hco Hend Hg Hf;
    (destruct fuel as [|fuel]; [lia|]); cbn [ViewerAxes.expand_loop].
  - cbn [sum_after] in Hend. unfold within_stop in Hend. rewrite Hend.
    exists []. rewrite app_nil_r. split; [reflexivity|constructor].
  - cbn [sums] in Hkeep, Hco. cbn [sum_after] in Hend.
    apply Forall_cons_iff in Hkeep. destruct Hkeep as [Hk Hkeep].
    apply Forall_cons_iff in Hco. destruct Hco as [[v' Hv] Hco].
    unfold within_stop in Hk. rewrite Hk, Hv. cbn [bind].
    destruct (guard + 1 >? 100000) eqn:Eg.
    { rewrite Z.gtb_ltb in Eg. apply Z.ltb_lt in Eg. lia. }
    destruct (IH (PyFloat.add current stepf) (guard + 1) (acc ++ [v'])%list fuel
                 Hkeep Hco Hend ltac:(lia) ltac:(lia)) as (produced & -> & Hp).
    exists (v' :: produced). rewrite <- app_assoc. split; [reflexivity|].
    cbn [sums]. now constructor.
Qed.

Lemma expand_loop_bounded (fuel : nat) :
  forall stop stepf current guard acc,
    0 <= guard <= 100000 ->
    100001 <= guard + Z.of_nat fuel ->
    (forall message,
        expand_loop fuel stop stepf current guard acc
        <> Raise (RuntimeError message))
    /\ (forall vs,
           expand_loop fuel stop stepf current guard acc = OK vs ->
           Z.of_nat (List.length vs) <= Z.of_nat (List.length acc) + (100001 - guard)).
Proof.
  induction fuel as [|fuel IH]; intros stop stepf current guard acc Hg Hf.
  - exfalso. lia.
  - cbn [ViewerAxes.expand_loop].
    destruct (if PyFloat.gtb stepf (S754_zero false) then _ else _).
    + destruct (coerce_current current) as [v|e] eqn:Ev; cbn [bind].
      * destruct (guard + 1 >? 100000) eqn:Eg.
        { split; [discriminate|]. intros vs H. inversion H; subst.
          rewrite length_app. cbn [List.length]. lia. }
        rewrite Z.gtb_ltb in Eg. apply Z.ltb_ge in Eg.
        destruct (IH stop stepf (PyFloat.add current stepf) (guard + 1)
                     (acc ++ [v])%list ltac:(lia) ltac:(lia)) as [Hr Hb].
        split; [exact Hr|]. intros vs H. specialize (Hb vs H).
        rewrite length_app in Hb. cbn [List.length] in Hb. lia.
      * split.
        { intros message H. inversion H; subst.
          apply coerce_current_raises in Ev. destruct Ev; discriminate. }
        { discriminate. }
    + split; [discriminate|]. intros vs H. inversion H; subst. lia.
Qed.

Lemma py_float_raises (v : value) (e : exn) :
  py_float float_of_str v = Raise e ->
  e = OverflowError \/ e = ValueError \/ e = TypeError.
Proof.
  destruct v; simpl; try (intros H; inversion H; tauto).
  - unfold PyFloat.of_Z. destruct (PyFloat.is_inf _); intros H; inversion H; tauto.
  - unfold PyFloat.of_Z. destruct (PyFloat.is_inf _); intros H; inversion H; tauto.
  - destruct (float_of_str s); intros H; inversion H; tauto.
Qed.

(** The viewer's [expand_minmax] gives no values for a zero step, never
    more than 100001 values, and the loop guard always ends it: the
    only exceptions that leave it are those of the conversions to
    [float] and of rounding ([TypeError], [ValueError],
    [OverflowError]). *)
Theorem viewer_expand_minmax_bounded (min_val max_val step : value) :
  (eq_zero step = true -> expand_minmax min_val max_val step = OK [])
  /\ (forall vs, expand_minmax min_val max_val step = OK vs ->
                 Z.of_nat (List.length vs) <= 100001)
  /\ (forall e, expand_minmax min_val max_val step = Raise e ->
                e = TypeError \/ e = ValueError \/ e = OverflowError).
Proof.
  unfold ViewerAxes.expand_minmax. split; [intros ->; reflexivity|].
  destruct (eq_zero step).
  { split.
    - intros vs H. inversion H. simpl. lia.
    - discriminate. }
  destruct (py_float float_of_str min_val) as [current|e1] eqn:E1; cbn [bind].
  2:{ split; [discriminate|]. intros e H. inversion H; subst.
      apply py_float_raises in E1. tauto. }
  destruct (py_float float_of_str max_val) as [stop|e2] eqn:E2; cbn [bind].
  2:{ split; [discriminate|]. intros e H. inversion H; subst.
      apply py_float_raises in E2. tauto. }
  destruct (py_float float_of_str step) as [stepf|e3] eqn:E3; cbn [bind].
  2:{ split; [discriminate|]. intros e H. inversion H; subst.
      apply py_float_raises in E3. tauto. }
  destruct (expand_loop_bounded (S (Z.to_nat 100000)) stop stepf current 0 []
                                ltac:(lia) ltac:(lia)) as [Hr Hb].
  split.
  - intros vs H. specialize (Hb vs H). cbn [List.length] in Hb. lia.
  - intros e H.
    assert (Hloop : forall fuel stop stepf current guard acc e,
               expand_loop fuel stop stepf current guard acc = Raise e ->
               (exists message, e = RuntimeError message)
               \/ e = OverflowError \/ e = ValueError).
    { clear. induction fuel as [|fuel IH]; intros stop stepf current guard acc e.
      - cbn. intros H. inversion H. left. eexists. reflexivity.
      - cbn [ViewerAxes.expand_loop].
        destruct (if PyFloat.gtb stepf (S754_zero false) then _ else _);
          [|discriminate].
        destruct (coerce_current current) as [v|e'] eqn:Ev; cbn [bind].
        + destruct (guard + 1 >? 100000); [discriminate|]. apply IH.
        + intros H. inversion H; subst. right.
          now apply coerce_current_raises in Ev. }
    destruct (Hloop _ _ _ _ _ _ _ H) as [[message ->]|[->| ->]]; try tauto.
    exfalso. exact (Hr message H).
Qed.

Lemma Forall2_same_left {A B C : Type} (R1 : A -> B -> Prop) (R2 : A -> C -> Prop)
      (l : list A) (l1 : list B) (l2 : list C) :
  Forall2 R1 l l1 -> Forall2 R2 l l2 ->
  Forall2 (fun b c => exists a, R1 a b /\ R2 a c) l1 l2.
Proof.
  intros H1. revert l2. induction H1 as [|a b l l1 Hab _ IH]; intros l2 H2.
  - inversion H2. constructor.
  - inversion H2 as [|? c ? l2' Hac H2']; subst.
    constructor; [now exists a|now apply IH].
Qed.

Lemma expand_minmax_follows (start stop step : value) (vs : list value) :
  expand_wedge_values float_of_str [start; stop; step] "minmax" = OK vs ->
  exists start_f step_f vs',
    expand_minmax start stop step = OK vs'
    /\ Forall2 (fun c v => _coerce_numeric (VFloat c) = OK v)
               (sums (List.length vs) start_f step_f) vs
    /\ Forall2 (fun c v' => coerce_current c = OK v')
               (sums (List.length vs) start_f step_f) vs'.
Proof.
  intros H. unfold expand_wedge_values in H.
  cbn [String.eqb Ascii.eqb Bool.eqb] in H.
  unfold ViewerAxes.expand_minmax.
  destruct (eq_zero step); [discriminate|].
  destruct (py_float float_of_str start) as [start_f|]; [|discriminate].
  destruct (py_float float_of_str stop) as [stop_f|]; [|discriminate].
  destruct (py_float float_of_str step) as [step_f|]; [|discriminate].
  cbn [bind] in H |- *.
  destruct (minmax_loop _ _ _ _ _ _ _ _) as [values|] eqn:El; [|discriminate].
  cbn [bind] in H.
  apply minmax_loop_returns in El; [|unfold max_iterations; lia].
  destruct El as (produced & Hv & Hc & Hp & He & Hn). simpl in Hv. subst values.
  assert (Hvs : vs = produced) by (destruct produced; now inversion H).
  subst produced. clear H.
  pose proof (kept_within_stop _ _ _ _ _ _ Hc Hp He) as Hk.
  apply past_not_within in He.
  assert (Hco : Forall (fun c => exists v', coerce_current c = OK v')
                       (sums (List.length vs) start_f step_f)).
  { clear - Hc. induction Hc as [|c v cs vs Hcv _ IH]; constructor; [|exact IH].
    exact (coerce_current_defined c v Hcv). }
  unfold max_iterations in Hn.
  destruct (expand_loop_runs stop_f step_f (List.length vs) start_f 0 []
                             (S (Z.to_nat 100000)) Hk Hco He ltac:(lia) ltac:(lia))
    as (vs' & Hrun & Hvs').
  exists start_f, step_f, vs'. auto.
Qed.

(** Where the submitter expands a [minmax] triple, the viewer's
    [expand_minmax] expands it too, to as many values: its slider has
    one position per value the submitter swept, and position by
    position the two values are coercions of the same running sum. *)
Theorem viewer_axis_as_long_as_submitters (start stop step : value)
        (vs : list value) :
  expand_wedge_values float_of_str [start; stop; step] "minmax" = OK vs ->
  exists vs',
    expand_minmax start stop step = OK vs'
    /\ List.length vs' = List.length vs
    /\ Forall2 (fun v v' =>
                  exists current,
                    _coerce_numeric (VFloat current) = OK v
                    /\ coerce_current current = OK v')
               vs vs'.
Proof.
  intros H.
  destruct (expand_minmax_follows start stop step vs H)
    as (start_f & step_f & vs' & Hrun & Hc & Hvs').
  exists vs'. split; [exact Hrun|]. split.
  - apply Forall2_length in Hvs'. apply Forall2_length in Hc. congruence.
  - exact (Forall2_same_left _ _ _ _ _ Hc Hvs').
Qed.

Local Abbreviation flatten_item := (ViewerAxes.flatten_item code_points float_of_str).
Local Abbreviation flatten_items := (ViewerAxes.flatten_items code_points float_of_str).
Local Abbreviation flatten_nodes := (ViewerAxes.flatten_nodes code_points float_of_str).
Local Abbreviation _flatten_wedges :=
  (ViewerAxes._flatten_wedges code_points float_of_str).
Local Abbreviation expand' := (expand_wedge_entry code_points float_of_str).

Lemma flatten_item_matches (node_name : string) (param values_spec wedge_type : value)
      (expanded : list value) :
  expand' values_spec wedge_type = OK expanded ->
  exists entry,
    flatten_item node_name (VList [param; values_spec; wedge_type]) = OK [entry]
    /\ ViewerAxes.same_axis ((node_name, param), expanded) entry.
Proof.
  unfold expand_wedge_entry. intros H.
  destruct wedge_type as [| | | |t| |]; try discriminate.
  destruct (String.eqb_spec t "explicit") as [->|Hx].
  - cbn [orb] in H. cbn [ViewerAxes.flatten_item eq_str String.eqb Ascii.eqb Bool.eqb].
    destruct (py_list code_points values_spec) as [spec|]; [|discriminate].
    cbn [bind] in H |- *. unfold expand_wedge_values in H.
    cbn [String.eqb Ascii.eqb Bool.eqb] in H.
    destruct spec as [|x xs]; [discriminate|]. inversion H; subst.
    eexists. split; [reflexivity|].
    unfold ViewerAxes.same_axis. cbn. tauto.
  - destruct (String.eqb_spec t "minmax") as [->|Hm]; [|discriminate].
    cbn [orb] in H. cbn [ViewerAxes.flatten_item eq_str String.eqb Ascii.eqb Bool.eqb bind].
    unfold ViewerAxes.minmax_values.
    destruct (py_list code_points values_spec) as [spec|]; [|discriminate].
    cbn [bind] in H |- *.
    assert (Hspec : exists start stop step, spec = [start; stop; step]).
    { unfold expand_wedge_values in H. cbn [String.eqb Ascii.eqb Bool.eqb] in H.
      destruct spec as [|a [|b [|c [|? ?]]]]; try discriminate. now eexists _, _, _. }
    destruct Hspec as (start & stop & step & ->).
    destruct (expand_minmax_follows start stop step expanded H)
      as (start_f & step_f & vs' & -> & Hc & Hvs').
    eexists. split; [reflexivity|].
    unfold ViewerAxes.same_axis. cbn. repeat split; [|discriminate].
    apply Forall2_length in Hvs'. apply Forall2_length in Hc. congruence.
Qed.

Lemma flatten_items_match (node_name : string) (wedges : list (list value))
      (axes : list RawAxis) :
  axes_of_node code_points float_of_str node_name wedges = OK axes ->
  exists entries,
    flatten_items node_name (map VList wedges) = OK entries
    /\ Forall2 ViewerAxes.same_axis axes entries.
Proof.
  revert axes. induction wedges as [|wedge rest IH]; intros axes H.
  - inversion H. exists []. split; [reflexivity|constructor].
  - cbn [axes_of_node] in H.
    destruct wedge as [|param [|values_spec [|wedge_type [|? ?]]]];
      try discriminate.
    destruct (expand' values_spec wedge_type) as [expanded|] eqn:E; [|discriminate].
    cbn [bind] in H.
    destruct (axes_of_node _ _ node_name rest) as [more|] eqn:Em; [|discriminate].
    cbn [bind] in H. inversion H; subst. clear H.
    destruct (flatten_item_matches node_name param values_spec wedge_type
                                   expanded E) as (entry & He & Hs).
    destruct (IH more eq_refl) as (entries & Hr & Hm).
    exists (entry :: entries). split; [|now constructor].
    cbn [map ViewerAxes.flatten_items]. rewrite He, Hr. reflexivity.
Qed.

Lemma flatten_nodes_match (param_wedges : Dict.t (list (list value)))
      (axes : list RawAxis) :
  axes_of_wedges code_points float_of_str param_wedges = OK axes ->
  exists entries,
    flatten_nodes (map (fun ne => (fst ne, VList (map VList (snd ne)))) param_wedges)
    = OK entries
    /\ Forall2 ViewerAxes.same_axis axes entries.
Proof.
  revert axes. induction param_wedges as [|[node_name wedges] rest IH];
    intros axes H.
  - inversion H. exists []. split; [reflexivity|constructor].
  - cbn [axes_of_wedges] in H.
    destruct (axes_of_node _ _ node_name wedges) as [first|] eqn:E; [|discriminate].
    cbn [bind] in H.
    destruct (axes_of_wedges _ _ rest) as [more|] eqn:Em; [|discriminate].
    cbn [bind] in H. inversion H; subst. clear H.
    destruct (flatten_items_match node_name wedges first E) as (es & He & Hs).
    destruct (IH more eq_refl) as (entries & Hr & Hm).
    exists (es ++ entries)%list. split; [|now apply Forall2_app].
    cbn [map ViewerAxes.flatten_nodes fst snd]. rewrite He, Hr. reflexivity.
Qed.

(** What the viewer makes of the wedges the submitter stored with a
    run matches the axes of that run: where [build_axes] returns, the
    viewer's [_flatten_wedges] of the serialised [param_wedges]
    returns one entry per axis, in the same order, with the axis's
    node and param and as many values; for an explicit wedge the
    values are the same. *)
Theorem viewer_entries_match_axes (config : Config.WedgeConfig)
        (axes : list RawAxis) :
  build_axes code_points float_of_str config = OK axes ->
  exists entries,
    _flatten_wedges (Config.entries_value (Config.param_wedges config))
    = OK entries
    /\ Forall2 ViewerAxes.same_axis axes entries.
Proof.
  unfold build_axes. intros H.
  destruct (flatten_nodes_match _ _ H) as (entries & He & Hs).
  unfold ViewerAxes._flatten_wedges, Config.entries_value.
  destruct (Config.param_wedges config) as [|nw rest] eqn:Ew.
  - cbn. inversion H. exists []. split; [reflexivity|constructor].
  - exists entries. split; [|exact Hs]. exact He.
Qed.

End ViewerAxesProperties.

Lemma viewer_axis_as_long_as_submitters_witness :
  exists vs',
    ViewerAxes.expand_minmax no_strings (VInt 0) (VInt 10) (VInt 3) = OK vs'
    /\ List.length vs' = 4%nat.
Proof.
  destruct (viewer_axis_as_long_as_submitters
              no_strings (VInt 0) (VInt 10) (VInt 3)
              [VInt 0; VInt 3; VInt 6; VInt 9])
    as (vs' & Hrun & Hlen & _).
  - vm_compute. reflexivity.
  - exists vs'. split; [exact Hrun|exact Hlen].
Defined.

Lemma viewer_entries_match_axes_witness :
  exists entries,
    ViewerAxes._flatten_wedges
      (fun _ => []) no_strings
      (Config.entries_value (Config.param_wedges Runs.two_seeds))
    = OK entries
    /\ Forall2 ViewerAxes.same_axis
               [(("KSampler", VStr "seed"), [VInt 1; VInt 2])] entries.
Proof.
  exact (viewer_entries_match_axes
           (fun _ => []) no_strings Runs.two_seeds
           [(("KSampler", VStr "seed"), [VInt 1; VInt 2])] eq_refl).
Defined.

(** ** Whole numbers are named alike *)

Section WholeNumbers.

Lemma eqb_finite_same (x y : spec_float) :
  PyFloat.is_finite x = true -> SFeqb x y = true ->
  exists s, SFsub PyFloat.prec PyFloat.emax x y = S754_zero s.
Proof.
  unfold SFeqb.
  destruct x as [sx|sx| |sx mx ex], y as [sy|sy| |sy my ey];
    intros Hfin H; simpl in Hfin, H; try discriminate;
    try (destruct sx; discriminate); try (destruct sy; discriminate).
  - destruct sx, sy; eexists; reflexivity.
  - assert (E : sx = sy /\ ex = ey /\ mx = my).
    { destruct sx, sy; try discriminate;
        destruct (Z.compare_spec ex ey) as [He|He|He]; try discriminate;
        change (Pos.compare_cont Eq mx my) with (Pos.compare mx my) in H;
        destruct (Pos.compare_spec mx my) as [Hm|Hm|Hm]; try discriminate;
        auto. }
    destruct E as (-> & -> & ->). cbn [SFsub].
    rewrite Z.sub_diag. eexists. reflexivity.
Qed.

(** A running sum whose rounding to 10 decimals is a whole number
    ([rounded == round(rounded)]) is coerced to the same integer by the
    submitter and by the viewer, so the two spell it alike in file
    names. *)
Theorem whole_numbers_coerced_alike (current rounded nearest_f : PyFloat.float)
        (nearest : Z) :
  PyFloat.round_ndigits current 10 = OK rounded ->
  PyFloat.round_int rounded = OK nearest ->
  PyFloat.of_Z nearest = OK nearest_f ->
  PyFloat.eqb rounded nearest_f = true ->
  _coerce_numeric (VFloat current) = OK (VInt nearest)
  /\ ViewerAxes.coerce_current current = OK (VInt nearest).
Proof.
  intros Hr Hn Hf He. split.
  - unfold _coerce_numeric. rewrite Hr. cbn [bind]. rewrite Hn. cbn [bind].
    unfold PyFloat.isclose. rewrite Hf. cbn [bind]. rewrite He. reflexivity.
  - unfold ViewerAxes.coerce_current.
    rewrite Hr. cbn [bind]. rewrite Hn. cbn [bind]. rewrite Hf. cbn [bind].
    assert (Hfin : PyFloat.is_finite rounded = true).
    { destruct rounded; simpl in Hn; try discriminate; reflexivity. }
    destruct (eqb_finite_same rounded nearest_f Hfin He) as [s Hs].
    unfold PyFloat.sub. rewrite Hs. reflexivity.
Qed.

End WholeNumbers.

Lemma whole_numbers_coerced_alike_witness :
  _coerce_numeric (VFloat f_3) = OK (VInt 3)
  /\ ViewerAxes.coerce_current f_3 = OK (VInt 3).
Proof.
  apply (whole_numbers_coerced_alike f_3 f_3 f_3 3); vm_compute; reflexivity.
Defined.

(** ** Reading the history of a run *)

Section HistoryProperties.
Variable code_points : string -> list string.
Variable path_of : string -> string -> string.

Local Abbreviation collect_images' := (collect_images code_points).
Local Abbreviation extract' := (extract_last_image_path code_points path_of).

Lemma collect_images_concat (node_outputs : list (string * value))
      (recorded : list (list value)) :
  Forall2 records_images node_outputs recorded ->
  forall images,
    collect_images' (map snd node_outputs) images
    = OK (images ++ List.concat recorded)%list.
Proof.
  induction 1 as [|node_output imgs node_outputs recorded Hr _ IH]; intros images.
  - cbn. now rewrite app_nil_r.
  - destruct Hr as (fields & Hs & Hg).
    cbn [map collect_images List.concat]. rewrite Hs. cbn [py_get bind].
    rewrite Hg. cbn [py_list bind]. rewrite IH. now rewrite app_assoc.
Qed.

(** [extract_last_image_path] reads one image only: the last one of
    the last node output that recorded any, in the order of the
    history's outputs; what it returns is what that image alone gives
    (its [filename], under its [subfolder] if it has one, nothing if it
    has no file name), however many images precede it.  A prompt the
    history does not know gives nothing. *)
Theorem extract_last_image_path_reads_last_image
        (history : Dict.t value) (prompt_id : string) :
  (Dict.get prompt_id history = None -> extract' history prompt_id = OK None)
  /\ (forall fields node_outputs recorded,
         Dict.get prompt_id history = Some (VDict fields) ->
         fields <> [] ->
         Config.get_default "outputs" fields (VDict []) = VDict node_outputs ->
         Forall2 records_images node_outputs recorded ->
         extract' history prompt_id
         = match rev (List.concat recorded) with
           | [] => OK None
           | last_image :: _ => image_path path_of last_image
           end).
Proof.
  split.
  - intros H. unfold extract_last_image_path. now rewrite H.
  - intros fields node_outputs recorded Hg Hne Ho Hr.
    unfold extract_last_image_path. rewrite Hg.
    destruct fields as [|f fs]; [congruence|]. cbn [truthy negb py_get bind].
    rewrite Ho. rewrite (collect_images_concat _ _ Hr). cbn [bind app].
    reflexivity.
Qed.

End HistoryProperties.

Lemma extract_last_image_path_reads_last_image_witness :
  extract_last_image_path
    (fun _ => []) (fun s f => s ++ "/" ++ f)
    [("job-1",
      VDict [("outputs",
              VDict [("9", VDict [("images", VList [image_named "a_00001_.png";
                                                   image_named "b_00001_.png"])]);
                     ("12", VDict [("text", VList [])])])])]
    "job-1"
  = OK (Some (VStr "b_00001_.png")).
Proof.
  exact (proj2 (extract_last_image_path_reads_last_image
                  (fun _ => []) (fun s f => s ++ "/" ++ f)
                  [("job-1",
                    VDict [("outputs",
                            VDict [("9", VDict [("images",
                                                 VList [image_named "a_00001_.png";
                                                        image_named "b_00001_.png"])]);
                                   ("12", VDict [("text", VList [])])])])]
                  "job-1")
               _ _ [[image_named "a_00001_.png"; image_named "b_00001_.png"]; []]
               eq_refl ltac:(discriminate) eq_refl
               ltac:(repeat constructor; eexists; split; reflexivity)).
Defined.

(** *** The tolerance and the limits of a sweep *)

Section IntSweepLimits.
Import Binary64 IntSweep.

Local Abbreviation F := float_of_int.
Local Abbreviation tolerance s := (PyFloat.mul (PyFloat.abs (F s)) f_1e_9).


Lemma small_step_bounds (s : Z) : small_step s -> s <> 0 /\ Z.abs s < 2 ^ 53.
Proof.
  intros [H0 H1]. split; [lia|].
  assert (2 ^ 27 < 2 ^ 53) by (apply Z.pow_lt_mono_r; lia). lia.
Qed.

Lemma in_range_bounds (z : Z) : in_range z -> Z.abs z < 2 ^ 52.
Proof.
  unfold in_range. intros H.
  assert (2 ^ 51 < 2 ^ 52) by (apply Z.pow_lt_mono_r; lia). lia.
Qed.


(** The tolerance [abs(step) * 1e-9] is positive and at most [1/4]. *)
Lemma tolerance_small (s : Z) :
  small_step s ->
  exists m e,
    tolerance s = S754_finite false m e
    /\ bounded 53 1024 m e = true
    /\ units m e <= 2 ^ 1072.
Proof.
  intros Hs. destruct (small_step_bounds s Hs) as [Ns Hb]. destruct Hs as [Hs0 Hs1].
  destruct (float_of_int_finite s Ns Hb) as (m & e & Bd & Hu & ->).
  pose proof (int_exponent s m e Ns Bd Hu) as He.
  assert (E9 : f_1e_9 = S754_finite false 4835703278458517 (-82))
    by (vm_compute; reflexivity).
  rewrite E9. unfold PyFloat.mul, PyFloat.abs, PyFloat.prec, PyFloat.emax.
  cbn [SFabs SFmul xorb].
  set (m9 := 4835703278458517%positive).
  assert (Hm9 : 2 ^ 52 <= Zpos m9 < 2 ^ 53)
    by (unfold m9; split; [vm_compute; discriminate|vm_compute; reflexivity]).
  assert (Hd : 53 <= Zpos (digits2_pos (m * m9))).
  { pose proof (digits2_bounds (m * m9)) as [_ Hu'].
    rewrite Pos2Z.inj_mul in Hu'.
    destruct (Z.le_gt_cases 53 (Zpos (digits2_pos (m * m9)))) as [|Hlt]; [assumption|].
    assert (2 ^ Zpos (digits2_pos (m * m9)) <= 2 ^ 52) by (apply Z.pow_le_mono_r; lia).
    nia. }
  rewrite (round_aux_is_round false (m * m9) (e + -82) Hd).
  assert (Bq : bounded 53 1024 4503599627370496 (-54) = true) by reflexivity.
  destruct (round_upper false (m * m9) 4503599627370496 (e + -82) (-54)
                        ltac:(lia) Bq) as (m' & e' & -> & Bd' & Hle).
  { unfold units. rewrite Pos2Z.inj_mul.
    change (Zpos 4503599627370496 * 2 ^ (-54 + 1074)) with (2 ^ 1072).
    unfold units in Hu.
    replace (e + 1074) with ((e + -82 + 1074) + 82) in Hu by lia.
    rewrite (Z.pow_add_r 2 (e + -82 + 1074) 82) in Hu by lia.
    change (2 ^ 1074) with (2 ^ 1072 * 4) in Hu.
    assert (HK : 0 < 2 ^ 1072) by (apply Z.pow_pos_nonneg; lia).
    assert (HU : 0 < 2 ^ (e + -82 + 1074)) by (apply Z.pow_pos_nonneg; lia).
    generalize dependent (2 ^ 1072). intros K Hu HK.
    generalize dependent (2 ^ (e + -82 + 1074)). intros U Hu HU.
    change (2 ^ 52) with 4503599627370496 in Hm9.
    change (2 ^ 53) with 9007199254740992 in Hm9.
    change (2 ^ 27) with 134217728 in Hs1.
    change (2 ^ 82) with 4835703278458516698824704 in Hu.
    assert (H1 : Z.abs s * Zpos m9 * 4 < 4835703278458516698824704) by nia.
    assert (H2 : Zpos m * Zpos m9 * U * 4835703278458516698824704
                 = Z.abs s * Zpos m9 * 4 * K) by nia.
    assert (H3 : Z.abs s * Zpos m9 * 4 * K < 4835703278458516698824704 * K)
      by (apply Z.mul_lt_mono_pos_r; lia).
    nia. }
  exists m', e'. split; [reflexivity|split; [exact Bd'|]].
  exact Hle.
Qed.


Lemma grid_float (n t : Z) :
  n <> 0 -> Z.abs n < 2 ^ 53 -> -1074 <= t <= 971 ->
  exists x,
    valid x = true /\ PyFloat.is_finite x = true
    /\ sunits x = n * 2 ^ (t + 1074).
Proof.
  intros Hn Hb Ht.
  destruct (grid_value n t Hn Hb Ht) as (m & e & Bd & Hu & _).
  exists (S754_finite (n <? 0) m e).
  split; [exact Bd|split; [reflexivity|]].
  cbn [sunits]. rewrite Hu. destruct (Z.ltb_spec n 0); lia.
Qed.

(** A rounded value strictly between two floats lies between them. *)
Lemma normalize_between (lo hi : spec_float) (v ez : Z) :
  -1074 <= ez ->
  valid lo = true -> PyFloat.is_finite lo = true ->
  valid hi = true -> PyFloat.is_finite hi = true ->
  sunits lo < v * 2 ^ (ez + 1074) < sunits hi ->
  valid (binary_normalize 53 1024 v ez false) = true
  /\ PyFloat.is_finite (binary_normalize 53 1024 v ez false) = true
  /\ sunits lo <= sunits (binary_normalize 53 1024 v ez false) <= sunits hi.
Proof.
  intros Hez Vl Fl Vh Fh [H1 H2].
  pose proof (normalize_above lo v ez Hez Vl Fl H1) as A.
  pose proof (normalize_below hi v ez Hez Vh Fh H2) as B.
  pose proof (normalize_valid v ez Hez) as Vr.
  set (r := binary_normalize 53 1024 v ez false) in *.
  assert (Fr : PyFloat.is_finite r = true).
  { destruct r as [sr|[|]| |sr mr er]; try reflexivity.
    - destruct lo as [?|?| |[|] ? ?]; try discriminate Fl; cbn in A; discriminate A.
    - destruct hi as [?|?| |[|] ? ?]; try discriminate Fh; cbn in B; discriminate B.
    - destruct hi as [?|?| |[|] ? ?]; cbn in B; discriminate B. }
  split; [exact Vr|split; [exact Fr|]].
  rewrite (leb_sunits lo r Vl Vr Fl Fr) in A.
  rewrite (leb_sunits r hi Vr Vh Fr Fh) in B.
  apply Z.leb_le in A. apply Z.leb_le in B. lia.
Qed.

(** [stop + tolerance] lies in [stop, stop + 1), *)
Lemma upper_limit (b s : Z) :
  in_range b -> small_step s ->
  valid (PyFloat.add (F b) (tolerance s)) = true
  /\ PyFloat.is_finite (PyFloat.add (F b) (tolerance s)) = true
  /\ b * 2 ^ 1074 <= sunits (PyFloat.add (F b) (tolerance s)) < (b + 1) * 2 ^ 1074.
Proof.
  intros Hb Hs. pose proof (in_range_bounds b Hb) as Hb'.
  assert (Hb53 : Z.abs b < 2 ^ 53)
    by (assert (2 ^ 52 < 2 ^ 53) by (apply Z.pow_lt_mono_r; lia); lia).
  destruct (tolerance_small s Hs) as (mt & et & -> & Bt & Ht).
  destruct (bounded_cases _ _ Bt) as (Het & _).
  pose proof (units_pos mt et ltac:(lia)) as Pt.
  change (2 ^ 1074) with (2 ^ 1072 * 4).
  assert (HK : 0 < 2 ^ 1072) by (apply Z.pow_pos_nonneg; lia).
  unfold PyFloat.add, PyFloat.prec, PyFloat.emax.
  destruct (Z.eq_dec b 0) as [->|Nb].
  - change (F 0) with (S754_zero false). cbn [SFadd].
    split; [exact Bt|split; [reflexivity|]]. cbn [sunits]. lia.
  - pose proof (float_of_int_exact b Hb53) as (Vb & Fb & Ub).
    destruct (float_of_int_finite b Nb Hb53) as (mb & eb & Bb & _ & Eb).
    rewrite Eb in Vb, Fb, Ub |- *.
    destruct (bounded_cases _ _ Bb) as (Heb & _).
    assert (Nh : 2 * b + 1 <> 0) by lia.
    destruct (grid_float (2 * b + 1) (-1) Nh) as (h & Vh & Fh & Uh); [|lia|].
    { unfold in_range in Hb. change (2 ^ 51) with 2251799813685248 in Hb.
      change (2 ^ 53) with 9007199254740992. lia. }
    change (2 ^ (-1 + 1074)) with (2 ^ 1072 * 2) in Uh.
    change (2 ^ 1074) with (2 ^ 1072 * 4) in Ub.
    cbn [SFadd].
    destruct (normalize_between (S754_finite (b <? 0) mb eb) h
                (cond_Zopp (b <? 0) (Zpos (fst (shl_align mb eb (Z.min eb et))))
                 + cond_Zopp false (Zpos (fst (shl_align mt et (Z.min eb et)))))
                (Z.min eb et) ltac:(lia) Vb Fb Vh Fh) as (V & Fi & U).
    { rewrite add_exact by lia. rewrite Ub, Uh. cbn [sunits]. lia. }
    split; [exact V|split; [exact Fi|]].
    rewrite Ub, Uh in U. lia.
Qed.

(** and [stop - tolerance] in (stop - 1, stop]. *)
Lemma lower_limit (b s : Z) :
  in_range b -> small_step s ->
  valid (PyFloat.sub (F b) (tolerance s)) = true
  /\ PyFloat.is_finite (PyFloat.sub (F b) (tolerance s)) = true
  /\ (b - 1) * 2 ^ 1074 < sunits (PyFloat.sub (F b) (tolerance s)) <= b * 2 ^ 1074.
Proof.
  intros Hb Hs. pose proof (in_range_bounds b Hb) as Hb'.
  assert (Hb53 : Z.abs b < 2 ^ 53)
    by (assert (2 ^ 52 < 2 ^ 53) by (apply Z.pow_lt_mono_r; lia); lia).
  destruct (tolerance_small s Hs) as (mt & et & -> & Bt & Ht).
  destruct (bounded_cases _ _ Bt) as (Het & _).
  pose proof (units_pos mt et ltac:(lia)) as Pt.
  change (2 ^ 1074) with (2 ^ 1072 * 4).
  assert (HK : 0 < 2 ^ 1072) by (apply Z.pow_pos_nonneg; lia).
  unfold PyFloat.sub, PyFloat.prec, PyFloat.emax.
  destruct (Z.eq_dec b 0) as [->|Nb].
  - change (F 0) with (S754_zero false). cbn [SFsub negb].
    split; [exact Bt|split; [reflexivity|]]. cbn [sunits]. lia.
  - pose proof (float_of_int_exact b Hb53) as (Vb & Fb & Ub).
    destruct (float_of_int_finite b Nb Hb53) as (mb & eb & Bb & _ & Eb).
    rewrite Eb in Vb, Fb, Ub |- *.
    destruct (bounded_cases _ _ Bb) as (Heb & _).
    assert (Nh : 2 * b - 1 <> 0) by lia.
    destruct (grid_float (2 * b - 1) (-1) Nh) as (h & Vh & Fh & Uh); [|lia|].
    { unfold in_range in Hb. change (2 ^ 51) with 2251799813685248 in Hb.
      change (2 ^ 53) with 9007199254740992. lia. }
    change (2 ^ (-1 + 1074)) with (2 ^ 1072 * 2) in Uh.
    change (2 ^ 1074) with (2 ^ 1072 * 4) in Ub.
    cbn [SFsub].
    destruct (normalize_between h (S754_finite (b <? 0) mb eb)
                (cond_Zopp (b <? 0) (Zpos (fst (shl_align mb eb (Z.min eb et))))
                 - cond_Zopp false (Zpos (fst (shl_align mt et (Z.min eb et)))))
                (Z.min eb et) ltac:(lia) Vh Fh Vb Fb) as (V & Fi & U).
    { rewrite sub_exact by lia. rewrite Ub, Uh. cbn [sunits]. lia. }
    split; [exact V|split; [exact Fi|]].
    rewrite Ub, Uh in U. lia.
Qed.

(** The tests of the two loops on an integer [c]. *)
Lemma past_upper_limit (b s c : Z) :
  in_range b -> small_step s -> Z.abs c < 2 ^ 53 ->
  PyFloat.gtb (F c) (PyFloat.add (F b) (tolerance s)) = (b <? c).
Proof.
  intros Hb Hs Hc.
  destruct (upper_limit b s Hb Hs) as (V & Fi & U).
  destruct (float_of_int_exact c Hc) as (Vc & Fc & Uc).
  unfold PyFloat.gtb. rewrite (ltb_sunits _ _ V Vc Fi Fc), Uc.
  assert (HK : 0 < 2 ^ 1074) by (apply Z.pow_pos_nonneg; lia).
  destruct (Z.ltb_spec b c); [apply Z.ltb_lt|apply Z.ltb_ge]; nia.
Qed.

Lemma within_upper_limit (b s c : Z) :
  in_range b -> small_step s -> Z.abs c < 2 ^ 53 ->
  PyFloat.leb (F c) (PyFloat.add (F b) (tolerance s)) = (c <=? b).
Proof.
  intros Hb Hs Hc.
  destruct (upper_limit b s Hb Hs) as (V & Fi & U).
  destruct (float_of_int_exact c Hc) as (Vc & Fc & Uc).
  unfold PyFloat.leb. rewrite (leb_sunits _ _ Vc V Fc Fi), Uc.
  assert (HK : 0 < 2 ^ 1074) by (apply Z.pow_pos_nonneg; lia).
  destruct (Z.leb_spec c b); [apply Z.leb_le|apply Z.leb_gt]; nia.
Qed.

Lemma past_lower_limit (b s c : Z) :
  in_range b -> small_step s -> Z.abs c < 2 ^ 53 ->
  PyFloat.ltb (F c) (PyFloat.sub (F b) (tolerance s)) = (c <? b).
Proof.
  intros Hb Hs Hc.
  destruct (lower_limit b s Hb Hs) as (V & Fi & U).
  destruct (float_of_int_exact c Hc) as (Vc & Fc & Uc).
  unfold PyFloat.ltb. rewrite (ltb_sunits _ _ Vc V Fc Fi), Uc.
  assert (HK : 0 < 2 ^ 1074) by (apply Z.pow_pos_nonneg; lia).
  destruct (Z.ltb_spec c b); [apply Z.ltb_lt|apply Z.ltb_ge]; nia.
Qed.

Lemma within_lower_limit (b s c : Z) :
  in_range b -> small_step s -> Z.abs c < 2 ^ 53 ->
  PyFloat.geb (F c) (PyFloat.sub (F b) (tolerance s)) = (b <=? c).
Proof.
  intros Hb Hs Hc.
  destruct (lower_limit b s Hb Hs) as (V & Fi & U).
  destruct (float_of_int_exact c Hc) as (Vc & Fc & Uc).
  unfold PyFloat.geb. rewrite (leb_sunits _ _ V Vc Fi Fc), Uc.
  assert (HK : 0 < 2 ^ 1074) by (apply Z.pow_pos_nonneg; lia).
  destruct (Z.leb_spec b c); [apply Z.leb_le|apply Z.leb_gt]; nia.
Qed.

(** The direction test [step_f > 0]. *)
Lemma step_direction (s : Z) :
  Z.abs s < 2 ^ 53 -> PyFloat.gtb (F s) (S754_zero false) = (0 <? s).
Proof.
  intros Hs. destruct (float_of_int_exact s Hs) as (Vs & Fs & Us).
  unfold PyFloat.gtb.
  rewrite (ltb_sunits (S754_zero false) (F s) eq_refl Vs eq_refl Fs), Us.
  cbn [sunits].
  assert (HK : 0 < 2 ^ 1074) by (apply Z.pow_pos_nonneg; lia).
  destruct (Z.ltb_spec 0 s); [apply Z.ltb_lt|apply Z.ltb_ge]; nia.
Qed.

End IntSweepLimits.
(** *** Coercion of an integer held as a float *)

Section IntSweepCoercion.
Import Binary64 IntSweep.

Local Abbreviation F := float_of_int.

Lemma nearest_even_div_exact (q d : Z) :
  0 < d -> PyFloat.nearest_even_div (q * d) d = q.
Proof.
  intros Hd. unfold PyFloat.nearest_even_div.
  rewrite Z.div_mul, Z.mod_mul by lia. change (2 * 0) with 0.
  destruct (Z.compare_spec 0 d); [lia|reflexivity|lia].
Qed.

Lemma int_magnitude (z : Z) (m : positive) (e : Z) :
  -1074 <= e -> units m e = Z.abs z * 2 ^ 1074 ->
  PyFloat.mag_num m e = Z.abs z * PyFloat.mag_den e /\ 0 < PyFloat.mag_den e.
Proof.
  intros He Hu. unfold units in Hu. unfold PyFloat.mag_num, PyFloat.mag_den.
  assert (Hp : 0 < 2 ^ (e + 1074)) by (apply Z.pow_pos_nonneg; lia).
  destruct (Z.le_gt_cases 0 e) as [Hpos|Hneg].
  - rewrite Z.max_l, Z.max_r by lia. rewrite Z.pow_0_r. split; [|lia].
    rewrite (Z.pow_add_r 2 e 1074) in Hu by lia.
    assert (Hq : 0 < 2 ^ 1074) by (apply Z.pow_pos_nonneg; lia).
    rewrite Z.mul_assoc in Hu. apply Z.mul_cancel_r in Hu; lia.
  - rewrite Z.max_r, Z.max_l by lia. rewrite Z.pow_0_r.
    split; [|apply Z.pow_pos_nonneg; lia].
    replace 1074 with (- e + (e + 1074)) in Hu at 2 by lia.
    rewrite (Z.pow_add_r 2 (- e) (e + 1074)) in Hu by lia.
    rewrite Z.mul_assoc in Hu. apply Z.mul_cancel_r in Hu; lia.
Qed.

(** The division of [round(x, 10)] is exact on an integer. *)
Lemma div_core_exact (N A : positive) :
  Zpos N = Zpos A * 10000000000 ->
  exists e',
    -1074 <= e' <= 0
    /\ e' <= Z.max (Zpos (digits2_pos A) - 53) (-1074)
    /\ SFdiv_core_binary 53 1024 (Zpos N) 0 10000000000 0
       = (Zpos A * 2 ^ (- e'), e', loc_Exact).
Proof.
  intros HN. unfold SFdiv_core_binary. rewrite fexp_64.
  change (Zdigits2 10000000000) with 34. cbn [Zdigits2].
  set (d1 := Zpos (digits2_pos N)).
  set (e' := Z.min (Z.max (d1 + 0 - (34 + 0) - 53) (-1074)) (0 - 0)).
  assert (Hd1 : d1 <= Zpos (digits2_pos A) + 34).
  { pose proof (digits2_bounds N) as [Hl _]. fold d1 in Hl.
    pose proof (digits2_bounds A) as [_ Hu].
    assert (HD : 10000000000 < 2 ^ 34) by reflexivity.
    assert (Hlt : 2 ^ (d1 - 1) < 2 ^ (Zpos (digits2_pos A) + 34)).
    { rewrite (Z.pow_add_r 2 (Zpos (digits2_pos A)) 34) by lia.
      assert (0 < 2 ^ Zpos (digits2_pos A)) by (apply Z.pow_pos_nonneg; lia).
      nia. }
    apply Z.pow_lt_mono_r_iff in Hlt; lia. }
  exists e'. split; [unfold e'; lia|]. split; [unfold e'; lia|].
  assert (He' : -1074 <= e' <= 0) by (unfold e'; lia).
  clearbody e'.
  assert (Hm : match 0 - 0 - e' with
               | 0 => Zpos N
               | Zpos _ => Z.shiftl (Zpos N) (0 - 0 - e')
               | Zneg _ => 0
               end = Zpos A * 2 ^ (- e') * 10000000000).
  { replace (0 - 0 - e') with (- e') by lia.
    destruct (- e') as [|p|p] eqn:Ep; try lia.
    rewrite Z.shiftl_mul_pow2 by lia. lia. }
  rewrite Hm.
  set (a := Zpos A * 2 ^ (- e')).
  assert (Ed : Z.div_eucl (a * 10000000000) 10000000000
               = (a * 10000000000 / 10000000000, (a * 10000000000) mod 10000000000)).
  { unfold Z.div, Z.modulo.
    destruct (Z.div_eucl (a * 10000000000) 10000000000); reflexivity. }
  rewrite Ed, Z.div_mul, Z.mod_mul by lia. reflexivity.
Qed.

Lemma round_ndigits_int (c : Z) :
  Z.abs c < 2 ^ 53 -> PyFloat.round_ndigits (F c) 10 = OK (F c).
Proof.
  intros Hc. destruct (Z.eq_dec c 0) as [->|Nc]; [reflexivity|].
  destruct (float_of_int_finite c Nc Hc) as (m & e & Bd & Hu & ->).
  destruct (bounded_cases _ _ Bd) as (He & _).
  destruct (int_magnitude c m e ltac:(lia) Hu) as [Hm Hden].
  unfold PyFloat.round_ndigits. rewrite Hm.
  replace (Z.abs c * PyFloat.mag_den e * 10 ^ 10)
    with (Z.abs c * 10 ^ 10 * PyFloat.mag_den e) by lia.
  rewrite nearest_even_div_exact by exact Hden.
  change (10 ^ 10) with 10000000000.
  destruct (Z.abs c) as [|A|A] eqn:EA; try lia.
  destruct (Zpos A * 10000000000) as [|N|N] eqn:EN; try lia.
  change (Z.to_pos 10000000000) with 10000000000%positive.
  unfold PyFloat.of_ratio, PyFloat.prec, PyFloat.emax.
  destruct (div_core_exact N A (eq_sym EN)) as (e' & He' & Hle & ->).
  assert (Hp : 0 < 2 ^ (- e')) by (apply Z.pow_pos_nonneg; lia).
  assert (Hq : 0 < Zpos A * 2 ^ (- e')) by lia.
  rewrite <- (Z2Pos.id (Zpos A * 2 ^ (- e'))) by exact Hq.
  assert (HuA : units A 0 = units m e) by (rewrite Hu; unfold units; lia).
  pose proof (units_magnitude A m 0 e ltac:(lia) ltac:(lia) HuA) as Hmag.
  pose proof (bounded_exponent m e Bd) as Hexp.
  rewrite (binary_round_aux_on_grid (c <? 0) (Z.to_pos (Zpos A * 2 ^ (- e'))) m e' e).
  - reflexivity.
  - lia.
  - exact Bd.
  - unfold units at 1. rewrite Z2Pos.id by exact Hq.
    rewrite <- Z.mul_assoc, <- Z.pow_add_r by lia.
    replace (- e' + (e' + 1074)) with 1074 by lia.
    rewrite Hu. reflexivity.
Qed.

Lemma round_int_int (c : Z) :
  Z.abs c < 2 ^ 53 -> PyFloat.round_int (F c) = OK c.
Proof.
  intros Hc. destruct (Z.eq_dec c 0) as [->|Nc]; [reflexivity|].
  destruct (float_of_int_finite c Nc Hc) as (m & e & Bd & Hu & ->).
  destruct (bounded_cases _ _ Bd) as (He & _).
  destruct (int_magnitude c m e ltac:(lia) Hu) as [Hm Hden].
  unfold PyFloat.round_int. rewrite Hm, nearest_even_div_exact by exact Hden.
  f_equal. destruct (Z.ltb_spec c 0); lia.
Qed.

Lemma isclose_int (c : Z) :
  Z.abs c < 2 ^ 53 -> PyFloat.isclose (F c) c = OK true.
Proof.
  intros Hc. unfold PyFloat.isclose. rewrite (of_Z_int c Hc). cbn [bind].
  now rewrite (eqb_int c Hc).
Qed.

(** The submitter's coercion gives the integer back, *)
Lemma coerce_numeric_int (c : Z) :
  Z.abs c < 2 ^ 53 -> _coerce_numeric (VFloat (F c)) = OK (VInt c).
Proof.
  intros Hc. unfold _coerce_numeric.
  rewrite (round_ndigits_int c Hc). cbn [bind].
  rewrite (round_int_int c Hc). cbn [bind].
  rewrite (isclose_int c Hc). reflexivity.
Qed.

(** and so does the viewer's. *)
Lemma coerce_current_int (c : Z) :
  Z.abs c < 2 ^ 53 -> ViewerAxes.coerce_current (F c) = OK (VInt c).
Proof.
  intros Hc. unfold ViewerAxes.coerce_current.
  rewrite (round_ndigits_int c Hc). cbn [bind].
  rewrite (round_int_int c Hc). cbn [bind].
  rewrite (of_Z_int c Hc). cbn [bind].
  assert (E : PyFloat.sub (F c) (F c) = S754_zero false).
  { destruct (Z.eq_dec c 0) as [->|Nc]; [reflexivity|].
    rewrite (sub_int c c Hc Hc Nc) by (rewrite Z.sub_diag; simpl; lia).
    now rewrite Z.sub_diag. }
  rewrite E. reflexivity.
Qed.

End IntSweepCoercion.
(** *** The two loops on integers *)

Section IntSweepLoops.
Import Binary64 IntSweep.

Local Abbreviation F := float_of_int.
Local Abbreviation tolerance s := (PyFloat.mul (PyFloat.abs (F s)) f_1e_9).

Lemma progression_succ (c s : Z) (n : nat) :
  progression c s (S n) = c :: progression (c + s) s n.
Proof.
  unfold progression. cbn [seq map]. f_equal; [lia|].
  rewrite <- seq_shift, map_map. apply map_ext. intros k. lia.
Qed.

Lemma due_succ (b s c : Z) (n : nat) :
  due b s c (S n) ->
  due b s (c + s) n
  /\ (0 <? s) && (b <? c) = false
  /\ negb (0 <? s) && (c <? b) = false
  /\ (if 0 <? s then c <=? b else b <=? c) = true.
Proof.
  unfold due. rewrite Nat2Z.inj_succ.
  intros [(Hs & [Hn|Hl] & Hu)|(Hs & [Hn|Hl] & Hu)]; try discriminate.
  - assert (0 <= Z.of_nat n * s) by nia.
    destruct (Z.ltb_spec 0 s); [|lia].
    destruct (Z.ltb_spec b c); [lia|].
    destruct (Z.leb_spec c b); [|lia].
    repeat split; try reflexivity.
    left. split; [exact Hs|]. split; [|lia].
    destruct n as [|n]; [now left|right]. lia.
  - assert (Z.of_nat n * s <= 0) by nia.
    destruct (Z.ltb_spec 0 s); [lia|].
    destruct (Z.ltb_spec c b); [lia|].
    destruct (Z.leb_spec b c); [|lia].
    repeat split; try reflexivity.
    right. split; [exact Hs|]. split; [|lia].
    destruct n as [|n]; [now left|right]. lia.
Qed.

Lemma due_zero (b s c : Z) :
  due b s c 0 ->
  ((0 <? s) && (b <? c) = true \/ negb (0 <? s) && (c <? b) = true)
  /\ (if 0 <? s then c <=? b else b <=? c) = false.
Proof.
  unfold due. cbn [Z.of_nat]. intros [(Hs & _ & Hu)|(Hs & _ & Hu)].
  - destruct (Z.ltb_spec 0 s); [|lia].
    destruct (Z.ltb_spec b c); [|lia].
    destruct (Z.leb_spec c b); [lia|]. split; [now left|reflexivity].
  - destruct (Z.ltb_spec 0 s); [lia|].
    destruct (Z.ltb_spec c b); [|lia].
    destruct (Z.leb_spec b c); [lia|]. split; [now right|reflexivity].
Qed.

Lemma due_bounds (b s c : Z) (n : nat) :
  due b s c (S n) ->
  Z.abs c <= 2 ^ 52 -> Z.abs (c + Z.of_nat (S n) * s) <= 2 ^ 52 ->
  Z.abs (c + s) <= 2 ^ 52
  /\ Z.abs (c + s + Z.of_nat n * s) <= 2 ^ 52.
Proof.
  unfold due. rewrite Nat2Z.inj_succ.
  intros [(Hs & _ & _)|(Hs & _ & _)] Hc Hn.
  - assert (0 <= Z.of_nat n * s) by nia. lia.
  - assert (Z.of_nat n * s <= 0) by nia. lia.
Qed.

Lemma below_53 (z : Z) : Z.abs z <= 2 ^ 52 -> Z.abs z < 2 ^ 53.
Proof.
  intros H. assert (2 ^ 52 < 2 ^ 53) by (apply Z.pow_lt_mono_r; lia). lia.
Qed.

(** The submitter's loop yields the [n] integers that are due. *)
Lemma minmax_loop_int (b s : Z) :
  in_range b -> small_step s ->
  forall (n fuel : nat) (c k : Z) (acc : list value),
    (n < fuel)%nat -> k + Z.of_nat n <= max_iterations ->
    due b s c n ->
    Z.abs c <= 2 ^ 52 -> Z.abs (c + Z.of_nat n * s) <= 2 ^ 52 ->
    minmax_loop fuel (0 <? s) (F b) (tolerance s) (F s) (F c) k acc
    = OK (acc ++ map VInt (progression c s n))%list.
Proof.
  intros Hb Hs. destruct (small_step_bounds s Hs) as [Ns Hs53].
  induction n as [|n IH]; intros fuel c k acc Hf Hk Hd Hc Hn;
    (destruct fuel as [|fuel]; [lia|]); cbn [minmax_loop];
    rewrite (past_upper_limit b s c Hb Hs (below_53 c Hc)),
            (past_lower_limit b s c Hb Hs (below_53 c Hc)).
  - destruct (due_zero b s c Hd) as [[->| E] _].
    + now rewrite app_nil_r.
    + destruct ((0 <? s) && (b <? c)); rewrite ?E; now rewrite app_nil_r.
  - destruct (due_succ b s c n Hd) as (Hd' & -> & -> & _).
    destruct (due_bounds b s c n Hd Hc Hn) as [Hc' Hn'].
    rewrite (coerce_numeric_int c (below_53 c Hc)). cbn [bind].
    rewrite (add_int c s (below_53 c Hc) Hs53 (below_53 _ Hc')).
    rewrite Nat2Z.inj_succ in Hk.
    destruct (Z.gtb_spec (k + 1) max_iterations) as [Hgt|_]; [lia|].
    rewrite (IH fuel (c + s) (k + 1) (acc ++ [VInt c])%list
                ltac:(lia) ltac:(lia) Hd' Hc' Hn').
    rewrite progression_succ, <- app_assoc. reflexivity.
Qed.

(** So does the viewer's. *)
Lemma expand_loop_int (b s : Z) :
  in_range b -> small_step s ->
  forall (n fuel : nat) (c g : Z) (acc : list value),
    (n < fuel)%nat -> g + Z.of_nat n <= 100000 ->
    due b s c n ->
    Z.abs c <= 2 ^ 52 -> Z.abs (c + Z.of_nat n * s) <= 2 ^ 52 ->
    ViewerAxes.expand_loop fuel (F b) (F s) (F c) g acc
    = OK (acc ++ map VInt (progression c s n))%list.
Proof.
  intros Hb Hs. destruct (small_step_bounds s Hs) as [Ns Hs53].
  induction n as [|n IH]; intros fuel c g acc Hf Hg Hd Hc Hn;
    (destruct fuel as [|fuel]; [lia|]); cbn [ViewerAxes.expand_loop];
    rewrite (step_direction s Hs53),
            (within_upper_limit b s c Hb Hs (below_53 c Hc)),
            (within_lower_limit b s c Hb Hs (below_53 c Hc)).
  - destruct (due_zero b s c Hd) as [_ ->]. now rewrite app_nil_r.
  - destruct (due_succ b s c n Hd) as (Hd' & _ & _ & ->).
    destruct (due_bounds b s c n Hd Hc Hn) as [Hc' Hn'].
    rewrite (coerce_current_int c (below_53 c Hc)). cbn [bind].
    rewrite (add_int c s (below_53 c Hc) Hs53 (below_53 _ Hc')).
    rewrite Nat2Z.inj_succ in Hg.
    destruct (Z.gtb_spec (g + 1) 100000) as [Hgt|_]; [lia|].
    rewrite (IH fuel (c + s) (g + 1) (acc ++ [VInt c])%list
                ltac:(lia) ltac:(lia) Hd' Hc' Hn').
    rewrite progression_succ, <- app_assoc. reflexivity.
Qed.

(** The number of values of a sweep that starts within its stop. *)
Lemma count_due (start stop step : Z) :
  step <> 0 ->
  (0 < step /\ start <= stop \/ step < 0 /\ stop <= start) ->
  1 <= count start stop step
  /\ due stop step start (Z.to_nat (count start stop step)).
Proof.
  intros Ns Hdir. unfold count, due.
  pose proof (Z.div_mod (stop - start) step Ns) as Hdm.
  set (q := (stop - start) / step) in *.
  set (r := (stop - start) mod step) in *.
  destruct Hdir as [[Hs Hle]|[Hs Hle]].
  - pose proof (Z.mod_pos_bound (stop - start) step Hs) as Hr. fold r in Hr.
    assert (Hq : 0 <= q) by nia.
    split; [lia|]. left. split; [exact Hs|].
    rewrite Z2Nat.id by lia. split; [right|]; nia.
  - pose proof (Z.mod_neg_bound (stop - start) step Hs) as Hr. fold r in Hr.
    assert (Hq : 0 <= q) by nia.
    split; [lia|]. right. split; [exact Hs|].
    rewrite Z2Nat.id by lia. split; [right|]; nia.
Qed.

Lemma sweep_bounds (start stop step : Z) (n : nat) :
  in_range start -> in_range stop -> small_step step ->
  due stop step start n ->
  (0 < n)%nat ->
  Z.abs start <= 2 ^ 52 /\ Z.abs (start + Z.of_nat n * step) <= 2 ^ 52.
Proof.
  unfold in_range, small_step, due.
  change (2 ^ 51) with 2251799813685248. change (2 ^ 52) with 4503599627370496.
  change (2 ^ 27) with 134217728.
  intros Ha Hb Hs [(Hd & [Hn|Hl] & Hu)|(Hd & [Hn|Hl] & Hu)] Hpos; lia.
Qed.

End IntSweepLoops.
(** *** Integer sweeps *)

Section IntegerSweeps.
Import IntSweep.

Variable float_of_str : string -> option PyFloat.float.

Local Abbreviation submitter_values := (expand_wedge_values float_of_str).
Local Abbreviation viewer_values := (ViewerAxes.expand_minmax float_of_str).

(** A [minmax] sweep over integers, from [start] towards [stop] in
    steps of [step], is computed exactly although the loop runs on
    floats: [expand_wedge_values] returns the integers [start],
    [start + step], [start + 2 * step], ... up to the last one that does
    not pass [stop], each as an [int].  No value is skipped, repeated
    or left as a float, and [stop] itself is included when the steps
    reach it.  This holds for bounds up to [2^51] in magnitude and
    steps up to [2^27]. *)
Theorem integer_sweep_values (start stop step : Z) :
  in_range start -> in_range stop -> small_step step ->
  (0 < step /\ start <= stop \/ step < 0 /\ stop <= start) ->
  count start stop step <= max_iterations ->
  submitter_values [VInt start; VInt stop; VInt step] "minmax"
  = OK (map VInt (progression start step (Z.to_nat (count start stop step)))).
Proof.
  intros Ha Hb Hs Hdir Hcnt.
  destruct (small_step_bounds step Hs) as [Ns Hs53].
  destruct (count_due start stop step Ns Hdir) as [H1 Hdue].
  remember (Z.to_nat (count start stop step)) as n eqn:En.
  assert (Hn : (0 < n)%nat) by lia.
  destruct (sweep_bounds start stop step n Ha Hb Hs Hdue Hn) as [Hc Hl].
  pose proof (in_range_bounds stop Hb) as Hb52.
  unfold expand_wedge_values.
  change (String.eqb "minmax" "explicit") with false.
  change (String.eqb "minmax" "minmax") with true.
  cbv iota. cbn [eq_zero].
  destruct (Z.eqb_spec step 0) as [|_]; [lia|].
  cbn [py_float].
  rewrite (of_Z_int start (below_53 start Hc)),
          (of_Z_int stop (below_53 stop ltac:(lia))),
          (of_Z_int step Hs53).
  cbn [bind]. rewrite (step_direction step Hs53).
  rewrite (minmax_loop_int stop step Hb Hs n (S (Z.to_nat max_iterations))
                           start 0 [] ltac:(unfold max_iterations in *; lia)
                           ltac:(lia) Hdue Hc Hl).
  cbn [bind app]. destruct n as [|n]; [lia|].
  rewrite progression_succ. reflexivity.
Qed.

(** On the same sweeps the viewer's [expand_minmax] returns the same
    list of integers: the slider of the viewer has exactly the values
    the submitter ran, in the same order. *)
Theorem viewer_integer_sweep_values (start stop step : Z) :
  in_range start -> in_range stop -> small_step step ->
  (0 < step /\ start <= stop \/ step < 0 /\ stop <= start) ->
  count start stop step <= 100000 ->
  viewer_values (VInt start) (VInt stop) (VInt step)
  = OK (map VInt (progression start step (Z.to_nat (count start stop step)))).
Proof.
  intros Ha Hb Hs Hdir Hcnt.
  destruct (small_step_bounds step Hs) as [Ns Hs53].
  destruct (count_due start stop step Ns Hdir) as [H1 Hdue].
  remember (Z.to_nat (count start stop step)) as n eqn:En.
  assert (Hn : (0 < n)%nat) by lia.
  destruct (sweep_bounds start stop step n Ha Hb Hs Hdue Hn) as [Hc Hl].
  pose proof (in_range_bounds stop Hb) as Hb52.
  unfold ViewerAxes.expand_minmax. cbn [eq_zero].
  destruct (Z.eqb_spec step 0) as [|_]; [lia|].
  cbn [py_float].
  rewrite (of_Z_int start (below_53 start Hc)),
          (of_Z_int stop (below_53 stop ltac:(lia))),
          (of_Z_int step Hs53).
  cbn [bind].
  rewrite (expand_loop_int stop step Hb Hs n (S (Z.to_nat 100000))
                           start 0 [] ltac:(lia) ltac:(lia) Hdue Hc Hl).
  reflexivity.
Qed.


End IntegerSweeps.

Lemma integer_sweep_values_witness :
  expand_wedge_values no_strings [VInt 1; VInt 10; VInt 3] "minmax"
  = OK [VInt 1; VInt 4; VInt 7; VInt 10]
  /\ expand_wedge_values no_strings [VInt 5; VInt (-5); VInt (-5)] "minmax"
     = OK [VInt 5; VInt 0; VInt (-5)].
Proof.
  split.
  - refine (integer_sweep_values no_strings 1 10 3 _ _ _ _ _).
    + unfold IntSweep.in_range. simpl. lia.
    + unfold IntSweep.in_range. simpl. lia.
    + unfold IntSweep.small_step. simpl. lia.
    + left. lia.
    + vm_compute. discriminate.
  - refine (integer_sweep_values no_strings 5 (-5) (-5) _ _ _ _ _).
    + unfold IntSweep.in_range. simpl. lia.
    + unfold IntSweep.in_range. simpl. lia.
    + unfold IntSweep.small_step. simpl. lia.
    + right. lia.
    + vm_compute. discriminate.
Defined.

Lemma viewer_integer_sweep_values_witness :
  ViewerAxes.expand_minmax no_strings (VInt 1) (VInt 10) (VInt 3)
  = OK [VInt 1; VInt 4; VInt 7; VInt 10].
Proof.
  refine (viewer_integer_sweep_values no_strings 1 10 3 _ _ _ _ _).
  - unfold IntSweep.in_range. simpl. lia.
  - unfold IntSweep.in_range. simpl. lia.
  - unfold IntSweep.small_step. simpl. lia.
  - left. lia.
  - vm_compute. discriminate.
Defined.

